(** * LgnTracing / LgnTelemetrySink: a shallow embedding

    The development follows the C++ sources under [dccs/unreal]:

    - [LgnTracing/HeterogeneousQueue.h], [strings.h], [LogEvents.h],
      [MetricEvents.h], [SpanEvents.h], [StaticStringDependency.h]:
      the byte-level queue and its serializers;
    - [LgnTracing/EventBlock.h], [EventStream.h], [DualTime.h],
      [Dispatch.cpp], [Macros.h]: blocks, streams, the dispatch singleton
      and the instrumentation macros;
    - [LgnTelemetrySink/LogDependencies.h], [MetricDependencies.h],
      [ThreadDependencies.h], [InsertBlockRequest.h], [Remote.cpp],
      [FlushMonitor.cpp], [LogInterop.cpp]: the dependency extractors, the
      block formatter, the remote sink, the flush monitor and the log
      bridge.

    Conventions of the model.

    - A [uintN] value is a [Z]; every store into an N-bit field writes the
      value modulo [2^N].  A [size_t] that indexes a [std::vector] is a [nat]
      (it is bounded by the length of the vector it indexes).
    - [std::vector<uint8>] is [list byte].  The object representation of a
      POD is the x86-64 one (little endian; natural alignment); padding
      bytes are written as zero.
    - A read outside the buffer, a failed [assert] on the read path and a
      type index outside the type list give [None].
    - The target is the Windows build of the plugin: [TCHAR = wchar_t],
      [sizeof(wchar_t) = 2].
    - The state of the process is a [World]; the functions of the dispatch
      pass it along, and every one takes the thread it is called on.  Calls
      run one at a time: the mutexes are not modelled.  The cycle counter,
      the system clock and the GUID allocator are sequences of values, of
      which the world counts how many were consumed.
    - A sink is its callbacks, acting on a state of its own, and its
      [OnShutdown], which acts on the world. *)

From Stdlib Require Import ZArith Lia.
From Stdlib.Strings Require Import Byte.
From stdpp Require Import gmap strings list.

#[local] Set Warnings "-clear-no-such-hyp".



(* ===================================================================== *)
(** * Bytes and little-endian integers                                    *)
(* ===================================================================== *)

Definition Z_of_byte (b : byte) : Z := Z.of_N (Byte.to_N b).

Definition byte_of_Z (z : Z) : byte :=
  match Byte.of_N (Z.to_N (z mod 256)) with
  | Some b => b
  | None => x00
  end.

(** [le_bytes n z]: the [n] low-order bytes of [z], least significant first. *)
Fixpoint le_bytes (n : nat) (z : Z) : list byte :=
  match n with
  | O => []
  | S n' => byte_of_Z z :: le_bytes n' (z / 256)%Z
  end.

Fixpoint le_value (bs : list byte) : Z :=
  match bs with
  | [] => 0
  | b :: bs' => Z_of_byte b + 256 * le_value bs'
  end%Z.

Definition in_uint (bits : Z) (z : Z) : Prop := (0 ≤ z < 2 ^ bits)%Z.

Definition uint8_max : Z := (2 ^ 8)%Z.
Definition uint32_max : Z := (2 ^ 32)%Z.
Definition uint64_max : Z := (2 ^ 64)%Z.

(* ===================================================================== *)
(** * details::ReadPOD / details::WritePOD                                *)
(* ===================================================================== *)

(** The object representation of a trivially copyable type [T]:
    [sizeof(T)], the bytes [WritePOD] copies out of a value, and the value
    a [reinterpret_cast] of [sizeof(T)] bytes denotes. *)
Record POD (T : Type) := MkPOD {
  sizeof : nat;
  to_bytes : T → list byte;
  of_bytes : list byte → option T;
}.
Arguments MkPOD {T}.
Arguments sizeof {T}.
Arguments to_bytes {T}.
Arguments of_bytes {T}.

(** [template<T> void WritePOD(const T& value, std::vector<uint8>& buffer)] *)
Definition WritePOD {T} (P : POD T) (value : T) (buffer : list byte) : list byte :=
  buffer ++ to_bytes P value.

(** [template<T> const T& ReadPOD(const std::vector<uint8>& buffer, size_t& cursor)] *)
Definition ReadPOD {T} (P : POD T) (buffer : list byte) (cursor : nat)
  : option (T * nat) :=
  let indexToRead := cursor in
  let cursor := cursor + sizeof P in
  if decide (cursor ≤ length buffer) then
    v ← of_bytes P (take (sizeof P) (drop indexToRead buffer));
    Some (v, cursor)
  else None.

(** Unsigned integers of [n] bytes. *)
Definition uint_pod (n : nat) : POD Z :=
  MkPOD n (le_bytes n) (λ bs, Some (le_value (take n bs))).

Definition uint8_pod : POD Z := uint_pod 1.
Definition uint32_pod : POD Z := uint_pod 4.
Definition uint64_pod : POD Z := uint_pod 8.

(** Sequential access to the members of a struct representation. *)
Definition get_member {T} (P : POD T) (bs : list byte) : option (T * list byte) :=
  v ← of_bytes P (take (sizeof P) bs);
  Some (v, drop (sizeof P) bs).

Definition padding (n : nat) : list byte := replicate n x00.

(** What it means for [P] to be a faithful representation on the values
    accepted by [wf]. *)
Record pod_ok {T} (P : POD T) (wf : T → Prop) : Prop := {
  pod_length : ∀ v, length (to_bytes P v) = sizeof P;
  pod_round : ∀ v, wf v → of_bytes P (to_bytes P v) = Some v;
}.

(* ===================================================================== *)
(** * strings.h                                                           *)
(* ===================================================================== *)

Module StringCodec.
Inductive Type_ : Set := Ansi | Wide | Utf8 | UnrealName.

Definition to_Z (c : Type_) : Z :=
    match c with Ansi => 0 | Wide => 1 | Utf8 => 2 | UnrealName => 3 end%Z.

Definition of_Z (z : Z) : option Type_ :=
    if decide (z = 0%Z) then Some Ansi
    else if decide (z = 1%Z) then Some Wide
    else if decide (z = 2%Z) then Some Utf8
    else if decide (z = 3%Z) then Some UnrealName
    else None.

Definition pod : POD Type_ :=
    MkPOD 1 (λ c, le_bytes 1 (to_Z c)) (λ bs, of_Z (le_value (take 1 bs))).

#[global] Instance eq_dec : EqDecision Type_.
  Proof. solve_decision. Defined.
End StringCodec.

(** [class StringReference]: [Ptr] is the address of the first byte. *)
Record StringReference := {
  Ptr : Z;
  SizeBytes : Z;
  Codec : StringCodec.Type_;
}.

(** [struct StaticStringRef : StringReference]; identity is the address. *)
Definition StaticStringRef := StringReference.

Definition GetID (r : StaticStringRef) : Z := Ptr r.

(** [struct DynamicString : StringReference] points to a temporary buffer.
    The model keeps the codec and the [SizeBytes] bytes found at [Ptr]
    when the string is used, which is all that [Serializer<DynamicString>]
    reads of it. *)
Record DynamicString := {
  DynCodec : StringCodec.Type_;
  DynBytes : list byte;
}.

Definition DynSizeBytes (s : DynamicString) : Z :=
  Z.of_nat (length (DynBytes s)).

(** The condition of the [assert] in [DynamicString(const StringReference&)]
    and in [Serializer<DynamicString>::Write]. *)
Definition codec_is_dynamic (c : StringCodec.Type_) : bool :=
  bool_decide (c = StringCodec.Ansi ∨ c = StringCodec.Wide).

(** Layout of [StaticStringRef]: [Ptr] at 0, [SizeBytes] at 8, [Codec] at
    12, three bytes of tail padding. *)
Definition StaticStringRef_pod : POD StaticStringRef :=
  MkPOD 16
    (λ r, to_bytes uint64_pod (Ptr r) ++ to_bytes uint32_pod (SizeBytes r)
          ++ to_bytes StringCodec.pod (Codec r) ++ padding 3)
    (λ bs,
       '(p, bs) ← get_member uint64_pod bs;
       '(s, bs) ← get_member uint32_pod bs;
       '(c, bs) ← get_member StringCodec.pod bs;
       Some {| Ptr := p; SizeBytes := s; Codec := c |}).

Module Serializer_DynamicString.
Definition GetHeaderSize : Z := (1 + 4)%Z.

Definition GetSize (value : DynamicString) : Z :=
    ((GetHeaderSize + DynSizeBytes value) mod uint32_max)%Z.

Definition Write (value : DynamicString) (buffer : list byte) : list byte :=
    let buffer := WritePOD StringCodec.pod (DynCodec value) buffer in
    let buffer := WritePOD uint32_pod (DynSizeBytes value) buffer in
    buffer ++ DynBytes value.

Definition Read (buffer : list byte) (cursor : nat)
    : option (DynamicString * nat) :=
    '(codec, cursor) ← ReadPOD StringCodec.pod buffer cursor;
    '(bufferSize, cursor) ← ReadPOD uint32_pod buffer cursor;
    let ptr := cursor in
    let cursor := cursor + Z.to_nat bufferSize in
    if decide (cursor ≤ length buffer) then
      if codec_is_dynamic codec then
        Some ({| DynCodec := codec;
                 DynBytes := take (Z.to_nat bufferSize) (drop ptr buffer) |},
              cursor)
      else None
    else None.
End Serializer_DynamicString.

(* ===================================================================== *)
(** * LogEvents.h, MetricEvents.h, SpanEvents.h, Verbosity.h              *)
(* ===================================================================== *)

Module LogLevel.
Inductive Type_ : Set := Invalid | Error | Warn | Info | Debug | Trace.

Definition to_Z (l : Type_) : Z :=
    match l with
    | Invalid => 0 | Error => 1 | Warn => 2 | Info => 3 | Debug => 4 | Trace => 5
    end%Z.

Definition of_Z (z : Z) : option Type_ :=
    if decide (z = 0%Z) then Some Invalid
    else if decide (z = 1%Z) then Some Error
    else if decide (z = 2%Z) then Some Warn
    else if decide (z = 3%Z) then Some Info
    else if decide (z = 4%Z) then Some Debug
    else if decide (z = 5%Z) then Some Trace
    else None.

Definition pod : POD Type_ :=
    MkPOD 1 (λ l, le_bytes 1 (to_Z l)) (λ bs, of_Z (le_value (take 1 bs))).
End LogLevel.

Module Verbosity.
Inductive Type_ : Set := Min | Med | Max.

Definition to_Z (l : Type_) : Z :=
    match l with Min => 1 | Med => 2 | Max => 3 end%Z.

Definition of_Z (z : Z) : option Type_ :=
    if decide (z = 1%Z) then Some Min
    else if decide (z = 2%Z) then Some Med
    else if decide (z = 3%Z) then Some Max
    else None.

Definition pod : POD Type_ :=
    MkPOD 1 (λ l, le_bytes 1 (to_Z l)) (λ bs, of_Z (le_value (take 1 bs))).
End Verbosity.

(** Metadata records live in static storage; events refer to them by
    address. *)
Module LogMetadata.
Record t := { Target : Z; Msg : Z; File : Z; Line : Z; Level : LogLevel.Type_ }.
End LogMetadata.

Module MetricMetadata.
Record t := {
    Lod : Verbosity.Type_; Name : Z; Unit : Z; Target : Z; File : Z; Line : Z;
  }.
End MetricMetadata.

Module SpanMetadata.
Record t := { Name : Z; Target : Z; File : Z; Line : Z }.
End SpanMetadata.

Module LogStaticStrEvent.
Record t := { Desc : Z; Timestamp : Z }.

Definition pod : POD t :=
    MkPOD 16
      (λ e, to_bytes uint64_pod (Desc e) ++ to_bytes uint64_pod (Timestamp e))
      (λ bs,
         '(d, bs) ← get_member uint64_pod bs;
         '(ts, bs) ← get_member uint64_pod bs;
         Some {| Desc := d; Timestamp := ts |}).

Definition wf (e : t) : Prop := in_uint 64 (Desc e) ∧ in_uint 64 (Timestamp e).
End LogStaticStrEvent.

Module LogStringInteropEvent.
Record t := {
    Timestamp : Z;
    Level : LogLevel.Type_;
    Target : StaticStringRef;
    Msg : DynamicString;
  }.
End LogStringInteropEvent.

Module IntegerMetricEvent.
Record t := { Desc : Z; Value : Z; Timestamp : Z }.

Definition pod : POD t :=
    MkPOD 24
      (λ e, to_bytes uint64_pod (Desc e) ++ to_bytes uint64_pod (Value e)
            ++ to_bytes uint64_pod (Timestamp e))
      (λ bs,
         '(d, bs) ← get_member uint64_pod bs;
         '(v, bs) ← get_member uint64_pod bs;
         '(ts, bs) ← get_member uint64_pod bs;
         Some {| Desc := d; Value := v; Timestamp := ts |}).

Definition wf (e : t) : Prop :=
    in_uint 64 (Desc e) ∧ in_uint 64 (Value e) ∧ in_uint 64 (Timestamp e).
End IntegerMetricEvent.

(** [Value] is a [double]; the model carries its 64-bit pattern. *)
Module FloatMetricEvent.
Record t := { Desc : Z; Value : Z; Timestamp : Z }.

Definition pod : POD t :=
    MkPOD 24
      (λ e, to_bytes uint64_pod (Desc e) ++ to_bytes uint64_pod (Value e)
            ++ to_bytes uint64_pod (Timestamp e))
      (λ bs,
         '(d, bs) ← get_member uint64_pod bs;
         '(v, bs) ← get_member uint64_pod bs;
         '(ts, bs) ← get_member uint64_pod bs;
         Some {| Desc := d; Value := v; Timestamp := ts |}).

Definition wf (e : t) : Prop :=
    in_uint 64 (Desc e) ∧ in_uint 64 (Value e) ∧ in_uint 64 (Timestamp e).
End FloatMetricEvent.

Module BeginThreadSpanEvent.
Record t := { Desc : Z; Timestamp : Z }.

Definition pod : POD t :=
    MkPOD 16
      (λ e, to_bytes uint64_pod (Desc e) ++ to_bytes uint64_pod (Timestamp e))
      (λ bs,
         '(d, bs) ← get_member uint64_pod bs;
         '(ts, bs) ← get_member uint64_pod bs;
         Some {| Desc := d; Timestamp := ts |}).

Definition wf (e : t) : Prop := in_uint 64 (Desc e) ∧ in_uint 64 (Timestamp e).
End BeginThreadSpanEvent.

Module EndThreadSpanEvent.
Record t := { Desc : Z; Timestamp : Z }.

Definition pod : POD t :=
    MkPOD 16
      (λ e, to_bytes uint64_pod (Desc e) ++ to_bytes uint64_pod (Timestamp e))
      (λ bs,
         '(d, bs) ← get_member uint64_pod bs;
         '(ts, bs) ← get_member uint64_pod bs;
         Some {| Desc := d; Timestamp := ts |}).

Definition wf (e : t) : Prop := in_uint 64 (Desc e) ∧ in_uint 64 (Timestamp e).
End EndThreadSpanEvent.

Definition StaticStringRef_wf (r : StaticStringRef) : Prop :=
  in_uint 64 (Ptr r) ∧ in_uint 32 (SizeBytes r).

(** A [DynamicString] is built from a [char*] or [wchar_t*] (or through the
    asserting constructor), and its [SizeBytes] is a [uint32]. *)
Definition DynamicString_wf (s : DynamicString) : Prop :=
  codec_is_dynamic (DynCodec s) = true ∧ (DynSizeBytes s < uint32_max)%Z.

Definition LogStringInteropEvent_wf (e : LogStringInteropEvent.t) : Prop :=
  in_uint 64 (LogStringInteropEvent.Timestamp e)
  ∧ StaticStringRef_wf (LogStringInteropEvent.Target e)
  ∧ DynamicString_wf (LogStringInteropEvent.Msg e).

(* ===================================================================== *)
(** * HeterogeneousQueue.h                                                *)
(* ===================================================================== *)

(** The members of a [Serializer<T>] specialization that [Push] uses. *)
Record Serializer (T : Type) := MkSerializer {
  IsSizeStatic : bool;
  GetSize : T → Z;
  Write : T → list byte → list byte;
}.
Arguments MkSerializer {T}.
Arguments IsSizeStatic {T}.
Arguments GetSize {T}.
Arguments Write {T}.

(** [Serializer<T>::Read]: the decoded value, handed to the callback, and
    the cursor after the call. *)
Definition ReadFn (T : Type) : Type := list byte → nat → option (T * nat).

(** The primary template: a POD written and read as its raw bytes. *)
Definition Serializer_POD {T} (P : POD T) : Serializer T :=
  MkSerializer true (λ _, Z.of_nat (sizeof P)) (WritePOD P).

Definition Read_POD {T} (P : POD T) : ReadFn T := λ buffer cursor,
  if decide (cursor + sizeof P ≤ length buffer) then
    value ← of_bytes P (take (sizeof P) (drop cursor buffer));
    Some (value, cursor + sizeof P)
  else None.

Module Serializer_LogStringInteropEvent.
Import LogStringInteropEvent.

Definition GetSize (value : t) : Z :=
    ((8 + 1 + Z.of_nat (sizeof StaticStringRef_pod)
      + Serializer_DynamicString.GetSize (Msg value)) mod uint32_max)%Z.

Definition Write (value : t) (buffer : list byte) : list byte :=
    let buffer := WritePOD uint64_pod (Timestamp value) buffer in
    let buffer := WritePOD LogLevel.pod (Level value) buffer in
    let buffer := WritePOD StaticStringRef_pod (Target value) buffer in
    Serializer_DynamicString.Write (Msg value) buffer.

Definition Read : ReadFn t := λ buffer cursor,
    '(timestamp, cursor) ← ReadPOD uint64_pod buffer cursor;
    '(level, cursor) ← ReadPOD LogLevel.pod buffer cursor;
    '(target, cursor) ← ReadPOD StaticStringRef_pod buffer cursor;
    '(msg, cursor) ← Serializer_DynamicString.Read buffer cursor;
    Some ({| Timestamp := timestamp; Level := level;
             Target := target; Msg := msg |}, cursor).

Definition serializer : Serializer t := MkSerializer false GetSize Write.
End Serializer_LogStringInteropEvent.

(** An element of the type list [TS...] of a queue. *)
Record QueueType := MkQueueType {
  car : Type;
  ser : Serializer car;
}.

(** A value of one of the types of [TS...], together with its position:
    what a call [Push<T>(event)] is given once [T] is resolved in [TS...]. *)
Inductive OneOf : list QueueType → Type :=
| Here {T : QueueType} {REST : list QueueType} (value : car T) : OneOf (T :: REST)
| Next {HEAD : QueueType} {REST : list QueueType} (x : OneOf REST) : OneOf (HEAD :: REST).

(** [details::IndexOfType<T, TS...>::value], a [uint8]. *)
Fixpoint IndexOfType {TS} (x : OneOf TS) : Z :=
  match x with
  | Here _ => 0
  | Next x' => (1 + IndexOfType x') mod uint8_max
  end%Z.

Record HeterogeneousQueue (TS : list QueueType) := MkQueue {
  Buffer : list byte;
  NbEvents : Z;
}.
Arguments MkQueue {TS}.
Arguments Buffer {TS}.
Arguments NbEvents {TS}.

(** [explicit HeterogeneousQueue(size_t bufferSize)]; [reserve] changes the
    capacity of [Buffer] only. *)
Definition NewQueue {TS} (bufferSize : Z) : HeterogeneousQueue TS :=
  MkQueue [] 0.

Definition GetSizeBytes {TS} (q : HeterogeneousQueue TS) : nat :=
  length (Buffer q).

Definition GetNbEvents {TS} (q : HeterogeneousQueue TS) : Z := NbEvents q.

(** [&Buffer[0]]: the bytes reachable from the address of element 0;
    [None] when index 0 is outside the vector. *)
Definition GetPtr {TS} (q : HeterogeneousQueue TS) : option (list byte) :=
  match Buffer q !! 0 with
  | Some _ => Some (Buffer q)
  | None => None
  end.

(** The part of [Push] after the type tag, for the resolved type. *)
Fixpoint WriteValue {TS} (x : OneOf TS) (Buffer : list byte) : list byte :=
  match x with
  | @Here T _ event =>
      let Buffer :=
        if negb (IsSizeStatic (ser T))
        then WritePOD uint32_pod (GetSize (ser T) event) Buffer
        else Buffer in
      Write (ser T) event Buffer
  | Next x' => WriteValue x' Buffer
  end.

Definition Push {TS} (event : OneOf TS) (q : HeterogeneousQueue TS)
  : HeterogeneousQueue TS :=
  let NbEvents := ((NbEvents q + 1) mod uint64_max)%Z in
  let typeIndex := IndexOfType event in
  let Buffer := Buffer q ++ [byte_of_Z typeIndex] in
  MkQueue (WriteValue event Buffer) NbEvents.

(** One [Serializer<T>::Read] per type of the list: instantiating [ForEach]
    needs all of them. *)
Fixpoint Readers (TS : list QueueType) : Type :=
  match TS with
  | [] => unit
  | HEAD :: REST => (ReadFn (car HEAD) * Readers REST)%type
  end.

(** A visitor has one overload per type; it updates its own state [V] and
    may fail. *)
Definition Visitor (TS : list QueueType) (V : Type) : Type :=
  OneOf TS → V → option V.

Fixpoint VisitValue {V} (TS : list QueueType)
  : Readers TS → Z → Visitor TS V → list byte → nat → V → option (V * nat) :=
  match TS with
  | [] => λ _ _ _ _ _ _, None (* assert(!"type not found") *)
  | HEAD :: REST => λ rd typeIndex v Buffer cursor st,
      if decide (0 = typeIndex)%Z then
        '(valueSize, cursor) ←
          (if negb (IsSizeStatic (ser HEAD))
           then ReadPOD uint32_pod Buffer cursor
           else Some (0%Z, cursor));
        '(value, cursor) ← rd.1 Buffer cursor;
        st ← v (Here value) st;
        Some (st, cursor)
      else
        VisitValue REST rd.2 (typeIndex - 1)%Z (λ x, v (Next x)) Buffer cursor st
  end.

(** The [while (cursor < GetSizeBytes())] loop.  Every iteration consumes
    the tag byte, so [GetSizeBytes()] iterations are enough. *)
Fixpoint ForEach_loop {TS V} (fuel : nat) (rd : Readers TS)
    (q : HeterogeneousQueue TS) (v : Visitor TS V) (cursor : nat) (st : V)
  : option V :=
  if decide (cursor < GetSizeBytes q) then
    match fuel with
    | O => None
    | S fuel' =>
        '(typeIndex, cursor) ← ReadPOD uint8_pod (Buffer q) cursor;
        '(st, cursor) ← VisitValue TS rd typeIndex v (Buffer q) cursor st;
        ForEach_loop fuel' rd q v cursor st
    end
  else Some st.

Definition ForEach {TS V} (rd : Readers TS) (q : HeterogeneousQueue TS)
    (v : Visitor TS V) (st : V) : option V :=
  let cursor := 0 in
  ForEach_loop (GetSizeBytes q) rd q v cursor st.

(** The visitor that records what it is shown. *)
Definition collect {TS} : Visitor TS (list (OneOf TS)) :=
  λ x seen, Some (seen ++ [x]).

(** ** The queues of LogBlock.h, MetricBlock.h, ThreadBlock.h *)

Definition LogStaticStrEvent_t : QueueType :=
  MkQueueType LogStaticStrEvent.t (Serializer_POD LogStaticStrEvent.pod).
Definition LogStringInteropEvent_t : QueueType :=
  MkQueueType LogStringInteropEvent.t Serializer_LogStringInteropEvent.serializer.
Definition StaticStringRef_t : QueueType :=
  MkQueueType StaticStringRef (Serializer_POD StaticStringRef_pod).
Definition IntegerMetricEvent_t : QueueType :=
  MkQueueType IntegerMetricEvent.t (Serializer_POD IntegerMetricEvent.pod).
Definition FloatMetricEvent_t : QueueType :=
  MkQueueType FloatMetricEvent.t (Serializer_POD FloatMetricEvent.pod).
Definition BeginThreadSpanEvent_t : QueueType :=
  MkQueueType BeginThreadSpanEvent.t (Serializer_POD BeginThreadSpanEvent.pod).
Definition EndThreadSpanEvent_t : QueueType :=
  MkQueueType EndThreadSpanEvent.t (Serializer_POD EndThreadSpanEvent.pod).

Definition LogEventTypes : list QueueType :=
  [LogStaticStrEvent_t; LogStringInteropEvent_t; StaticStringRef_t].
Definition MetricEventTypes : list QueueType :=
  [IntegerMetricEvent_t; FloatMetricEvent_t].
Definition ThreadEventTypes : list QueueType :=
  [BeginThreadSpanEvent_t; EndThreadSpanEvent_t].

Definition LogEventQueue := HeterogeneousQueue LogEventTypes.
Definition MetricEventQueue := HeterogeneousQueue MetricEventTypes.
Definition ThreadEventQueue := HeterogeneousQueue ThreadEventTypes.

Definition LogEventReaders : Readers LogEventTypes :=
  (Read_POD LogStaticStrEvent.pod,
   (Serializer_LogStringInteropEvent.Read,
    (Read_POD StaticStringRef_pod, tt))).
Definition MetricEventReaders : Readers MetricEventTypes :=
  (Read_POD IntegerMetricEvent.pod, (Read_POD FloatMetricEvent.pod, tt)).
Definition ThreadEventReaders : Readers ThreadEventTypes :=
  (Read_POD BeginThreadSpanEvent.pod, (Read_POD EndThreadSpanEvent.pod, tt)).

(* ===================================================================== *)
(** * Static storage                                                      *)
(* ===================================================================== *)

(** The host's [FNameEntry]: [GetNameLength()] is the number of code units
    of [Name]; [GetAnsiName]/[GetWideName] copy them out as bytes. *)
Module FNameEntry.
Record t := { IsWide : bool; Name : list Z }.

Definition GetNameLength (e : t) : Z := Z.of_nat (length (Name e)).
Definition GetAnsiName (e : t) : list byte := byte_of_Z <$> Name e.
Definition GetWideName (e : t) : list byte := Name e ≫= le_bytes 2.
End FNameEntry.

(** What the process holds at the addresses the events refer to: the
    metadata records ([static const] objects), the bytes of memory, the
    result of [TCString<wchar_t>::Strlen] at an address and the host's name
    entries. *)
Record Memory := {
  LogMetadataAt : Z → LogMetadata.t;
  MetricMetadataAt : Z → MetricMetadata.t;
  SpanMetadataAt : Z → SpanMetadata.t;
  ByteAt : Z → byte;
  Strlen : Z → Z;
  NameEntryAt : Z → FNameEntry.t;
}.

(** The [n] bytes starting at [ptr]. *)
Definition BytesAt (mem : Memory) (ptr : Z) (n : Z) : list byte :=
  (λ i, ByteAt mem (ptr + Z.of_nat i)%Z) <$> seq 0 (Z.to_nat n).

(** [StaticStringRef(const wchar_t* ptr)] *)
Definition StaticStringRef_of_TCHAR (mem : Memory) (ptr : Z) : StaticStringRef :=
  {| Ptr := ptr;
     SizeBytes := ((Strlen mem ptr * 2) mod uint32_max)%Z;
     Codec := StringCodec.Wide |}.

(** [StaticStringRef(const FNameEntry* ptr)] *)
Definition StaticStringRef_of_FNameEntry (ptr : Z) : StaticStringRef :=
  {| Ptr := ptr; SizeBytes := 0; Codec := StringCodec.UnrealName |}.

(** [DynamicString(const StringReference& ref)]: a view of the bytes the
    reference points to. *)
Definition DynamicString_of_ref (mem : Memory) (ref : StringReference)
  : DynamicString :=
  {| DynCodec := Codec ref;
     DynBytes := BytesAt mem (Ptr ref) (SizeBytes ref) |}.

(* ===================================================================== *)
(** * StaticStringDependency.h and the metadata dependencies              *)
(* ===================================================================== *)

Module StaticStringDependency.
Record t := { Ref : StaticStringRef }.
End StaticStringDependency.

Module Serializer_StaticStringDependency.
Import StaticStringDependency.

Section WithMemory.
Variable mem : Memory.

Definition GetSize (dep : t) : Z :=
      let bytes :=
        if decide (Codec (Ref dep) = StringCodec.UnrealName) then
          let entry := NameEntryAt mem (GetID (Ref dep)) in
          if FNameEntry.IsWide entry
          then (FNameEntry.GetNameLength entry * 2)%Z
          else FNameEntry.GetNameLength entry
        else SizeBytes (Ref dep) in
      ((8 + Serializer_DynamicString.GetHeaderSize + bytes) mod uint32_max)%Z.

Definition Write (dep : t) (buffer : list byte) : list byte :=
      let buffer := WritePOD uint64_pod (GetID (Ref dep)) buffer in
      if decide (Codec (Ref dep) = StringCodec.UnrealName) then
        let entry := NameEntryAt mem (GetID (Ref dep)) in
        if FNameEntry.IsWide entry then
          let bytes := (FNameEntry.GetNameLength entry * 2)%Z in
          let WideName := FNameEntry.GetWideName entry in
          let str := {| DynCodec := StringCodec.Wide;
                        DynBytes := take (Z.to_nat (bytes mod uint32_max)%Z) WideName |} in
          Serializer_DynamicString.Write str buffer
        else
          let bytes := FNameEntry.GetNameLength entry in
          let AnsiName := FNameEntry.GetAnsiName entry in
          let str := {| DynCodec := StringCodec.Ansi;
                        DynBytes := take (Z.to_nat (bytes mod uint32_max)%Z) AnsiName |} in
          Serializer_DynamicString.Write str buffer
      else
        let str := DynamicString_of_ref mem (Ref dep) in
        Serializer_DynamicString.Write str buffer.

Definition serializer : Serializer t := MkSerializer false GetSize Write.
End WithMemory.
End Serializer_StaticStringDependency.

Module LogMetadataDependency.
Record t := {
    Id : Z; Target : Z; Msg : Z; File : Z; Line : Z; Level : LogLevel.Type_;
  }.

  (** [explicit LogMetadataDependency(const LogMetadata* logDesc)] *)
Definition make (mem : Memory) (logDesc : Z) : t :=
    let m := LogMetadataAt mem logDesc in
    {| Id := logDesc;
       Target := LogMetadata.Target m; Msg := LogMetadata.Msg m;
       File := LogMetadata.File m; Line := LogMetadata.Line m;
       Level := LogMetadata.Level m |}.

Definition pod : POD t :=
    MkPOD 40
      (λ d, to_bytes uint64_pod (Id d) ++ to_bytes uint64_pod (Target d)
            ++ to_bytes uint64_pod (Msg d) ++ to_bytes uint64_pod (File d)
            ++ to_bytes uint32_pod (Line d) ++ to_bytes LogLevel.pod (Level d)
            ++ padding 3)
      (λ bs,
         '(id, bs) ← get_member uint64_pod bs;
         '(target, bs) ← get_member uint64_pod bs;
         '(msg, bs) ← get_member uint64_pod bs;
         '(file, bs) ← get_member uint64_pod bs;
         '(line, bs) ← get_member uint32_pod bs;
         '(level, bs) ← get_member LogLevel.pod bs;
         Some {| Id := id; Target := target; Msg := msg; File := file;
                 Line := line; Level := level |}).
End LogMetadataDependency.

Module MetricMetadataDependency.
Record t := {
    Id : Z; Lod : Verbosity.Type_; Name : Z; Unit : Z; Target : Z; File : Z;
    Line : Z;
  }.

  (** [explicit MetricMetadataDependency(const MetricMetadata* mm)] *)
Definition make (mem : Memory) (mm : Z) : t :=
    let m := MetricMetadataAt mem mm in
    {| Id := mm; Lod := MetricMetadata.Lod m;
       Name := MetricMetadata.Name m; Unit := MetricMetadata.Unit m;
       Target := MetricMetadata.Target m; File := MetricMetadata.File m;
       Line := MetricMetadata.Line m |}.

Definition pod : POD t :=
    MkPOD 56
      (λ d, to_bytes uint64_pod (Id d) ++ to_bytes Verbosity.pod (Lod d)
            ++ padding 7
            ++ to_bytes uint64_pod (Name d) ++ to_bytes uint64_pod (Unit d)
            ++ to_bytes uint64_pod (Target d) ++ to_bytes uint64_pod (File d)
            ++ to_bytes uint32_pod (Line d) ++ padding 4)
      (λ bs,
         '(id, bs) ← get_member uint64_pod bs;
         '(lod, bs) ← get_member Verbosity.pod bs;
         let bs := drop 7 bs in
         '(name, bs) ← get_member uint64_pod bs;
         '(unit, bs) ← get_member uint64_pod bs;
         '(target, bs) ← get_member uint64_pod bs;
         '(file, bs) ← get_member uint64_pod bs;
         '(line, bs) ← get_member uint32_pod bs;
         Some {| Id := id; Lod := lod; Name := name; Unit := unit;
                 Target := target; File := file; Line := line |}).
End MetricMetadataDependency.

Module SpanMetadataDependency.
Record t := { Id : Z; Name : Z; Target : Z; File : Z; Line : Z }.

  (** [explicit SpanMetadataDependency(const SpanMetadata* desc)] *)
Definition make (mem : Memory) (desc : Z) : t :=
    let m := SpanMetadataAt mem desc in
    {| Id := desc; Name := SpanMetadata.Name m;
       Target := SpanMetadata.Target m; File := SpanMetadata.File m;
       Line := SpanMetadata.Line m |}.

Definition pod : POD t :=
    MkPOD 40
      (λ d, to_bytes uint64_pod (Id d) ++ to_bytes uint64_pod (Name d)
            ++ to_bytes uint64_pod (Target d) ++ to_bytes uint64_pod (File d)
            ++ to_bytes uint32_pod (Line d) ++ padding 4)
      (λ bs,
         '(id, bs) ← get_member uint64_pod bs;
         '(name, bs) ← get_member uint64_pod bs;
         '(target, bs) ← get_member uint64_pod bs;
         '(file, bs) ← get_member uint64_pod bs;
         '(line, bs) ← get_member uint32_pod bs;
         Some {| Id := id; Name := name; Target := target; File := file;
                 Line := line |}).
End SpanMetadataDependency.

(** ** The dependency queues *)

Definition StaticStringDependency_t (mem : Memory) : QueueType :=
  MkQueueType StaticStringDependency.t
    (Serializer_StaticStringDependency.serializer mem).
Definition LogMetadataDependency_t : QueueType :=
  MkQueueType LogMetadataDependency.t (Serializer_POD LogMetadataDependency.pod).
Definition MetricMetadataDependency_t : QueueType :=
  MkQueueType MetricMetadataDependency.t
    (Serializer_POD MetricMetadataDependency.pod).
Definition SpanMetadataDependency_t : QueueType :=
  MkQueueType SpanMetadataDependency.t (Serializer_POD SpanMetadataDependency.pod).

Definition LogDependencyTypes (mem : Memory) : list QueueType :=
  [StaticStringDependency_t mem; LogMetadataDependency_t].
Definition MetricDependencyTypes (mem : Memory) : list QueueType :=
  [StaticStringDependency_t mem; MetricMetadataDependency_t].
Definition ThreadDependencyTypes (mem : Memory) : list QueueType :=
  [StaticStringDependency_t mem; SpanMetadataDependency_t].

Definition LogDependenciesQueue mem := HeterogeneousQueue (LogDependencyTypes mem).
Definition MetricDependenciesQueue mem :=
  HeterogeneousQueue (MetricDependencyTypes mem).
Definition ThreadDependenciesQueue mem :=
  HeterogeneousQueue (ThreadDependencyTypes mem).

(* ===================================================================== *)
(** * LogDependencies.h, MetricDependencies.h, ThreadDependencies.h       *)
(* ===================================================================== *)

(** Selecting the overload of a visitor by the type of the value. *)
Definition OneOf_case {HEAD REST} {R : Type} (x : OneOf (HEAD :: REST))
    (here : car HEAD → R) (next : OneOf REST → R) : R :=
  match x in OneOf TS
        return match TS with
               | [] => unit
               | H :: RS => (car H → R) → (OneOf RS → R) → R
               end with
  | Here value => λ here _, here value
  | Next x' => λ _ next, next x'
  end here next.

Definition OneOf_nil {R : Type} (x : OneOf []) : R :=
  match x in OneOf TS return match TS with [] => R | _ :: _ => unit end with
  | Here _ => tt
  | Next _ => tt
  end.

(** The state of an extractor: [TSet<const void*> Ids] and the queue
    [Dependencies]. *)
Record Extractor (DepTypes : list QueueType) := MkExtractor {
  Ids : gset Z;
  Dependencies : HeterogeneousQueue DepTypes;
}.
Arguments MkExtractor {DepTypes}.
Arguments Ids {DepTypes}.
Arguments Dependencies {DepTypes}.

(** The constructor: [Dependencies( 1024*1024 )]. *)
Definition NewExtractor {DepTypes} : Extractor DepTypes :=
  MkExtractor ∅ (NewQueue (1024 * 1024)).

(** [void operator()( const StaticStringRef& str )], the same in the three
    extractors. *)
Definition Extract_StaticStringRef {mem REST} (str : StaticStringRef)
    (this : Extractor (StaticStringDependency_t mem :: REST))
  : Extractor (StaticStringDependency_t mem :: REST) :=
  let alreadyInSet := bool_decide (GetID str ∈ Ids this) in
  let this := MkExtractor ({[GetID str]} ∪ Ids this) (Dependencies this) in
  if negb alreadyInSet then
    MkExtractor (Ids this)
      (Push (Here (T := StaticStringDependency_t mem)
               {| StaticStringDependency.Ref := str |})
         (Dependencies this))
  else this.

Module ExtractLogDependencies.
Section WithMemory.
Variable mem : Memory.

Definition t := Extractor (LogDependencyTypes mem).

    (** [void operator()( const LogMetadata* logDesc )] *)
Definition call_LogMetadata (logDesc : Z) (this : t) : t :=
      let alreadyInSet := bool_decide (logDesc ∈ Ids this) in
      let this := MkExtractor ({[logDesc]} ∪ Ids this) (Dependencies this) in
      if negb alreadyInSet then
        let m := LogMetadataAt mem logDesc in
        let this := Extract_StaticStringRef
                      (StaticStringRef_of_TCHAR mem (LogMetadata.Target m)) this in
        let this := Extract_StaticStringRef
                      (StaticStringRef_of_TCHAR mem (LogMetadata.Msg m)) this in
        let this := Extract_StaticStringRef
                      (StaticStringRef_of_TCHAR mem (LogMetadata.File m)) this in
        MkExtractor (Ids this)
          (Push (Next (Here (T := LogMetadataDependency_t)
                         (LogMetadataDependency.make mem logDesc)))
             (Dependencies this))
      else this.

    (** [void operator()( const LogStringInteropEvent& evt )] *)
Definition call_LogStringInteropEvent (evt : LogStringInteropEvent.t)
        (this : t) : t :=
      Extract_StaticStringRef (LogStringInteropEvent.Target evt) this.

    (** [void operator()( const LogStaticStrEvent& evt )] *)
Definition call_LogStaticStrEvent (evt : LogStaticStrEvent.t) (this : t) : t :=
      call_LogMetadata (LogStaticStrEvent.Desc evt) this.

    (** The overload set as seen by [LogEventQueue::ForEach]. *)
Definition visitor : Visitor LogEventTypes t := λ x this,
      Some (OneOf_case x (λ evt, call_LogStaticStrEvent evt this)
        (λ x, OneOf_case x (λ evt, call_LogStringInteropEvent evt this)
        (λ x, OneOf_case x (λ str, Extract_StaticStringRef str this)
           OneOf_nil))).
End WithMemory.
End ExtractLogDependencies.

Module ExtractMetricDependencies.
Section WithMemory.
Variable mem : Memory.

Definition t := Extractor (MetricDependencyTypes mem).

    (** [void operator()( const MetricMetadata* metricDesc )] *)
Definition call_MetricMetadata (metricDesc : Z) (this : t) : t :=
      let alreadyInSet := bool_decide (metricDesc ∈ Ids this) in
      let this := MkExtractor ({[metricDesc]} ∪ Ids this) (Dependencies this) in
      if negb alreadyInSet then
        let m := MetricMetadataAt mem metricDesc in
        let this := Extract_StaticStringRef
                      (StaticStringRef_of_TCHAR mem (MetricMetadata.Name m)) this in
        let this := Extract_StaticStringRef
                      (StaticStringRef_of_TCHAR mem (MetricMetadata.Unit m)) this in
        let this := Extract_StaticStringRef
                      (StaticStringRef_of_TCHAR mem (MetricMetadata.Target m)) this in
        let this := Extract_StaticStringRef
                      (StaticStringRef_of_TCHAR mem (MetricMetadata.File m)) this in
        MkExtractor (Ids this)
          (Push (Next (Here (T := MetricMetadataDependency_t)
                         (MetricMetadataDependency.make mem metricDesc)))
             (Dependencies this))
      else this.

    (** [void operator()( const IntegerMetricEvent& event )] *)
Definition call_IntegerMetricEvent (event : IntegerMetricEvent.t)
        (this : t) : t :=
      call_MetricMetadata (IntegerMetricEvent.Desc event) this.

    (** [void operator()( const FloatMetricEvent& event )] *)
Definition call_FloatMetricEvent (event : FloatMetricEvent.t) (this : t) : t :=
      call_MetricMetadata (FloatMetricEvent.Desc event) this.

Definition visitor : Visitor MetricEventTypes t := λ x this,
      Some (OneOf_case x (λ event, call_IntegerMetricEvent event this)
        (λ x, OneOf_case x (λ event, call_FloatMetricEvent event this)
           OneOf_nil)).
End WithMemory.
End ExtractMetricDependencies.

Module ExtractThreadDependencies.
Section WithMemory.
Variable mem : Memory.

Definition t := Extractor (ThreadDependencyTypes mem).

    (** [void operator()( const SpanMetadata* desc )] *)
Definition call_SpanMetadata (desc : Z) (this : t) : t :=
      let alreadyInSet := bool_decide (desc ∈ Ids this) in
      let this := MkExtractor ({[desc]} ∪ Ids this) (Dependencies this) in
      if negb alreadyInSet then
        let m := SpanMetadataAt mem desc in
        let this := Extract_StaticStringRef
                      (StaticStringRef_of_TCHAR mem (SpanMetadata.Name m)) this in
        let this := Extract_StaticStringRef
                      (StaticStringRef_of_TCHAR mem (SpanMetadata.Target m)) this in
        let this := Extract_StaticStringRef
                      (StaticStringRef_of_TCHAR mem (SpanMetadata.File m)) this in
        MkExtractor (Ids this)
          (Push (Next (Here (T := SpanMetadataDependency_t)
                         (SpanMetadataDependency.make mem desc)))
             (Dependencies this))
      else this.

    (** [void operator()( const BeginThreadSpanEvent& event )] *)
Definition call_BeginThreadSpanEvent (event : BeginThreadSpanEvent.t)
        (this : t) : t :=
      call_SpanMetadata (BeginThreadSpanEvent.Desc event) this.

    (** [void operator()( const EndThreadSpanEvent& event )] *)
Definition call_EndThreadSpanEvent (event : EndThreadSpanEvent.t)
        (this : t) : t :=
      call_SpanMetadata (EndThreadSpanEvent.Desc event) this.

Definition visitor : Visitor ThreadEventTypes t := λ x this,
      Some (OneOf_case x (λ event, call_BeginThreadSpanEvent event this)
        (λ x, OneOf_case x (λ event, call_EndThreadSpanEvent event this)
           OneOf_nil)).
End WithMemory.
End ExtractThreadDependencies.

(* ===================================================================== *)
(** * DualTime.h, EventBlock.h, EventStream.h                             *)
(* ===================================================================== *)

Module DualTime.
Record t := { Timestamp : Z; SystemTime : Z }.

  (** [DualTime()] *)
Definition zero : t := {| Timestamp := 0; SystemTime := 0 |}.
End DualTime.

Record EventBlock (TS : list QueueType) := MkEventBlock {
  BlockStreamId : string;
  Begin : DualTime.t;
  End_ : DualTime.t;
  Events : HeterogeneousQueue TS;
  Capacity : Z;
}.
Arguments MkEventBlock {TS}.
Arguments BlockStreamId {TS}.
Arguments Begin {TS}.
Arguments End_ {TS}.
Arguments Events {TS}.
Arguments Capacity {TS}.

(** [EventBlock(streamId, begin, bufferSize)]; [End] is default-constructed. *)
Definition NewEventBlock {TS} (streamId : string) (begin : DualTime.t)
    (bufferSize : Z) : EventBlock TS :=
  MkEventBlock streamId begin DualTime.zero (NewQueue bufferSize) bufferSize.

Definition Close {TS} (end_ : DualTime.t) (b : EventBlock TS) : EventBlock TS :=
  MkEventBlock (BlockStreamId b) (Begin b) end_ (Events b) (Capacity b).

Definition GetCapacity {TS} (b : EventBlock TS) : Z := Capacity b.

Definition BlockSizeBytes {TS} (b : EventBlock TS) : nat :=
  GetSizeBytes (Events b).

Definition GetBeginTime {TS} (b : EventBlock TS) : DualTime.t := Begin b.

(** [GetEndTime] asserts [End.Timestamp != 0]. *)
Definition GetEndTime {TS} (b : EventBlock TS) : option DualTime.t :=
  if decide (DualTime.Timestamp (End_ b) ≠ 0%Z) then Some (End_ b) else None.

(** [GetEvents().Push(event)] on a block. *)
Definition BlockPush {TS} (event : OneOf TS) (b : EventBlock TS) : EventBlock TS :=
  MkEventBlock (BlockStreamId b) (Begin b) (End_ b) (Push event (Events b))
    (Capacity b).

Definition LogBlock := EventBlock LogEventTypes.
Definition MetricBlock := EventBlock MetricEventTypes.
Definition ThreadBlock := EventBlock ThreadEventTypes.

(** [EventStreamImpl<EventBlockT, BUFFER_PADDING>].  [FullThreshold] is a
    [size_t]: the subtraction wraps when the [assert] on the capacity does
    not hold. *)
Record EventStreamImpl (TS : list QueueType) (BUFFER_PADDING : Z) := MkStream {
  ProcessId : string;
  StreamId : string;
  CurrentBlock : EventBlock TS;
  FullThreshold : Z;
  Tags : list string;
  Properties : gmap string string;
}.
Arguments MkStream {TS BUFFER_PADDING}.
Arguments ProcessId {TS BUFFER_PADDING}.
Arguments StreamId {TS BUFFER_PADDING}.
Arguments CurrentBlock {TS BUFFER_PADDING}.
Arguments FullThreshold {TS BUFFER_PADDING}.
Arguments Tags {TS BUFFER_PADDING}.
Arguments Properties {TS BUFFER_PADDING}.

Section EventStreamImpl.
Context {TS : list QueueType} {BUFFER_PADDING : Z}.
Let Stream := EventStreamImpl TS BUFFER_PADDING.

  (** The condition of the [assert] in the constructor and in
      [SwapBlocks]. *)
Definition capacity_assert (block : EventBlock TS) : Prop :=
    (GetCapacity block > BUFFER_PADDING)%Z.

Definition NewStream (processId streamId : string) (block : EventBlock TS)
      (tags : list string) : Stream :=
    MkStream processId streamId block
      ((GetCapacity block - BUFFER_PADDING) mod uint64_max)%Z tags ∅.

Definition GetStreamId (s : Stream) : string := StreamId s.

Definition SetProperty (name value : string) (s : Stream) : Stream :=
    MkStream (ProcessId s) (StreamId s) (CurrentBlock s) (FullThreshold s)
      (Tags s) (<[name := value]> (Properties s)).

Definition MarkFull (s : Stream) : Stream :=
    MkStream (ProcessId s) (StreamId s) (CurrentBlock s) 0 (Tags s)
      (Properties s).

  (** Returns the old block and the stream with [newBlock] current. *)
Definition SwapBlocks (newBlock : EventBlock TS) (s : Stream)
    : EventBlock TS * Stream :=
    let old := CurrentBlock s in
    (old,
     MkStream (ProcessId s) (StreamId s) newBlock
       ((GetCapacity newBlock - BUFFER_PADDING) mod uint64_max)%Z (Tags s)
       (Properties s)).

Definition GetCurrentBlock (s : Stream) : EventBlock TS := CurrentBlock s.

Definition IsFull (s : Stream) : bool :=
    bool_decide (FullThreshold s ≤ Z.of_nat (BlockSizeBytes (CurrentBlock s)))%Z.

  (** [GetCurrentBlock().GetEvents().Push(event)] on a stream. *)
Definition StreamPush (event : OneOf TS) (s : Stream) : Stream :=
    MkStream (ProcessId s) (StreamId s) (BlockPush event (CurrentBlock s))
      (FullThreshold s) (Tags s) (Properties s).
End EventStreamImpl.

Definition LogStream := EventStreamImpl LogEventTypes 128.
Definition MetricStream := EventStreamImpl MetricEventTypes 32.
Definition ThreadStream := EventStreamImpl ThreadEventTypes 32.

(* ===================================================================== *)
(** * InsertBlockRequest.h / InsertBlockRequest.cpp                       *)
(* ===================================================================== *)

(** [TUniquePtr<Extract...Dependencies> ExtractBlockDependencies(block)],
    one overload per block type. *)
Definition ExtractBlockDependencies_LogBlock (mem : Memory) (block : LogBlock)
  : option (ExtractLogDependencies.t mem) :=
  ForEach LogEventReaders (Events block) (ExtractLogDependencies.visitor mem)
    NewExtractor.

Definition ExtractBlockDependencies_MetricBlock (mem : Memory)
    (block : MetricBlock) : option (ExtractMetricDependencies.t mem) :=
  ForEach MetricEventReaders (Events block)
    (ExtractMetricDependencies.visitor mem) NewExtractor.

Definition ExtractBlockDependencies_ThreadBlock (mem : Memory)
    (block : ThreadBlock) : option (ExtractThreadDependencies.t mem) :=
  ForEach ThreadEventReaders (Events block)
    (ExtractThreadDependencies.visitor mem) NewExtractor.

(** An [FJsonObject] with string fields, in the order they were set. *)
Definition JsonObject := list (string * string).

Definition SetStringField (name value : string) (obj : JsonObject) : JsonObject :=
  obj ++ [(name, value)].

(** [DynamicString(const wchar_t* ptr)] over the text of an [FString]:
    two bytes per code unit. *)
Definition DynamicString_of_TCHAR (text : string) : DynamicString :=
  {| DynCodec := StringCodec.Wide;
     DynBytes := String.list_ascii_of_string text
                   ≫= λ c, [Ascii.byte_of_ascii c; x00] |}.

(** What the formatter consumes from the host: the LZ4 frame compressor,
    the JSON serializer (which can fail), the formatting of times and
    numbers, and the name of the error log line. *)
Record FormatHost := {
  LZ4F_compressFrame : list byte → list byte;
  FJsonSerializer_Serialize : JsonObject → option string;
  FormatTimeIso8601 : DualTime.t → string;
  to_string : Z → string;
}.

Section FormatBlockRequest.
Variable host : FormatHost.

  (** [TArray<uint8> CompressBuffer(const void* src, size_t size)] applied
      to the [size] bytes at [src]. *)
Definition CompressBuffer (src : list byte) (size : nat) : list byte :=
    LZ4F_compressFrame host (take size src).

Definition block_info_error : string := "Error formatting block info as json".

  (** The fields [FormatBlockRequest] sets on [blockInfo]. *)
Definition MakeBlockInfo {TS} (blockId : string) (block : EventBlock TS)
      (endTime : DualTime.t) : JsonObject :=
    let blockInfo : JsonObject := [] in
    let blockInfo := SetStringField "block_id" blockId blockInfo in
    let blockInfo := SetStringField "stream_id" (BlockStreamId block) blockInfo in
    let blockInfo := SetStringField "begin_time"
                       (FormatTimeIso8601 host (GetBeginTime block)) blockInfo in
    let blockInfo := SetStringField "begin_ticks"
                       (to_string host (DualTime.Timestamp (GetBeginTime block)))
                       blockInfo in
    let blockInfo := SetStringField "end_time"
                       (FormatTimeIso8601 host endTime) blockInfo in
    let blockInfo := SetStringField "end_ticks"
                       (to_string host (DualTime.Timestamp endTime)) blockInfo in
    SetStringField "nb_objects"
      (to_string host (GetNbEvents (Events block))) blockInfo.

  (** [FormatBlockRequest<BlockT>]; [extract] is the overload of
      [ExtractBlockDependencies] for [BlockT], [blockId] the fresh GUID.
      The result is the lines logged with [UE_LOG] and the returned array;
      the array is [None] when the function indexes a vector out of its
      bounds or fails an assertion. *)
Definition FormatBlockRequest {TS DepTS}
      (extract : EventBlock TS → option (Extractor DepTS))
      (blockId : string) (block : EventBlock TS)
    : list string * option (list byte) :=
    let queue := Events block in
    match extract block, GetEndTime block with
    | Some depExtrator, Some endTime =>
        let blockInfo := MakeBlockInfo blockId block endTime in
        match FJsonSerializer_Serialize host blockInfo with
        | None => ([block_info_error], Some [])
        | Some jsonText =>
            let buffer : list byte := [] in
            let blockInfoDynStr := DynamicString_of_TCHAR jsonText in
            let buffer := Serializer_DynamicString.Write blockInfoDynStr buffer in
            ([],
             depPtr ← GetPtr (Dependencies depExtrator);
             let compressedDep :=
               CompressBuffer depPtr (GetSizeBytes (Dependencies depExtrator)) in
             let buffer := WritePOD uint32_pod
                             (Z.of_nat (length compressedDep) mod uint32_max)%Z
                             buffer in
             let buffer := if decide (0 < length compressedDep)
                           then buffer ++ compressedDep else buffer in
             objPtr ← GetPtr queue;
             let compressedObj := CompressBuffer objPtr (GetSizeBytes queue) in
             let buffer := WritePOD uint32_pod
                             (Z.of_nat (length compressedObj) mod uint32_max)%Z
                             buffer in
             let buffer := if decide (0 < length compressedObj)
                           then buffer ++ compressedObj else buffer in
             Some buffer)
        end
    | _, _ => ([], None)
    end.

  (** The stated behaviour on a JSON failure, to compare with the code:
      the envelope is skipped and the two compressed sections are still
      emitted. *)
Definition payload_without_envelope {TS DepTS}
      (extract : EventBlock TS → option (Extractor DepTS))
      (block : EventBlock TS) : option (list byte) :=
    depExtrator ← extract block;
    depPtr ← GetPtr (Dependencies depExtrator);
    let compressedDep :=
      CompressBuffer depPtr (GetSizeBytes (Dependencies depExtrator)) in
    objPtr ← GetPtr (Events block);
    let compressedObj := CompressBuffer objPtr (GetSizeBytes (Events block)) in
    Some (to_bytes uint32_pod (Z.of_nat (length compressedDep))
            ++ compressedDep
            ++ to_bytes uint32_pod (Z.of_nat (length compressedObj))
            ++ compressedObj).
End FormatBlockRequest.

(* ===================================================================== *)
(** * ProcessInfo.h, EventSink.h                                          *)
(* ===================================================================== *)

Record ProcessInfo := {
  InfoProcessId : string;
  ParentProcessId : string;
  Exe : string;
  Username : string;
  Computer : string;
  Distro : string;
  CpuBrand : string;
  TscFrequency : Z;
  StartTime : DualTime.t;
}.

(** The virtual calls a dispatch makes on its sink, as the sink observes
    them.  A stream is observed as it is at the time of the call. *)
Inductive SinkCall : Type :=
| StartupCall (processInfo : ProcessInfo)
| ShutdownCall
| InitLogStreamCall (stream : LogStream)
| InitMetricStreamCall (stream : MetricStream)
| InitThreadStreamCall (stream : ThreadStream)
| ProcessLogBlockCall (block : LogBlock)
| ProcessMetricBlockCall (block : MetricBlock)
| ProcessThreadBlockCall (block : ThreadBlock).

(** [class EventSink] without [OnShutdown].  These members act on the state
    [S] of the sink; [OnInitThreadStream] is handed a raw pointer and may
    also change the stream ([RemoteSink] sets two properties on it, which
    depend on the thread the call is made on). *)
Record EventSink (S : Type) := {
  OnStartup : ProcessInfo → S → S;
  OnInitLogStream : LogStream → S → S;
  OnInitMetricStream : MetricStream → S → S;
  OnInitThreadStream : nat → ThreadStream → S → ThreadStream * S;
  OnProcessLogBlock : LogBlock → S → S;
  OnProcessMetricBlock : MetricBlock → S → S;
  OnProcessThreadBlock : ThreadBlock → S → S;
  IsBusy : S → bool;
}.
Arguments OnStartup {S}.
Arguments OnInitLogStream {S}.
Arguments OnInitMetricStream {S}.
Arguments OnInitThreadStream {S}.
Arguments OnProcessLogBlock {S}.
Arguments OnProcessMetricBlock {S}.
Arguments OnProcessThreadBlock {S}.
Arguments IsBusy {S}.

(* ===================================================================== *)
(** * Dispatch.h / Dispatch.cpp                                           *)
(* ===================================================================== *)

(** [class Dispatch].  [ThreadStreams] holds raw pointers: indices into the
    heap of thread streams of the process. *)
Record Dispatch := MkDispatch {
  CurrentProcessInfo : ProcessInfo;
  LogEntries : LogStream;
  LogBufferSize : Z;
  Metrics : MetricStream;
  MetricBufferSize : Z;
  ThreadStreams : list nat;
  ThreadBufferSize : Z;
}.

(** The state of the process as far as the dispatch is concerned:
    the global [GDispatch], the [ThreadStream] objects created with [new]
    (never deleted), the [thread_local] pointer of
    [GetCurrentThreadStream] for each thread, the state of the sink, the
    calls the sink has observed, and how many times the cycle counter and
    the GUID allocator have been used. *)
Record World (S : Type) := MkWorld {
  GDispatch : option Dispatch;
  ThreadStreamHeap : list ThreadStream;
  ThreadLocalPtr : gmap nat nat;
  SinkState : S;
  SinkCalls : list SinkCall;
  ClockReads : nat;
  GuidsAllocated : nat;
}.
Arguments MkWorld {S}.
Arguments GDispatch {S}.
Arguments ThreadStreamHeap {S}.
Arguments ThreadLocalPtr {S}.
Arguments SinkState {S}.
Arguments SinkCalls {S}.
Arguments ClockReads {S}.
Arguments GuidsAllocated {S}.

(** What the dispatch consumes from the platform: the values the cycle
    counter and the system clock return at their successive readings, the
    GUIDs the allocator returns, and the addresses of the [static const
    SpanMetadata] objects of the two [LGN_SPAN_SCOPE] in Dispatch.cpp. *)
Record Platform := {
  Cycles64_at : nat → Z;
  system_clock_at : nat → Z;
  AllocNewGuid_at : nat → string;
  spanMeta_FlushLogStreamImpl : Z;
  spanMeta_FlushMetricStreamImpl : Z;
}.

Section Dispatch.
Context {S : Type}.
Variable platform : Platform.
Variable sink : EventSink S.

Definition set_GDispatch (d : option Dispatch) (w : World S) : World S :=
    MkWorld d (ThreadStreamHeap w) (ThreadLocalPtr w) (SinkState w)
      (SinkCalls w) (ClockReads w) (GuidsAllocated w).

Definition set_ThreadStreamHeap (h : list ThreadStream) (w : World S)
    : World S :=
    MkWorld (GDispatch w) h (ThreadLocalPtr w) (SinkState w) (SinkCalls w)
      (ClockReads w) (GuidsAllocated w).

Definition set_ThreadLocalPtr (t : gmap nat nat) (w : World S) : World S :=
    MkWorld (GDispatch w) (ThreadStreamHeap w) t (SinkState w) (SinkCalls w)
      (ClockReads w) (GuidsAllocated w).

Definition set_SinkState (s : S) (w : World S) : World S :=
    MkWorld (GDispatch w) (ThreadStreamHeap w) (ThreadLocalPtr w) s
      (SinkCalls w) (ClockReads w) (GuidsAllocated w).

Definition set_LogEntries (s : LogStream) (d : Dispatch) : Dispatch :=
    MkDispatch (CurrentProcessInfo d) s (LogBufferSize d) (Metrics d)
      (MetricBufferSize d) (ThreadStreams d) (ThreadBufferSize d).

Definition set_Metrics (s : MetricStream) (d : Dispatch) : Dispatch :=
    MkDispatch (CurrentProcessInfo d) (LogEntries d) (LogBufferSize d) s
      (MetricBufferSize d) (ThreadStreams d) (ThreadBufferSize d).

Definition set_ThreadStreams (l : list nat) (d : Dispatch) : Dispatch :=
    MkDispatch (CurrentProcessInfo d) (LogEntries d) (LogBufferSize d)
      (Metrics d) (MetricBufferSize d) l (ThreadBufferSize d).

  (** A virtual call on the sink: the sink observes it and updates its
      state. *)
Definition call_sink (c : SinkCall) (f : S → S) (w : World S) : World S :=
    MkWorld (GDispatch w) (ThreadStreamHeap w) (ThreadLocalPtr w)
      (f (SinkState w)) (SinkCalls w ++ [c]) (ClockReads w) (GuidsAllocated w).

  (** [FPlatformTime::Cycles64()] *)
Definition Cycles64 (w : World S) : Z * World S :=
    (Cycles64_at platform (ClockReads w),
     MkWorld (GDispatch w) (ThreadStreamHeap w) (ThreadLocalPtr w)
       (SinkState w) (SinkCalls w) (1 + ClockReads w)
       (GuidsAllocated w)).

  (** [DualTime::Now()] *)
Definition Now (w : World S) : DualTime.t * World S :=
    ({| DualTime.Timestamp := Cycles64_at platform (ClockReads w);
        DualTime.SystemTime := system_clock_at platform (ClockReads w) |},
     MkWorld (GDispatch w) (ThreadStreamHeap w) (ThreadLocalPtr w)
       (SinkState w) (SinkCalls w) (1 + ClockReads w)
       (GuidsAllocated w)).

  (** [AllocNewGuid()] *)
Definition AllocNewGuid (w : World S) : string * World S :=
    (AllocNewGuid_at platform (GuidsAllocated w),
     MkWorld (GDispatch w) (ThreadStreamHeap w) (ThreadLocalPtr w)
       (SinkState w) (SinkCalls w) (ClockReads w)
       (1 + GuidsAllocated w)).

  (** The constructor [Dispatch::Dispatch]. *)
Definition NewDispatch (processInfo : ProcessInfo)
      (logBufferSize metricBufferSize threadBufferSize : Z) (w : World S)
    : Dispatch * World S :=
    let '(logStreamId, w) := AllocNewGuid w in
    let logBlock : LogBlock :=
      NewEventBlock logStreamId (StartTime processInfo) logBufferSize in
    let LogEntries : LogStream :=
      NewStream (InfoProcessId processInfo) logStreamId logBlock ["log"] in
    let '(metricStreamId, w) := AllocNewGuid w in
    let metricBlock : MetricBlock :=
      NewEventBlock metricStreamId (StartTime processInfo) metricBufferSize in
    let Metrics : MetricStream :=
      NewStream (InfoProcessId processInfo) metricStreamId metricBlock
        ["metrics"] in
    (MkDispatch processInfo LogEntries logBufferSize Metrics metricBufferSize
       [] threadBufferSize, w).

  (** [Dispatch::Init] *)
Definition Init (processInfo : ProcessInfo)
      (logBufferSize metricBufferSize threadBufferSize : Z) (w : World S)
    : World S :=
    match GDispatch w with
    | Some _ => w
    | None =>
        let '(d, w) := NewDispatch processInfo logBufferSize metricBufferSize
                         threadBufferSize w in
        let w := set_GDispatch (Some d) w in
        let w := call_sink (StartupCall processInfo)
                   (OnStartup sink processInfo) w in
        let w := call_sink (InitLogStreamCall (LogEntries d))
                   (OnInitLogStream sink (LogEntries d)) w in
        call_sink (InitMetricStreamCall (Metrics d))
          (OnInitMetricStream sink (Metrics d)) w
    end.

  (** [Dispatch::FlushThreadStream]; [this] is [d], [stream] a pointer. *)
Definition FlushThreadStream (d : Dispatch) (stream : nat) (w : World S)
    : World S :=
    let '(now, w) := Now w in
    match ThreadStreamHeap w !! stream with
    | None => w
    | Some s =>
        let newBlock : ThreadBlock :=
          NewEventBlock (GetStreamId s) now (ThreadBufferSize d) in
        let '(fullBlock, s) := SwapBlocks newBlock s in
        let fullBlock := Close now fullBlock in
        let w := set_ThreadStreamHeap (<[stream := s]> (ThreadStreamHeap w)) w in
        call_sink (ProcessThreadBlockCall fullBlock)
          (OnProcessThreadBlock sink fullBlock) w
    end.

  (** [Dispatch::AllocThreadStream]: the new object is placed at the end of
      the heap and its address returned. *)
Definition AllocThreadStream (d : Dispatch) (w : World S) : nat * World S :=
    let '(streamId, w) := AllocNewGuid w in
    let '(now, w) := Now w in
    let block : ThreadBlock := NewEventBlock streamId now (ThreadBufferSize d) in
    let s : ThreadStream :=
      NewStream (InfoProcessId (CurrentProcessInfo d)) streamId block ["cpu"] in
    (length (ThreadStreamHeap w),
     set_ThreadStreamHeap (ThreadStreamHeap w ++ [s]) w).

  (** [Dispatch::PublishThreadStream] *)
Definition PublishThreadStream (tid : nat) (stream : nat) (w : World S)
    : World S :=
    let w := match GDispatch w with
             | Some d =>
                 set_GDispatch
                   (Some (set_ThreadStreams (ThreadStreams d ++ [stream]) d)) w
             | None => w
             end in
    match ThreadStreamHeap w !! stream with
    | None => w
    | Some s =>
        let '(s', st) := OnInitThreadStream sink tid s (SinkState w) in
        MkWorld (GDispatch w) (<[stream := s']> (ThreadStreamHeap w))
          (ThreadLocalPtr w) st (SinkCalls w ++ [InitThreadStreamCall s])
          (ClockReads w) (GuidsAllocated w)
    end.

  (** [ThreadStream* GetCurrentThreadStream()], called on thread [tid]. *)
Definition GetCurrentThreadStream (tid : nat) (w : World S)
    : option nat * World S :=
    match ThreadLocalPtr w !! tid with
    | Some ptr => (Some ptr, w)
    | None =>
        match GDispatch w with
        | None => (None, w)
        | Some dispatch =>
            let '(ptr, w) := AllocThreadStream dispatch w in
            let w := set_ThreadLocalPtr (<[tid := ptr]> (ThreadLocalPtr w)) w in
            let w := PublishThreadStream tid ptr w in
            (Some ptr, w)
        end
    end.

  (** [template<T> void QueueThreadEvent(const T& event)] *)
Definition QueueThreadEvent (tid : nat) (event : OneOf ThreadEventTypes)
      (w : World S) : World S :=
    match GetCurrentThreadStream tid w with
    | (None, w) => w
    | (Some stream, w) =>
        match ThreadStreamHeap w !! stream with
        | None => w
        | Some s =>
            let s := StreamPush event s in
            let w := set_ThreadStreamHeap (<[stream := s]> (ThreadStreamHeap w)) w in
            if IsFull s then
              match GDispatch w with
              | None => w
              | Some dispatch => FlushThreadStream dispatch stream w
              end
            else w
        end
    end.

Definition BeginScope (tid : nat) (event : BeginThreadSpanEvent.t)
      (w : World S) : World S :=
    QueueThreadEvent tid (Here (T := BeginThreadSpanEvent_t) event) w.

Definition EndScope (tid : nat) (event : EndThreadSpanEvent.t) (w : World S)
    : World S :=
    QueueThreadEvent tid (Next (Here (T := EndThreadSpanEvent_t) event)) w.

  (** [SpanGuard::SpanGuard(desc)] and [SpanGuard::~SpanGuard()] of
      Macros.h. *)
Definition SpanGuard_ctor (tid : nat) (desc : Z) (w : World S) : World S :=
    let '(ts, w) := Cycles64 w in
    BeginScope tid {| BeginThreadSpanEvent.Desc := desc;
                      BeginThreadSpanEvent.Timestamp := ts |} w.

Definition SpanGuard_dtor (tid : nat) (desc : Z) (w : World S) : World S :=
    let '(ts, w) := Cycles64 w in
    EndScope tid {| EndThreadSpanEvent.Desc := desc;
                    EndThreadSpanEvent.Timestamp := ts |} w.

  (** [LGN_SPAN_SCOPE(target, name)] around [body]: the constructor and the
      destructor of the [SpanGuard]; [desc] is the address of the static
      [SpanMetadata]. *)
Definition LGN_SPAN_SCOPE (tid : nat) (desc : Z) (body : World S → World S)
      (w : World S) : World S :=
    let w := SpanGuard_ctor tid desc w in
    let w := body w in
    SpanGuard_dtor tid desc w.

  (** [Dispatch::FlushLogStreamImpl]; [this] is [GDispatch] (the function is
      only called through it, and nothing it calls resets it). *)
Definition FlushLogStreamImpl (tid : nat) (w : World S) : World S :=
    LGN_SPAN_SCOPE tid (spanMeta_FlushLogStreamImpl platform) (λ w,
      let '(now, w) := Now w in
      match GDispatch w with
      | None => w
      | Some this =>
          let newBlock : LogBlock :=
            NewEventBlock (GetStreamId (LogEntries this)) now
              (LogBufferSize this) in
          let '(fullBlock, s) := SwapBlocks newBlock (LogEntries this) in
          let fullBlock := Close now fullBlock in
          let w := set_GDispatch (Some (set_LogEntries s this)) w in
          call_sink (ProcessLogBlockCall fullBlock)
            (OnProcessLogBlock sink fullBlock) w
      end) w.

  (** [Dispatch::FlushMetricStreamImpl] *)
Definition FlushMetricStreamImpl (tid : nat) (w : World S) : World S :=
    LGN_SPAN_SCOPE tid (spanMeta_FlushMetricStreamImpl platform) (λ w,
      let '(now, w) := Now w in
      match GDispatch w with
      | None => w
      | Some this =>
          let newBlock : MetricBlock :=
            NewEventBlock (GetStreamId (Metrics this)) now
              (MetricBufferSize this) in
          let '(fullBlock, s) := SwapBlocks newBlock (Metrics this) in
          let fullBlock := Close now fullBlock in
          let w := set_GDispatch (Some (set_Metrics s this)) w in
          call_sink (ProcessMetricBlockCall fullBlock)
            (OnProcessMetricBlock sink fullBlock) w
      end) w.

  (** [template<T> void QueueLogEntry(const T& event)] *)
Definition QueueLogEntry (tid : nat) (event : OneOf LogEventTypes)
      (w : World S) : World S :=
    match GDispatch w with
    | None => w
    | Some dispatch =>
        let s := StreamPush event (LogEntries dispatch) in
        let w := set_GDispatch (Some (set_LogEntries s dispatch)) w in
        if IsFull s then FlushLogStreamImpl tid w else w
    end.

Definition FlushLogStream (tid : nat) (w : World S) : World S :=
    match GDispatch w with
    | None => w
    | Some dispatch => FlushLogStreamImpl tid w
    end.

Definition FlushMetricStream (tid : nat) (w : World S) : World S :=
    match GDispatch w with
    | None => w
    | Some dispatch => FlushMetricStreamImpl tid w
    end.

Definition LogInterop (tid : nat) (event : LogStringInteropEvent.t)
      (w : World S) : World S :=
    QueueLogEntry tid (Next (Here (T := LogStringInteropEvent_t) event)) w.

Definition LogStaticStr (tid : nat) (event : LogStaticStrEvent.t)
      (w : World S) : World S :=
    QueueLogEntry tid (Here (T := LogStaticStrEvent_t) event) w.

  (** [template<T> void QueueMetric(const T& event)] *)
Definition QueueMetric (tid : nat) (event : OneOf MetricEventTypes)
      (w : World S) : World S :=
    match GDispatch w with
    | None => w
    | Some dispatch =>
        let s := StreamPush event (Metrics dispatch) in
        let w := set_GDispatch (Some (set_Metrics s dispatch)) w in
        if IsFull s then FlushMetricStreamImpl tid w else w
    end.

Definition IntMetric (tid : nat) (event : IntegerMetricEvent.t) (w : World S)
    : World S :=
    QueueMetric tid (Here (T := IntegerMetricEvent_t) event) w.

Definition FloatMetric (tid : nat) (event : FloatMetricEvent.t) (w : World S)
    : World S :=
    QueueMetric tid (Next (Here (T := FloatMetricEvent_t) event)) w.

  (** [void ForEachThreadStream(ThreadStreamCallback callback)] *)
Definition ForEachThreadStream (callback : ThreadStream → ThreadStream)
      (w : World S) : World S :=
    match GDispatch w with
    | None => w
    | Some dispatch =>
        foldl (λ w stream,
                 match ThreadStreamHeap w !! stream with
                 | Some s =>
                     set_ThreadStreamHeap
                       (<[stream := callback s]> (ThreadStreamHeap w)) w
                 | None => w
                 end)
          w (ThreadStreams dispatch)
    end.

  (** [void Shutdown()]; [onShutdown] is the sink's [OnShutdown], which runs
      on the calling thread and may call back into the functions above. *)
Definition Shutdown (onShutdown : nat → World S → World S) (tid : nat)
      (w : World S) : World S :=
    match GDispatch w with
    | None => w
    | Some dispatch =>
        let w := call_sink ShutdownCall id w in
        let w := onShutdown tid w in
        set_GDispatch None w
    end.

  (** The macros of Macros.h; [desc] is the address of the static metadata
      object of the call site. *)
Definition LGN_LOG_STATIC (tid : nat) (desc : Z) (w : World S) : World S :=
    let '(ts, w) := Cycles64 w in
    LogStaticStr tid {| LogStaticStrEvent.Desc := desc;
                        LogStaticStrEvent.Timestamp := ts |} w.

Definition LGN_IMETRIC (tid : nat) (desc : Z) (expr : Z) (w : World S)
    : World S :=
    let '(ts, w) := Cycles64 w in
    IntMetric tid {| IntegerMetricEvent.Desc := desc;
                     IntegerMetricEvent.Value := expr;
                     IntegerMetricEvent.Timestamp := ts |} w.

Definition LGN_FMETRIC (tid : nat) (desc : Z) (expr : Z) (w : World S)
    : World S :=
    let '(ts, w) := Cycles64 w in
    FloatMetric tid {| FloatMetricEvent.Desc := desc;
                       FloatMetricEvent.Value := expr;
                       FloatMetricEvent.Timestamp := ts |} w.
End Dispatch.

(* ===================================================================== *)
(** * Remote.cpp, FlushMonitor.cpp                                        *)
(* ===================================================================== *)

(** The closures [RemoteSink] enqueues for its worker thread. *)
Inductive Task : Type :=
| InsertProcessTask (processInfo : ProcessInfo)
| InsertLogStreamTask (stream : LogStream)
| InsertMetricStreamTask (stream : MetricStream)
| InsertThreadStreamTask (stream : ThreadStream)
| InsertLogBlockTask (block : LogBlock)
| InsertMetricBlockTask (block : MetricBlock)
| InsertThreadBlockTask (block : ThreadBlock).

(** What [SendJsonRequest] / [SendBinaryRequest] hand to the HTTP module.
    The content of a block request is [None] when [FormatBlockRequest] has
    no defined result. *)
Inductive HttpRequest : Type :=
| JsonRequest (command : string) (content : string)
| BinaryRequest (command : string) (content : option (list byte)).

Module FlushMonitor.
Record t := { LastFlush : Z; FlushDelay : Z }.
End FlushMonitor.

(** [class RemoteSink].  [Queue] holds the tasks not yet taken by the
    worker; [Sent] the requests the worker has issued and [HostLog] the
    lines it has logged with [UE_LOG]. *)
Record RemoteSink := MkRemoteSink {
  Queue : list Task;
  QueueSize : Z;
  RequestShutdown : bool;
  Flusher : option FlushMonitor.t;
  Sent : list HttpRequest;
  HostLog : list string;
}.

(** What the sink consumes from the host besides the formatter's needs:
    the static memory of the process, the JSON formatters of
    InsertProcessRequest.cpp and InsertStreamRequest.cpp, the GUID of each
    block request, the name and id of a thread, and the address of the
    [static const LogMetadata] of the [LGN_LOG_STATIC] in [OnShutdown]. *)
Record RemoteHost := {
  memory : Memory;
  format_host : FormatHost;
  FormatInsertProcessRequest : ProcessInfo → string;
  FormatInsertLogStreamRequest : LogStream → string;
  FormatInsertMetricStreamRequest : MetricStream → string;
  FormatInsertThreadStreamRequest : ThreadStream → string;
  BlockGuid_at : nat → string;
  GetThreadName : nat → string;
  ThreadIdText : nat → string;
  logMeta_ShuttingDown : Z;
}.

Section RemoteSink.
Variable platform : Platform.
Variable rhost : RemoteHost.

  (** The constructor: the worker is idle and the flush monitor starts at
      [lastFlush] with the delay [flushDelay]. *)
Definition NewRemoteSink (lastFlush flushDelay : Z) : RemoteSink :=
    MkRemoteSink [] 0 false
      (Some {| FlushMonitor.LastFlush := lastFlush;
               FlushMonitor.FlushDelay := flushDelay |})
      [] [].

  (** [Queue.Enqueue(task)] after the queue size was incremented. *)
Definition Enqueue (task : Task) (this : RemoteSink) : RemoteSink :=
    MkRemoteSink (Queue this ++ [task]) (QueueSize this + 1)%Z
      (RequestShutdown this) (Flusher this) (Sent this) (HostLog this).

  (** The members of [EventSink] other than [OnShutdown].  Each one counts
      the task, enqueues it and wakes the worker.  The telemetry the sink
      emits about itself ([LGN_IMETRIC] in [IncrementQueueSize] and in
      [Run], [LGN_SPAN_SCOPE] in [IncrementQueueSize],
      [OnProcessThreadBlock], [SendJsonRequest] and [SendBinaryRequest]) is
      left out: a callback here acts on the state of the sink only. *)
Definition RemoteSink_callbacks : EventSink RemoteSink := {|
    OnStartup processInfo := Enqueue (InsertProcessTask processInfo);
    OnInitLogStream stream := Enqueue (InsertLogStreamTask stream);
    OnInitMetricStream stream := Enqueue (InsertMetricStreamTask stream);
    OnInitThreadStream tid stream this :=
      let stream := SetProperty "thread-name" (GetThreadName rhost tid) stream in
      let stream := SetProperty "thread-id" (ThreadIdText rhost tid) stream in
      (stream, Enqueue (InsertThreadStreamTask stream) this);
    OnProcessLogBlock block := Enqueue (InsertLogBlockTask block);
    OnProcessMetricBlock block := Enqueue (InsertMetricBlockTask block);
    OnProcessThreadBlock block := Enqueue (InsertThreadBlockTask block);
    IsBusy this := bool_decide (QueueSize this > 0)%Z;
  |}.

  (** One task run by the worker: the request it sends and the lines it
      logs.  [n] counts the requests sent so far. *)
Definition run_task (n : nat) (task : Task) : list string * HttpRequest :=
    match task with
    | InsertProcessTask processInfo =>
        ([], JsonRequest "process" (FormatInsertProcessRequest rhost processInfo))
    | InsertLogStreamTask stream =>
        ([], JsonRequest "stream" (FormatInsertLogStreamRequest rhost stream))
    | InsertMetricStreamTask stream =>
        ([], JsonRequest "stream" (FormatInsertMetricStreamRequest rhost stream))
    | InsertThreadStreamTask stream =>
        ([], JsonRequest "stream" (FormatInsertThreadStreamRequest rhost stream))
    | InsertLogBlockTask block =>
        let '(lines, content) :=
          FormatBlockRequest (format_host rhost)
            (ExtractBlockDependencies_LogBlock (memory rhost))
            (BlockGuid_at rhost n) block in
        (lines, BinaryRequest "block" content)
    | InsertMetricBlockTask block =>
        let '(lines, content) :=
          FormatBlockRequest (format_host rhost)
            (ExtractBlockDependencies_MetricBlock (memory rhost))
            (BlockGuid_at rhost n) block in
        (lines, BinaryRequest "block" content)
    | InsertThreadBlockTask block =>
        let '(lines, content) :=
          FormatBlockRequest (format_host rhost)
            (ExtractBlockDependencies_ThreadBlock (memory rhost))
            (BlockGuid_at rhost n) block in
        (lines, BinaryRequest "block" content)
    end.

  (** The inner loop of [Run]: dequeue and run every task, first in first
      out. *)
Fixpoint drain (tasks : list Task) (this : RemoteSink) : RemoteSink :=
    match tasks with
    | [] => this
    | c :: tasks' =>
        let '(lines, request) := run_task (length (Sent this)) c in
        drain tasks'
          (MkRemoteSink tasks' (QueueSize this - 1)%Z (RequestShutdown this)
             (Flusher this) (Sent this ++ [request]) (HostLog this ++ lines))
    end.

  (** [Run] from a wake-up to the next wait (or to its exit when
      [RequestShutdown] is set). *)
Definition Run (this : RemoteSink) : RemoteSink := drain (Queue this) this.

Definition update_sink (f : RemoteSink → RemoteSink) (w : World RemoteSink)
    : World RemoteSink :=
    set_SinkState (f (SinkState w)) w.

  (** [RemoteSink::OnShutdown], run on thread [tid]. *)
Definition RemoteSink_OnShutdown (tid : nat) (w : World RemoteSink)
    : World RemoteSink :=
    let w := LGN_LOG_STATIC platform RemoteSink_callbacks tid
               (logMeta_ShuttingDown rhost) w in
    let w := update_sink (λ this,
               MkRemoteSink (Queue this) (QueueSize this) (RequestShutdown this)
                 None (Sent this) (HostLog this)) w in
    let w := FlushLogStream platform RemoteSink_callbacks tid w in
    let w := FlushMetricStream platform RemoteSink_callbacks tid w in
    let w := update_sink (λ this,
               MkRemoteSink (Queue this) (QueueSize this) true
                 (Flusher this) (Sent this) (HostLog this)) w in
    update_sink Run w.

  (** [LgnTracing::Shutdown()] with this sink installed. *)
Definition RemoteSink_Shutdown (tid : nat) (w : World RemoteSink)
    : World RemoteSink :=
    Shutdown RemoteSink_OnShutdown tid w.

Definition MarkStreamFull (stream : ThreadStream) : ThreadStream :=
    MarkFull stream.

  (** [FlushMonitor::Flush] *)
Definition FlushMonitor_Flush (tid : nat) (w : World RemoteSink)
    : World RemoteSink :=
    let w := FlushLogStream platform RemoteSink_callbacks tid w in
    let w := FlushMetricStream platform RemoteSink_callbacks tid w in
    ForEachThreadStream MarkStreamFull w.

  (** [FlushMonitor::Tick], run on thread [tid] at the start of a frame. *)
Definition FlushMonitor_Tick (tid : nat) (w : World RemoteSink)
    : World RemoteSink :=
    match Flusher (SinkState w) with
    | None => w
    | Some this =>
        if IsBusy RemoteSink_callbacks (SinkState w) then w
        else
          let '(now, w) := Cycles64 platform w in
          let diff := ((now - FlushMonitor.LastFlush this) mod uint64_max)%Z in
          if decide (diff > FlushMonitor.FlushDelay this)%Z then
            let w := FlushMonitor_Flush tid w in
            let '(now, w) := Cycles64 platform w in
            update_sink (λ sink,
              MkRemoteSink (Queue sink) (QueueSize sink) (RequestShutdown sink)
                (Some {| FlushMonitor.LastFlush := now;
                         FlushMonitor.FlushDelay := FlushMonitor.FlushDelay this |})
                (Sent sink) (HostLog sink)) w
          else w
    end.
End RemoteSink.

(* ===================================================================== *)
(** * LogInterop.cpp                                                      *)
(* ===================================================================== *)

Module ELogVerbosity.
Inductive Type_ : Set :=
  NoLogging | Fatal | Error | Warning | Display | Log | Verbose | VeryVerbose.
End ELogVerbosity.

(** [LogBridge::Serialize(V, Verbosity, Category)], called on thread [tid];
    [category] is the address [Category.GetDisplayNameEntry()]. *)
Definition LogBridge_Serialize {S} (platform : Platform) (sink : EventSink S)
    (tid : nat) (V : string) (verbosity : ELogVerbosity.Type_) (category : Z)
    (w : World S) : World S :=
  let level :=
    match verbosity with
    | ELogVerbosity.Fatal | ELogVerbosity.Error => LogLevel.Error
    | ELogVerbosity.Warning => LogLevel.Warn
    | ELogVerbosity.Display => LogLevel.Info
    | ELogVerbosity.Log => LogLevel.Debug
    | _ => LogLevel.Trace
    end in
  let '(ts, w) := Cycles64 platform w in
  LogInterop platform sink tid
    {| LogStringInteropEvent.Timestamp := ts;
       LogStringInteropEvent.Level := level;
       LogStringInteropEvent.Target := StaticStringRef_of_FNameEntry category;
       LogStringInteropEvent.Msg := DynamicString_of_TCHAR V |} w.

(* ===================================================================== *)
(** * Vocabulary of the statements about the queue                        *)
(* ===================================================================== *)

(** [S], read back by [R], is faithful on the values accepted by [wf]:
    [Write] only appends, and [Read] at the position where the record
    starts returns the value and the position after the record. *)
Record ser_ok {T} (S : Serializer T) (R : ReadFn T) (wf : T → Prop) : Prop := {
  write_app : ∀ v buf, Write S v buf = buf ++ Write S v [];
  read_write : ∀ v pre post, wf v →
    R (pre ++ Write S v [] ++ post) (length pre)
    = Some (v, length pre + length (Write S v []));
}.

(** The bytes [Serializer<DynamicString>::Write] appends. *)
Definition DynamicString_bytes (value : DynamicString) : list byte :=
  to_bytes StringCodec.pod (DynCodec value)
  ++ to_bytes uint32_pod (DynSizeBytes value)
  ++ DynBytes value.

(** The bytes [Serializer<LogStringInteropEvent>::Write] appends. *)
Definition LogStringInteropEvent_bytes (value : LogStringInteropEvent.t)
  : list byte :=
  to_bytes uint64_pod (LogStringInteropEvent.Timestamp value)
  ++ to_bytes LogLevel.pod (LogStringInteropEvent.Level value)
  ++ to_bytes StaticStringRef_pod (LogStringInteropEvent.Target value)
  ++ DynamicString_bytes (LogStringInteropEvent.Msg value).

(** One predicate per type of the list: the values of that type that are
    in the range of their C++ type. *)
Fixpoint Preds (TS : list QueueType) : Type :=
  match TS with
  | [] => unit
  | HEAD :: REST => ((car HEAD → Prop) * Preds REST)%type
  end.

Fixpoint OneOf_wf {TS} (x : OneOf TS) : Preds TS → Prop :=
  match x in OneOf TS return Preds TS → Prop with
  | Here value => λ wfs, wfs.1 value
  | Next x' => λ wfs, OneOf_wf x' wfs.2
  end.

Fixpoint lawful (TS : list QueueType) : Readers TS → Preds TS → Prop :=
  match TS with
  | [] => λ _ _, True
  | HEAD :: REST => λ rd wfs,
      ser_ok (ser HEAD) rd.1 wfs.1 ∧ lawful REST rd.2 wfs.2
  end.

(** The bytes of one record: the tag, then what [WriteValue] appends. *)
Definition record_bytes {TS} (x : OneOf TS) : list byte :=
  byte_of_Z (IndexOfType x) :: WriteValue x [].

(** [Push] called once per element, first element first. *)
Definition PushAll {TS} (xs : list (OneOf TS)) (q : HeterogeneousQueue TS)
  : HeterogeneousQueue TS :=
  foldl (λ q x, Push x q) q xs.

(** The visitor called on each element in turn. *)
Fixpoint visit_all {TS V} (v : Visitor TS V) (xs : list (OneOf TS)) (st : V)
  : option V :=
  match xs with
  | [] => Some st
  | x :: xs' => st' ← v x st; visit_all v xs' st'
  end.

Definition LogEvent_wfs : Preds LogEventTypes :=
  (LogStaticStrEvent.wf, (LogStringInteropEvent_wf, (StaticStringRef_wf, tt))).
Definition MetricEvent_wfs : Preds MetricEventTypes :=
  (IntegerMetricEvent.wf, (FloatMetricEvent.wf, tt)).
Definition ThreadEvent_wfs : Preds ThreadEventTypes :=
  (BeginThreadSpanEvent.wf, (EndThreadSpanEvent.wf, tt)).

(** The three queues on which the sources instantiate [ForEach]. *)
Inductive QueueKind : Set := LogEvents | MetricEvents | ThreadEvents.

Definition kind_types (k : QueueKind) : list QueueType :=
  match k with
  | LogEvents => LogEventTypes
  | MetricEvents => MetricEventTypes
  | ThreadEvents => ThreadEventTypes
  end.

Definition kind_readers (k : QueueKind) : Readers (kind_types k) :=
  match k with
  | LogEvents => LogEventReaders
  | MetricEvents => MetricEventReaders
  | ThreadEvents => ThreadEventReaders
  end.

Definition kind_wfs (k : QueueKind) : Preds (kind_types k) :=
  match k with
  | LogEvents => LogEvent_wfs
  | MetricEvents => MetricEvent_wfs
  | ThreadEvents => ThreadEvent_wfs
  end.

(** An event of queue [k] whose members are in the range of their types. *)
Definition event_wf {k : QueueKind} (x : OneOf (kind_types k)) : Prop :=
  OneOf_wf x (kind_wfs k).

(** The visitor that keeps the last value it was shown. *)
Definition keep_last {TS} : Visitor TS (option (OneOf TS)) :=
  λ x _, Some (Some x).

(** Sample values used to exercise the statements. *)
Definition sample_static_event : OneOf LogEventTypes :=
  Here (T := LogStaticStrEvent_t)
    {| LogStaticStrEvent.Desc := 4096; LogStaticStrEvent.Timestamp := 1000 |}.

Definition sample_msg : DynamicString :=
  {| DynCodec := StringCodec.Wide; DynBytes := [x68; x00; x69; x00] |}.

Definition sample_interop : LogStringInteropEvent.t :=
  {| LogStringInteropEvent.Timestamp := 77;
     LogStringInteropEvent.Level := LogLevel.Info;
     LogStringInteropEvent.Target :=
       {| Ptr := 500; SizeBytes := 0; Codec := StringCodec.UnrealName |};
     LogStringInteropEvent.Msg := sample_msg |}.

Definition sample_interop_event : OneOf LogEventTypes :=
  Next (Here (T := LogStringInteropEvent_t) sample_interop).

(* ===================================================================== *)
(** * Vocabulary of the statements about dependency extraction            *)
(* ===================================================================== *)

(** What an event refers to: a metadata record, by address, or a static
    string. *)
Inductive Reference : Type :=
| RefMetadata (desc : Z)
| RefString (str : StaticStringRef).

Definition event_reference (k : QueueKind) : OneOf (kind_types k) → Reference :=
  match k with
  | LogEvents => λ x,
      OneOf_case x (λ e, RefMetadata (LogStaticStrEvent.Desc e))
        (λ x, OneOf_case x (λ e, RefString (LogStringInteropEvent.Target e))
        (λ x, OneOf_case x (λ r, RefString r) OneOf_nil))
  | MetricEvents => λ x,
      OneOf_case x (λ e, RefMetadata (IntegerMetricEvent.Desc e))
        (λ x, OneOf_case x (λ e, RefMetadata (FloatMetricEvent.Desc e))
           OneOf_nil)
  | ThreadEvents => λ x,
      OneOf_case x (λ e, RefMetadata (BeginThreadSpanEvent.Desc e))
        (λ x, OneOf_case x (λ e, RefMetadata (EndThreadSpanEvent.Desc e))
           OneOf_nil)
  end.

(** The static strings of the metadata record at [desc], in the order the
    extractor visits them. *)
Definition metadata_strings (k : QueueKind) (mem : Memory) (desc : Z)
  : list StaticStringRef :=
  match k with
  | LogEvents =>
      let m := LogMetadataAt mem desc in
      StaticStringRef_of_TCHAR mem
        <$> [LogMetadata.Target m; LogMetadata.Msg m; LogMetadata.File m]
  | MetricEvents =>
      let m := MetricMetadataAt mem desc in
      StaticStringRef_of_TCHAR mem
        <$> [MetricMetadata.Name m; MetricMetadata.Unit m;
             MetricMetadata.Target m; MetricMetadata.File m]
  | ThreadEvents =>
      let m := SpanMetadataAt mem desc in
      StaticStringRef_of_TCHAR mem
        <$> [SpanMetadata.Name m; SpanMetadata.Target m; SpanMetadata.File m]
  end.

Definition metadata_dep_t (k : QueueKind) : QueueType :=
  match k with
  | LogEvents => LogMetadataDependency_t
  | MetricEvents => MetricMetadataDependency_t
  | ThreadEvents => SpanMetadataDependency_t
  end.

Definition dep_types (k : QueueKind) (mem : Memory) : list QueueType :=
  [StaticStringDependency_t mem; metadata_dep_t k].

Definition make_metadata_dep (k : QueueKind) (mem : Memory) (desc : Z)
  : car (metadata_dep_t k) :=
  match k with
  | LogEvents => LogMetadataDependency.make mem desc
  | MetricEvents => MetricMetadataDependency.make mem desc
  | ThreadEvents => SpanMetadataDependency.make mem desc
  end.

(** The overload of [ExtractBlockDependencies] for the blocks of queue
    [k]. *)
Definition ExtractBlockDependencies (k : QueueKind) (mem : Memory)
  : EventBlock (kind_types k) → option (Extractor (dep_types k mem)) :=
  match k with
  | LogEvents => ExtractBlockDependencies_LogBlock mem
  | MetricEvents => ExtractBlockDependencies_MetricBlock mem
  | ThreadEvents => ExtractBlockDependencies_ThreadBlock mem
  end.

(** A record of a dependency queue, named by what it depends on. *)
Inductive DepRecord : Type :=
| StringDep (str : StaticStringRef)
| MetadataDep (desc : Z).

(** The identity (raw pointer value) a record is emitted for. *)
Definition dep_id (d : DepRecord) : Z :=
  match d with
  | StringDep str => GetID str
  | MetadataDep desc => desc
  end.

(** The value pushed for a record. *)
Definition dep_value (k : QueueKind) (mem : Memory) (d : DepRecord)
  : OneOf (dep_types k mem) :=
  match d with
  | StringDep str =>
      Here (T := StaticStringDependency_t mem)
        {| StaticStringDependency.Ref := str |}
  | MetadataDep desc =>
      Next (Here (T := metadata_dep_t k) (make_metadata_dep k mem desc))
  end.

(** Everything a reference reaches: the strings of the metadata, then the
    metadata; or the string. *)
Definition reached (k : QueueKind) (mem : Memory) (ref : Reference)
  : list DepRecord :=
  match ref with
  | RefMetadata desc =>
      (StringDep <$> metadata_strings k mem desc) ++ [MetadataDep desc]
  | RefString str => [StringDep str]
  end.

(** The records reached from the events [xs]. *)
Definition referenced (k : QueueKind) (mem : Memory)
    (xs : list (OneOf (kind_types k))) : list DepRecord :=
  xs ≫= λ x, reached k mem (event_reference k x).

Definition is_metadata_dep (d : DepRecord) : Prop :=
  match d with MetadataDep _ => True | StringDep _ => False end.

(** No metadata record has the address of a static string: they are
    distinct objects of the process. *)
Definition addresses_separate (ds : list DepRecord) : Prop :=
  ∀ d1 d2, d1 ∈ ds → d2 ∈ ds →
    is_metadata_dep d1 → ¬ is_metadata_dep d2 → dep_id d1 ≠ dep_id d2.

(** In [deps], the strings of every metadata record come before it. *)
Definition strings_first (k : QueueKind) (mem : Memory) (deps : list DepRecord)
  : Prop :=
  ∀ i desc, deps !! i = Some (MetadataDep desc) →
    ∀ str, str ∈ metadata_strings k mem desc →
      ∃ j str', j < i ∧ deps !! j = Some (StringDep str')
                ∧ GetID str' = GetID str.

(** The extractor on identities and record names only. *)
Section PureExtractor.
Variable strings_of : Z → list StaticStringRef.

Definition pure_string (str : StaticStringRef)
      (st : gset Z * list DepRecord) : gset Z * list DepRecord :=
    if decide (GetID str ∈ st.1) then st
    else ({[GetID str]} ∪ st.1, st.2 ++ [StringDep str]).

Definition pure_metadata (desc : Z) (st : gset Z * list DepRecord)
    : gset Z * list DepRecord :=
    if decide (desc ∈ st.1) then st
    else
      let st' := foldl (λ st str, pure_string str st)
                   ({[desc]} ∪ st.1, st.2) (strings_of desc) in
      (st'.1, st'.2 ++ [MetadataDep desc]).

Definition pure_reference (ref : Reference) (st : gset Z * list DepRecord)
    : gset Z * list DepRecord :=
    match ref with
    | RefMetadata desc => pure_metadata desc st
    | RefString str => pure_string str st
    end.
End PureExtractor.

(** The invariant of the pure extractor.  [pend] holds the metadata
    address that has been entered in [Ids] while its strings are being
    visited; [is_meta] recognizes the addresses of metadata records. *)
Section PureInvariant.
Variable strings_of : Z → list StaticStringRef.
Variable is_meta : Z → Prop.

Definition kind_ok (d : DepRecord) : Prop :=
    match d with
    | StringDep str => ¬ is_meta (GetID str)
    | MetadataDep desc => is_meta desc
    end.

Definition ordered (out : list DepRecord) : Prop :=
    ∀ i desc, out !! i = Some (MetadataDep desc) →
      ∀ str, str ∈ strings_of desc →
        ∃ j str', j < i ∧ out !! j = Some (StringDep str')
                  ∧ GetID str' = GetID str.

Record pure_inv (pend : gset Z) (st : gset Z * list DepRecord) : Prop := {
    inv_ids : st.1 = pend ∪ list_to_set (dep_id <$> st.2);
    inv_nodup : NoDup (dep_id <$> st.2);
    inv_pend : ∀ p, p ∈ pend → is_meta p ∧ p ∉ dep_id <$> st.2;
    inv_kind : Forall kind_ok st.2;
    inv_ord : ordered st.2;
  }.

Definition reached_of (ref : Reference) : list DepRecord :=
    match ref with
    | RefMetadata desc => (StringDep <$> strings_of desc) ++ [MetadataDep desc]
    | RefString str => [StringDep str]
    end.

Definition ref_ok (ref : Reference) : Prop := Forall kind_ok (reached_of ref).
End PureInvariant.

(** An extractor represents a state of the pure extractor. *)
Definition represents (k : QueueKind) (mem : Memory)
    (st : gset Z * list DepRecord) (ex : Extractor (dep_types k mem)) : Prop :=
  Ids ex = st.1
  ∧ Dependencies ex = PushAll (dep_value k mem <$> st.2) (NewQueue (1024 * 1024)).

(** The visitor of queue [k]. *)
Definition kind_visitor (k : QueueKind) (mem : Memory)
  : Visitor (kind_types k) (Extractor (dep_types k mem)) :=
  match k with
  | LogEvents => ExtractLogDependencies.visitor mem
  | MetricEvents => ExtractMetricDependencies.visitor mem
  | ThreadEvents => ExtractThreadDependencies.visitor mem
  end.


(** A sample of static storage: one log metadata record at every address,
    whose three strings are at 8192, 8200 and 8300. *)
Definition sample_memory : Memory :=
  {| LogMetadataAt := λ _,
       {| LogMetadata.Target := 8192; LogMetadata.Msg := 8200;
          LogMetadata.File := 8300; LogMetadata.Line := 7;
          LogMetadata.Level := LogLevel.Info |};
     MetricMetadataAt := λ _,
       {| MetricMetadata.Lod := Verbosity.Min; MetricMetadata.Name := 9000;
          MetricMetadata.Unit := 9100; MetricMetadata.Target := 8192;
          MetricMetadata.File := 8300; MetricMetadata.Line := 9 |};
     SpanMetadataAt := λ _,
       {| SpanMetadata.Name := 9200; SpanMetadata.Target := 8192;
          SpanMetadata.File := 8300; SpanMetadata.Line := 11 |};
     ByteAt := λ _, x61;
     Strlen := λ _, 3%Z;
     NameEntryAt := λ _, {| FNameEntry.IsWide := false;
                            FNameEntry.Name := [76; 111; 103]%Z |} |}.

Definition sample_log_events : list (OneOf LogEventTypes) :=
  [sample_static_event; sample_interop_event; sample_static_event].

Definition sample_log_block : LogBlock :=
  MkEventBlock "stream" {| DualTime.Timestamp := 10; DualTime.SystemTime := 0 |}
    {| DualTime.Timestamp := 2000; DualTime.SystemTime := 0 |}
    (PushAll sample_log_events (NewQueue 4096)) 4096.

(* ===================================================================== *)
(** * Sample hosts                                                        *)
(* ===================================================================== *)

(** A host whose compressor stores its input after a one-byte header and
    whose JSON serializer succeeds with a fixed text. *)
Definition sample_format_host : FormatHost :=
  {| LZ4F_compressFrame := λ src, x04 :: src;
     FJsonSerializer_Serialize := λ _, Some "{}";
     FormatTimeIso8601 := λ _, "1970-01-01T00:00:00Z";
     to_string := λ _, "0" |}.

(** The same host with a JSON serializer that fails. *)
Definition failing_format_host : FormatHost :=
  {| LZ4F_compressFrame := LZ4F_compressFrame sample_format_host;
     FJsonSerializer_Serialize := λ _, None;
     FormatTimeIso8601 := FormatTimeIso8601 sample_format_host;
     to_string := to_string sample_format_host |}.

(** A cycle counter that advances by one at every reading, from 100 (and
    stays at the largest [uint64]). *)
Definition sample_platform : Platform :=
  {| Cycles64_at := λ n, (Z.min (100 + Z.of_nat n) (uint64_max - 1))%Z;
     system_clock_at := λ n, Z.of_nat n;
     AllocNewGuid_at := λ n, "guid";
     spanMeta_FlushLogStreamImpl := 16384;
     spanMeta_FlushMetricStreamImpl := 16448 |}.

Definition sample_remote_host : RemoteHost :=
  {| memory := sample_memory;
     format_host := sample_format_host;
     FormatInsertProcessRequest := λ _, "{}";
     FormatInsertLogStreamRequest := λ _, "{}";
     FormatInsertMetricStreamRequest := λ _, "{}";
     FormatInsertThreadStreamRequest := λ _, "{}";
     BlockGuid_at := λ _, "block";
     GetThreadName := λ _, "GameThread";
     ThreadIdText := λ _, "1";
     logMeta_ShuttingDown := 4096 |}.

Definition sample_process_info : ProcessInfo :=
  {| InfoProcessId := "process"; ParentProcessId := ""; Exe := "exe";
     Username := "user"; Computer := "host"; Distro := "distro";
     CpuBrand := "cpu"; TscFrequency := 10000000;
     StartTime := {| DualTime.Timestamp := 90; DualTime.SystemTime := 0 |} |}.

(** The process before [Dispatch::Init]: no dispatch, no thread stream. *)
Definition fresh_world {S} (sink : S) : World S :=
  MkWorld None [] ∅ sink [] 0 0.

(** A sink that keeps no state. *)
Definition null_sink : EventSink unit :=
  {| OnStartup := λ _ s, s;
     OnInitLogStream := λ _ s, s;
     OnInitMetricStream := λ _ s, s;
     OnInitThreadStream := λ _ stream s, (stream, s);
     OnProcessLogBlock := λ _ s, s;
     OnProcessMetricBlock := λ _ s, s;
     OnProcessThreadBlock := λ _ s, s;
     IsBusy := λ _, false |}.

(* ===================================================================== *)
(** * Vocabulary of the statements about the dispatch                     *)
(* ===================================================================== *)

(** [b] holds the events [xs]: its queue is what pushing [xs], in order,
    into a fresh queue gives, and the members of [xs] are in range. *)
Definition holds {k : QueueKind} (b : EventBlock (kind_types k))
    (xs : list (OneOf (kind_types k))) : Prop :=
  Forall event_wf xs ∧ Events b = PushAll xs (NewQueue 0).

(** The events a block contains, by decoding its queue. *)
Definition BlockEvents (k : QueueKind) (b : EventBlock (kind_types k))
  : option (list (OneOf (kind_types k))) :=
  ForEach (kind_readers k) (Events b) collect [].

(** The blocks handed to the sink, in the order of the calls. *)
Definition log_blocks (calls : list SinkCall) : list LogBlock :=
  calls ≫= λ c, match c with ProcessLogBlockCall b => [b] | _ => [] end.

Definition metric_blocks (calls : list SinkCall) : list MetricBlock :=
  calls ≫= λ c, match c with ProcessMetricBlockCall b => [b] | _ => [] end.

Definition thread_blocks (calls : list SinkCall) : list ThreadBlock :=
  calls ≫= λ c, match c with ProcessThreadBlockCall b => [b] | _ => [] end.

(** The [OnStartup] calls among [calls]. *)
Definition startup_calls (calls : list SinkCall) : list ProcessInfo :=
  calls ≫= λ c, match c with StartupCall p => [p] | _ => [] end.

Definition is_thread_call (c : SinkCall) : Prop :=
  match c with
  | InitThreadStreamCall _ | ProcessThreadBlockCall _ => True
  | _ => False
  end.

(** The events of a list of blocks, block after block. *)
Definition blocks_events (k : QueueKind) (bs : list (EventBlock (kind_types k)))
  : option (list (OneOf (kind_types k))) :=
  (λ ls, concat ls) <$> mapM (BlockEvents k) bs.

(** The log events of the blocks handed to the sink after the first
    [since] calls, followed by those of the current block. *)
Definition LogHistory {S} (since : nat) (w : World S)
  : option (list (OneOf LogEventTypes)) :=
  d ← GDispatch w;
  delivered ← blocks_events LogEvents (log_blocks (drop since (SinkCalls w)));
  current ← BlockEvents LogEvents (CurrentBlock (LogEntries d));
  Some (delivered ++ current).

Definition MetricHistory {S} (since : nat) (w : World S)
  : option (list (OneOf MetricEventTypes)) :=
  d ← GDispatch w;
  delivered ← blocks_events MetricEvents
                 (metric_blocks (drop since (SinkCalls w)));
  current ← BlockEvents MetricEvents (CurrentBlock (Metrics d));
  Some (delivered ++ current).

(** The calls of the public interface, on the thread that makes them. *)
Inductive Op : Type :=
| DoLogStaticStr (tid : nat) (event : LogStaticStrEvent.t)
| DoLogInterop (tid : nat) (event : LogStringInteropEvent.t)
| DoIntMetric (tid : nat) (event : IntegerMetricEvent.t)
| DoFloatMetric (tid : nat) (event : FloatMetricEvent.t)
| DoBeginScope (tid : nat) (event : BeginThreadSpanEvent.t)
| DoEndScope (tid : nat) (event : EndThreadSpanEvent.t)
| DoFlushLogStream (tid : nat)
| DoFlushMetricStream (tid : nat)
| DoMarkThreadStreamsFull.

Definition op_wf (op : Op) : Prop :=
  match op with
  | DoLogStaticStr _ e => LogStaticStrEvent.wf e
  | DoLogInterop _ e => LogStringInteropEvent_wf e
  | DoIntMetric _ e => IntegerMetricEvent.wf e
  | DoFloatMetric _ e => FloatMetricEvent.wf e
  | DoBeginScope _ e => BeginThreadSpanEvent.wf e
  | DoEndScope _ e => EndThreadSpanEvent.wf e
  | _ => True
  end.

Definition log_event_of (op : Op) : list (OneOf LogEventTypes) :=
  match op with
  | DoLogStaticStr _ e => [Here (T := LogStaticStrEvent_t) e]
  | DoLogInterop _ e => [Next (Here (T := LogStringInteropEvent_t) e)]
  | _ => []
  end.

Definition metric_event_of (op : Op) : list (OneOf MetricEventTypes) :=
  match op with
  | DoIntMetric _ e => [Here (T := IntegerMetricEvent_t) e]
  | DoFloatMetric _ e => [Next (Here (T := FloatMetricEvent_t) e)]
  | _ => []
  end.

Section Run.
Context {S : Type}.
Variable platform : Platform.
Variable sink : EventSink S.

Definition step (w : World S) (op : Op) : World S :=
  match op with
  | DoLogStaticStr tid e => LogStaticStr platform sink tid e w
  | DoLogInterop tid e => LogInterop platform sink tid e w
  | DoIntMetric tid e => IntMetric platform sink tid e w
  | DoFloatMetric tid e => FloatMetric platform sink tid e w
  | DoBeginScope tid e => BeginScope platform sink tid e w
  | DoEndScope tid e => EndScope platform sink tid e w
  | DoFlushLogStream tid => FlushLogStream platform sink tid w
  | DoFlushMetricStream tid => FlushMetricStream platform sink tid w
  | DoMarkThreadStreamsFull => ForEachThreadStream MarkFull w
  end.

(** The calls run one after the other: every entry point runs under the
    lock of its stream. *)
Definition run (ops : list Op) (w : World S) : World S := foldl step w ops.
End Run.

(** The parts of a dispatch that the thread-stream functions leave alone. *)
Definition same_streams (d d' : Dispatch) : Prop :=
  LogEntries d' = LogEntries d ∧ Metrics d' = Metrics d
  ∧ LogBufferSize d' = LogBufferSize d
  ∧ MetricBufferSize d' = MetricBufferSize d
  ∧ ThreadBufferSize d' = ThreadBufferSize d
  ∧ CurrentProcessInfo d' = CurrentProcessInfo d.

(** What a thread-stream function may change of the world: thread streams
    and their registration, and the sink through thread-stream calls. *)
Record thread_frame {S} (w w' : World S) : Prop := {
  tf_dispatch :
    match GDispatch w, GDispatch w' with
    | Some d, Some d' => same_streams d d'
    | None, None => True
    | _, _ => False
    end;
  tf_calls : ∃ tc, SinkCalls w' = SinkCalls w ++ tc ∧ Forall is_thread_call tc;
  tf_clock : ClockReads w ≤ ClockReads w';
}.

(** A run that emits a span event on thread 1, shuts the dispatch down (with
    a sink whose [OnShutdown] does nothing) and emits a second span event
    on the same thread. *)
Definition sample_span_event : BeginThreadSpanEvent.t :=
  {| BeginThreadSpanEvent.Desc := 12288; BeginThreadSpanEvent.Timestamp := 150 |}.

Definition world_after_shutdown : World unit :=
  Shutdown (λ _ w, w) 1
    (BeginScope sample_platform null_sink 1 sample_span_event
       (Init sample_platform null_sink sample_process_info 4096 4096 4096
          (fresh_world tt))).

Definition late_span_event : World unit :=
  BeginScope sample_platform null_sink 1 sample_span_event world_after_shutdown.

(** The number of events in the current block of the thread stream at
    [stream]. *)
Definition thread_stream_events {S} (stream : nat) (w : World S) : option Z :=
  (λ s : ThreadStream, GetNbEvents (Events (CurrentBlock s)))
    <$> ThreadStreamHeap w !! stream.

(** The [DualTime] that [DualTime::Now()] returns at reading [n] of the
    clocks. *)
Definition reading (platform : Platform) (n : nat) : DualTime.t :=
  {| DualTime.Timestamp := Cycles64_at platform n;
     DualTime.SystemTime := system_clock_at platform n |}.

(** The blocks [bs] hold, block after block, the events [xs]. *)
Definition blocks_hold {k : QueueKind} (bs : list (EventBlock (kind_types k)))
    (xs : list (OneOf (kind_types k))) : Prop :=
  ∃ xss, Forall2 holds bs xss ∧ xs = concat xss.

(** The log stream of [w] has been handed [logs] since the first [since]
    calls on the sink, and the metric stream [metrics]: each is what the
    blocks delivered since then hold, followed by what the current block
    holds. *)
Definition history_is {S} (since : nat) (w : World S)
    (logs : list (OneOf LogEventTypes))
    (metrics : list (OneOf MetricEventTypes)) : Prop :=
  ∃ d, GDispatch w = Some d ∧ since ≤ length (SinkCalls w)
  ∧ (∃ dl cl, blocks_hold (k := LogEvents)
                (log_blocks (drop since (SinkCalls w))) dl
              ∧ holds (k := LogEvents) (CurrentBlock (LogEntries d)) cl
              ∧ logs = dl ++ cl)
  ∧ (∃ dm cm, blocks_hold (k := MetricEvents)
                (metric_blocks (drop since (SinkCalls w))) dm
              ∧ holds (k := MetricEvents) (CurrentBlock (Metrics d)) cm
              ∧ metrics = dm ++ cm).

(** What a forced rotation of the log stream of [d] does, seen from the
    outside: the block that was current is closed at reading [n] of the
    clocks and handed to the sink, a fresh block that begins at the same
    reading is current, and nothing else changes but thread streams. *)
Record log_rotated {S} (platform : Platform) (d : Dispatch) (n : nat)
    (w w' : World S) : Prop := {
  lr_dispatch :
    ∃ d', GDispatch w' = Some d'
          ∧ LogEntries d' =
              (SwapBlocks
                 (NewEventBlock (GetStreamId (LogEntries d))
                    (reading platform n) (LogBufferSize d))
                 (LogEntries d)).2
          ∧ Metrics d' = Metrics d
          ∧ LogBufferSize d' = LogBufferSize d
          ∧ MetricBufferSize d' = MetricBufferSize d
          ∧ ThreadBufferSize d' = ThreadBufferSize d
          ∧ CurrentProcessInfo d' = CurrentProcessInfo d;
  lr_calls :
    ∃ tc1 tc2,
      SinkCalls w' =
        SinkCalls w ++ tc1
          ++ ProcessLogBlockCall
               (Close (reading platform n) (CurrentBlock (LogEntries d)))
          :: tc2
      ∧ Forall is_thread_call tc1 ∧ Forall is_thread_call tc2;
  lr_clock : ClockReads w < n ∧ n < ClockReads w';
}.

Record metric_rotated {S} (platform : Platform) (d : Dispatch) (n : nat)
    (w w' : World S) : Prop := {
  mr_dispatch :
    ∃ d', GDispatch w' = Some d'
          ∧ Metrics d' =
              (SwapBlocks
                 (NewEventBlock (GetStreamId (Metrics d))
                    (reading platform n) (MetricBufferSize d))
                 (Metrics d)).2
          ∧ LogEntries d' = LogEntries d
          ∧ LogBufferSize d' = LogBufferSize d
          ∧ MetricBufferSize d' = MetricBufferSize d
          ∧ ThreadBufferSize d' = ThreadBufferSize d
          ∧ CurrentProcessInfo d' = CurrentProcessInfo d;
  mr_calls :
    ∃ tc1 tc2,
      SinkCalls w' =
        SinkCalls w ++ tc1
          ++ ProcessMetricBlockCall
               (Close (reading platform n) (CurrentBlock (Metrics d)))
          :: tc2
      ∧ Forall is_thread_call tc1 ∧ Forall is_thread_call tc2;
  mr_clock : ClockReads w < n ∧ n < ClockReads w';
}.

(** A run of the public interface on two threads.  With a log buffer of 129
    bytes and a metric buffer of 33 bytes (thresholds of one byte) every
    event it emits fills its stream. *)
Definition sample_metric_event : IntegerMetricEvent.t :=
  {| IntegerMetricEvent.Desc := 20480; IntegerMetricEvent.Value := 7;
     IntegerMetricEvent.Timestamp := 120 |}.

Definition sample_ops : list Op :=
  [DoLogStaticStr 1 {| LogStaticStrEvent.Desc := 4096;
                       LogStaticStrEvent.Timestamp := 1000 |};
   DoIntMetric 1 sample_metric_event;
   DoLogInterop 2 sample_interop;
   DoFlushLogStream 1;
   DoIntMetric 2 sample_metric_event].

Definition sample_run : World unit :=
  run sample_platform null_sink sample_ops
    (Init sample_platform null_sink sample_process_info 129 33 4096
       (fresh_world tt)).

(** The log event of the [LGN_LOG_STATIC] in [RemoteSink::OnShutdown] when
    [OnShutdown] is entered in [w]. *)
Definition shutting_down_event {S} (platform : Platform) (rhost : RemoteHost)
    (w : World S) : OneOf LogEventTypes :=
  Here (T := LogStaticStrEvent_t)
    {| LogStaticStrEvent.Desc := logMeta_ShuttingDown rhost;
       LogStaticStrEvent.Timestamp := Cycles64_at platform (ClockReads w) |}.

(** A process with the remote sink installed in which two log events and
    one metric event have been emitted and are still in the current blocks
    of their streams. *)
Definition world_before_shutdown : World RemoteSink :=
  run sample_platform (RemoteSink_callbacks sample_remote_host)
    [DoLogStaticStr 1 {| LogStaticStrEvent.Desc := 4096;
                         LogStaticStrEvent.Timestamp := 1000 |};
     DoIntMetric 1 sample_metric_event;
     DoLogInterop 2 sample_interop]
    (Init sample_platform (RemoteSink_callbacks sample_remote_host)
       sample_process_info 4096 4096 4096 (fresh_world (NewRemoteSink 0 600))).

(** The dispatch of [world_before_shutdown]. *)
Definition sample_dispatch : Dispatch :=
  let d :=
    (NewDispatch sample_platform sample_process_info 4096 4096 4096
       (fresh_world (NewRemoteSink 0 600))).1 in
  let d := set_LogEntries (StreamPush sample_static_event (LogEntries d)) d in
  let d :=
    set_Metrics
      (StreamPush (Here (T := IntegerMetricEvent_t) sample_metric_event)
         (Metrics d)) d in
  set_LogEntries (StreamPush sample_interop_event (LogEntries d)) d.

(** A process with the remote sink installed and a log buffer of 129 bytes
    (a threshold of one byte), shut down right after [Init]. *)
Definition world_with_small_log_buffer : World RemoteSink :=
  Init sample_platform (RemoteSink_callbacks sample_remote_host)
    sample_process_info 129 4096 4096 (fresh_world (NewRemoteSink 0 600)).

Definition small_log_buffer_dispatch : Dispatch :=
  (NewDispatch sample_platform sample_process_info 129 4096 4096
     (fresh_world (NewRemoteSink 0 600))).1.

Definition shutdown_with_small_log_buffer : World RemoteSink :=
  RemoteSink_Shutdown sample_platform sample_remote_host 1
    world_with_small_log_buffer.

(* ===================================================================== *)
(** * Vocabulary of the statements about block times                      *)
(* ===================================================================== *)

(** The timestamp of an event; a [StaticStringRef] record has none. *)
Definition event_timestamp (k : QueueKind) : OneOf (kind_types k) → option Z :=
  match k with
  | LogEvents => λ x,
      OneOf_case x (λ e, Some (LogStaticStrEvent.Timestamp e))
        (λ x, OneOf_case x (λ e, Some (LogStringInteropEvent.Timestamp e))
        (λ x, OneOf_case x (λ _, None) OneOf_nil))
  | MetricEvents => λ x,
      OneOf_case x (λ e, Some (IntegerMetricEvent.Timestamp e))
        (λ x, OneOf_case x (λ e, Some (FloatMetricEvent.Timestamp e))
           OneOf_nil)
  | ThreadEvents => λ x,
      OneOf_case x (λ e, Some (BeginThreadSpanEvent.Timestamp e))
        (λ x, OneOf_case x (λ e, Some (EndThreadSpanEvent.Timestamp e))
           OneOf_nil)
  end.

(** The timestamps of [xs] are between [lo] and [hi]. *)
Definition timestamps_between (k : QueueKind) (lo hi : Z)
    (xs : list (OneOf (kind_types k))) : Prop :=
  Forall (λ x, ∀ ts, event_timestamp k x = Some ts → (lo ≤ ts ≤ hi)%Z) xs.

(** The block decodes, and the timestamp of every event in it is between
    the cycle counts of its begin and end times. *)
Definition sealed_within (k : QueueKind) (b : EventBlock (kind_types k))
  : Prop :=
  ∃ xs, BlockEvents k b = Some xs
        ∧ timestamps_between k (DualTime.Timestamp (Begin b))
            (DualTime.Timestamp (End_ b)) xs.

(** The same of the blocks [delivered], and of the current block [cur] with
    reading [n] of the cycle counter in place of the end time. *)
Definition times_inv {k : QueueKind} (platform : Platform)
    (delivered : list (EventBlock (kind_types k)))
    (cur : EventBlock (kind_types k)) (n : nat) : Prop :=
  Forall (λ b, ∃ xs, holds b xs
                     ∧ timestamps_between k (DualTime.Timestamp (Begin b))
                         (DualTime.Timestamp (End_ b)) xs) delivered
  ∧ (DualTime.Timestamp (Begin cur) ≤ Cycles64_at platform n)%Z
  ∧ ∃ xs, holds cur xs
          ∧ timestamps_between k (DualTime.Timestamp (Begin cur))
              (Cycles64_at platform n) xs.

Definition world_times_ok {S} (platform : Platform) (since : nat)
    (w : World S) : Prop :=
  ∃ d, GDispatch w = Some d ∧ since ≤ length (SinkCalls w)
       ∧ times_inv (k := LogEvents) platform
           (log_blocks (drop since (SinkCalls w)))
           (CurrentBlock (LogEntries d)) (ClockReads w)
       ∧ times_inv (k := MetricEvents) platform
           (metric_blocks (drop since (SinkCalls w)))
           (CurrentBlock (Metrics d)) (ClockReads w).

(** The cycle counter never goes back, and its readings are [uint64]. *)
Definition steady_clock (platform : Platform) : Prop :=
  (∀ i j, i ≤ j → (Cycles64_at platform i ≤ Cycles64_at platform j)%Z)
  ∧ ∀ n, in_uint 64 (Cycles64_at platform n).

(** The emissions of instrumented code, each of which reads the cycle
    counter for the timestamp of its event: the macros of Macros.h, the
    two halves of a [SpanGuard], the log bridge; and the flushes. *)
Inductive Emission : Type :=
| EmitLogStatic (tid : nat) (desc : Z)
| EmitLogBridge (tid : nat) (V : string) (verbosity : ELogVerbosity.Type_)
    (category : Z)
| EmitIMetric (tid : nat) (desc : Z) (expr : Z)
| EmitFMetric (tid : nat) (desc : Z) (expr : Z)
| EnterSpan (tid : nat) (desc : Z)
| LeaveSpan (tid : nat) (desc : Z)
| EmitFlushLogStream (tid : nat)
| EmitFlushMetricStream (tid : nat)
| EmitMarkThreadStreamsFull.

Definition emission_wf (e : Emission) : Prop :=
  match e with
  | EmitLogStatic _ desc => in_uint 64 desc
  | EmitLogBridge _ V _ category =>
      in_uint 64 category ∧ DynamicString_wf (DynamicString_of_TCHAR V)
  | EmitIMetric _ desc expr | EmitFMetric _ desc expr =>
      in_uint 64 desc ∧ in_uint 64 expr
  | EnterSpan _ desc | LeaveSpan _ desc => in_uint 64 desc
  | _ => True
  end.

Section Emit.
Context {S : Type}.
Variable platform : Platform.
Variable sink : EventSink S.

Definition emit (w : World S) (e : Emission) : World S :=
  match e with
  | EmitLogStatic tid desc => LGN_LOG_STATIC platform sink tid desc w
  | EmitLogBridge tid V verbosity category =>
      LogBridge_Serialize platform sink tid V verbosity category w
  | EmitIMetric tid desc expr => LGN_IMETRIC platform sink tid desc expr w
  | EmitFMetric tid desc expr => LGN_FMETRIC platform sink tid desc expr w
  | EnterSpan tid desc => SpanGuard_ctor platform sink tid desc w
  | LeaveSpan tid desc => SpanGuard_dtor platform sink tid desc w
  | EmitFlushLogStream tid => FlushLogStream platform sink tid w
  | EmitFlushMetricStream tid => FlushMetricStream platform sink tid w
  | EmitMarkThreadStreamsFull => ForEachThreadStream MarkFull w
  end.

Definition emit_all (es : list Emission) (w : World S) : World S :=
  foldl emit w es.
End Emit.

(** A run with thread buffers of 33 bytes (a threshold of one byte): the
    first span event on thread 1 creates the stream of the thread, fills
    its first block, and the block is flushed. *)
Definition span_run : World unit :=
  emit_all sample_platform null_sink [EnterSpan 1 12288]
    (Init sample_platform null_sink sample_process_info 4096 4096 33
       (fresh_world tt)).

Definition first_thread_block : option ThreadBlock :=
  head (thread_blocks (SinkCalls span_run)).

(** A run that rotates the log stream and the metric stream several times. *)
Definition sample_emissions : list Emission :=
  [EmitLogStatic 1 4096; EmitIMetric 1 20480 7; EnterSpan 2 12288;
   EmitLogBridge 2 "hi" ELogVerbosity.Display 500; EmitFlushLogStream 1;
   LeaveSpan 2 12288; EmitFMetric 1 20480 7; EmitFlushMetricStream 2].

Definition emission_run : World unit :=
  emit_all sample_platform null_sink sample_emissions
    (Init sample_platform null_sink sample_process_info 129 33 4096
       (fresh_world tt)).

(* ===================================================================== *)
(** * Vocabulary of the statements about records                          *)
(* ===================================================================== *)

(** The payload of the record of [x]: what [Serializer<T>::Write] appends
    for it. *)
Fixpoint payload {TS} (x : OneOf TS) : list byte :=
  match x with
  | @Here T _ event => Write (ser T) event []
  | Next x' => payload x'
  end.

(** [Serializer<T>::IsSizeStatic()] and [Serializer<T>::GetSize(event)] for
    the type of [x]. *)
Fixpoint size_is_static {TS} (x : OneOf TS) : bool :=
  match x with
  | @Here T _ _ => IsSizeStatic (ser T)
  | Next x' => size_is_static x'
  end.

Fixpoint declared_size {TS} (x : OneOf TS) : Z :=
  match x with
  | @Here T _ event => GetSize (ser T) event
  | Next x' => declared_size x'
  end.

(** The text a [StaticStringDependency] carries for [ref]: the characters
    of the name entry for an [FName], the bytes the reference points to
    otherwise. *)
Definition dependency_text (mem : Memory) (ref : StaticStringRef)
  : DynamicString :=
  if decide (Codec ref = StringCodec.UnrealName) then
    let entry := NameEntryAt mem (GetID ref) in
    if FNameEntry.IsWide entry
    then {| DynCodec := StringCodec.Wide;
            DynBytes := FNameEntry.GetWideName entry |}
    else {| DynCodec := StringCodec.Ansi;
            DynBytes := FNameEntry.GetAnsiName entry |}
  else DynamicString_of_ref mem ref.

(** A log event whose message is the two characters "hi", and a reference
    to a name entry. *)
Definition sample_name_ref : StaticStringRef := StaticStringRef_of_FNameEntry 500.

(* ===================================================================== *)
(** * Vocabulary of the statements about the streams of the dispatch      *)
(* ===================================================================== *)

(** The stream has the threshold of a block of [bufferSize] bytes and its
    current block is below it. *)
Definition below_threshold {TS PAD} (s : EventStreamImpl TS PAD)
    (bufferSize : Z) : Prop :=
  FullThreshold s = (bufferSize - PAD)%Z
  ∧ (Z.of_nat (BlockSizeBytes (CurrentBlock s)) < bufferSize - PAD)%Z.

(** The blocks [bs] follow one another in time from [begin]: each begins
    when the one before it ended, and the last one ended at [last]. *)
Fixpoint contiguous {TS} (begin : DualTime.t) (bs : list (EventBlock TS))
    (last : DualTime.t) : Prop :=
  match bs with
  | [] => begin = last
  | b :: bs' => Begin b = begin ∧ contiguous (End_ b) bs' last
  end.

(** The blocks [delivered] and the current block [cur] are those of the
    stream [streamId], made for [bufferSize] bytes; the delivered ones were
    closed at a reading of the clocks, and the blocks follow one another in
    time from [start]. *)
Definition blocks_shaped {TS} (platform : Platform) (streamId : string)
    (bufferSize : Z) (start : DualTime.t) (delivered : list (EventBlock TS))
    (cur : EventBlock TS) : Prop :=
  Forall (λ b, BlockStreamId b = streamId ∧ Capacity b = bufferSize
               ∧ ∃ n, End_ b = reading platform n) delivered
  ∧ BlockStreamId cur = streamId ∧ Capacity cur = bufferSize
  ∧ contiguous start delivered (Begin cur).

(** The streams of the dispatch of [w] are below their thresholds. *)
Definition streams_below {S} (logBufferSize metricBufferSize : Z)
    (w : World S) : Prop :=
  ∃ d, GDispatch w = Some d
       ∧ LogBufferSize d = logBufferSize
       ∧ MetricBufferSize d = metricBufferSize
       ∧ below_threshold (LogEntries d) logBufferSize
       ∧ below_threshold (Metrics d) metricBufferSize.

(** The calls on the sink are [base] followed by [rest], and the log and
    metric blocks among [rest], with the current blocks, are shaped as
    above. *)
Definition streams_shaped {S} (platform : Platform) (processInfo : ProcessInfo)
    (logId metricId : string) (logBufferSize metricBufferSize : Z)
    (base : list SinkCall) (w : World S) : Prop :=
  ∃ d rest,
    GDispatch w = Some d ∧ SinkCalls w = base ++ rest
    ∧ StreamId (LogEntries d) = logId ∧ LogBufferSize d = logBufferSize
    ∧ StreamId (Metrics d) = metricId ∧ MetricBufferSize d = metricBufferSize
    ∧ blocks_shaped platform logId logBufferSize (StartTime processInfo)
        (log_blocks rest) (CurrentBlock (LogEntries d))
    ∧ blocks_shaped platform metricId metricBufferSize (StartTime processInfo)
        (metric_blocks rest) (CurrentBlock (Metrics d)).

(* ===================================================================== *)
(** * Vocabulary of the statements about thread streams                   *)
(* ===================================================================== *)

(** The thread streams announced to the sink by [calls]. *)
Definition init_thread_calls (calls : list SinkCall) : list ThreadStream :=
  calls ≫= λ c, match c with InitThreadStreamCall s => [s] | _ => [] end.

(** Each thread that has a stream has one of its own, every stream
    allocated is registered with the dispatch, in the order of allocation,
    and has been announced to the sink once since the first [since]
    calls. *)
Definition threads_ok {S} (since : nat) (w : World S) : Prop :=
  ∃ d, GDispatch w = Some d
       ∧ since ≤ length (SinkCalls w)
       ∧ ThreadStreams d = seq 0 (length (ThreadStreamHeap w))
       ∧ (∀ tid p, ThreadLocalPtr w !! tid = Some p
                   → p < length (ThreadStreamHeap w))
       ∧ (∀ tid1 tid2 p, ThreadLocalPtr w !! tid1 = Some p
                         → ThreadLocalPtr w !! tid2 = Some p → tid1 = tid2)
       ∧ size (ThreadLocalPtr w) = length (ThreadStreamHeap w)
       ∧ length (init_thread_calls (drop since (SinkCalls w)))
         = length (ThreadStreamHeap w).

(** The stream [AllocThreadStream] makes in [w] for the dispatch [d]. *)
Definition new_thread_stream {S} (platform : Platform) (d : Dispatch)
    (w : World S) : ThreadStream :=
  let streamId := AllocNewGuid_at platform (GuidsAllocated w) in
  NewStream (InfoProcessId (CurrentProcessInfo d)) streamId
    (NewEventBlock streamId (reading platform (ClockReads w))
       (ThreadBufferSize d))
    ["cpu"].

(** The stream [s] after [FlushThreadStream] at reading [n] of the clocks,
    for thread buffers of [bufferSize] bytes. *)
Definition flushed_thread_stream (platform : Platform) (n : nat)
    (bufferSize : Z) (s : ThreadStream) : ThreadStream :=
  (SwapBlocks
     (NewEventBlock (GetStreamId s) (reading platform n) bufferSize) s).2.

(** A process in which thread 1 has emitted one span event: the world, its
    dispatch and the stream of the thread. *)
Definition span_scope_open : World unit :=
  BeginScope sample_platform null_sink 1 sample_span_event
    (Init sample_platform null_sink sample_process_info 4096 4096 4096
       (fresh_world tt)).

Definition span_scope_dispatch : Dispatch :=
  set_ThreadStreams [0]
    (NewDispatch sample_platform sample_process_info 4096 4096 4096
       (fresh_world tt)).1.

Definition span_scope_stream : ThreadStream :=
  StreamPush (Here (T := BeginThreadSpanEvent_t) sample_span_event)
    (new_thread_stream sample_platform span_scope_dispatch
       (Init sample_platform null_sink sample_process_info 4096 4096 4096
          (fresh_world tt))).

(** Calls that only concern the thread streams. *)
Definition is_span_op (op : Op) : Prop :=
  match op with
  | DoBeginScope _ _ | DoEndScope _ _ | DoMarkThreadStreamsFull => True
  | _ => False
  end.

(** The span event that [op] emits on thread [tid], if any. *)
Definition thread_event_of (tid : nat) (op : Op)
  : list (OneOf ThreadEventTypes) :=
  match op with
  | DoBeginScope t e =>
      if decide (t = tid) then [Here (T := BeginThreadSpanEvent_t) e] else []
  | DoEndScope t e =>
      if decide (t = tid)
      then [Next (Here (T := EndThreadSpanEvent_t) e)] else []
  | _ => []
  end.

(** The blocks of the stream [streamId] among [bs]. *)
Definition stream_blocks (streamId : string) (bs : list ThreadBlock)
  : list ThreadBlock :=
  filter (λ b, BlockStreamId b = streamId) bs.

(** The span events of the blocks of the stream of thread [tid] handed to
    the sink after the first [since] calls, followed by those of the
    current block of that stream. *)
Definition ThreadHistory {S} (since : nat) (tid : nat) (w : World S)
  : option (list (OneOf ThreadEventTypes)) :=
  p ← ThreadLocalPtr w !! tid;
  s ← ThreadStreamHeap w !! p;
  delivered ← blocks_events ThreadEvents
                 (stream_blocks (StreamId s)
                    (thread_blocks (drop since (SinkCalls w))));
  current ← BlockEvents ThreadEvents (CurrentBlock s);
  Some (delivered ++ current).

(** [OnInitThreadStream] leaves the block and the id of the stream it is
    handed as they are. *)
Definition sink_keeps_blocks {S} (sink : EventSink S) : Prop :=
  ∀ tid s st,
    CurrentBlock (OnInitThreadStream sink tid s st).1 = CurrentBlock s
    ∧ StreamId (OnInitThreadStream sink tid s st).1 = StreamId s.

(** The GUID allocator never returns the same value twice. *)
Definition guids_unique (platform : Platform) : Prop :=
  ∀ i j, AllocNewGuid_at platform i = AllocNewGuid_at platform j → i = j.

(** Thread [tid] has emitted [evs tid]: a thread that has emitted nothing
    has no stream, and the stream of a thread that has holds, in the blocks
    handed to the sink and then in its current block, the events of the
    thread in order.  Streams of distinct threads are distinct and have
    distinct ids, allocated by the GUID allocator. *)
Definition thread_history_is {S} (platform : Platform) (since : nat)
    (w : World S) (evs : nat → list (OneOf ThreadEventTypes)) : Prop :=
  ∃ d, GDispatch w = Some d ∧ since ≤ length (SinkCalls w)
  ∧ (∀ tid, ThreadLocalPtr w !! tid = None → evs tid = [])
  ∧ (∀ tid p, ThreadLocalPtr w !! tid = Some p →
       ∃ s g, ThreadStreamHeap w !! p = Some s
              ∧ StreamId s = AllocNewGuid_at platform g
              ∧ g < GuidsAllocated w
              ∧ BlockStreamId (CurrentBlock s) = StreamId s
              ∧ ∃ dl cl,
                  blocks_hold (k := ThreadEvents)
                    (stream_blocks (StreamId s)
                       (thread_blocks (drop since (SinkCalls w)))) dl
                  ∧ holds (k := ThreadEvents) (CurrentBlock s) cl
                  ∧ evs tid = dl ++ cl)
  ∧ (∀ tid1 tid2 p, ThreadLocalPtr w !! tid1 = Some p
                    → ThreadLocalPtr w !! tid2 = Some p → tid1 = tid2)
  ∧ (∀ tid1 tid2 p1 p2 s1 s2,
       ThreadLocalPtr w !! tid1 = Some p1 → ThreadLocalPtr w !! tid2 = Some p2
       → ThreadStreamHeap w !! p1 = Some s1
       → ThreadStreamHeap w !! p2 = Some s2
       → StreamId s1 = StreamId s2 → tid1 = tid2)
  ∧ Forall (λ b, ∃ g, g < GuidsAllocated w
                      ∧ BlockStreamId b = AllocNewGuid_at platform g)
      (thread_blocks (drop since (SinkCalls w))).

(** The sample platform with GUIDs that differ. *)
Fixpoint numbered_guid (n : nat) : string :=
  match n with
  | O => "guid"
  | S n' => String.append "g" (numbered_guid n')
  end.

Definition numbered_platform : Platform :=
  {| Cycles64_at := Cycles64_at sample_platform;
     system_clock_at := system_clock_at sample_platform;
     AllocNewGuid_at := numbered_guid;
     spanMeta_FlushLogStreamImpl := 16384;
     spanMeta_FlushMetricStreamImpl := 16448 |}.

(** Span events on two threads with thread buffers of 33 bytes: every
    event fills the block of its thread. *)
Definition sample_span_ops : list Op :=
  [DoBeginScope 1 sample_span_event;
   DoBeginScope 2 sample_span_event;
   DoEndScope 1 {| EndThreadSpanEvent.Desc := 12288;
                   EndThreadSpanEvent.Timestamp := 160 |};
   DoMarkThreadStreamsFull;
   DoEndScope 2 {| EndThreadSpanEvent.Desc := 12288;
                   EndThreadSpanEvent.Timestamp := 170 |}].

Definition sample_span_run : World unit :=
  run numbered_platform null_sink sample_span_ops
    (Init numbered_platform null_sink sample_process_info 4096 4096 33
       (fresh_world tt)).

(* ===================================================================== *)
(** * QueueMetadata.h, LogMetadata.h, MetricMetadata.h, ThreadMetadata.h,
      StringsMetadata.h                                                   *)
(* ===================================================================== *)

Module UDTMember.
Record t := Mk {
    Name : string;
    TypeName : string;
    Offset : Z;
    Size : Z;
    IsReference : bool;
  }.
End UDTMember.

Module UserDefinedType.
Record t := Mk {
    Name : string;
    Size : Z;
    IsReference : bool;
    Members : list UDTMember.t;
  }.
End UserDefinedType.

(** The declaration of a struct: the name and the size of the type of each
    data member, in declaration order.  The member types that occur are
    integers, enumerations and pointers, which are aligned to their
    size. *)
Definition StructDecl := list (string * nat).

Definition align_up (offset alignment : nat) : nat :=
  ((offset + alignment - 1) / alignment) * alignment.

(** [STRUCT_OFFSET(udt, memberName)], in a struct whose members before
    [decl] end at [cursor]. *)
Fixpoint offset_from (cursor : nat) (decl : StructDecl) (memberName : string)
  : nat :=
  match decl with
  | [] => cursor
  | (name, size) :: rest =>
      let start := align_up cursor size in
      if decide (name = memberName) then start
      else offset_from (start + size) rest memberName
  end.

Definition STRUCT_OFFSET (udt : StructDecl) (memberName : string) : nat :=
  offset_from 0 udt memberName.

(** [sizeof(udt::memberName)] *)
Definition sizeof_member (udt : StructDecl) (memberName : string) : nat :=
  match list_find (λ m, m.1 = memberName) udt with
  | Some (_, (_, size)) => size
  | None => 0
  end.

(** [sizeof(udt)]: the end of the last member, rounded up to the largest
    alignment of a member. *)
Definition sizeof_struct (udt : StructDecl) : nat :=
  let end_ := foldl (λ cursor m, align_up cursor m.2 + m.2) 0 udt in
  align_up end_ (foldr (λ m a, Nat.max m.2 a) 1 udt).

Definition MAKE_UDT_MEMBER_METADATA (udt : StructDecl)
    (reflectedName memberName memberType : string) (isReference : bool)
  : UDTMember.t :=
  UDTMember.Mk reflectedName memberType
    (Z.of_nat (STRUCT_OFFSET udt memberName) mod uint32_max)%Z
    (Z.of_nat (sizeof_member udt memberName) mod uint32_max)%Z
    isReference.

(** The structs of strings.h, LogEvents.h, MetricEvents.h, SpanEvents.h and
    ThreadMetadata.h that have reflected members. *)
Definition StaticStringRef_decl : StructDecl :=
  [("Ptr", 8); ("SizeBytes", 4); ("Codec", 1)].
Definition LogMetadataDependency_decl : StructDecl :=
  [("Id", 8); ("Target", 8); ("Msg", 8); ("File", 8); ("Line", 4);
   ("Level", 1)].
Definition LogStaticStrEvent_decl : StructDecl :=
  [("Desc", 8); ("Timestamp", 8)].
Definition IntegerMetricEvent_decl : StructDecl :=
  [("Desc", 8); ("Value", 8); ("Timestamp", 8)].
Definition FloatMetricEvent_decl : StructDecl :=
  [("Desc", 8); ("Value", 8); ("Timestamp", 8)].
Definition MetricMetadataDependency_decl : StructDecl :=
  [("Id", 8); ("Lod", 1); ("Name", 8); ("Unit", 8); ("Target", 8);
   ("File", 8); ("Line", 4)].
Definition BeginThreadSpanEvent_decl : StructDecl :=
  [("Desc", 8); ("Timestamp", 8)].
Definition EndThreadSpanEvent_decl : StructDecl :=
  [("Desc", 8); ("Timestamp", 8)].
Definition SpanMetadataDependency_decl : StructDecl :=
  [("Id", 8); ("Name", 8); ("Target", 8); ("File", 8); ("Line", 4)].

(** The specializations of [GetEventMetadata<T>]. *)
Module GetEventMetadata.
Definition StaticStringRef : UserDefinedType.t :=
    UserDefinedType.Mk "StaticStringRef"
      (Z.of_nat (sizeof_struct StaticStringRef_decl) mod uint32_max)%Z
      true
      [MAKE_UDT_MEMBER_METADATA StaticStringRef_decl "id" "Ptr" "uint64" true].

Definition StaticStringDependency : UserDefinedType.t :=
    UserDefinedType.Mk "StaticStringDependency" 0 false [].

Definition LogStringInteropEvent : UserDefinedType.t :=
    UserDefinedType.Mk "LogStringInteropEventV3" 0 false [].

Definition LogMetadataDependency : UserDefinedType.t :=
    let udt := LogMetadataDependency_decl in
    UserDefinedType.Mk "LogMetadataDependency"
      (Z.of_nat (sizeof_struct udt) mod uint32_max)%Z
      false
      [MAKE_UDT_MEMBER_METADATA udt "id" "Id" "uint64" false;
       MAKE_UDT_MEMBER_METADATA udt "target" "Target" "StaticStringRef" true;
       MAKE_UDT_MEMBER_METADATA udt "fmt_str" "Msg" "StaticStringRef" true;
       MAKE_UDT_MEMBER_METADATA udt "file" "File" "StaticStringRef" true;
       MAKE_UDT_MEMBER_METADATA udt "line" "Line" "uint32" false;
       MAKE_UDT_MEMBER_METADATA udt "level" "Level" "uint8" false].

Definition LogStaticStrEvent : UserDefinedType.t :=
    let udt := LogStaticStrEvent_decl in
    UserDefinedType.Mk "LogStaticStrEvent"
      (Z.of_nat (sizeof_struct udt) mod uint32_max)%Z
      false
      [MAKE_UDT_MEMBER_METADATA udt "desc" "Desc" "LogMetadata*" true;
       MAKE_UDT_MEMBER_METADATA udt "time" "Timestamp" "uint64" false].

Definition IntegerMetricEvent : UserDefinedType.t :=
    let udt := IntegerMetricEvent_decl in
    UserDefinedType.Mk "IntegerMetricEvent"
      (Z.of_nat (sizeof_struct udt) mod uint32_max)%Z
      false
      [MAKE_UDT_MEMBER_METADATA udt "desc" "Desc" "MetricMetadata*" true;
       MAKE_UDT_MEMBER_METADATA udt "value" "Value" "uint64" false;
       MAKE_UDT_MEMBER_METADATA udt "time" "Timestamp" "uint64" false].

Definition FloatMetricEvent : UserDefinedType.t :=
    let udt := FloatMetricEvent_decl in
    UserDefinedType.Mk "FloatMetricEvent"
      (Z.of_nat (sizeof_struct udt) mod uint32_max)%Z
      false
      [MAKE_UDT_MEMBER_METADATA udt "desc" "Desc" "MetricMetadata*" true;
       MAKE_UDT_MEMBER_METADATA udt "value" "Value" "f64" false;
       MAKE_UDT_MEMBER_METADATA udt "time" "Timestamp" "uint64" false].

Definition MetricMetadataDependency : UserDefinedType.t :=
    let udt := MetricMetadataDependency_decl in
    UserDefinedType.Mk "MetricMetadataDependency"
      (Z.of_nat (sizeof_struct udt) mod uint32_max)%Z
      false
      [MAKE_UDT_MEMBER_METADATA udt "id" "Id" "uint64" false;
       MAKE_UDT_MEMBER_METADATA udt "lod" "Lod" "uint8" false;
       MAKE_UDT_MEMBER_METADATA udt "name" "Name" "StaticStringRef" true;
       MAKE_UDT_MEMBER_METADATA udt "unit" "Unit" "StaticStringRef" true;
       MAKE_UDT_MEMBER_METADATA udt "target" "Target" "StaticStringRef" true;
       MAKE_UDT_MEMBER_METADATA udt "file" "File" "StaticStringRef" true;
       MAKE_UDT_MEMBER_METADATA udt "line" "Line" "uint32" false].

Definition BeginThreadSpanEvent : UserDefinedType.t :=
    let udt := BeginThreadSpanEvent_decl in
    UserDefinedType.Mk "BeginThreadSpanEvent"
      (Z.of_nat (sizeof_struct udt) mod uint32_max)%Z
      false
      [MAKE_UDT_MEMBER_METADATA udt "thread_span_desc" "Desc" "SpanMetadata*"
         true;
       MAKE_UDT_MEMBER_METADATA udt "time" "Timestamp" "uint64" false].

Definition EndThreadSpanEvent : UserDefinedType.t :=
    let udt := EndThreadSpanEvent_decl in
    UserDefinedType.Mk "EndThreadSpanEvent"
      (Z.of_nat (sizeof_struct udt) mod uint32_max)%Z
      false
      [MAKE_UDT_MEMBER_METADATA udt "thread_span_desc" "Desc" "SpanMetadata*"
         true;
       MAKE_UDT_MEMBER_METADATA udt "time" "Timestamp" "uint64" false].

Definition SpanMetadataDependency : UserDefinedType.t :=
    let udt := SpanMetadataDependency_decl in
    UserDefinedType.Mk "SpanMetadataDependency"
      (Z.of_nat (sizeof_struct udt) mod uint32_max)%Z
      false
      [MAKE_UDT_MEMBER_METADATA udt "id" "Id" "uint64" false;
       MAKE_UDT_MEMBER_METADATA udt "name" "Name" "StaticStringRef" true;
       MAKE_UDT_MEMBER_METADATA udt "target" "Target" "StaticStringRef" true;
       MAKE_UDT_MEMBER_METADATA udt "file" "File" "StaticStringRef" true;
       MAKE_UDT_MEMBER_METADATA udt "line" "Line" "uint32" false].
End GetEventMetadata.

(** One [GetEventMetadata<T>] per type of the list: instantiating
    [MakeQueueMetadata] needs all of them. *)
Fixpoint Metadatas (TS : list QueueType) : Type :=
  match TS with
  | [] => unit
  | HEAD :: REST => (UserDefinedType.t * Metadatas REST)%type
  end.

(** [AppendQueueMetadata<HEAD, NEXT, REST...>(array)] *)
Fixpoint AppendQueueMetadata (TS : list QueueType)
  : Metadatas TS → list UserDefinedType.t → list UserDefinedType.t :=
  match TS with
  | [] => λ _ array, array
  | HEAD :: REST => λ md array,
      let array := array ++ [md.1] in
      AppendQueueMetadata REST md.2 array
  end.

(** [MakeQueueMetadata<HeterogeneousQueue<TS...>>()()] *)
Definition MakeQueueMetadata (TS : list QueueType) (md : Metadatas TS)
  : list UserDefinedType.t :=
  let res := [] in
  AppendQueueMetadata TS md res.

(** The instantiations of InsertStreamRequest.cpp: the event queue and the
    dependency queue of each stream type. *)
Definition LogEventMetadatas : Metadatas LogEventTypes :=
  (GetEventMetadata.LogStaticStrEvent,
   (GetEventMetadata.LogStringInteropEvent,
    (GetEventMetadata.StaticStringRef, tt))).
Definition MetricEventMetadatas : Metadatas MetricEventTypes :=
  (GetEventMetadata.IntegerMetricEvent,
   (GetEventMetadata.FloatMetricEvent, tt)).
Definition ThreadEventMetadatas : Metadatas ThreadEventTypes :=
  (GetEventMetadata.BeginThreadSpanEvent,
   (GetEventMetadata.EndThreadSpanEvent, tt)).

Definition kind_metadatas (k : QueueKind) : Metadatas (kind_types k) :=
  match k with
  | LogEvents => LogEventMetadatas
  | MetricEvents => MetricEventMetadatas
  | ThreadEvents => ThreadEventMetadatas
  end.

Definition dep_metadatas (k : QueueKind) (mem : Memory)
  : Metadatas (dep_types k mem) :=
  (GetEventMetadata.StaticStringDependency,
   (match k with
    | LogEvents => GetEventMetadata.LogMetadataDependency
    | MetricEvents => GetEventMetadata.MetricMetadataDependency
    | ThreadEvents => GetEventMetadata.SpanMetadataDependency
    end, tt)).

(* ===================================================================== *)
(** * Vocabulary of the statements about the metadata                     *)
(* ===================================================================== *)

(** The bytes of a payload that a member of a type description points
    at. *)
Definition member_bytes (m : UDTMember.t) (bytes : list byte) : list byte :=
  take (Z.to_nat (UDTMember.Size m)) (drop (Z.to_nat (UDTMember.Offset m)) bytes).

(** For each type of the list, the values of the reflected members of a
    value, in the order of the description. *)
Fixpoint Reflected (TS : list QueueType) : Type :=
  match TS with
  | [] => unit
  | HEAD :: REST => ((car HEAD → list Z) * Reflected REST)%type
  end.

Fixpoint member_values {TS} (x : OneOf TS) : Reflected TS → list Z :=
  match x in OneOf TS return Reflected TS → list Z with
  | Here value => λ r, r.1 value
  | Next x' => λ r, member_values x' r.2
  end.

Definition LogEvent_members : Reflected LogEventTypes :=
  (λ e, [LogStaticStrEvent.Desc e; LogStaticStrEvent.Timestamp e],
   (λ _, [],
    (λ r, [Ptr r], tt))).
Definition MetricEvent_members : Reflected MetricEventTypes :=
  (λ e, [IntegerMetricEvent.Desc e; IntegerMetricEvent.Value e;
         IntegerMetricEvent.Timestamp e],
   (λ e, [FloatMetricEvent.Desc e; FloatMetricEvent.Value e;
          FloatMetricEvent.Timestamp e], tt)).
Definition ThreadEvent_members : Reflected ThreadEventTypes :=
  (λ e, [BeginThreadSpanEvent.Desc e; BeginThreadSpanEvent.Timestamp e],
   (λ e, [EndThreadSpanEvent.Desc e; EndThreadSpanEvent.Timestamp e], tt)).

Definition kind_members (k : QueueKind) : Reflected (kind_types k) :=
  match k with
  | LogEvents => LogEvent_members
  | MetricEvents => MetricEvent_members
  | ThreadEvents => ThreadEvent_members
  end.

Definition dep_members (k : QueueKind) (mem : Memory)
  : Reflected (dep_types k mem) :=
  (λ _, [],
   (match k return car (metadata_dep_t k) → list Z with
    | LogEvents => λ d,
        [LogMetadataDependency.Id d; LogMetadataDependency.Target d;
         LogMetadataDependency.Msg d; LogMetadataDependency.File d;
         LogMetadataDependency.Line d;
         LogLevel.to_Z (LogMetadataDependency.Level d)]
    | MetricEvents => λ d,
        [MetricMetadataDependency.Id d;
         Verbosity.to_Z (MetricMetadataDependency.Lod d);
         MetricMetadataDependency.Name d; MetricMetadataDependency.Unit d;
         MetricMetadataDependency.Target d; MetricMetadataDependency.File d;
         MetricMetadataDependency.Line d]
    | ThreadEvents => λ d,
        [SpanMetadataDependency.Id d; SpanMetadataDependency.Name d;
         SpanMetadataDependency.Target d; SpanMetadataDependency.File d;
         SpanMetadataDependency.Line d]
    end, tt)).

(** The description at the index of the type of [x] describes the record
    of [x]: for a type of static size, its size is the length of the
    payload, and each member lies inside the payload, where the bytes are
    the value of the member, least significant first; a type with a
    serializer of its own is described with size 0 and no member. *)
Definition described {TS} (udts : list UserDefinedType.t)
    (members : Reflected TS) (x : OneOf TS) : Prop :=
  ∃ udt,
    udts !! Z.to_nat (IndexOfType x) = Some udt
    ∧ if size_is_static x then
        UserDefinedType.Size udt = Z.of_nat (length (payload x))
        ∧ Forall2
            (λ m v,
               (0 ≤ UDTMember.Offset m)%Z
               ∧ (0 < UDTMember.Size m)%Z
               ∧ (UDTMember.Offset m + UDTMember.Size m
                  ≤ UserDefinedType.Size udt)%Z
               ∧ member_bytes m (payload x)
                 = le_bytes (Z.to_nat (UDTMember.Size m)) v)
            (UserDefinedType.Members udt) (member_values x members)
      else
        UserDefinedType.Size udt = 0%Z ∧ UserDefinedType.Members udt = [].

(* ===================================================================== *)
(** * Vocabulary of the statements about the times of thread blocks       *)
(* ===================================================================== *)

(** The [SpanMetadata] objects of the two [LGN_SPAN_SCOPE] of Dispatch.cpp
    have addresses. *)
Definition span_metadata_ok (platform : Platform) : Prop :=
  in_uint 64 (spanMeta_FlushLogStreamImpl platform)
  ∧ in_uint 64 (spanMeta_FlushMetricStreamImpl platform).

(** No event of [xs] is stamped after [hi], and no event of [xs] but the
    first is stamped before [lo]. *)
Definition stamped_within (lo hi : Z) (xs : list (OneOf ThreadEventTypes))
  : Prop :=
  Forall (λ x, ∀ ts, event_timestamp ThreadEvents x = Some ts → (ts ≤ hi)%Z) xs
  ∧ Forall (λ x, ∀ ts, event_timestamp ThreadEvents x = Some ts → (lo ≤ ts)%Z)
      (tail xs).

(** The block decodes, no event in it is stamped after the end of the
    block, and no event but the first is stamped before its begin. *)
Definition thread_block_stamped (b : ThreadBlock) : Prop :=
  ∃ xs, BlockEvents ThreadEvents b = Some xs
        ∧ stamped_within (DualTime.Timestamp (Begin b))
            (DualTime.Timestamp (End_ b)) xs.

(** The same of the thread blocks handed to the sink after the first
    [since] calls, and of the current block of every thread stream with the
    next reading of the cycle counter in place of the end time. *)
Definition thread_times_ok {S} (platform : Platform) (since : nat)
    (w : World S) : Prop :=
  since ≤ length (SinkCalls w)
  ∧ Forall (λ b, ∃ xs, holds (k := ThreadEvents) b xs
                       ∧ stamped_within (DualTime.Timestamp (Begin b))
                           (DualTime.Timestamp (End_ b)) xs)
      (thread_blocks (drop since (SinkCalls w)))
  ∧ ∀ p (s : ThreadStream), ThreadStreamHeap w !! p = Some s →
      (DualTime.Timestamp (Begin (CurrentBlock s))
       ≤ Cycles64_at platform (ClockReads w))%Z
      ∧ ∃ xs, holds (k := ThreadEvents) (CurrentBlock s) xs
              ∧ stamped_within (DualTime.Timestamp (Begin (CurrentBlock s)))
                  (Cycles64_at platform (ClockReads w)) xs.

(** [x] was stamped with a reading of the cycle counter taken in a state
    in which every thread block had begun, and no block has begun since
    then. *)
Definition stamped_event {S} (platform : Platform) (w : World S)
    (x : OneOf ThreadEventTypes) : Prop :=
  event_wf (k := ThreadEvents) x
  ∧ ∃ m, event_timestamp ThreadEvents x = Some (Cycles64_at platform m)
         ∧ m < ClockReads w
         ∧ ∀ p (s : ThreadStream), ThreadStreamHeap w !! p = Some s →
             (DualTime.Timestamp (Begin (CurrentBlock s))
              ≤ Cycles64_at platform m)%Z
             ∨ holds (k := ThreadEvents) (CurrentBlock s) [].

(** Spans on two threads and a log line, with thread buffers of 33 bytes:
    every span event fills the block of its thread. *)
Definition sample_span_emissions : list Emission :=
  [EnterSpan 1 12288; EnterSpan 2 12288; LeaveSpan 1 12288;
   EmitLogStatic 1 4096; LeaveSpan 2 12288].

Definition span_emission_run : World unit :=
  emit_all sample_platform null_sink sample_span_emissions
    (Init sample_platform null_sink sample_process_info 4096 4096 33
       (fresh_world tt)).

(* ===================================================================== *)
(** * Vocabulary of the statements about the order of the events          *)
(* ===================================================================== *)

(** The call an emission makes once it has read [ts] from the cycle
    counter (the flushes read nothing). *)
Definition stamp (ts : Z) (e : Emission) : Op :=
  match e with
  | EmitLogStatic tid desc =>
      DoLogStaticStr tid {| LogStaticStrEvent.Desc := desc;
                            LogStaticStrEvent.Timestamp := ts |}
  | EmitLogBridge tid V verbosity category =>
      DoLogInterop tid
        {| LogStringInteropEvent.Timestamp := ts;
           LogStringInteropEvent.Level :=
             match verbosity with
             | ELogVerbosity.Fatal | ELogVerbosity.Error => LogLevel.Error
             | ELogVerbosity.Warning => LogLevel.Warn
             | ELogVerbosity.Display => LogLevel.Info
             | ELogVerbosity.Log => LogLevel.Debug
             | _ => LogLevel.Trace
             end;
           LogStringInteropEvent.Target := StaticStringRef_of_FNameEntry category;
           LogStringInteropEvent.Msg := DynamicString_of_TCHAR V |}
  | EmitIMetric tid desc expr =>
      DoIntMetric tid {| IntegerMetricEvent.Desc := desc;
                         IntegerMetricEvent.Value := expr;
                         IntegerMetricEvent.Timestamp := ts |}
  | EmitFMetric tid desc expr =>
      DoFloatMetric tid {| FloatMetricEvent.Desc := desc;
                           FloatMetricEvent.Value := expr;
                           FloatMetricEvent.Timestamp := ts |}
  | EnterSpan tid desc =>
      DoBeginScope tid {| BeginThreadSpanEvent.Desc := desc;
                          BeginThreadSpanEvent.Timestamp := ts |}
  | LeaveSpan tid desc =>
      DoEndScope tid {| EndThreadSpanEvent.Desc := desc;
                        EndThreadSpanEvent.Timestamp := ts |}
  | EmitFlushLogStream tid => DoFlushLogStream tid
  | EmitFlushMetricStream tid => DoFlushMetricStream tid
  | EmitMarkThreadStreamsFull => DoMarkThreadStreamsFull
  end.

Definition reads_counter (e : Emission) : bool :=
  match e with
  | EmitFlushLogStream _ | EmitFlushMetricStream _
  | EmitMarkThreadStreamsFull => false
  | _ => true
  end.

(** The calls the emissions [es] make when the [i]-th one reads the [i]-th
    element of [ns] as the index of its reading of the cycle counter. *)
Definition stamped_calls (platform : Platform) (ns : list nat)
    (es : list Emission) : list Op :=
  zip_with (λ n e, stamp (Cycles64_at platform n) e) ns es.

(** No event of [xs] has a timestamp larger than one of a later event. *)
Definition in_time_order (k : QueueKind) (xs : list (OneOf (kind_types k)))
  : Prop :=
  ∀ i j x y ti tj,
    i ≤ j → xs !! i = Some x → xs !! j = Some y →
    event_timestamp k x = Some ti → event_timestamp k y = Some tj →
    (ti ≤ tj)%Z.

(** No event of [xs] has a timestamp larger than [hi]. *)
Definition stamped_before (k : QueueKind) (hi : Z)
    (xs : list (OneOf (kind_types k))) : Prop :=
  Forall (λ x, ∀ ts, event_timestamp k x = Some ts → (ts ≤ hi)%Z) xs.

(** The log and metric events recorded since the first [since] calls are
    [logs] and [metrics]; they are in time order, and none is stamped after
    the next reading of the cycle counter. *)
Definition ordered_history {S} (platform : Platform) (since : nat)
    (w : World S) (logs : list (OneOf LogEventTypes))
    (metrics : list (OneOf MetricEventTypes)) : Prop :=
  history_is since w logs metrics
  ∧ in_time_order LogEvents logs ∧ in_time_order MetricEvents metrics
  ∧ stamped_before LogEvents (Cycles64_at platform (ClockReads w)) logs
  ∧ stamped_before MetricEvents (Cycles64_at platform (ClockReads w)) metrics.

(* ===================================================================== *)
(** * Bytes: round trips                                                  *)
(* ===================================================================== *)

Lemma Z_of_byte_range b : (0 ≤ Z_of_byte b < 256)%Z.
Proof.
  unfold Z_of_byte. pose proof (Byte.to_N_bounded b). lia.
Qed.

Lemma Z_of_byte_of_Z z : Z_of_byte (byte_of_Z z) = (z mod 256)%Z.
Proof.
  unfold byte_of_Z, Z_of_byte.
  assert (Hr : (0 ≤ z mod 256 < 256)%Z) by (apply Z.mod_pos_bound; lia).
  destruct (Byte.of_N (Z.to_N (z mod 256))) as [b|] eqn:Hb.
  - apply Byte.to_of_N in Hb. rewrite Hb. lia.
  - apply Byte.of_N_None_iff in Hb. lia.
Qed.

Lemma length_le_bytes n z : length (le_bytes n z) = n.
Proof. revert z. induction n as [|n IH]; intros z; simpl; [done | by rewrite IH]. Qed.

Lemma le_value_le_bytes n z :
  le_value (le_bytes n z) = (z mod 2 ^ (8 * Z.of_nat n))%Z.
Proof.
  revert z. induction n as [|n IH]; intros z.
  - simpl. by rewrite Z.mod_1_r.
  - cbn [le_bytes le_value]. rewrite IH, Z_of_byte_of_Z.
    replace (8 * Z.of_nat (S n))%Z with (8 + 8 * Z.of_nat n)%Z by lia.
    rewrite Z.pow_add_r by lia. change (2 ^ 8)%Z with 256%Z.
    rewrite Z.rem_mul_r by lia. reflexivity.
Qed.

Lemma le_value_le_bytes_small n z :
  in_uint (8 * Z.of_nat n) z → le_value (le_bytes n z) = z.
Proof.
  intros Hz. rewrite le_value_le_bytes. apply Z.mod_small. exact Hz.
Qed.

(* ===================================================================== *)
(** * PODs: the representations are faithful                              *)
(* ===================================================================== *)

Lemma uint_pod_ok n : pod_ok (uint_pod n) (in_uint (8 * Z.of_nat n)).
Proof.
  split; simpl.
  - intros v. apply length_le_bytes.
  - intros v Hv. rewrite take_ge by (rewrite length_le_bytes; lia).
    by rewrite le_value_le_bytes_small.
Qed.

Lemma uint8_pod_ok : pod_ok uint8_pod (in_uint 8).
Proof. apply (uint_pod_ok 1). Qed.

Lemma uint32_pod_ok : pod_ok uint32_pod (in_uint 32).
Proof. apply (uint_pod_ok 4). Qed.

Lemma uint64_pod_ok : pod_ok uint64_pod (in_uint 64).
Proof. apply (uint_pod_ok 8). Qed.

Lemma StringCodec_pod_ok : pod_ok StringCodec.pod (λ _, True).
Proof. split; [by intros [] | by intros [] _]. Qed.

Lemma LogLevel_pod_ok : pod_ok LogLevel.pod (λ _, True).
Proof. split; [by intros [] | by intros [] _]. Qed.

Lemma Verbosity_pod_ok : pod_ok Verbosity.pod (λ _, True).
Proof. split; [by intros [] | by intros [] _]. Qed.

Lemma get_member_app {T} (P : POD T) wf v rest :
  pod_ok P wf → wf v → get_member P (to_bytes P v ++ rest) = Some (v, rest).
Proof.
  intros [Hlen Hround] Hv. unfold get_member.
  rewrite take_app_length' by (by rewrite Hlen).
  rewrite Hround by done. simpl.
  by rewrite drop_app_length' by (by rewrite Hlen).
Qed.

Lemma ReadPOD_app {T} (P : POD T) wf v pre post :
  pod_ok P wf → wf v →
  ReadPOD P (pre ++ to_bytes P v ++ post) (length pre)
  = Some (v, length pre + sizeof P).
Proof.
  intros [Hlen Hround] Hv. unfold ReadPOD.
  rewrite decide_True by (rewrite !length_app, Hlen; lia).
  rewrite drop_app_length, take_app_length' by (by rewrite Hlen).
  by rewrite Hround.
Qed.

Lemma Read_POD_eq {T} (P : POD T) buffer cursor :
  Read_POD P buffer cursor = ReadPOD P buffer cursor.
Proof. reflexivity. Qed.

Lemma get_member_exact {T} (P : POD T) wf v :
  pod_ok P wf → wf v → get_member P (to_bytes P v) = Some (v, []).
Proof.
  intros HP Hv. rewrite <- (app_nil_r (to_bytes P v)).
  by apply (get_member_app P wf).
Qed.

(** Struct representations are proved faithful member by member. *)
Ltac pod_member_ok :=
  first [apply uint64_pod_ok | apply uint32_pod_ok
        | apply StringCodec_pod_ok | apply LogLevel_pod_ok
        | apply Verbosity_pod_ok].

Ltac pod_struct :=
  split;
  [ intros []; simpl; rewrite ?length_app, ?length_le_bytes; reflexivity
  | let Hwf := fresh "Hwf" in
    intros [] Hwf; cbn [to_bytes of_bytes] in *;
    repeat (rewrite <- ?(assoc_L (++));
            match goal with
            | |- context [get_member ?P (to_bytes ?P ?v ++ ?rest)] =>
                erewrite (get_member_app P _ v rest);
                [cbn [mbind option_bind]
                | pod_member_ok
                | first [exact I | apply Hwf] ]
            | |- context [get_member ?P (to_bytes ?P ?v)] =>
                erewrite (get_member_exact P _ v);
                [cbn [mbind option_bind]
                | pod_member_ok
                | first [exact I | apply Hwf] ]
            end);
    try reflexivity ].

Lemma StaticStringRef_pod_ok : pod_ok StaticStringRef_pod StaticStringRef_wf.
Proof. unfold StaticStringRef_pod. pod_struct. Qed.

Lemma LogStaticStrEvent_pod_ok : pod_ok LogStaticStrEvent.pod LogStaticStrEvent.wf.
Proof. unfold LogStaticStrEvent.pod. pod_struct. Qed.

Lemma IntegerMetricEvent_pod_ok : pod_ok IntegerMetricEvent.pod IntegerMetricEvent.wf.
Proof. unfold IntegerMetricEvent.pod. pod_struct. Qed.

Lemma FloatMetricEvent_pod_ok : pod_ok FloatMetricEvent.pod FloatMetricEvent.wf.
Proof. unfold FloatMetricEvent.pod. pod_struct. Qed.

Lemma BeginThreadSpanEvent_pod_ok :
  pod_ok BeginThreadSpanEvent.pod BeginThreadSpanEvent.wf.
Proof. unfold BeginThreadSpanEvent.pod. pod_struct. Qed.

Lemma EndThreadSpanEvent_pod_ok :
  pod_ok EndThreadSpanEvent.pod EndThreadSpanEvent.wf.
Proof. unfold EndThreadSpanEvent.pod. pod_struct. Qed.

(* ===================================================================== *)
(** * Serializers: what [Write] appends, and [Read] after [Write]         *)
(* ===================================================================== *)

Lemma Serializer_POD_ok {T} (P : POD T) wf :
  pod_ok P wf → ser_ok (Serializer_POD P) (Read_POD P) wf.
Proof.
  intros HP. split; simpl.
  - reflexivity.
  - intros v pre post Hv. unfold WritePOD. simpl.
    rewrite Read_POD_eq, (ReadPOD_app P wf) by done.
    by rewrite (pod_length _ _ HP).
Qed.

Lemma DynamicString_Write_app value buffer :
  Serializer_DynamicString.Write value buffer
  = buffer ++ DynamicString_bytes value.
Proof.
  unfold Serializer_DynamicString.Write, WritePOD, DynamicString_bytes.
  by rewrite <- !(assoc_L (++)).
Qed.

Lemma length_DynamicString_bytes value :
  length (DynamicString_bytes value) = 5 + length (DynBytes value).
Proof. unfold DynamicString_bytes. rewrite !length_app. reflexivity. Qed.

Lemma ReadPOD_at {T} (P : POD T) wf v pre post buffer cursor :
  pod_ok P wf → wf v →
  buffer = pre ++ to_bytes P v ++ post → cursor = length pre →
  ReadPOD P buffer cursor = Some (v, cursor + sizeof P).
Proof. intros HP Hv -> ->. by apply (ReadPOD_app P wf). Qed.

Ltac solve_app_eq := rewrite <- ?(assoc_L (++)); reflexivity.

Lemma DynamicString_Read_Write value pre post :
  DynamicString_wf value →
  Serializer_DynamicString.Read
    (pre ++ DynamicString_bytes value ++ post) (length pre)
  = Some (value, length pre + length (DynamicString_bytes value)).
Proof.
  intros [Hcodec Hsize]. unfold Serializer_DynamicString.Read.
  rewrite length_DynamicString_bytes.
  assert (Hin : in_uint 32 (DynSizeBytes value)).
  { unfold in_uint, DynSizeBytes in *. unfold uint32_max in Hsize. lia. }
  set (cd := to_bytes StringCodec.pod (DynCodec value)).
  set (sz := to_bytes uint32_pod (DynSizeBytes value)).
  assert (Hbuf : pre ++ DynamicString_bytes value ++ post
                 = pre ++ cd ++ sz ++ DynBytes value ++ post).
  { unfold DynamicString_bytes. solve_app_eq. }
  rewrite Hbuf. clear Hbuf.
  assert (Hlcd : length cd = 1) by reflexivity.
  assert (Hlsz : length sz = 4) by reflexivity.
  rewrite (ReadPOD_at StringCodec.pod _ (DynCodec value) pre
             (sz ++ DynBytes value ++ post) _ _ StringCodec_pod_ok I)
    by done.
  cbn [mbind option_bind].
  rewrite (ReadPOD_at uint32_pod _ (DynSizeBytes value) (pre ++ cd)
             (DynBytes value ++ post) _ _ uint32_pod_ok Hin)
    by (solve_app_eq || (rewrite length_app, Hlcd; reflexivity)).
  cbn [mbind option_bind].
  unfold DynSizeBytes. rewrite Nat2Z.id.
  change (sizeof StringCodec.pod) with 1. change (sizeof uint32_pod) with 4.
  rewrite decide_True by (rewrite !length_app, Hlcd, Hlsz; lia).
  rewrite Hcodec.
  replace (pre ++ cd ++ sz ++ DynBytes value ++ post)
    with ((pre ++ cd ++ sz) ++ DynBytes value ++ post) by solve_app_eq.
  rewrite drop_app_length' by (rewrite !length_app, Hlcd, Hlsz; lia).
  rewrite take_app_length.
  destruct value; simpl. do 2 f_equal. lia.
Qed.

Lemma LogStringInteropEvent_Write_app value buffer :
  Serializer_LogStringInteropEvent.Write value buffer
  = buffer ++ LogStringInteropEvent_bytes value.
Proof.
  unfold Serializer_LogStringInteropEvent.Write, WritePOD,
    LogStringInteropEvent_bytes.
  rewrite DynamicString_Write_app. by rewrite <- !(assoc_L (++)).
Qed.

Lemma length_LogStringInteropEvent_bytes value :
  length (LogStringInteropEvent_bytes value)
  = 8 + 1 + 16 + (5 + length (DynBytes (LogStringInteropEvent.Msg value))).
Proof.
  unfold LogStringInteropEvent_bytes.
  rewrite !length_app, length_DynamicString_bytes.
  rewrite (pod_length _ _ StaticStringRef_pod_ok). reflexivity.
Qed.

Lemma DynamicString_Read_at value pre post buffer cursor :
  DynamicString_wf value →
  buffer = pre ++ DynamicString_bytes value ++ post → cursor = length pre →
  Serializer_DynamicString.Read buffer cursor
  = Some (value, cursor + length (DynamicString_bytes value)).
Proof. intros Hv -> ->. by apply DynamicString_Read_Write. Qed.

Lemma LogStringInteropEvent_Read_Write value pre post :
  LogStringInteropEvent_wf value →
  Serializer_LogStringInteropEvent.Read
    (pre ++ LogStringInteropEvent_bytes value ++ post) (length pre)
  = Some (value, length pre + length (LogStringInteropEvent_bytes value)).
Proof.
  intros (Hts & Htarget & Hmsg).
  unfold Serializer_LogStringInteropEvent.Read.
  rewrite length_LogStringInteropEvent_bytes.
  set (ts := to_bytes uint64_pod (LogStringInteropEvent.Timestamp value)).
  set (lv := to_bytes LogLevel.pod (LogStringInteropEvent.Level value)).
  set (tg := to_bytes StaticStringRef_pod (LogStringInteropEvent.Target value)).
  set (ms := DynamicString_bytes (LogStringInteropEvent.Msg value)).
  assert (Hbuf : pre ++ LogStringInteropEvent_bytes value ++ post
                 = pre ++ ts ++ lv ++ tg ++ ms ++ post).
  { unfold LogStringInteropEvent_bytes. solve_app_eq. }
  rewrite Hbuf. clear Hbuf.
  assert (Hlts : length ts = 8) by apply (pod_length _ _ uint64_pod_ok).
  assert (Hllv : length lv = 1) by apply (pod_length _ _ LogLevel_pod_ok).
  assert (Hltg : length tg = 16) by apply (pod_length _ _ StaticStringRef_pod_ok).
  rewrite (ReadPOD_at uint64_pod _ _ pre (lv ++ tg ++ ms ++ post)
             _ _ uint64_pod_ok Hts) by done.
  cbn [mbind option_bind].
  rewrite (ReadPOD_at LogLevel.pod _ _ (pre ++ ts) (tg ++ ms ++ post)
             _ _ LogLevel_pod_ok I)
    by (solve_app_eq || (rewrite length_app, Hlts; reflexivity)).
  cbn [mbind option_bind].
  rewrite (ReadPOD_at StaticStringRef_pod _ _ (pre ++ ts ++ lv) (ms ++ post)
             _ _ StaticStringRef_pod_ok Htarget)
    by (solve_app_eq || (rewrite !length_app, Hlts, Hllv; simpl; lia)).
  cbn [mbind option_bind].
  rewrite (DynamicString_Read_at _ (pre ++ ts ++ lv ++ tg) post _ _ Hmsg)
    by (solve_app_eq || (rewrite !length_app, Hlts, Hllv, Hltg; simpl; lia)).
  cbn [mbind option_bind].
  rewrite length_DynamicString_bytes.
  destruct value; simpl. do 2 f_equal. lia.
Qed.

Lemma Serializer_LogStringInteropEvent_ok :
  ser_ok Serializer_LogStringInteropEvent.serializer
    Serializer_LogStringInteropEvent.Read LogStringInteropEvent_wf.
Proof.
  split; cbn [Write Serializer_LogStringInteropEvent.serializer].
  - intros v buf. by rewrite !LogStringInteropEvent_Write_app.
  - intros v pre post Hv. rewrite LogStringInteropEvent_Write_app.
    rewrite app_nil_l. by apply LogStringInteropEvent_Read_Write.
Qed.

(* ===================================================================== *)
(** * The queue: [ForEach] after [Push]                                   *)
(* ===================================================================== *)

Lemma IndexOfType_bound {TS} (x : OneOf TS) :
  length TS ≤ 256 →
  (0 ≤ IndexOfType x < Z.of_nat (length TS))%Z.
Proof.
  induction x as [T REST v | HEAD REST x IH]; intros Hlen; simpl in *.
  - lia.
  - specialize (IH ltac:(lia)). unfold uint8_max.
    rewrite Z.mod_small by lia. lia.
Qed.

Lemma IndexOfType_Next {HEAD REST} (x : OneOf REST) :
  length (HEAD :: REST) ≤ 256 →
  IndexOfType (Next (HEAD:=HEAD) x) = (1 + IndexOfType x)%Z.
Proof.
  intros Hlen. simpl in *. pose proof (IndexOfType_bound x ltac:(lia)).
  unfold uint8_max. rewrite Z.mod_small; lia.
Qed.

Lemma WriteValue_app {TS} (x : OneOf TS) rd wfs buf :
  lawful TS rd wfs → WriteValue x buf = buf ++ WriteValue x [].
Proof.
  induction x as [T REST v | HEAD REST x IH]; intros Hlaw; simpl in *.
  - destruct Hlaw as [[Happ _] _].
    destruct (IsSizeStatic (ser T)); simpl.
    + apply Happ.
    + unfold WritePOD. rewrite Happ, (Happ _ ([] ++ _)). solve_app_eq.
  - destruct rd, wfs, Hlaw. by eapply IH.
Qed.

Lemma Buffer_Push {TS} (x : OneOf TS) rd wfs q :
  lawful TS rd wfs → Buffer (Push x q) = Buffer q ++ record_bytes x.
Proof.
  intros Hlaw. unfold Push, record_bytes. simpl.
  rewrite (WriteValue_app x rd wfs) by done. solve_app_eq.
Qed.

Lemma Buffer_PushAll {TS} (xs : list (OneOf TS)) rd wfs q :
  lawful TS rd wfs →
  Buffer (PushAll xs q) = Buffer q ++ concat (map record_bytes xs).
Proof.
  intros Hlaw. revert q. induction xs as [|x xs IH]; intros q; simpl.
  - by rewrite app_nil_r.
  - unfold PushAll in *. simpl. rewrite IH, (Buffer_Push x rd wfs) by done.
    solve_app_eq.
Qed.

Lemma NbEvents_PushAll {TS} (xs : list (OneOf TS)) q :
  NbEvents (PushAll xs q)
  = ((NbEvents q + Z.of_nat (length xs)) mod uint64_max)%Z
  ∨ xs = [].
Proof.
  revert q. induction xs as [|x xs IH]; intros q; [by right|left].
  unfold PushAll in *. simpl foldl.
  destruct (IH (Push x q)) as [-> | ->]; simpl.
  - rewrite Zplus_mod_idemp_l. f_equal. lia.
  - f_equal.
Qed.

Lemma VisitValue_payload {TS V} (x : OneOf TS) rd wfs (v : Visitor TS V)
    pre post st :
  lawful TS rd wfs → OneOf_wf x wfs → length TS ≤ 256 →
  VisitValue TS rd (IndexOfType x) v
    (pre ++ WriteValue x [] ++ post) (length pre) st
  = st' ← v x st; Some (st', length pre + length (WriteValue x [])).
Proof.
  revert rd wfs v.
  induction x as [T REST value | HEAD REST x IH];
    intros rd wfs v Hlaw Hwf Hlen.
  - destruct rd as [r rd], wfs as [wf wfs], Hlaw as [[Happ Hrw] _].
    cbn [VisitValue IndexOfType WriteValue fst snd] in *.
    rewrite decide_True by done.
    destruct (IsSizeStatic (ser T)); cbn [negb mbind option_bind].
    + rewrite Hrw by done. cbn [mbind option_bind]. reflexivity.
    + unfold WritePOD at 1 2. rewrite app_nil_l, Happ.
      set (sz := to_bytes uint32_pod _).
      assert (∃ z, ReadPOD uint32_pod
                ((pre ++ sz ++ Write (ser T) value []) ++ post) (length pre)
              = Some (z, length pre + 4)) as [z Hz].
      { unfold ReadPOD. simpl sizeof.
        rewrite decide_True by (rewrite !length_app; subst sz; simpl; lia).
        eexists. reflexivity. }
      replace (pre ++ (sz ++ Write (ser T) value []) ++ post)
        with ((pre ++ sz ++ Write (ser T) value []) ++ post) by solve_app_eq.
      rewrite Hz. cbn [mbind option_bind].
      replace ((pre ++ sz ++ Write (ser T) value []) ++ post)
        with ((pre ++ sz) ++ Write (ser T) value [] ++ post) by solve_app_eq.
      replace (length pre + 4) with (length (pre ++ sz))
        by (rewrite length_app; reflexivity).
      rewrite Hrw by done. cbn [mbind option_bind].
      rewrite !length_app. subst sz. simpl length.
      destruct (v (Here value) st); [|done]. simpl. do 2 f_equal.
      rewrite (Happ _ (WritePOD _ _ _)). unfold WritePOD.
      rewrite !length_app. simpl. lia.
  - destruct rd as [r rd], wfs as [wf wfs], Hlaw as [_ Hlaw].
    rewrite IndexOfType_Next by done.
    pose proof (IndexOfType_bound x ltac:(simpl in Hlen; lia)) as Hb.
    cbn [VisitValue WriteValue fst snd].
    rewrite decide_False by lia.
    replace (1 + IndexOfType x - 1)%Z with (IndexOfType x) by lia.
    apply (IH rd wfs); [done | done | simpl in Hlen; lia].
Qed.

Lemma ReadPOD_tag z pre post :
  (0 ≤ z < 256)%Z →
  ReadPOD uint8_pod (pre ++ byte_of_Z z :: post) (length pre)
  = Some (z, length pre + 1).
Proof.
  intros Hz.
  apply (ReadPOD_at uint8_pod (in_uint 8) z pre post);
    [apply uint8_pod_ok | exact Hz | reflexivity | reflexivity].
Qed.

Lemma length_record_bytes_pos {TS} (x : OneOf TS) :
  1 ≤ length (record_bytes x).
Proof. unfold record_bytes. simpl. lia. Qed.

Lemma ForEach_loop_step {TS V} rd wfs (v : Visitor TS V)
    (x : OneOf TS) pre rest n fuel st :
  lawful TS rd wfs → OneOf_wf x wfs → length TS ≤ 256 →
  ForEach_loop (S fuel) rd (MkQueue (pre ++ record_bytes x ++ rest) n)
    v (length pre) st
  = st' ← v x st;
    ForEach_loop fuel rd (MkQueue ((pre ++ record_bytes x) ++ rest) n)
      v (length (pre ++ record_bytes x)) st'.
Proof.
  intros Hlaw Hx Hlen.
  assert (Hq : MkQueue (TS:=TS) ((pre ++ record_bytes x) ++ rest) n
               = MkQueue (pre ++ record_bytes x ++ rest) n)
    by (f_equal; solve_app_eq).
  rewrite Hq. clear Hq.
  set (q := MkQueue (pre ++ record_bytes x ++ rest) n).
  cbn [ForEach_loop]. unfold GetSizeBytes.
  pose proof (length_record_bytes_pos x).
  rewrite decide_True by (subst q; cbn [Buffer]; rewrite !length_app; lia).
  pose proof (IndexOfType_bound x Hlen) as Hb.
  assert (Hbuf : Buffer q = (pre ++ [byte_of_Z (IndexOfType x)])
                              ++ WriteValue x [] ++ rest).
  { subst q. cbn [Buffer]. unfold record_bytes.
    rewrite <- !(assoc_L (++)). reflexivity. }
  assert (Htag : ReadPOD uint8_pod (Buffer q) (length pre)
                 = Some (IndexOfType x, length pre + 1)).
  { subst q. cbn [Buffer]. unfold record_bytes.
    rewrite <- app_comm_cons. apply ReadPOD_tag. lia. }
  rewrite Htag. cbn [mbind option_bind].
  rewrite Hbuf.
  replace (length pre + 1)
    with (length (pre ++ [byte_of_Z (IndexOfType x)]))
    by (rewrite length_app; reflexivity).
  rewrite (VisitValue_payload x rd wfs) by done.
  destruct (v x st) as [st'|]; [|reflexivity]. cbn [mbind option_bind].
  f_equal. unfold record_bytes. rewrite !length_app. simpl. lia.
Qed.

Lemma ForEach_loop_records {TS V} rd wfs (v : Visitor TS V)
    (xs : list (OneOf TS)) pre n fuel st :
  lawful TS rd wfs → Forall (λ x, OneOf_wf x wfs) xs → length TS ≤ 256 →
  length xs ≤ fuel →
  ForEach_loop fuel rd (MkQueue (pre ++ concat (map record_bytes xs)) n)
    v (length pre) st
  = visit_all v xs st.
Proof.
  intros Hlaw Hwf Hlen. revert pre fuel st.
  induction Hwf as [|x xs Hx Hxs IH]; intros pre fuel st Hfuel.
  - simpl. rewrite app_nil_r.
    destruct fuel; simpl; unfold GetSizeBytes; simpl;
      rewrite decide_False by lia; reflexivity.
  - destruct fuel as [|fuel]; [simpl in Hfuel; lia|].
    cbn [map concat visit_all].
    rewrite (ForEach_loop_step rd wfs) by done.
    destruct (v x st) as [st'|]; [|reflexivity]. cbn [mbind option_bind].
    apply IH. simpl in Hfuel. lia.
Qed.

Lemma length_concat_records {TS} (xs : list (OneOf TS)) :
  length xs ≤ length (concat (map record_bytes xs)).
Proof.
  induction xs as [|x xs IH]; simpl; [lia|].
  rewrite length_app. pose proof (length_record_bytes_pos x).
  unfold record_bytes in *. simpl in *. lia.
Qed.

(** [ForEach] on a queue that holds the records of [xs] after those of
    nothing: the visitor sees exactly [xs], in order. *)
Lemma ForEach_PushAll {TS V} rd wfs (v : Visitor TS V)
    (xs : list (OneOf TS)) bufferSize st :
  lawful TS rd wfs → Forall (λ x, OneOf_wf x wfs) xs → length TS ≤ 256 →
  ForEach rd (PushAll xs (NewQueue bufferSize)) v st = visit_all v xs st.
Proof.
  intros Hlaw Hwf Hlen. unfold ForEach.
  destruct (PushAll xs (NewQueue bufferSize)) as [buf n] eqn:Hq.
  assert (Hbuf : buf = [] ++ concat (map record_bytes xs)).
  { change buf with (Buffer (MkQueue (TS:=TS) buf n)). rewrite <- Hq.
    by rewrite (Buffer_PushAll xs rd wfs). }
  rewrite Hbuf. unfold GetSizeBytes. cbn [Buffer].
  apply (ForEach_loop_records rd wfs v xs []); try done.
  rewrite app_nil_l. apply length_concat_records.
Qed.

Lemma visit_all_collect {TS} (xs seen : list (OneOf TS)) :
  visit_all collect xs seen = Some (seen ++ xs).
Proof.
  revert seen. induction xs as [|x xs IH]; intros seen; simpl.
  - by rewrite app_nil_r.
  - rewrite IH. by rewrite <- (assoc_L (++)).
Qed.

Lemma LogEventTypes_lawful : lawful LogEventTypes LogEventReaders LogEvent_wfs.
Proof.
  repeat split; try exact I;
    first [ apply (Serializer_POD_ok _ _ LogStaticStrEvent_pod_ok)
          | apply Serializer_LogStringInteropEvent_ok
          | apply (Serializer_POD_ok _ _ StaticStringRef_pod_ok) ].
Qed.

Lemma MetricEventTypes_lawful :
  lawful MetricEventTypes MetricEventReaders MetricEvent_wfs.
Proof.
  repeat split; try exact I;
    first [ apply (Serializer_POD_ok _ _ IntegerMetricEvent_pod_ok)
          | apply (Serializer_POD_ok _ _ FloatMetricEvent_pod_ok) ].
Qed.

Lemma ThreadEventTypes_lawful :
  lawful ThreadEventTypes ThreadEventReaders ThreadEvent_wfs.
Proof.
  repeat split; try exact I;
    first [ apply (Serializer_POD_ok _ _ BeginThreadSpanEvent_pod_ok)
          | apply (Serializer_POD_ok _ _ EndThreadSpanEvent_pod_ok) ].
Qed.

Lemma kind_lawful k : lawful (kind_types k) (kind_readers k) (kind_wfs k).
Proof.
  destruct k;
    [apply LogEventTypes_lawful | apply MetricEventTypes_lawful
    | apply ThreadEventTypes_lawful].
Qed.

Lemma kind_types_small k : length (kind_types k) ≤ 256.
Proof. destruct k; simpl; lia. Qed.

Lemma sample_static_event_wf : event_wf (k := LogEvents) sample_static_event.
Proof. repeat split; simpl; lia. Qed.

Lemma sample_msg_wf : DynamicString_wf sample_msg.
Proof. split; [reflexivity | unfold DynSizeBytes, uint32_max; simpl; lia]. Qed.

Lemma sample_interop_wf : LogStringInteropEvent_wf sample_interop.
Proof.
  split; [|split].
  - split; simpl; lia.
  - split; split; simpl; lia.
  - apply sample_msg_wf.
Qed.

Lemma sample_interop_event_wf : event_wf (k := LogEvents) sample_interop_event.
Proof. apply sample_interop_wf. Qed.

(* ===================================================================== *)
(** * C2 and C3                                                           *)
(* ===================================================================== *)

(** C2.  For each of the three event queues and every sequence [xs] of
    values of its type list (members in the range of their C++ types)
    pushed into a fresh queue, [ForEach] calls the visitor on exactly the
    values of [xs], in order, scanning the buffer from cursor 0 to
    [GetSizeBytes()] and dispatching on the tag of each record; with the
    recording visitor it returns [xs].  [GetNbEvents()] is the length of
    [xs].  The size of the buffer is a [size_t]. *)
Theorem ForEach_visits_pushed_values (k : QueueKind)
    (xs : list (OneOf (kind_types k))) (bufferSize : Z) :
  let q := PushAll xs (NewQueue bufferSize) in
  Forall event_wf xs →
  (Z.of_nat (GetSizeBytes q) < uint64_max)%Z →
  ForEach (kind_readers k) q collect [] = Some xs
  ∧ (∀ V (v : Visitor (kind_types k) V) st,
       ForEach (kind_readers k) q v st = visit_all v xs st)
  ∧ GetNbEvents q = Z.of_nat (length xs).
Proof.
  intros q Hwf Hsize.
  assert (Hall : ∀ V (v : Visitor (kind_types k) V) st,
             ForEach (kind_readers k) q v st = visit_all v xs st).
  { intros V v st. subst q.
    apply (ForEach_PushAll _ (kind_wfs k));
      [apply kind_lawful | exact Hwf | apply kind_types_small]. }
  split; [|split].
  - rewrite Hall. apply (visit_all_collect xs []).
  - exact Hall.
  - unfold GetNbEvents. subst q.
    destruct (NbEvents_PushAll xs (NewQueue (TS:=kind_types k) bufferSize))
      as [-> | ->]; [|reflexivity].
    simpl. apply Z.mod_small. split; [lia|].
    pose proof (length_concat_records xs) as Hle.
    unfold GetSizeBytes in Hsize.
    rewrite (Buffer_PushAll xs _ _ _ (kind_lawful k)) in Hsize.
    simpl in Hsize. lia.
Qed.

Lemma ForEach_visits_pushed_values_witness :
  ForEach LogEventReaders
    (PushAll [sample_static_event; sample_interop_event; sample_static_event]
       (NewQueue 4096)) collect []
  = Some [sample_static_event; sample_interop_event; sample_static_event]
  ∧ GetNbEvents
      (PushAll [sample_static_event; sample_interop_event; sample_static_event]
         (NewQueue (TS := LogEventTypes) 4096)) = 3%Z.
Proof.
  destruct (ForEach_visits_pushed_values LogEvents
              [sample_static_event; sample_interop_event; sample_static_event]
              4096) as (H1 & _ & H3).
  - repeat constructor;
      first [apply sample_static_event_wf | apply sample_interop_event_wf].
  - vm_compute. reflexivity.
  - split; [exact H1 | exact H3].
Defined.

(** C3.  Round trip of the serializers.
    (1) For every event [x] of the three event queues, what [Push] writes
    after the type tag (the [uint32] length prefix when the type is not of
    static size, then [Serializer<T>::Write]) is decoded by [VisitValue]
    (which skips the prefix and calls [Serializer<T>::Read]) to [x] itself,
    and the cursor ends exactly after the record.
    (2) [Serializer<DynamicString>::Write] appends [codec:u8][size:u32]
    [bytes], and [Read] at the start of these bytes returns the string and
    the position after them.
    (3) [Serializer<LogStringInteropEvent>::Write] appends [ts:u64]
    [level:u8][target as POD][dynstr], and [Read] at the start of these
    bytes returns the event and the position after them. *)
Theorem Serializer_round_trip :
  (∀ (k : QueueKind) (x : OneOf (kind_types k)) (pre post : list byte),
     event_wf x →
     VisitValue (kind_types k) (kind_readers k) (IndexOfType x) keep_last
       (pre ++ WriteValue x [] ++ post) (length pre) None
     = Some (Some x, length pre + length (WriteValue x [])))
  ∧ (∀ (s : DynamicString) (pre post : list byte),
       DynamicString_wf s →
       Serializer_DynamicString.Write s pre
       = pre ++ [byte_of_Z (StringCodec.to_Z (DynCodec s))]
             ++ le_bytes 4 (Z.of_nat (length (DynBytes s))) ++ DynBytes s
       ∧ Serializer_DynamicString.Read
           (Serializer_DynamicString.Write s pre ++ post) (length pre)
         = Some (s, length (Serializer_DynamicString.Write s pre)))
  ∧ (∀ (e : LogStringInteropEvent.t) (pre post : list byte),
       LogStringInteropEvent_wf e →
       Serializer_LogStringInteropEvent.Write e pre
       = pre ++ le_bytes 8 (LogStringInteropEvent.Timestamp e)
             ++ [byte_of_Z (LogLevel.to_Z (LogStringInteropEvent.Level e))]
             ++ to_bytes StaticStringRef_pod (LogStringInteropEvent.Target e)
             ++ Serializer_DynamicString.Write (LogStringInteropEvent.Msg e) []
       ∧ Serializer_LogStringInteropEvent.Read
           (Serializer_LogStringInteropEvent.Write e pre ++ post) (length pre)
         = Some (e, length (Serializer_LogStringInteropEvent.Write e pre))).
Proof.
  split; [|split].
  - intros k x pre post Hx.
    rewrite (VisitValue_payload x _ (kind_wfs k));
      [reflexivity | apply kind_lawful | exact Hx | apply kind_types_small].
  - intros s pre post Hs. split.
    + rewrite DynamicString_Write_app. reflexivity.
    + rewrite DynamicString_Write_app, <- (assoc_L (++)).
      rewrite DynamicString_Read_Write by done.
      by rewrite length_app.
  - intros e pre post He. split.
    + rewrite LogStringInteropEvent_Write_app, DynamicString_Write_app.
      reflexivity.
    + rewrite LogStringInteropEvent_Write_app, <- (assoc_L (++)).
      rewrite LogStringInteropEvent_Read_Write by done.
      by rewrite length_app.
Qed.

Lemma Serializer_round_trip_witness :
  Serializer_LogStringInteropEvent.Read
    (Serializer_LogStringInteropEvent.Write sample_interop [x00] ++ [xff]) 1
  = Some (sample_interop, 35)
  ∧ Serializer_DynamicString.Read
      (Serializer_DynamicString.Write sample_msg [] ++ [xff]) 0
    = Some (sample_msg, 9).
Proof.
  destruct Serializer_round_trip as (_ & Hdyn & Hev).
  split.
  - exact (proj2 (Hev sample_interop [x00] [xff] sample_interop_wf)).
  - exact (proj2 (Hdyn sample_msg [] [xff] sample_msg_wf)).
Defined.

(* ===================================================================== *)
(** * Dependency extraction                                               *)
(* ===================================================================== *)

Section PureFacts.
Variable strings_of : Z → list StaticStringRef.
Variable is_meta : Z → Prop.

Local Abbreviation J := (pure_inv strings_of is_meta).
Local Abbreviation kind_ok := (kind_ok is_meta).

Lemma pure_string_ids str st : st.1 ⊆ (pure_string str st).1.
  Proof. unfold pure_string. case_decide; simpl; set_solver. Qed.

Lemma pure_string_mem str st : GetID str ∈ (pure_string str st).1.
  Proof. unfold pure_string. case_decide; simpl; set_solver. Qed.

Lemma pure_string_out str st d :
    d ∈ (pure_string str st).2 → d ∈ st.2 ∨ d = StringDep str.
  Proof.
    unfold pure_string. case_decide; simpl; [by left|].
    rewrite elem_of_app, list_elem_of_singleton. tauto.
  Qed.

Lemma ordered_app_string out str :
    ordered strings_of out → ordered strings_of (out ++ [StringDep str]).
  Proof.
    intros Hord i desc Hi r Hr.
    destruct (decide (i < length out)) as [Hlt|Hge].
    - rewrite lookup_app_l in Hi by done.
      destruct (Hord i desc Hi r Hr) as (j & r' & Hj & Hlook & Hid).
      exists j, r'. split; [done|]. split; [|done].
      rewrite lookup_app_l by lia. done.
    - rewrite lookup_app_r in Hi by lia.
      destruct (i - length out) as [|n]; simpl in Hi; [congruence|].
      by destruct n.
  Qed.

Lemma pure_string_inv pend str st :
    J pend st → ¬ is_meta (GetID str) → J pend (pure_string str st).
  Proof.
    intros [Hids Hnd Hpend Hkind Hord] Hstr. unfold pure_string.
    case_decide as Hin; [by split|]. destruct st as [ids out]. simpl in *.
    assert (Hfresh : GetID str ∉ dep_id <$> out).
    { intros Hx. apply Hin. rewrite Hids. set_solver. }
    split; simpl.
    - rewrite fmap_app, list_to_set_app_L. simpl. set_solver.
    - rewrite fmap_app. apply NoDup_app. split; [done|]. split.
      + intros x Hx Hx'. apply list_elem_of_singleton in Hx'. simpl in Hx'.
        by subst.
      + apply NoDup_singleton.
    - intros p Hp. destruct (Hpend p Hp) as [Hm Hnot]. split; [done|].
      rewrite fmap_app, elem_of_app. intros [?|Hx]; [done|].
      apply list_elem_of_singleton in Hx. simpl in Hx. by subst.
    - apply Forall_app. split; [done|]. by constructor.
    - by apply ordered_app_string.
  Qed.

Lemma fold_strings_inv pend strs st :
    J pend st → Forall (λ str, ¬ is_meta (GetID str)) strs →
    J pend (foldl (λ st str, pure_string str st) st strs).
  Proof.
    intros HJ Hstrs. revert st HJ.
    induction Hstrs as [|str strs Hstr _ IH]; intros st HJ; simpl; [done|].
    apply IH. by apply pure_string_inv.
  Qed.

Lemma fold_strings_ids strs st :
    st.1 ⊆ (foldl (λ st str, pure_string str st) st strs).1.
  Proof.
    revert st. induction strs as [|str strs IH]; intros st; simpl; [done|].
    etrans; [apply (pure_string_ids str)|apply IH].
  Qed.

Lemma fold_strings_mem strs st str :
    str ∈ strs → GetID str ∈ (foldl (λ st str, pure_string str st) st strs).1.
  Proof.
    revert st. induction strs as [|s strs IH]; intros st Hin; simpl.
    - by apply elem_of_nil in Hin.
    - apply elem_of_cons in Hin as [->|Hin]; [|by apply IH].
      apply fold_strings_ids, pure_string_mem.
  Qed.

Lemma fold_strings_out strs st d :
    d ∈ (foldl (λ st str, pure_string str st) st strs).2 →
    d ∈ st.2 ∨ d ∈ StringDep <$> strs.
  Proof.
    revert st. induction strs as [|s strs IH]; intros st; simpl; [by left|].
    intros Hd. destruct (IH _ Hd) as [Hd'|Hd'].
    - destruct (pure_string_out _ _ _ Hd') as [?| ->]; [by left|].
      right. apply elem_of_cons. by left.
    - right. apply elem_of_cons. by right.
  Qed.

Lemma inv_lookup_id st id :
    J ∅ st → id ∈ st.1 → ∃ j d, st.2 !! j = Some d ∧ dep_id d = id.
  Proof.
    intros [Hids _ _ _ _] Hin. rewrite Hids in Hin.
    apply elem_of_union in Hin as [Hin|Hin]; [set_solver|].
    apply elem_of_list_to_set, list_elem_of_fmap in Hin as (d & -> & Hd).
    apply list_elem_of_lookup in Hd as [j Hj]. by exists j, d.
  Qed.

Lemma pure_metadata_inv desc st :
    J ∅ st → is_meta desc →
    Forall (λ str, ¬ is_meta (GetID str)) (strings_of desc) →
    J ∅ (pure_metadata strings_of desc st).
  Proof.
    intros HJ Hdesc Hstrs. unfold pure_metadata.
    case_decide as Hin; [done|].
    destruct st as [ids out]. simpl in *.
    assert (H0 : J {[desc]} ({[desc]} ∪ ids, out)).
    { destruct HJ as [Hids Hnd Hpend Hkind Hord]. simpl in *.
      split; simpl; try done.
      - rewrite Hids. set_solver.
      - intros p Hp. apply elem_of_singleton in Hp as ->. split; [done|].
        intros Hx. apply Hin. rewrite Hids. set_solver. }
    pose proof (fold_strings_inv _ _ _ H0 Hstrs) as H1.
    pose proof (λ str, fold_strings_mem (strings_of desc)
                         ({[desc]} ∪ ids, out) str) as Hmem.
    destruct (foldl _ _ (strings_of desc)) as [ids' out'].
    destruct H1 as [Hids Hnd Hpend Hkind Hord]. simpl in *.
    destruct (Hpend desc ltac:(set_solver)) as [_ Hnot].
    split; simpl.
    - rewrite Hids, fmap_app, list_to_set_app_L. simpl. set_solver.
    - rewrite fmap_app. apply NoDup_app. split; [done|]. split.
      + intros x Hx Hx'. apply list_elem_of_singleton in Hx'. simpl in Hx'.
        by subst.
      + apply NoDup_singleton.
    - set_solver.
    - apply Forall_app. split; [done|]. by constructor.
    - intros i p Hi r Hr.
      destruct (decide (i < length out')) as [Hlt|Hge].
      + rewrite lookup_app_l in Hi by done.
        destruct (Hord i p Hi r Hr) as (j & r' & Hj & Hlook & Hid).
        exists j, r'. split; [done|]. split; [|done].
        rewrite lookup_app_l by lia. done.
      + rewrite lookup_app_r in Hi by lia.
        destruct (i - length out') as [|n] eqn:Hn; simpl in Hi;
          [|by destruct n].
        injection Hi as <-.
        specialize (Hmem r Hr). rewrite Hids in Hmem.
        assert (Hr' : ¬ is_meta (GetID r)).
        { rewrite Forall_forall in Hstrs. by apply Hstrs. }
        assert (Hin' : GetID r ∈ dep_id <$> out').
        { apply elem_of_union in Hmem as [Hx|Hx].
          - apply elem_of_singleton in Hx. by rewrite Hx in Hr'.
          - by apply elem_of_list_to_set in Hx. }
        apply list_elem_of_fmap in Hin' as (d & Hid & Hd).
        apply list_elem_of_lookup in Hd as [j Hj].
        pose proof (lookup_lt_Some _ _ _ Hj) as Hjlt.
        rewrite Forall_forall in Hkind.
        pose proof (Hkind d ltac:(by eapply list_elem_of_lookup_2)) as Hk.
        destruct d as [r'|q]; simpl in *.
        * exists j, r'. split; [lia|]. split; [|done].
          by rewrite lookup_app_l.
        * by rewrite <- Hid in Hk.
  Qed.

  (** Once a metadata address is in [Ids], so are its strings. *)
Lemma inv_closed st desc str :
    J ∅ st → is_meta desc → desc ∈ st.1 → str ∈ strings_of desc →
    GetID str ∈ st.1.
  Proof.
    intros HJ Hdesc Hin Hstr.
    destruct (inv_lookup_id _ _ HJ Hin) as (i & d & Hi & Hid).
    destruct HJ as [Hids _ _ Hkind Hord].
    rewrite Forall_forall in Hkind.
    pose proof (Hkind d ltac:(by eapply list_elem_of_lookup_2)) as Hk.
    destruct d as [r|q]; simpl in *.
    - by rewrite Hid in Hk.
    - subst q.
      destruct (Hord i desc Hi str Hstr) as (j & r' & _ & Hj & Hid).
      rewrite Hids, <- Hid.
      apply elem_of_union_r, elem_of_list_to_set, list_elem_of_fmap.
      exists (StringDep r'). split; [done|]. by eapply list_elem_of_lookup_2.
  Qed.

Lemma pure_reference_inv ref st :
    J ∅ st → ref_ok strings_of is_meta ref →
    J ∅ (pure_reference strings_of ref st).
  Proof.
    intros HJ Hok. destruct ref as [desc|str]; simpl.
    - unfold ref_ok in Hok. simpl in Hok.
      apply Forall_app in Hok as [Hstrs Hdesc].
      rewrite Forall_singleton in Hdesc. simpl in Hdesc.
      apply pure_metadata_inv; [done|done|].
      rewrite Forall_fmap in Hstrs. exact Hstrs.
    - apply pure_string_inv; [done|].
      unfold ref_ok in Hok. simpl in Hok. by rewrite Forall_singleton in Hok.
  Qed.

Lemma pure_reference_ids ref st :
    st.1 ⊆ (pure_reference strings_of ref st).1.
  Proof.
    destruct ref as [desc|str]; simpl; [|apply pure_string_ids].
    unfold pure_metadata. case_decide; [done|]. simpl.
    etrans; [|apply fold_strings_ids]. simpl. set_solver.
  Qed.

Lemma pure_reference_out ref st d :
    d ∈ (pure_reference strings_of ref st).2 →
    d ∈ st.2 ∨ d ∈ reached_of strings_of ref.
  Proof.
    destruct ref as [desc|str]; simpl.
    - unfold pure_metadata. case_decide; [by left|]. simpl.
      rewrite elem_of_app, list_elem_of_singleton. intros [Hd| ->].
      + apply fold_strings_out in Hd as [Hd|Hd]; [by left|].
        right. apply elem_of_app. by left.
      + right. apply elem_of_app. right. by apply list_elem_of_singleton.
    - intros Hd. apply pure_string_out in Hd as [?| ->]; [by left|].
      right. by apply list_elem_of_singleton.
  Qed.

Lemma pure_reference_complete ref st d :
    J ∅ st → ref_ok strings_of is_meta ref →
    d ∈ reached_of strings_of ref →
    dep_id d ∈ (pure_reference strings_of ref st).1.
  Proof.
    intros HJ Hok Hd. destruct ref as [desc|str]; simpl in *.
    - unfold ref_ok in Hok. simpl in Hok.
      apply Forall_app in Hok as [Hstrs Hdesc].
      rewrite Forall_singleton in Hdesc. simpl in Hdesc.
      unfold pure_metadata. case_decide as Hin.
      + apply elem_of_app in Hd as [Hd|Hd].
        * apply list_elem_of_fmap in Hd as (r & -> & Hr). simpl.
          by eapply inv_closed.
        * apply list_elem_of_singleton in Hd as ->. done.
      + simpl. apply elem_of_app in Hd as [Hd|Hd].
        * apply list_elem_of_fmap in Hd as (r & -> & Hr). simpl.
          by apply fold_strings_mem.
        * apply list_elem_of_singleton in Hd as ->. simpl.
          apply fold_strings_ids. simpl. set_solver.
    - apply list_elem_of_singleton in Hd as ->. apply pure_string_mem.
  Qed.

Lemma pure_fold_facts refs st :
    J ∅ st → Forall (ref_ok strings_of is_meta) refs →
    let st' := foldl (λ st ref, pure_reference strings_of ref st) st refs in
    J ∅ st'
    ∧ st.1 ⊆ st'.1
    ∧ (∀ d, d ∈ st'.2 → d ∈ st.2 ∨ d ∈ refs ≫= reached_of strings_of)
    ∧ (∀ d, d ∈ refs ≫= reached_of strings_of → dep_id d ∈ st'.1).
  Proof.
    intros HJ Hrefs. revert st HJ.
    induction Hrefs as [|ref refs Hok _ IH]; intros st HJ; simpl.
    - split; [done|]. split; [done|]. split; [by left|].
      intros d Hd. by apply elem_of_nil in Hd.
    - destruct (IH _ (pure_reference_inv ref st HJ Hok))
        as (HJ' & Hsub & Hout & Hcomp).
      split; [done|]. split; [|split].
      + etrans; [apply (pure_reference_ids ref)|done].
      + intros d Hd. destruct (Hout d Hd) as [Hd'|Hd'].
        * apply pure_reference_out in Hd' as [?|?]; [by left|].
          right. apply elem_of_app. by left.
        * right. apply elem_of_app. by right.
      + intros d Hd. apply elem_of_app in Hd as [Hd|Hd].
        * apply Hsub. by apply pure_reference_complete.
        * by apply Hcomp.
  Qed.
End PureFacts.

Lemma PushAll_snoc {TS} (xs : list (OneOf TS)) x q :
  PushAll (xs ++ [x]) q = Push x (PushAll xs q).
Proof. unfold PushAll. by rewrite foldl_app. Qed.

Lemma PushAll_fmap_snoc {A TS} (f : A → OneOf TS) xs x q :
  PushAll (f <$> (xs ++ [x])) q = Push (f x) (PushAll (f <$> xs) q).
Proof. rewrite fmap_app. apply PushAll_snoc. Qed.

Lemma OneOf_inv {TS} (x : OneOf TS) :
  match TS return OneOf TS → Prop with
  | [] => λ _, False
  | HEAD :: REST => λ x, (∃ v, x = Here v) ∨ (∃ x', x = Next x')
  end x.
Proof. destruct x; [left|right]; eauto. Qed.

Lemma OneOf_cons_inv {HEAD REST} (x : OneOf (HEAD :: REST)) :
  (∃ v, x = Here v) ∨ (∃ x', x = Next x').
Proof. apply (OneOf_inv x). Qed.

Lemma OneOf_nil_inv (x : OneOf []) : False.
Proof. apply (OneOf_inv x). Qed.

(** Case analysis on a value of a queue of known types. *)
Ltac oneof_cases x :=
  let v := fresh "v" in
  let x' := fresh "x" in
  destruct (OneOf_cons_inv x) as [[v ->]|[x' ->]];
  [ | first [ by destruct (OneOf_nil_inv x') | oneof_cases x' ] ].

Section ExtractorFacts.
Variable k : QueueKind.
Variable mem : Memory.

Lemma Extract_StaticStringRef_represents str st
      (ex : Extractor (dep_types k mem)) :
    represents k mem st ex →
    represents k mem (pure_string str st) (Extract_StaticStringRef str ex).
  Proof.
    intros [Hids Hdeps]. unfold Extract_StaticStringRef, pure_string.
    unfold dep_types in *. cbn [Ids Dependencies].
    rewrite Hids. destruct (decide (GetID str ∈ st.1)) as [Hin|Hin].
    - rewrite bool_decide_eq_true_2 by done. cbn [negb].
      split; cbn [fst snd Ids Dependencies]; [set_solver | done].
    - rewrite bool_decide_eq_false_2 by done. cbn [negb].
      split; cbn [fst snd Ids Dependencies]; [done|].
      rewrite PushAll_fmap_snoc, Hdeps. reflexivity.
  Qed.

Lemma enter_metadata_represents desc st (ex : Extractor (dep_types k mem)) :
    represents k mem st ex →
    represents k mem ({[desc]} ∪ st.1, st.2)
      (MkExtractor ({[desc]} ∪ Ids ex) (Dependencies ex)).
  Proof.
    intros [Hids Hdeps].
    split; cbn [fst snd Ids Dependencies]; [by rewrite Hids | done].
  Qed.

Lemma emit_metadata_represents desc st (ex : Extractor (dep_types k mem)) :
    represents k mem st ex →
    represents k mem (st.1, st.2 ++ [MetadataDep desc])
      (MkExtractor (Ids ex)
         (Push (Next (Here (T := metadata_dep_t k) (make_metadata_dep k mem desc)))
            (Dependencies ex))).
  Proof.
    intros [Hids Hdeps]. split; cbn [fst snd Ids Dependencies]; [done|].
    rewrite PushAll_fmap_snoc, Hdeps. reflexivity.
  Qed.

Lemma seen_metadata_represents desc st (ex : Extractor (dep_types k mem)) :
    represents k mem st ex → desc ∈ st.1 →
    represents k mem st (MkExtractor ({[desc]} ∪ Ids ex) (Dependencies ex)).
  Proof.
    intros [Hids Hdeps] Hin.
    split; cbn [fst snd Ids Dependencies]; [set_solver | done].
  Qed.
End ExtractorFacts.

Ltac metadata_represents Hrep :=
  let Hin := fresh "Hin" in
  let Hids := fresh "Hids" in
  pose proof (proj1 Hrep) as Hids;
  unfold dep_types in Hids; cbn [metadata_dep_t] in Hids;
  unfold pure_metadata,
    LogDependencyTypes, MetricDependencyTypes, ThreadDependencyTypes;
  match goal with
  | |- context [decide (?desc ∈ ?ids)] =>
      destruct (decide (desc ∈ ids)) as [Hin|Hin];
      [ rewrite bool_decide_eq_true_2 by (by rewrite Hids);
        cbn [negb];
        by apply seen_metadata_represents
      | rewrite bool_decide_eq_false_2 by (by rewrite Hids);
        cbn [negb];
        cbv zeta;
        match type of Hrep with
        | represents ?k ?mem _ _ =>
            apply (emit_metadata_represents k mem desc
                     (foldl (λ st str, pure_string str st) _ _));
            cbn [foldl metadata_strings fmap list_fmap];
            repeat apply (Extract_StaticStringRef_represents k mem);
            by apply (enter_metadata_represents k mem)
        end ]
  end.

Lemma call_LogMetadata_represents mem desc st ex :
  represents LogEvents mem st ex →
  represents LogEvents mem
    (pure_metadata (metadata_strings LogEvents mem) desc st)
    (ExtractLogDependencies.call_LogMetadata mem desc ex).
Proof.
  intros Hrep. unfold ExtractLogDependencies.call_LogMetadata.
  metadata_represents Hrep.
Qed.

Lemma call_MetricMetadata_represents mem desc st ex :
  represents MetricEvents mem st ex →
  represents MetricEvents mem
    (pure_metadata (metadata_strings MetricEvents mem) desc st)
    (ExtractMetricDependencies.call_MetricMetadata mem desc ex).
Proof.
  intros Hrep. unfold ExtractMetricDependencies.call_MetricMetadata.
  metadata_represents Hrep.
Qed.

Lemma call_SpanMetadata_represents mem desc st ex :
  represents ThreadEvents mem st ex →
  represents ThreadEvents mem
    (pure_metadata (metadata_strings ThreadEvents mem) desc st)
    (ExtractThreadDependencies.call_SpanMetadata mem desc ex).
Proof.
  intros Hrep. unfold ExtractThreadDependencies.call_SpanMetadata.
  metadata_represents Hrep.
Qed.

Lemma visitor_represents k mem (x : OneOf (kind_types k)) st ex :
  represents k mem st ex →
  ∃ ex', kind_visitor k mem x ex = Some ex'
         ∧ represents k mem
             (pure_reference (metadata_strings k mem) (event_reference k x) st)
             ex'.
Proof.
  intros Hrep. destruct k; simpl in x |- *.
  - oneof_cases x; eexists; (split; [reflexivity|]); simpl.
    + by apply call_LogMetadata_represents.
    + by apply (Extract_StaticStringRef_represents LogEvents).
    + by apply (Extract_StaticStringRef_represents LogEvents).
  - oneof_cases x; eexists; (split; [reflexivity|]); simpl;
      by apply call_MetricMetadata_represents.
  - oneof_cases x; eexists; (split; [reflexivity|]); simpl;
      by apply call_SpanMetadata_represents.
Qed.

Lemma visit_all_represents k mem (xs : list (OneOf (kind_types k))) st ex :
  represents k mem st ex →
  ∃ ex', visit_all (kind_visitor k mem) xs ex = Some ex'
         ∧ represents k mem
             (foldl (λ st ref, pure_reference (metadata_strings k mem) ref st)
                st (event_reference k <$> xs))
             ex'.
Proof.
  revert st ex. induction xs as [|x xs IH]; intros st ex Hrep; simpl.
  - by exists ex.
  - destruct (visitor_represents k mem x st ex Hrep) as (ex1 & -> & Hrep1).
    simpl. by apply IH.
Qed.

Lemma ExtractBlockDependencies_visit k mem (block : EventBlock (kind_types k)) :
  ExtractBlockDependencies k mem block
  = ForEach (kind_readers k) (Events block) (kind_visitor k mem) NewExtractor.
Proof. by destruct k. Qed.

Lemma referenced_reached k mem (xs : list (OneOf (kind_types k))) :
  referenced k mem xs
  = (event_reference k <$> xs) ≫= reached_of (metadata_strings k mem).
Proof.
  unfold referenced. induction xs as [|x xs IH]; [done|].
  rewrite fmap_cons, !bind_cons, IH. f_equal.
Qed.

Lemma sample_log_events_wf : Forall (event_wf (k := LogEvents)) sample_log_events.
Proof.
  repeat constructor;
    first [apply sample_static_event_wf | apply sample_interop_event_wf].
Qed.

Lemma sample_addresses_separate :
  addresses_separate (referenced LogEvents sample_memory sample_log_events).
Proof.
  intros d1 d2 H1 H2 Hm1 Hm2.
  unfold referenced, sample_log_events in H1, H2. simpl in H1, H2.
  repeat (apply elem_of_cons in H1 as [->|H1]);
    try (by apply elem_of_nil in H1); try done;
    repeat (apply elem_of_cons in H2 as [->|H2]);
    try (by apply elem_of_nil in H2); try done; simpl; lia.
Qed.



(* ===================================================================== *)
(** * The block formatter                                                 *)
(* ===================================================================== *)

Lemma GetPtr_empty {TS} (q : HeterogeneousQueue TS) :
  GetSizeBytes q = 0 → GetPtr q = None.
Proof.
  unfold GetSizeBytes, GetPtr. destruct (Buffer q); [done | discriminate].
Qed.

Lemma GetPtr_nonempty {TS} (q : HeterogeneousQueue TS) :
  0 < GetSizeBytes q → GetPtr q = Some (Buffer q).
Proof.
  unfold GetSizeBytes, GetPtr. destruct (Buffer q); simpl; [lia | done].
Qed.

Lemma ExtractBlockDependencies_empty k mem (block : EventBlock (kind_types k))
    bufferSize :
  Events block = NewQueue bufferSize →
  ExtractBlockDependencies k mem block = Some NewExtractor.
Proof.
  intros Hev.
  destruct k; cbn [ExtractBlockDependencies kind_types] in *;
    unfold ExtractBlockDependencies_LogBlock,
      ExtractBlockDependencies_MetricBlock,
      ExtractBlockDependencies_ThreadBlock; by rewrite Hev.
Qed.

(** C9, as the code has it.  When the JSON serializer fails on the block
    information, [FormatBlockRequest] logs the error and returns an empty
    array: the envelope is skipped and neither compressed section is
    produced. *)
Theorem FormatBlockRequest_json_failure (host : FormatHost) {TS DepTS}
    (extract : EventBlock TS → option (Extractor DepTS))
    (blockId : string) (block : EventBlock TS) (ex : Extractor DepTS)
    (endTime : DualTime.t) :
  extract block = Some ex →
  GetEndTime block = Some endTime →
  FJsonSerializer_Serialize host (MakeBlockInfo host blockId block endTime)
  = None →
  FormatBlockRequest host extract blockId block
  = ([block_info_error], Some []).
Proof.
  intros Hex Hend Hjson. unfold FormatBlockRequest.
  by rewrite Hex, Hend, Hjson.
Qed.

Lemma FormatBlockRequest_json_failure_witness :
  FormatBlockRequest failing_format_host
    (ExtractBlockDependencies_LogBlock sample_memory) "block" sample_log_block
  = ([block_info_error], Some []).
Proof.
  assert (Hsome : bool_decide
            (is_Some (ExtractBlockDependencies_LogBlock sample_memory
                        sample_log_block)) = true) by (vm_compute; reflexivity).
  apply bool_decide_eq_true_1 in Hsome as [ex Hex].
  apply (FormatBlockRequest_json_failure failing_format_host _ "block"
           sample_log_block ex
           {| DualTime.Timestamp := 2000; DualTime.SystemTime := 0 |});
    [exact Hex | reflexivity | reflexivity].
Defined.

Lemma sample_log_block_json_failure :
  (FormatBlockRequest failing_format_host
     (ExtractBlockDependencies_LogBlock sample_memory) "block"
     sample_log_block).2 = Some [].
Proof.
  assert (Hsome : bool_decide
            (is_Some (ExtractBlockDependencies_LogBlock sample_memory
                        sample_log_block)) = true) by (vm_compute; reflexivity).
  apply bool_decide_eq_true_1 in Hsome as [ex Hex].
  unfold FormatBlockRequest. by rewrite Hex.
Qed.

(** C9, as stated, fails: with a failing JSON serializer the request for a
    block of three events is empty, whereas the two compressed sections
    alone would be a non-empty payload. *)
Lemma FormatBlockRequest_json_failure_abandons_payload :
  ∃ rest,
    payload_without_envelope failing_format_host
      (ExtractBlockDependencies_LogBlock sample_memory) sample_log_block
    = Some rest
    ∧ rest ≠ []
    ∧ (FormatBlockRequest failing_format_host
         (ExtractBlockDependencies_LogBlock sample_memory) "block"
         sample_log_block).2 = Some []
    ∧ (FormatBlockRequest failing_format_host
         (ExtractBlockDependencies_LogBlock sample_memory) "block"
         sample_log_block).2 ≠ Some rest.
Proof.
  assert (Hlen : length <$> payload_without_envelope failing_format_host
                    (ExtractBlockDependencies_LogBlock sample_memory)
                    sample_log_block = Some 217) by (vm_compute; reflexivity).
  destruct (payload_without_envelope failing_format_host
              (ExtractBlockDependencies_LogBlock sample_memory)
              sample_log_block) as [rest|] eqn:Hrest; [|discriminate].
  exists rest. injection Hlen as Hlen.
  assert (Hne : rest ≠ []) by (intros ->; discriminate).
  rewrite sample_log_block_json_failure.
  repeat split; [done|]. intros H. injection H as <-. done.
Qed.

(* ===================================================================== *)
(** * The dispatch: Init and the calls after Shutdown                     *)
(* ===================================================================== *)

Section DispatchFacts.
Context {S : Type}.
Variable platform : Platform.
Variable sink : EventSink S.

Lemma Init_again processInfo l m t (w : World S) :
  is_Some (GDispatch w) → Init platform sink processInfo l m t w = w.
Proof. intros [d Hd]. unfold Init. by rewrite Hd. Qed.

Lemma Init_first processInfo l m t (w : World S) :
  GDispatch w = None →
  let d := (NewDispatch platform processInfo l m t w).1 in
  let w' := Init platform sink processInfo l m t w in
  GDispatch w' = Some d
  ∧ SinkCalls w'
    = SinkCalls w ++ [StartupCall processInfo; InitLogStreamCall (LogEntries d);
                      InitMetricStreamCall (Metrics d)]
  ∧ SinkState w'
    = OnInitMetricStream sink (Metrics d)
        (OnInitLogStream sink (LogEntries d)
           (OnStartup sink processInfo (SinkState w)))
  ∧ ThreadStreamHeap w' = ThreadStreamHeap w
  ∧ ThreadLocalPtr w' = ThreadLocalPtr w
  ∧ ClockReads w' = ClockReads w.
Proof.
  intros Hnone. unfold Init. rewrite Hnone. simpl.
  repeat split. by rewrite <- !(assoc_L (++)).
Qed.

Lemma Shutdown_clears onShutdown tid (w : World S) :
  (∀ w', is_Some (GDispatch w') → GDispatch (onShutdown tid w') = GDispatch w') →
  GDispatch (Shutdown onShutdown tid w) = None.
Proof.
  intros _. unfold Shutdown. destruct (GDispatch w) eqn:Hd; [done|exact Hd].
Qed.
End DispatchFacts.

(** C6.  From a state where the singleton is unset, the first [Init]
    creates the dispatch and makes exactly three calls on the sink, in this
    order: [OnStartup(processInfo)], [OnInitLogStream] with the log stream
    of the new dispatch, [OnInitMetricStream] with its metric stream.
    Whatever number of further [Init] calls follow, with whatever
    arguments, each returns at once: the state (singleton, sink, calls
    observed) stays what the first call left, so the sink has observed
    exactly one [OnStartup]. *)
Theorem Init_idempotent {S} (platform : Platform) (sink : EventSink S)
    (processInfo : ProcessInfo) (logBufferSize metricBufferSize
     threadBufferSize : Z) (w0 : World S)
    (more : list (ProcessInfo * Z * Z * Z)) :
  GDispatch w0 = None →
  let w1 := Init platform sink processInfo logBufferSize metricBufferSize
              threadBufferSize w0 in
  let again (w : World S) (args : ProcessInfo * Z * Z * Z) :=
    let '(p, l, m, t) := args in Init platform sink p l m t w in
  ∃ d,
    GDispatch w1 = Some d
    ∧ SinkCalls w1
      = SinkCalls w0 ++ [StartupCall processInfo;
                         InitLogStreamCall (LogEntries d);
                         InitMetricStreamCall (Metrics d)]
    ∧ SinkState w1
      = OnInitMetricStream sink (Metrics d)
          (OnInitLogStream sink (LogEntries d)
             (OnStartup sink processInfo (SinkState w0)))
    ∧ foldl again w1 more = w1
    ∧ startup_calls (drop (length (SinkCalls w0))
                       (SinkCalls (foldl again w1 more)))
      = [processInfo].
Proof.
  intros Hnone w1 again.
  destruct (Init_first platform sink processInfo logBufferSize
              metricBufferSize threadBufferSize w0 Hnone)
    as (Hd & Hcalls & Hstate & _).
  fold w1 in Hd, Hcalls, Hstate.
  assert (Hmore : foldl again w1 more = w1).
  { induction more as [|[[[p l] m] t] more IH]; simpl; [done|].
    rewrite Init_again by (rewrite Hd; eauto). exact IH. }
  eexists. split; [exact Hd|]. split; [exact Hcalls|].
  split; [exact Hstate|]. split; [exact Hmore|].
  rewrite Hmore, Hcalls, drop_app_length. reflexivity.
Qed.

Lemma Init_idempotent_witness :
  ∃ d,
    GDispatch (Init sample_platform null_sink sample_process_info 4096 4096
                 4096 (fresh_world tt)) = Some d
    ∧ SinkCalls (Init sample_platform null_sink sample_process_info 4096 4096
                   4096 (fresh_world tt))
      = [] ++ [StartupCall sample_process_info;
               InitLogStreamCall (LogEntries d);
               InitMetricStreamCall (Metrics d)]
    ∧ Init sample_platform null_sink sample_process_info 1 2 3
        (Init sample_platform null_sink sample_process_info 4096 4096 4096
           (fresh_world tt))
      = Init sample_platform null_sink sample_process_info 4096 4096 4096
          (fresh_world tt).
Proof.
  destruct (Init_idempotent sample_platform null_sink sample_process_info
              4096 4096 4096 (fresh_world tt) [(sample_process_info, 1, 2, 3)]
              eq_refl)%Z
    as (d & Hd & Hcalls & _ & Hmore & _).
  exists d. split; [exact Hd|]. split; [exact Hcalls | exact Hmore].
Defined.

(** C8, as the code has it.  [Shutdown] leaves the singleton unset, and
    while it is unset: the log and metric entry points and the two flush
    functions return without any effect; a thread-span entry point called
    on a thread that has no thread stream yet returns without any effect
    (no stream is created, the sink is not called); called on a thread that
    already has its stream, it appends the event to the current block of
    that stream, and nothing else changes: no rotation and no call on the
    sink, even when the block is full. *)
Theorem emission_without_dispatch {S} (platform : Platform)
    (sink : EventSink S) (w : World S) (tid : nat) :
  GDispatch w = None →
  (∀ onShutdown (w0 : World S), GDispatch (Shutdown onShutdown tid w0) = None)
  ∧ (∀ e, LogStaticStr platform sink tid e w = w)
  ∧ (∀ e, LogInterop platform sink tid e w = w)
  ∧ (∀ e, IntMetric platform sink tid e w = w)
  ∧ (∀ e, FloatMetric platform sink tid e w = w)
  ∧ FlushLogStream platform sink tid w = w
  ∧ FlushMetricStream platform sink tid w = w
  ∧ (∀ x : OneOf ThreadEventTypes,
       QueueThreadEvent platform sink tid x w
       = match ThreadLocalPtr w !! tid with
         | None => w
         | Some stream =>
             match ThreadStreamHeap w !! stream with
             | None => w
             | Some s =>
                 set_ThreadStreamHeap
                   (<[stream := StreamPush x s]> (ThreadStreamHeap w)) w
             end
         end)
  ∧ (∀ e, BeginScope platform sink tid e w
          = QueueThreadEvent platform sink tid
              (Here (T := BeginThreadSpanEvent_t) e) w)
  ∧ (∀ e, EndScope platform sink tid e w
          = QueueThreadEvent platform sink tid
              (Next (Here (T := EndThreadSpanEvent_t) e)) w).
Proof.
  intros Hnone. split; [|repeat split].
  - intros onShutdown w0. unfold Shutdown.
    destruct (GDispatch w0) eqn:Hd; [done | exact Hd].
  - intros e. unfold LogStaticStr, QueueLogEntry. by rewrite Hnone.
  - intros e. unfold LogInterop, QueueLogEntry. by rewrite Hnone.
  - intros e. unfold IntMetric, QueueMetric. by rewrite Hnone.
  - intros e. unfold FloatMetric, QueueMetric. by rewrite Hnone.
  - unfold FlushLogStream. by rewrite Hnone.
  - unfold FlushMetricStream. by rewrite Hnone.
  - intros x. unfold QueueThreadEvent, GetCurrentThreadStream.
    destruct (ThreadLocalPtr w !! tid) as [stream|]; [|by rewrite Hnone].
    destruct (ThreadStreamHeap w !! stream) as [s|]; [|done].
    simpl. rewrite Hnone. by destruct (IsFull _).
Qed.

Lemma emission_without_dispatch_witness :
  LogStaticStr sample_platform null_sink 1
    {| LogStaticStrEvent.Desc := 4096; LogStaticStrEvent.Timestamp := 1000 |}
    (fresh_world tt)
  = fresh_world tt.
Proof.
  exact (proj1 (proj2 (emission_without_dispatch sample_platform null_sink
                         (fresh_world tt) 1 eq_refl)) _).
Defined.

(** C8, as stated, fails: after [Shutdown] a span event emitted on a thread
    that has its stream is appended to the current block of that stream. *)
Lemma span_event_after_Shutdown_is_appended :
  GDispatch world_after_shutdown = None
  ∧ thread_stream_events 0 world_after_shutdown = Some 1%Z
  ∧ thread_stream_events 0 late_span_event = Some 2%Z
  ∧ late_span_event ≠ world_after_shutdown.
Proof.
  assert (H1 : thread_stream_events 0 world_after_shutdown = Some 1%Z)
    by (vm_compute; reflexivity).
  assert (H2 : thread_stream_events 0 late_span_event = Some 2%Z)
    by (vm_compute; reflexivity).
  split; [reflexivity|]. split; [exact H1|]. split; [exact H2|].
  intros Heq. rewrite Heq, H1 in H2. discriminate.
Qed.

(* ===================================================================== *)
(** * The dispatch: what the thread-stream functions leave alone          *)
(* ===================================================================== *)

Lemma same_streams_refl d : same_streams d d.
Proof. by repeat split. Qed.

Lemma same_streams_trans d1 d2 d3 :
  same_streams d1 d2 → same_streams d2 d3 → same_streams d1 d3.
Proof.
  intros (?&?&?&?&?&?) (?&?&?&?&?&?). repeat split; congruence.
Qed.

Section ThreadFrame.
Context {S : Type}.
Variable platform : Platform.
Variable sink : EventSink S.

Lemma thread_frame_refl (w : World S) : thread_frame w w.
Proof.
  split.
  - destruct (GDispatch w); [apply same_streams_refl | done].
  - exists []. by rewrite app_nil_r.
  - done.
Qed.

Lemma thread_frame_trans (w1 w2 w3 : World S) :
  thread_frame w1 w2 → thread_frame w2 w3 → thread_frame w1 w3.
Proof.
  intros [Hd1 (tc1 & Hc1 & Ht1) Hk1] [Hd2 (tc2 & Hc2 & Ht2) Hk2]. split.
  - destruct (GDispatch w1), (GDispatch w2), (GDispatch w3); try done.
    by eapply same_streams_trans.
  - exists (tc1 ++ tc2). rewrite Hc2, Hc1, (assoc_L (++)). split; [done|].
    by apply Forall_app.
  - lia.
Qed.

(** A change of the thread-stream parts of the world and of the counters. *)
Lemma thread_frame_fields (w : World S) heap tls reads guids :
  ClockReads w ≤ reads →
  thread_frame w
    (MkWorld (GDispatch w) heap tls (SinkState w) (SinkCalls w) reads guids).
Proof.
  intros Hreads. split; simpl.
  - destruct (GDispatch w); [apply same_streams_refl | done].
  - exists []. by rewrite app_nil_r.
  - done.
Qed.

Lemma thread_frame_call (w : World S) c st heap :
  is_thread_call c →
  thread_frame w
    (MkWorld (GDispatch w) heap (ThreadLocalPtr w) st (SinkCalls w ++ [c])
       (ClockReads w) (GuidsAllocated w)).
Proof.
  intros Hc. split; simpl.
  - destruct (GDispatch w); [apply same_streams_refl | done].
  - exists [c]. split; [done|]. by constructor.
  - done.
Qed.

Lemma thread_frame_register (w : World S) d l :
  GDispatch w = Some d →
  thread_frame w (set_GDispatch (Some (set_ThreadStreams l d)) w).
Proof.
  intros Hd. split; simpl.
  - rewrite Hd. by repeat split.
  - exists []. by rewrite app_nil_r.
  - done.
Qed.

Lemma Now_frame (w : World S) : thread_frame w (Now platform w).2.
Proof. apply thread_frame_fields. simpl. lia. Qed.

Lemma Cycles64_frame (w : World S) : thread_frame w (Cycles64 platform w).2.
Proof. apply thread_frame_fields. simpl. lia. Qed.

Lemma AllocNewGuid_frame (w : World S) :
  thread_frame w (AllocNewGuid platform w).2.
Proof. apply thread_frame_fields. simpl. lia. Qed.

Lemma FlushThreadStream_frame d stream (w : World S) :
  thread_frame w (FlushThreadStream platform sink d stream w).
Proof.
  unfold FlushThreadStream.
  pose proof (Now_frame w) as H1.
  destruct (Now platform w) as [now w1]. simpl in H1.
  destruct (ThreadStreamHeap w1 !! stream) as [s|]; [|done].
  destruct (SwapBlocks _ s) as [fullBlock s'].
  eapply thread_frame_trans; [exact H1|].
  eapply thread_frame_trans;
    [apply (thread_frame_fields w1 (<[stream:=s']> (ThreadStreamHeap w1))
              (ThreadLocalPtr w1) (ClockReads w1) (GuidsAllocated w1)); lia|].
  unfold call_sink, set_ThreadStreamHeap. simpl.
  apply (thread_frame_call
           (MkWorld (GDispatch w1) (<[stream:=s']> (ThreadStreamHeap w1))
              (ThreadLocalPtr w1) (SinkState w1) (SinkCalls w1)
              (ClockReads w1) (GuidsAllocated w1))
           (ProcessThreadBlockCall _)). done.
Qed.

Lemma AllocThreadStream_frame d (w : World S) :
  thread_frame w (AllocThreadStream platform d w).2.
Proof.
  unfold AllocThreadStream.
  pose proof (AllocNewGuid_frame w) as H1.
  destruct (AllocNewGuid platform w) as [streamId w1]. simpl in H1.
  pose proof (Now_frame w1) as H2.
  destruct (Now platform w1) as [now w2]. simpl in *.
  eapply thread_frame_trans; [exact H1|].
  eapply thread_frame_trans; [exact H2|].
  apply thread_frame_fields. lia.
Qed.

Lemma PublishThreadStream_frame tid stream (w : World S) :
  thread_frame w (PublishThreadStream sink tid stream w).
Proof.
  unfold PublishThreadStream.
  set (w1 := match GDispatch w with Some d => _ | None => w end).
  assert (H1 : thread_frame w w1).
  { subst w1. destruct (GDispatch w) as [d|] eqn:Hd;
      [by apply thread_frame_register | apply thread_frame_refl]. }
  destruct (ThreadStreamHeap w1 !! stream) as [s|]; [|done].
  destruct (OnInitThreadStream sink tid s (SinkState w1)) as [s' st].
  eapply thread_frame_trans; [exact H1|].
  apply (thread_frame_call w1 (InitThreadStreamCall s)). done.
Qed.

Lemma GetCurrentThreadStream_frame tid (w : World S) :
  thread_frame w (GetCurrentThreadStream platform sink tid w).2.
Proof.
  unfold GetCurrentThreadStream.
  destruct (ThreadLocalPtr w !! tid); [apply thread_frame_refl|].
  destruct (GDispatch w) as [d|]; [|apply thread_frame_refl].
  pose proof (AllocThreadStream_frame d w) as H1.
  destruct (AllocThreadStream platform d w) as [ptr w1]. simpl in *.
  eapply thread_frame_trans; [exact H1|].
  eapply thread_frame_trans; [|apply PublishThreadStream_frame].
  apply thread_frame_fields. lia.
Qed.

Lemma QueueThreadEvent_frame tid x (w : World S) :
  thread_frame w (QueueThreadEvent platform sink tid x w).
Proof.
  unfold QueueThreadEvent.
  pose proof (GetCurrentThreadStream_frame tid w) as H1.
  destruct (GetCurrentThreadStream platform sink tid w) as [[stream|] w1];
    simpl in H1; [|done].
  destruct (ThreadStreamHeap w1 !! stream) as [s|]; [|done].
  eapply thread_frame_trans; [exact H1|].
  set (w2 := set_ThreadStreamHeap _ w1).
  assert (H2 : thread_frame w1 w2) by (apply thread_frame_fields; lia).
  destruct (IsFull _); [|done].
  destruct (GDispatch w2) as [d|]; [|done].
  eapply thread_frame_trans; [exact H2|]. apply FlushThreadStream_frame.
Qed.

Lemma BeginScope_frame tid e (w : World S) :
  thread_frame w (BeginScope platform sink tid e w).
Proof. apply QueueThreadEvent_frame. Qed.

Lemma EndScope_frame tid e (w : World S) :
  thread_frame w (EndScope platform sink tid e w).
Proof. apply QueueThreadEvent_frame. Qed.

Lemma ForEachThreadStream_frame callback (w : World S) :
  thread_frame w (ForEachThreadStream callback w).
Proof.
  unfold ForEachThreadStream. destruct (GDispatch w) as [d|];
    [|apply thread_frame_refl].
  generalize (ThreadStreams d). intros l. revert w.
  induction l as [|stream l IH]; intros w; simpl; [apply thread_frame_refl|].
  eapply thread_frame_trans; [|apply IH].
  destruct (ThreadStreamHeap w !! stream); [|apply thread_frame_refl].
  apply thread_frame_fields. lia.
Qed.
End ThreadFrame.

(* ===================================================================== *)
(** * The dispatch: rotation of the log and metric streams                *)
(* ===================================================================== *)

Section Rotation.
Context {S : Type}.
Variable platform : Platform.
Variable sink : EventSink S.

(** [LGN_SPAN_SCOPE] runs its body between two thread-stream steps, each of
    which reads the cycle counter. *)
Lemma LGN_SPAN_SCOPE_frames tid desc body (w : World S) :
  ∃ w1, thread_frame w w1 ∧ ClockReads w < ClockReads w1
        ∧ thread_frame (body w1) (LGN_SPAN_SCOPE platform sink tid desc body w)
        ∧ ClockReads (body w1)
          < ClockReads (LGN_SPAN_SCOPE platform sink tid desc body w).
Proof.
  unfold LGN_SPAN_SCOPE, SpanGuard_ctor, SpanGuard_dtor.
  assert (Hc : ∀ w : World S,
             ClockReads (Cycles64 platform w).2 = 1 + ClockReads w) by done.
  pose proof (Cycles64_frame platform w) as H1. pose proof (Hc w) as Hc1.
  destruct (Cycles64 platform w) as [ts w1]. simpl in H1, Hc1.
  set (w2 := BeginScope platform sink tid _ w1).
  assert (H2 : thread_frame w1 w2) by apply BeginScope_frame.
  exists w2. split; [by eapply thread_frame_trans|].
  split; [pose proof (tf_clock _ _ H2); lia|].
  pose proof (Cycles64_frame platform (body w2)) as H3.
  pose proof (Hc (body w2)) as Hc3.
  destruct (Cycles64 platform (body w2)) as [ts' w3]. simpl in H3, Hc3.
  set (w4 := EndScope platform sink tid _ w3).
  assert (H4 : thread_frame w3 w4) by apply EndScope_frame.
  split; [by eapply thread_frame_trans|].
  pose proof (tf_clock _ _ H4). lia.
Qed.

Lemma FlushLogStreamImpl_rotates tid (w : World S) d :
  GDispatch w = Some d →
  ∃ n, log_rotated platform d n w (FlushLogStreamImpl platform sink tid w).
Proof.
  intros Hd. unfold FlushLogStreamImpl.
  destruct (LGN_SPAN_SCOPE_frames tid (spanMeta_FlushLogStreamImpl platform)
              (λ w : World S,
                 let '(now, w) := Now platform w in
                 match GDispatch w with
                 | None => w
                 | Some this =>
                     let newBlock : LogBlock :=
                       NewEventBlock (GetStreamId (LogEntries this)) now
                         (LogBufferSize this) in
                     let '(fullBlock, s) :=
                       SwapBlocks newBlock (LogEntries this) in
                     let fullBlock := Close now fullBlock in
                     let w := set_GDispatch (Some (set_LogEntries s this)) w in
                     call_sink (ProcessLogBlockCall fullBlock)
                       (OnProcessLogBlock sink fullBlock) w
                 end) w) as (w1 & H1 & Hc1 & H2 & Hc2).
  revert H2 Hc2. generalize (LGN_SPAN_SCOPE platform sink tid
                               (spanMeta_FlushLogStreamImpl platform)).
  intros scope. set (body := λ w : World S, _). generalize (scope body w).
  intros w'. subst body. cbn beta. unfold Now. cbn [GDispatch].
  destruct H1 as [Hd1 (tc1 & Hcalls1 & Htc1) Hk1]. rewrite Hd in Hd1.
  destruct (GDispatch w1) as [d1|] eqn:Hd1'; [|done].
  destruct Hd1 as (HL & HM & HLB & HMB & HTB & HP).
  unfold SwapBlocks, call_sink, set_GDispatch. cbn.
  intros [Hd2 (tc2 & Hcalls2 & Htc2) Hk2] Hc2. cbn in Hd2, Hcalls2, Hk2, Hc2.
  destruct (GDispatch w') as [d'|] eqn:Hd'; [|done].
  destruct Hd2 as (HL' & HM' & HLB' & HMB' & HTB' & HP').
  exists (ClockReads w1). split.
  - exists d'. split; [done|]. cbn in *. unfold SwapBlocks, reading.
    rewrite HL', HM', HLB', HMB', HTB', HP', HL, HM, HLB, HMB, HTB, HP.
    by repeat split.
  - exists tc1, tc2. rewrite Hcalls2, Hcalls1, HL.
    rewrite <- !(assoc_L (++)). by repeat split.
  - lia.
Qed.

Lemma FlushMetricStreamImpl_rotates tid (w : World S) d :
  GDispatch w = Some d →
  ∃ n, metric_rotated platform d n w
         (FlushMetricStreamImpl platform sink tid w).
Proof.
  intros Hd. unfold FlushMetricStreamImpl.
  destruct (LGN_SPAN_SCOPE_frames tid (spanMeta_FlushMetricStreamImpl platform)
              (λ w : World S,
                 let '(now, w) := Now platform w in
                 match GDispatch w with
                 | None => w
                 | Some this =>
                     let newBlock : MetricBlock :=
                       NewEventBlock (GetStreamId (Metrics this)) now
                         (MetricBufferSize this) in
                     let '(fullBlock, s) :=
                       SwapBlocks newBlock (Metrics this) in
                     let fullBlock := Close now fullBlock in
                     let w := set_GDispatch (Some (set_Metrics s this)) w in
                     call_sink (ProcessMetricBlockCall fullBlock)
                       (OnProcessMetricBlock sink fullBlock) w
                 end) w) as (w1 & H1 & Hc1 & H2 & Hc2).
  revert H2 Hc2. generalize (LGN_SPAN_SCOPE platform sink tid
                               (spanMeta_FlushMetricStreamImpl platform)).
  intros scope. set (body := λ w : World S, _). generalize (scope body w).
  intros w'. subst body. cbn beta. unfold Now. cbn [GDispatch].
  destruct H1 as [Hd1 (tc1 & Hcalls1 & Htc1) Hk1]. rewrite Hd in Hd1.
  destruct (GDispatch w1) as [d1|] eqn:Hd1'; [|done].
  destruct Hd1 as (HL & HM & HLB & HMB & HTB & HP).
  unfold SwapBlocks, call_sink, set_GDispatch. cbn.
  intros [Hd2 (tc2 & Hcalls2 & Htc2) Hk2] Hc2. cbn in Hd2, Hcalls2, Hk2, Hc2.
  destruct (GDispatch w') as [d'|] eqn:Hd'; [|done].
  destruct Hd2 as (HL' & HM' & HLB' & HMB' & HTB' & HP').
  exists (ClockReads w1). split.
  - exists d'. split; [done|]. cbn in *. unfold SwapBlocks, reading.
    rewrite HL', HM', HLB', HMB', HTB', HP', HL, HM, HLB, HMB, HTB, HP.
    by repeat split.
  - exists tc1, tc2. rewrite Hcalls2, Hcalls1, HM.
    rewrite <- !(assoc_L (++)). by repeat split.
  - lia.
Qed.
End Rotation.

(* ===================================================================== *)
(** * What blocks hold                                                    *)
(* ===================================================================== *)

Lemma holds_new k streamId begin bufferSize :
  holds (k := k) (NewEventBlock streamId begin bufferSize) [].
Proof. split; [constructor | reflexivity]. Qed.

Lemma holds_push k (b : EventBlock (kind_types k)) xs x :
  holds b xs → event_wf x → holds (BlockPush x b) (xs ++ [x]).
Proof.
  intros [Hwf Hev] Hx. split.
  - apply Forall_app. split; [done | by constructor].
  - cbn. by rewrite Hev, PushAll_snoc.
Qed.

Lemma holds_Close k (b : EventBlock (kind_types k)) t xs :
  holds b xs → holds (Close t b) xs.
Proof. by intros [Hwf Hev]. Qed.

Lemma holds_BlockEvents k (b : EventBlock (kind_types k)) xs :
  holds b xs → BlockEvents k b = Some xs.
Proof.
  intros [Hwf Hev]. unfold BlockEvents. rewrite Hev.
  rewrite (ForEach_PushAll _ (kind_wfs k));
    [apply (visit_all_collect xs []) | apply kind_lawful | exact Hwf
    | apply kind_types_small].
Qed.

Lemma holds_inj k (b : EventBlock (kind_types k)) xs ys :
  holds b xs → holds b ys → xs = ys.
Proof.
  intros Hx Hy. apply holds_BlockEvents in Hx, Hy. congruence.
Qed.

Lemma blocks_hold_nil k : blocks_hold (k := k) [] [].
Proof. exists []. by split; [constructor|]. Qed.

Lemma blocks_hold_snoc k (bs : list (EventBlock (kind_types k))) b xs ys :
  blocks_hold bs xs → holds b ys → blocks_hold (bs ++ [b]) (xs ++ ys).
Proof.
  intros (xss & Hall & ->) Hb. exists (xss ++ [ys]). split.
  - apply Forall2_app; [done | by constructor].
  - rewrite concat_app. simpl. by rewrite app_nil_r.
Qed.

Lemma blocks_hold_events k (bs : list (EventBlock (kind_types k))) xs :
  blocks_hold bs xs → blocks_events k bs = Some xs.
Proof.
  intros (xss & Hall & ->). unfold blocks_events.
  assert (Hm : mapM (BlockEvents k) bs = Some xss).
  { apply mapM_Some. eapply Forall2_impl; [exact Hall|].
    intros b ys. apply holds_BlockEvents. }
  by rewrite Hm.
Qed.

Lemma log_blocks_app a b : log_blocks (a ++ b) = log_blocks a ++ log_blocks b.
Proof. apply bind_app. Qed.

Lemma metric_blocks_app a b :
  metric_blocks (a ++ b) = metric_blocks a ++ metric_blocks b.
Proof. apply bind_app. Qed.

Lemma thread_blocks_app a b :
  thread_blocks (a ++ b) = thread_blocks a ++ thread_blocks b.
Proof. apply bind_app. Qed.

Lemma log_blocks_thread tc : Forall is_thread_call tc → log_blocks tc = [].
Proof.
  induction 1 as [|c tc Hc _ IH]; [done|].
  unfold log_blocks in *. rewrite bind_cons, IH. by destruct c.
Qed.

Lemma metric_blocks_thread tc :
  Forall is_thread_call tc → metric_blocks tc = [].
Proof.
  induction 1 as [|c tc Hc _ IH]; [done|].
  unfold metric_blocks in *. rewrite bind_cons, IH. by destruct c.
Qed.

Lemma startup_calls_thread tc :
  Forall is_thread_call tc → startup_calls tc = [].
Proof.
  induction 1 as [|c tc Hc _ IH]; [done|].
  unfold startup_calls in *. rewrite bind_cons, IH. by destruct c.
Qed.

(* ===================================================================== *)
(** * The dispatch: the history of the log and metric streams             *)
(* ===================================================================== *)

Section History.
Context {S : Type}.
Variable platform : Platform.
Variable sink : EventSink S.

Lemma history_frame since (w w' : World S) l m :
  thread_frame w w' → history_is since w l m → history_is since w' l m.
Proof.
  intros [Hd (tc & Hcalls & Htc) _] (d & Hw & Hsince & Hlog & Hmet).
  rewrite Hw in Hd. destruct (GDispatch w') as [d'|] eqn:Hd'; [|done].
  destruct Hd as (HL & HM & _).
  exists d'. split; [done|]. rewrite Hcalls, length_app.
  split; [lia|]. rewrite drop_app_le by done.
  rewrite log_blocks_app, metric_blocks_app, (log_blocks_thread tc),
    (metric_blocks_thread tc), !app_nil_r, HL, HM by done.
  by split.
Qed.

Lemma history_log_rotated since (w w' : World S) d n l m :
  GDispatch w = Some d → log_rotated platform d n w w' →
  history_is since w l m → history_is since w' l m.
Proof.
  intros Hd [(d' & Hd' & HL & HM & _) (tc1 & tc2 & Hcalls & Htc1 & Htc2) _]
    (d0 & Hw & Hsince & (dl & cl & Hdl & Hcl & ->) & Hmet).
  assert (d0 = d) as -> by congruence.
  exists d'. split; [done|]. rewrite Hcalls, !length_app.
  split; [lia|]. rewrite drop_app_le by done. split.
  - exists (dl ++ cl), []. rewrite app_nil_r. split; [|split; [|done]].
    + rewrite !log_blocks_app, (log_blocks_thread tc1) by done.
      rewrite app_nil_l.
      change (log_blocks (ProcessLogBlockCall ?b :: tc2))
        with (b :: log_blocks tc2).
      rewrite (log_blocks_thread tc2) by done.
      apply blocks_hold_snoc; [done|]. by apply holds_Close.
    + rewrite HL. apply holds_new.
  - rewrite !metric_blocks_app, (metric_blocks_thread tc1) by done.
    change (metric_blocks (ProcessLogBlockCall ?b :: tc2))
      with (metric_blocks tc2).
    rewrite (metric_blocks_thread tc2), !app_nil_r, HM by done. exact Hmet.
Qed.

Lemma history_metric_rotated since (w w' : World S) d n l m :
  GDispatch w = Some d → metric_rotated platform d n w w' →
  history_is since w l m → history_is since w' l m.
Proof.
  intros Hd [(d' & Hd' & HM & HL & _) (tc1 & tc2 & Hcalls & Htc1 & Htc2) _]
    (d0 & Hw & Hsince & Hlog & (dm & cm & Hdm & Hcm & ->)).
  assert (d0 = d) as -> by congruence.
  exists d'. split; [done|]. rewrite Hcalls, !length_app.
  split; [lia|]. rewrite drop_app_le by done. split.
  - rewrite !log_blocks_app, (log_blocks_thread tc1) by done.
    change (log_blocks (ProcessMetricBlockCall ?b :: tc2))
      with (log_blocks tc2).
    rewrite (log_blocks_thread tc2), !app_nil_r, HL by done. exact Hlog.
  - exists (dm ++ cm), []. rewrite app_nil_r. split; [|split; [|done]].
    + rewrite !metric_blocks_app, (metric_blocks_thread tc1) by done.
      rewrite app_nil_l.
      change (metric_blocks (ProcessMetricBlockCall ?b :: tc2))
        with (b :: metric_blocks tc2).
      rewrite (metric_blocks_thread tc2) by done.
      apply blocks_hold_snoc; [done|]. by apply holds_Close.
    + rewrite HM. apply holds_new.
Qed.

Lemma history_push_log since (w : World S) d x l m :
  GDispatch w = Some d → event_wf (k := LogEvents) x →
  history_is since w l m →
  history_is since
    (set_GDispatch (Some (set_LogEntries (StreamPush x (LogEntries d)) d)) w)
    (l ++ [x]) m.
Proof.
  intros Hd Hx (d0 & Hw & Hsince & (dl & cl & Hdl & Hcl & ->) & Hmet).
  assert (d0 = d) as -> by congruence.
  eexists. split; [reflexivity|]. split; [done|]. split; [|exact Hmet].
  exists dl, (cl ++ [x]). split; [done|]. split; [|by rewrite (assoc_L (++))].
  by apply (holds_push LogEvents).
Qed.

Lemma history_push_metric since (w : World S) d x l m :
  GDispatch w = Some d → event_wf (k := MetricEvents) x →
  history_is since w l m →
  history_is since
    (set_GDispatch (Some (set_Metrics (StreamPush x (Metrics d)) d)) w)
    l (m ++ [x]).
Proof.
  intros Hd Hx (d0 & Hw & Hsince & Hlog & (dm & cm & Hdm & Hcm & ->)).
  assert (d0 = d) as -> by congruence.
  eexists. split; [reflexivity|]. split; [done|]. split; [exact Hlog|].
  exists dm, (cm ++ [x]). split; [done|]. split; [|by rewrite (assoc_L (++))].
  by apply (holds_push MetricEvents).
Qed.

Lemma history_FlushLogStream since tid (w : World S) l m :
  history_is since w l m →
  history_is since (FlushLogStream platform sink tid w) l m.
Proof.
  intros H. pose proof H as (d & Hd & _). unfold FlushLogStream. rewrite Hd.
  destruct (FlushLogStreamImpl_rotates platform sink tid w d Hd) as [n Hn].
  by eapply history_log_rotated.
Qed.

Lemma history_FlushMetricStream since tid (w : World S) l m :
  history_is since w l m →
  history_is since (FlushMetricStream platform sink tid w) l m.
Proof.
  intros H. pose proof H as (d & Hd & _). unfold FlushMetricStream. rewrite Hd.
  destruct (FlushMetricStreamImpl_rotates platform sink tid w d Hd) as [n Hn].
  by eapply history_metric_rotated.
Qed.

Lemma history_QueueLogEntry since tid x (w : World S) l m :
  event_wf (k := LogEvents) x → history_is since w l m →
  history_is since (QueueLogEntry platform sink tid x w) (l ++ [x]) m.
Proof.
  intros Hx H. pose proof H as (d & Hd & _). unfold QueueLogEntry. rewrite Hd.
  pose proof (history_push_log since w d x l m Hd Hx H) as H1.
  destruct (IsFull _); [|exact H1].
  set (w1 := set_GDispatch _ w) in *.
  destruct (FlushLogStreamImpl_rotates platform sink tid w1 _ eq_refl)
    as [n Hn].
  eapply history_log_rotated; [|exact Hn|exact H1]. reflexivity.
Qed.

Lemma history_QueueMetric since tid x (w : World S) l m :
  event_wf (k := MetricEvents) x → history_is since w l m →
  history_is since (QueueMetric platform sink tid x w) l (m ++ [x]).
Proof.
  intros Hx H. pose proof H as (d & Hd & _). unfold QueueMetric. rewrite Hd.
  pose proof (history_push_metric since w d x l m Hd Hx H) as H1.
  destruct (IsFull _); [|exact H1].
  set (w1 := set_GDispatch _ w) in *.
  destruct (FlushMetricStreamImpl_rotates platform sink tid w1 _ eq_refl)
    as [n Hn].
  eapply history_metric_rotated; [|exact Hn|exact H1]. reflexivity.
Qed.

Lemma history_Init processInfo lbs mbs tbs (w0 : World S) :
  GDispatch w0 = None →
  history_is (length (SinkCalls w0))
    (Init platform sink processInfo lbs mbs tbs w0) [] [].
Proof.
  intros Hnone.
  destruct (Init_first platform sink processInfo lbs mbs tbs w0 Hnone)
    as (Hd & Hcalls & _).
  eexists. split; [exact Hd|]. rewrite Hcalls, length_app, drop_app_length.
  split; [lia|]. split.
  - exists [], []. split; [apply blocks_hold_nil|]. split; [|done].
    apply holds_new.
  - exists [], []. split; [apply blocks_hold_nil|]. split; [|done].
    apply holds_new.
Qed.

Lemma history_step since (w : World S) op l m :
  op_wf op → history_is since w l m →
  history_is since (step platform sink w op)
    (l ++ log_event_of op) (m ++ metric_event_of op).
Proof.
  intros Hop H. destruct op; simpl; rewrite ?app_nil_r.
  - by apply history_QueueLogEntry.
  - by apply history_QueueLogEntry.
  - by apply history_QueueMetric.
  - by apply history_QueueMetric.
  - eapply history_frame; [apply BeginScope_frame | done].
  - eapply history_frame; [apply EndScope_frame | done].
  - by apply history_FlushLogStream.
  - by apply history_FlushMetricStream.
  - eapply history_frame; [apply ForEachThreadStream_frame | done].
Qed.

Lemma history_run since ops (w : World S) l m :
  Forall op_wf ops → history_is since w l m →
  history_is since (run platform sink ops w)
    (l ++ ops ≫= log_event_of) (m ++ ops ≫= metric_event_of).
Proof.
  intros Hops. revert w l m.
  induction Hops as [|op ops Hop _ IH]; intros w l m H.
  - simpl. by rewrite !app_nil_r.
  - rewrite !bind_cons, !(assoc_L (++)). unfold run in *. cbn [foldl].
    apply IH. by apply history_step.
Qed.

Lemma history_read since (w : World S) l m :
  history_is since w l m →
  LogHistory since w = Some l ∧ MetricHistory since w = Some m.
Proof.
  intros (d & Hd & _ & (dl & cl & Hdl & Hcl & ->) & (dm & cm & Hdm & Hcm & ->)).
  unfold LogHistory, MetricHistory. rewrite Hd. simpl.
  rewrite (blocks_hold_events LogEvents _ _ Hdl),
    (blocks_hold_events MetricEvents _ _ Hdm). simpl.
  rewrite (holds_BlockEvents LogEvents _ _ Hcl),
    (holds_BlockEvents MetricEvents _ _ Hcm). done.
Qed.
End History.

Lemma sample_ops_wf : Forall op_wf sample_ops.
Proof.
  repeat constructor; try apply sample_interop_wf; simpl; lia.
Qed.



(* ===================================================================== *)
(** * Shutdown with the remote sink                                       *)
(* ===================================================================== *)

Section CallsGrow.
Context {S : Type}.
Variable platform : Platform.
Variable sink : EventSink S.

Lemma thread_frame_calls (w w' : World S) :
  thread_frame w w' → SinkCalls w `prefix_of` SinkCalls w'.
Proof. intros [_ (tc & -> & _) _]. by exists tc. Qed.

Lemma log_rotated_calls d n (w w' : World S) :
  log_rotated platform d n w w' → SinkCalls w `prefix_of` SinkCalls w'.
Proof. intros [_ (tc1 & tc2 & -> & _) _]. eexists. reflexivity. Qed.

Lemma metric_rotated_calls d n (w w' : World S) :
  metric_rotated platform d n w w' → SinkCalls w `prefix_of` SinkCalls w'.
Proof. intros [_ (tc1 & tc2 & -> & _) _]. eexists. reflexivity. Qed.

Lemma QueueLogEntry_calls tid x (w : World S) :
  SinkCalls w `prefix_of` SinkCalls (QueueLogEntry platform sink tid x w).
Proof.
  unfold QueueLogEntry. destruct (GDispatch w) as [d|] eqn:Hd; [|done].
  destruct (IsFull _); [|done].
  set (w1 := set_GDispatch _ w).
  destruct (FlushLogStreamImpl_rotates platform sink tid w1 _ eq_refl)
    as [n Hn].
  apply log_rotated_calls in Hn. exact Hn.
Qed.

Lemma QueueMetric_calls tid x (w : World S) :
  SinkCalls w `prefix_of` SinkCalls (QueueMetric platform sink tid x w).
Proof.
  unfold QueueMetric. destruct (GDispatch w) as [d|] eqn:Hd; [|done].
  destruct (IsFull _); [|done].
  set (w1 := set_GDispatch _ w).
  destruct (FlushMetricStreamImpl_rotates platform sink tid w1 _ eq_refl)
    as [n Hn].
  apply metric_rotated_calls in Hn. exact Hn.
Qed.

(** After a forced rotation the current block of the log stream is the
    fresh one, and a log block has been handed over. *)
Lemma log_rotated_current d n (w w' : World S) since :
  log_rotated platform d n w w' → since ≤ length (SinkCalls w) →
  (∃ d', GDispatch w' = Some d'
         ∧ holds (k := LogEvents) (CurrentBlock (LogEntries d')) [])
  ∧ log_blocks (drop since (SinkCalls w')) ≠ [].
Proof.
  intros [(d' & Hd' & HL & _) (tc1 & tc2 & Hcalls & _) _] Hsince. split.
  - exists d'. split; [done|]. rewrite HL. apply holds_new.
  - rewrite Hcalls, drop_app_le, (assoc_L (++)), !log_blocks_app by done.
    change (log_blocks (ProcessLogBlockCall ?b :: tc2))
      with (b :: log_blocks tc2).
    intros Hnil. apply app_eq_nil in Hnil as [_ Hnil]. discriminate.
Qed.

Lemma metric_rotated_current d n (w w' : World S) since :
  metric_rotated platform d n w w' → since ≤ length (SinkCalls w) →
  (∃ d', GDispatch w' = Some d'
         ∧ holds (k := MetricEvents) (CurrentBlock (Metrics d')) []
         ∧ LogEntries d' = LogEntries d)
  ∧ metric_blocks (drop since (SinkCalls w')) ≠ []
  ∧ log_blocks (drop since (SinkCalls w'))
    = log_blocks (drop since (SinkCalls w)).
Proof.
  intros [(d' & Hd' & HM & HL & _) (tc1 & tc2 & Hcalls & Htc1 & Htc2) _] Hsince.
  split; [|split].
  - exists d'. split; [done|]. split; [|done]. rewrite HM. apply holds_new.
  - rewrite Hcalls, drop_app_le, (assoc_L (++)), !metric_blocks_app by done.
    change (metric_blocks (ProcessMetricBlockCall ?b :: tc2))
      with (b :: metric_blocks tc2).
    intros Hnil. apply app_eq_nil in Hnil as [_ Hnil]. discriminate.
  - rewrite Hcalls, drop_app_le, !log_blocks_app by done.
    change (log_blocks (ProcessMetricBlockCall ?b :: tc2))
      with (log_blocks tc2).
    by rewrite (log_blocks_thread tc1), (log_blocks_thread tc2), !app_nil_r.
Qed.
End CallsGrow.

Lemma Queue_drain rhost tasks this :
  Queue this = tasks → Queue (drain rhost tasks this) = [].
Proof.
  revert this. induction tasks as [|c tasks IH]; intros this Hq; simpl.
  - exact Hq.
  - destruct (run_task rhost (length (Sent this)) c) as [lines request].
    by apply IH.
Qed.

Lemma RequestShutdown_drain rhost tasks this :
  RequestShutdown (drain rhost tasks this) = RequestShutdown this.
Proof.
  revert this. induction tasks as [|c tasks IH]; intros this; simpl.
  - done.
  - destruct (run_task rhost (length (Sent this)) c) as [lines request].
    by rewrite IH.
Qed.

Lemma update_sink_frame f (w : World RemoteSink) :
  thread_frame w (update_sink f w).
Proof.
  split; simpl.
  - destruct (GDispatch w); [apply same_streams_refl | done].
  - exists []. by rewrite app_nil_r.
  - done.
Qed.


Lemma sample_metric_event_wf :
  event_wf (k := MetricEvents)
    (Here (T := IntegerMetricEvent_t) sample_metric_event).
Proof. repeat split; simpl; lia. Qed.


(* ===================================================================== *)
(** * GetPtr on an empty queue                                            *)
(* ===================================================================== *)

Lemma FormatBlockRequest_empty host k mem blockId
    (block : EventBlock (kind_types k)) bufferSize jsonText :
  Events block = NewQueue bufferSize →
  DualTime.Timestamp (End_ block) ≠ 0%Z →
  FJsonSerializer_Serialize host (MakeBlockInfo host blockId block (End_ block))
  = Some jsonText →
  FormatBlockRequest host (ExtractBlockDependencies k mem) blockId block
  = ([], None).
Proof.
  intros Hev Hend Hjson. unfold FormatBlockRequest.
  rewrite (ExtractBlockDependencies_empty k mem block bufferSize Hev).
  unfold GetEndTime. rewrite decide_True by done. by rewrite Hjson.
Qed.

(** When the "Shutting down" event fills the log stream, the block that
    [OnShutdown] then flushes is empty. *)
Lemma Shutdown_flushes_empty_block platform rhost tid (w : World RemoteSink) d :
  GDispatch w = Some d →
  IsFull (StreamPush (shutting_down_event platform rhost w) (LogEntries d))
  = true →
  ∃ block n,
    ProcessLogBlockCall block
    ∈ drop (length (SinkCalls w))
        (SinkCalls (RemoteSink_Shutdown platform rhost tid w))
    ∧ Events block = NewQueue (LogBufferSize d)
    ∧ End_ block = reading platform n.
Proof.
  intros Hd Hfull. unfold RemoteSink_Shutdown, Shutdown. rewrite Hd.
  cbn [set_GDispatch SinkCalls]. unfold RemoteSink_OnShutdown.
  cbn [update_sink set_SinkState SinkCalls].
  set (sink := RemoteSink_callbacks rhost).
  set (w1 := call_sink ShutdownCall id w).
  set (w2 := LGN_LOG_STATIC platform sink tid (logMeta_ShuttingDown rhost) w1).
  assert (H2 : ∃ d2, GDispatch w2 = Some d2
                     ∧ Events (CurrentBlock (LogEntries d2))
                       = NewQueue (LogBufferSize d)
                     ∧ LogBufferSize d2 = LogBufferSize d
                     ∧ SinkCalls w `prefix_of` SinkCalls w2).
  { subst w2. unfold LGN_LOG_STATIC, LogStaticStr, Cycles64, QueueLogEntry.
    cbn [GDispatch call_sink w1 ClockReads]. rewrite Hd.
    fold (shutting_down_event platform rhost w).
    replace (IsFull _) with true.
    set (w1' := set_GDispatch _ _).
    destruct (FlushLogStreamImpl_rotates platform sink tid w1' _ eq_refl)
      as [n [(d2 & Hd2 & HL & _ & HLB & _) Hcalls _]].
    exists d2. split; [done|]. rewrite HL. split; [done|]. split; [done|].
    destruct Hcalls as (tc1 & tc2 & -> & _). subst w1' w1.
    cbn [set_GDispatch call_sink SinkCalls]. rewrite <- !(assoc_L (++)).
    eexists. reflexivity. }
  destruct H2 as (d2 & Hd2 & Hev2 & HLB2 & Hp2).
  set (w3 := update_sink _ w2).
  set (w4 := FlushLogStream platform sink tid w3).
  assert (Hr4 : ∃ n, log_rotated platform d2 n w3 w4).
  { subst w4. unfold FlushLogStream. cbn [w3 update_sink set_SinkState GDispatch].
    rewrite Hd2. by apply FlushLogStreamImpl_rotates. }
  destruct Hr4 as [n [_ (tc1 & tc2 & Hcalls4 & _) _]].
  set (w5 := FlushMetricStream platform sink tid w4).
  assert (Hp5 : SinkCalls w4 `prefix_of` SinkCalls w5).
  { subst w5. unfold FlushMetricStream.
    destruct (GDispatch w4) as [d4|] eqn:Hd4; [|done].
    destruct (FlushMetricStreamImpl_rotates platform sink tid w4 d4 Hd4)
      as [n5 Hr5].
    by eapply metric_rotated_calls. }
  exists (Close (reading platform n) (CurrentBlock (LogEntries d2))), n.
  split; [|by split].
  destruct Hp5 as [more5 ->]. rewrite Hcalls4.
  cbn [w3 update_sink set_SinkState SinkCalls].
  destruct Hp2 as [more2 ->].
  rewrite <- !(assoc_L (++)), drop_app_length. set_solver.
Qed.

(** C10.  A queue into which nothing was pushed has an empty buffer, so
    the element 0 that [GetPtr] takes the address of is outside it.
    [FormatBlockRequest] on a block without events (closed, and whose block
    information serializes) extracts no dependency and then calls [GetPtr]
    on the empty dependency queue and on the empty event queue: it has no
    defined result.  Such a block reaches it through [Shutdown]: when the
    "Shutting down" event fills the log stream, the block that [OnShutdown]
    flushes afterwards and hands to the sink is empty and closed. *)
Theorem GetPtr_of_empty_queue (platform : Platform) (rhost : RemoteHost) :
  (∀ TS bufferSize,
     GetSizeBytes (NewQueue (TS := TS) bufferSize) = 0
     ∧ Buffer (NewQueue (TS := TS) bufferSize) !! 0 = None
     ∧ GetPtr (NewQueue (TS := TS) bufferSize) = None)
  ∧ (∀ k (block : EventBlock (kind_types k)) bufferSize blockId jsonText,
       Events block = NewQueue bufferSize →
       DualTime.Timestamp (End_ block) ≠ 0%Z →
       FJsonSerializer_Serialize (format_host rhost)
         (MakeBlockInfo (format_host rhost) blockId block (End_ block))
       = Some jsonText →
       ExtractBlockDependencies k (memory rhost) block = Some NewExtractor
       ∧ GetPtr (Dependencies
                   (NewExtractor (DepTypes := dep_types k (memory rhost))))
         = None
       ∧ GetPtr (Events block) = None
       ∧ FormatBlockRequest (format_host rhost)
           (ExtractBlockDependencies k (memory rhost)) blockId block
         = ([], None))
  ∧ (∀ tid (w : World RemoteSink) d,
       GDispatch w = Some d →
       IsFull (StreamPush (shutting_down_event platform rhost w)
                 (LogEntries d)) = true →
       ∃ block n,
         ProcessLogBlockCall block
         ∈ drop (length (SinkCalls w))
             (SinkCalls (RemoteSink_Shutdown platform rhost tid w))
         ∧ Events block = NewQueue (LogBufferSize d)
         ∧ End_ block = reading platform n).
Proof.
  split; [|split].
  - intros TS bufferSize. by repeat split.
  - intros k block bufferSize blockId jsonText Hev Hend Hjson.
    split; [by eapply ExtractBlockDependencies_empty|].
    split; [done|]. split; [by rewrite Hev|].
    by eapply FormatBlockRequest_empty.
  - intros tid w d. apply Shutdown_flushes_empty_block.
Qed.

Lemma GetPtr_of_empty_queue_witness :
  (∃ block n,
     ProcessLogBlockCall block
     ∈ drop (length (SinkCalls world_with_small_log_buffer))
         (SinkCalls shutdown_with_small_log_buffer)
     ∧ Events block = NewQueue 129
     ∧ End_ block = reading sample_platform n)
  ∧ Sent (SinkState shutdown_with_small_log_buffer) !! 5
    = Some (BinaryRequest "block" None).
Proof.
  split.
  - exact (proj2 (proj2 (GetPtr_of_empty_queue sample_platform
                           sample_remote_host))
             1 world_with_small_log_buffer small_log_buffer_dispatch
             eq_refl eq_refl).
  - vm_compute. reflexivity.
Defined.

(* ===================================================================== *)
(** * The times of the blocks of the log and metric streams               *)
(* ===================================================================== *)

Section Times.
Context {S : Type}.
Variable platform : Platform.
Variable sink : EventSink S.
Hypothesis Hsteady : steady_clock platform.

Lemma timestamps_between_weaken k lo hi hi' xs :
  (hi ≤ hi')%Z → timestamps_between k lo hi xs → timestamps_between k lo hi' xs.
Proof.
  intros Hle H. eapply Forall_impl; [exact H|]. intros x Hx ts Hts.
  specialize (Hx ts Hts). lia.
Qed.

Lemma times_inv_mono k del (cur : EventBlock (kind_types k)) n n' :
  n ≤ n' → times_inv platform del cur n → times_inv platform del cur n'.
Proof.
  intros Hle (Hdel & Hbegin & xs & Hxs & Hts).
  pose proof (proj1 Hsteady n n' Hle) as Hmono.
  split; [done|]. split; [lia|]. exists xs. split; [done|].
  by eapply timestamps_between_weaken.
Qed.

Lemma times_inv_push k del (cur : EventBlock (kind_types k)) n x :
  times_inv platform del cur n → event_wf x →
  (∀ ts, event_timestamp k x = Some ts → ts = Cycles64_at platform n) →
  times_inv platform del (BlockPush x cur) n.
Proof.
  intros (Hdel & Hbegin & xs & Hxs & Hts) Hwf Hx.
  split; [done|]. split; [done|]. exists (xs ++ [x]).
  split; [by apply holds_push|]. apply Forall_app. split; [done|].
  apply Forall_singleton. intros ts Hsome. rewrite (Hx ts Hsome).
  cbn. lia.
Qed.

Lemma times_inv_rotate k del (cur : EventBlock (kind_types k)) n m n'
    streamId bufferSize :
  times_inv platform del cur n → n ≤ m → m ≤ n' →
  times_inv platform (del ++ [Close (reading platform m) cur])
    (NewEventBlock streamId (reading platform m) bufferSize) n'.
Proof.
  intros (Hdel & Hbegin & xs & Hxs & Hts) Hnm Hmn'.
  pose proof (proj1 Hsteady n m Hnm) as Hmono.
  pose proof (proj1 Hsteady m n' Hmn') as Hmono'.
  split; [|split].
  - apply Forall_app. split; [done|]. apply Forall_singleton.
    exists xs. split; [by apply holds_Close|]. cbn.
    by eapply timestamps_between_weaken.
  - done.
  - exists []. split; [apply holds_new | constructor].
Qed.

Lemma world_times_frame since (w w' : World S) :
  thread_frame w w' → world_times_ok platform since w →
  world_times_ok platform since w'.
Proof.
  intros [Hd (tc & Hcalls & Htc) Hclock] (d & Hw & Hsince & Hlog & Hmet).
  rewrite Hw in Hd. destruct (GDispatch w') as [d'|] eqn:Hd'; [|done].
  destruct Hd as (HL & HM & _).
  exists d'. split; [done|]. rewrite Hcalls, length_app.
  split; [lia|]. rewrite drop_app_le by done.
  rewrite log_blocks_app, metric_blocks_app, (log_blocks_thread tc),
    (metric_blocks_thread tc), !app_nil_r, HL, HM by done.
  split; by eapply times_inv_mono.
Qed.

Lemma world_times_log_rotated since (w w' : World S) d n :
  GDispatch w = Some d → log_rotated platform d n w w' →
  world_times_ok platform since w → world_times_ok platform since w'.
Proof.
  intros Hd [(d' & Hd' & HL & HM & _) (tc1 & tc2 & Hcalls & Htc1 & Htc2) Hclock]
    (d0 & Hw & Hsince & Hlog & Hmet).
  assert (d0 = d) as -> by congruence.
  exists d'. split; [done|]. rewrite Hcalls, !length_app.
  split; [lia|]. rewrite drop_app_le by done. split.
  - rewrite !log_blocks_app, (log_blocks_thread tc1) by done.
    rewrite app_nil_l.
    change (log_blocks (ProcessLogBlockCall ?b :: tc2))
      with (b :: log_blocks tc2).
    rewrite (log_blocks_thread tc2), HL by done.
    apply (times_inv_rotate LogEvents _ _ (ClockReads w)); [done|lia|lia].
  - rewrite !metric_blocks_app, (metric_blocks_thread tc1) by done.
    change (metric_blocks (ProcessLogBlockCall ?b :: tc2))
      with (metric_blocks tc2).
    rewrite (metric_blocks_thread tc2), !app_nil_r, HM by done.
    eapply times_inv_mono; [|exact Hmet]. lia.
Qed.

Lemma world_times_metric_rotated since (w w' : World S) d n :
  GDispatch w = Some d → metric_rotated platform d n w w' →
  world_times_ok platform since w → world_times_ok platform since w'.
Proof.
  intros Hd [(d' & Hd' & HM & HL & _) (tc1 & tc2 & Hcalls & Htc1 & Htc2) Hclock]
    (d0 & Hw & Hsince & Hlog & Hmet).
  assert (d0 = d) as -> by congruence.
  exists d'. split; [done|]. rewrite Hcalls, !length_app.
  split; [lia|]. rewrite drop_app_le by done. split.
  - rewrite !log_blocks_app, (log_blocks_thread tc1) by done.
    change (log_blocks (ProcessMetricBlockCall ?b :: tc2))
      with (log_blocks tc2).
    rewrite (log_blocks_thread tc2), !app_nil_r, HL by done.
    eapply times_inv_mono; [|exact Hlog]. lia.
  - rewrite !metric_blocks_app, (metric_blocks_thread tc1) by done.
    rewrite app_nil_l.
    change (metric_blocks (ProcessMetricBlockCall ?b :: tc2))
      with (b :: metric_blocks tc2).
    rewrite (metric_blocks_thread tc2), HM by done.
    apply (times_inv_rotate MetricEvents _ _ (ClockReads w)); [done|lia|lia].
Qed.

(** An event stamped with a reading of the cycle counter and then queued. *)
Lemma world_times_QueueLogEntry since tid x (w : World S) :
  world_times_ok platform since w → event_wf (k := LogEvents) x →
  (∀ ts, event_timestamp LogEvents x = Some ts
         → ts = Cycles64_at platform (ClockReads w)) →
  world_times_ok platform since
    (QueueLogEntry platform sink tid x (Cycles64 platform w).2).
Proof.
  intros (d & Hd & Hsince & Hlog & Hmet) Hwf Hts.
  unfold QueueLogEntry. cbn [Cycles64 snd GDispatch]. rewrite Hd.
  set (w1 := set_GDispatch _ _).
  assert (H1 : world_times_ok platform since w1).
  { eexists. split; [reflexivity|]. split; [done|]. cbn. split.
    - apply (times_inv_mono LogEvents _ _ (ClockReads w)); [lia|].
      by apply times_inv_push.
    - eapply times_inv_mono; [|exact Hmet]. lia. }
  destruct (IsFull _); [|exact H1].
  destruct (FlushLogStreamImpl_rotates platform sink tid w1 _ eq_refl)
    as [n Hn].
  eapply world_times_log_rotated; [|exact Hn|exact H1]. reflexivity.
Qed.

Lemma world_times_QueueMetric since tid x (w : World S) :
  world_times_ok platform since w → event_wf (k := MetricEvents) x →
  (∀ ts, event_timestamp MetricEvents x = Some ts
         → ts = Cycles64_at platform (ClockReads w)) →
  world_times_ok platform since
    (QueueMetric platform sink tid x (Cycles64 platform w).2).
Proof.
  intros (d & Hd & Hsince & Hlog & Hmet) Hwf Hts.
  unfold QueueMetric. cbn [Cycles64 snd GDispatch]. rewrite Hd.
  set (w1 := set_GDispatch _ _).
  assert (H1 : world_times_ok platform since w1).
  { eexists. split; [reflexivity|]. split; [done|]. cbn. split.
    - eapply times_inv_mono; [|exact Hlog]. lia.
    - apply (times_inv_mono MetricEvents _ _ (ClockReads w)); [lia|].
      by apply times_inv_push. }
  destruct (IsFull _); [|exact H1].
  destruct (FlushMetricStreamImpl_rotates platform sink tid w1 _ eq_refl)
    as [n Hn].
  eapply world_times_metric_rotated; [|exact Hn|exact H1]. reflexivity.
Qed.

Lemma world_times_Init since processInfo lbs mbs tbs (w0 : World S) :
  GDispatch w0 = None → since = length (SinkCalls w0) →
  (DualTime.Timestamp (StartTime processInfo)
   ≤ Cycles64_at platform (ClockReads w0))%Z →
  world_times_ok platform since
    (Init platform sink processInfo lbs mbs tbs w0).
Proof.
  intros Hnone -> Hstart.
  destruct (Init_first platform sink processInfo lbs mbs tbs w0 Hnone)
    as (Hd & Hcalls & _ & _ & _ & Hclock).
  eexists. split; [exact Hd|]. rewrite Hcalls, length_app, drop_app_length.
  rewrite Hclock. split; [lia|]. split.
  - split; [constructor|]. split; [exact Hstart|]. exists [].
    split; [apply holds_new | constructor].
  - split; [constructor|]. split; [exact Hstart|]. exists [].
    split; [apply holds_new | constructor].
Qed.

Lemma world_times_emit since e (w : World S) :
  emission_wf e → world_times_ok platform since w →
  world_times_ok platform since (emit platform sink w e).
Proof.
  intros Hwf H. pose proof (proj2 Hsteady (ClockReads w)) as Hrange.
  destruct e as [tid desc|tid V verbosity category|tid desc expr
                |tid desc expr|tid desc|tid desc|tid|tid|]; cbn [emit].
  - refine (world_times_QueueLogEntry since tid
              (Here (T := LogStaticStrEvent_t)
                 {| LogStaticStrEvent.Desc := desc;
                    LogStaticStrEvent.Timestamp :=
                      Cycles64_at platform (ClockReads w) |}) w H _ _).
    + by split.
    + intros ts [= <-]. done.
  - refine (world_times_QueueLogEntry since tid
              (Next (Here (T := LogStringInteropEvent_t)
                 {| LogStringInteropEvent.Timestamp :=
                      Cycles64_at platform (ClockReads w);
                    LogStringInteropEvent.Level := _;
                    LogStringInteropEvent.Target := _;
                    LogStringInteropEvent.Msg := _ |})) w H _ _).
    + destruct Hwf as [Hcat Hmsg]. split; [done|]. split; [|done].
      split; [done|]. cbn. unfold in_uint. lia.
    + intros ts [= <-]. done.
  - refine (world_times_QueueMetric since tid
              (Here (T := IntegerMetricEvent_t)
                 {| IntegerMetricEvent.Desc := desc;
                    IntegerMetricEvent.Value := expr;
                    IntegerMetricEvent.Timestamp :=
                      Cycles64_at platform (ClockReads w) |}) w H _ _).
    + destruct Hwf. split; [done|]. by split.
    + intros ts [= <-]. done.
  - refine (world_times_QueueMetric since tid
              (Next (Here (T := FloatMetricEvent_t)
                 {| FloatMetricEvent.Desc := desc;
                    FloatMetricEvent.Value := expr;
                    FloatMetricEvent.Timestamp :=
                      Cycles64_at platform (ClockReads w) |})) w H _ _).
    + destruct Hwf. split; [done|]. by split.
    + intros ts [= <-]. done.
  - eapply world_times_frame; [|exact H].
    eapply thread_frame_trans; [apply (Cycles64_frame platform)|].
    apply (BeginScope_frame platform sink tid
             {| BeginThreadSpanEvent.Desc := desc;
                BeginThreadSpanEvent.Timestamp :=
                  Cycles64_at platform (ClockReads w) |}).
  - eapply world_times_frame; [|exact H].
    eapply thread_frame_trans; [apply (Cycles64_frame platform)|].
    apply (EndScope_frame platform sink tid
             {| EndThreadSpanEvent.Desc := desc;
                EndThreadSpanEvent.Timestamp :=
                  Cycles64_at platform (ClockReads w) |}).
  - pose proof H as (d & Hd & _). unfold FlushLogStream. rewrite Hd.
    destruct (FlushLogStreamImpl_rotates platform sink tid w d Hd) as [n Hn].
    by eapply world_times_log_rotated.
  - pose proof H as (d & Hd & _). unfold FlushMetricStream. rewrite Hd.
    destruct (FlushMetricStreamImpl_rotates platform sink tid w d Hd)
      as [n Hn].
    by eapply world_times_metric_rotated.
  - eapply world_times_frame; [apply ForEachThreadStream_frame | done].
Qed.

Lemma world_times_emit_all since es (w : World S) :
  Forall emission_wf es → world_times_ok platform since w →
  world_times_ok platform since (emit_all platform sink es w).
Proof.
  intros Hes. revert w. induction Hes as [|e es He _ IH]; intros w H; [done|].
  unfold emit_all in *. cbn [foldl]. apply IH. by apply world_times_emit.
Qed.

Lemma world_times_sealed since (w : World S) :
  world_times_ok platform since w →
  Forall (sealed_within LogEvents) (log_blocks (drop since (SinkCalls w)))
  ∧ Forall (sealed_within MetricEvents)
      (metric_blocks (drop since (SinkCalls w))).
Proof.
  intros (d & _ & _ & (Hlog & _) & (Hmet & _)). split.
  - eapply Forall_impl; [exact Hlog|]. intros b (xs & Hxs & Hts).
    exists xs. split; [by apply holds_BlockEvents | done].
  - eapply Forall_impl; [exact Hmet|]. intros b (xs & Hxs & Hts).
    exists xs. split; [by apply holds_BlockEvents | done].
Qed.
End Times.

Lemma sample_platform_steady : steady_clock sample_platform.
Proof.
  split.
  - intros i j Hij. cbn. lia.
  - intros n. unfold in_uint. cbn [Cycles64_at sample_platform].
    unfold uint64_max. change (2 ^ 64)%Z with 18446744073709551616%Z. lia.
Qed.

Lemma sample_emissions_wf : Forall emission_wf sample_emissions.
Proof.
  unfold sample_emissions.
  repeat (apply Forall_cons; split); try apply Forall_nil;
    cbn [emission_wf]; unfold in_uint, DynamicString_wf, DynSizeBytes,
      uint32_max;
    repeat split; first [reflexivity | simpl; lia | done].
Qed.




(* ===================================================================== *)
(** * Records: tag, length prefix, payload                                *)
(* ===================================================================== *)

Lemma IndexOfType_range {TS} (x : OneOf TS) :
  length TS ≤ 256 → (0 ≤ IndexOfType x < Z.of_nat (length TS))%Z.
Proof.
  induction x as [T REST v|HEAD REST x IH]; intros Hlen; simpl in *; [lia|].
  specialize (IH ltac:(lia)). unfold uint8_max.
  rewrite Z.mod_small by lia. lia.
Qed.

Lemma WriteValue_payload {TS} (x : OneOf TS) wfs rd buffer :
  lawful TS rd wfs →
  WriteValue x buffer
  = buffer
    ++ (if size_is_static x then []
        else le_bytes 4 (declared_size x))
    ++ payload x.
Proof.
  induction x as [T REST v|HEAD REST x IH]; intros Hlaw; simpl in *.
  - destruct Hlaw as [Hser _].
    destruct (IsSizeStatic (ser T)); simpl.
    + apply (write_app _ _ _ Hser).
    + rewrite (write_app _ _ _ Hser). unfold WritePOD. simpl.
      by rewrite <- (assoc_L (++)).
  - destruct Hlaw as [_ Hlaw]. by apply (IH wfs.2 rd.2).
Qed.

Lemma declared_size_event k (x : OneOf (kind_types k)) :
  event_wf x → (Z.of_nat (length (payload x)) < uint32_max)%Z →
  declared_size x = Z.of_nat (length (payload x)).
Proof.
  intros Hwf Hlen.
  destruct k; simpl in x; oneof_cases x; try reflexivity.
  cbn [payload declared_size ser GetSize Write LogStringInteropEvent_t
       Serializer_LogStringInteropEvent.serializer] in *.
  unfold Serializer_LogStringInteropEvent.GetSize,
    Serializer_DynamicString.GetSize,
    Serializer_DynamicString.GetHeaderSize, DynSizeBytes in *.
  rewrite LogStringInteropEvent_Write_app, app_nil_l,
    length_LogStringInteropEvent_bytes in *.
  destruct Hwf as (_ & _ & _ & Hsize). unfold DynSizeBytes in Hsize.
  change (Z.of_nat (sizeof StaticStringRef_pod)) with 16%Z.
  rewrite (Z.mod_small (1 + 4 + _)) by lia. rewrite Z.mod_small by lia. lia.
Qed.

(** X1.  Every record of an event queue is the index of the type of the
    event in the type list of the queue, then, for a type whose size is not
    static, the size of the payload as a [uint32], then the payload; the
    size [Serializer<T>::GetSize] declares is the number of bytes that
    [Serializer<T>::Write] appends. *)
Theorem Push_appends_record (k : QueueKind) (x : OneOf (kind_types k))
    (q : HeterogeneousQueue (kind_types k)) :
  event_wf x → (Z.of_nat (length (payload x)) < uint32_max)%Z →
  Buffer (Push x q)
  = Buffer q ++ [byte_of_Z (IndexOfType x)]
    ++ (if size_is_static x then []
        else le_bytes 4 (Z.of_nat (length (payload x))))
    ++ payload x
  ∧ (0 ≤ IndexOfType x < Z.of_nat (length (kind_types k)))%Z
  ∧ declared_size x = Z.of_nat (length (payload x))
  ∧ GetSizeBytes (Push x q)
    = GetSizeBytes q + 1 + (if size_is_static x then 0 else 4)
      + length (payload x).
Proof.
  intros Hwf Hlen.
  pose proof (declared_size_event k x Hwf Hlen) as Hsize.
  assert (Hbuf : Buffer (Push x q)
                 = Buffer q ++ [byte_of_Z (IndexOfType x)]
                   ++ (if size_is_static x then []
                       else le_bytes 4 (Z.of_nat (length (payload x))))
                   ++ payload x).
  { unfold Push. cbn [Buffer].
    rewrite (WriteValue_payload x (kind_wfs k) (kind_readers k))
      by apply kind_lawful.
    by rewrite Hsize, <- (assoc_L (++)). }
  split; [exact Hbuf|]. split; [apply IndexOfType_range, kind_types_small|].
  split; [exact Hsize|].
  unfold GetSizeBytes. rewrite Hbuf, !length_app.
  destruct (size_is_static x); [simpl; lia|].
  rewrite length_le_bytes. simpl. lia.
Qed.

Lemma Push_appends_record_witness :
  GetSizeBytes (Push sample_interop_event (NewQueue (TS := LogEventTypes) 4096))
  = 0 + 1 + 4 + 34
  ∧ declared_size sample_interop_event = 34%Z.
Proof.
  assert (Hlen : (Z.of_nat (length (payload sample_interop_event))
                  < uint32_max)%Z) by (vm_compute; reflexivity).
  destruct (Push_appends_record LogEvents sample_interop_event
              (NewQueue 4096) sample_interop_event_wf Hlen)
    as (_ & _ & Hsize & Hbytes).
  split; [exact Hbytes | exact Hsize].
Defined.

Lemma length_GetWideName entry :
  length (FNameEntry.GetWideName entry) = 2 * length (FNameEntry.Name entry).
Proof.
  unfold FNameEntry.GetWideName.
  induction (FNameEntry.Name entry) as [|c l IH]; [done|].
  rewrite bind_cons, length_app, IH, length_le_bytes. cbn [length]. lia.
Qed.

Lemma length_GetAnsiName entry :
  length (FNameEntry.GetAnsiName entry) = length (FNameEntry.Name entry).
Proof. unfold FNameEntry.GetAnsiName. by rewrite length_fmap. Qed.

Lemma length_BytesAt mem ptr n : length (BytesAt mem ptr n) = Z.to_nat n.
Proof. unfold BytesAt. by rewrite length_fmap, length_seq. Qed.

(** X2.  The record of a [StaticStringDependency]: the address of the string
    as its id, then the text as a [DynamicString]. For an [FName] the text
    is the characters of the name entry, as Ansi or Wide: the codec written
    is never [UnrealName]. [GetSize] is the number of bytes written. *)
Theorem StaticStringDependency_record (mem : Memory) (ref : StaticStringRef)
    (buffer : list byte) :
  let text := dependency_text mem ref in
  let dep := {| StaticStringDependency.Ref := ref |} in
  Codec ref ≠ StringCodec.Utf8 →
  (0 ≤ SizeBytes ref)%Z →
  (8 + 5 + DynSizeBytes text < uint32_max)%Z →
  Serializer_StaticStringDependency.Write mem dep buffer
  = buffer ++ le_bytes 8 (GetID ref) ++ DynamicString_bytes text
  ∧ codec_is_dynamic (DynCodec text) = true
  ∧ (Codec ref ≠ StringCodec.UnrealName → DynSizeBytes text = SizeBytes ref)
  ∧ Serializer_StaticStringDependency.GetSize mem dep
    = (8 + 5 + DynSizeBytes text)%Z
  ∧ Z.of_nat (length (Serializer_StaticStringDependency.Write mem dep []))
    = Serializer_StaticStringDependency.GetSize mem dep.
Proof.
  intros text dep Hcodec Hsize Hlen.
  assert (Hwrite : ∀ buf,
             Serializer_StaticStringDependency.Write mem dep buf
             = buf ++ le_bytes 8 (GetID ref) ++ DynamicString_bytes text).
  { intros buf. subst text.
    unfold Serializer_StaticStringDependency.Write, dependency_text,
      WritePOD in *.
    cbn [StaticStringDependency.Ref dep] in *.
    destruct (decide (Codec ref = StringCodec.UnrealName)) as [Hname|Hname].
    - destruct (FNameEntry.IsWide (NameEntryAt mem (GetID ref))) eqn:Hwide;
        rewrite DynamicString_Write_app, <- (assoc_L (++));
        do 3 f_equal; unfold DynSizeBytes in Hlen; cbn [DynBytes] in Hlen.
      + rewrite length_GetWideName in Hlen.
        unfold FNameEntry.GetNameLength.
        rewrite Z.mod_small by lia. f_equal. apply take_ge.
        rewrite length_GetWideName. lia.
      + rewrite length_GetAnsiName in Hlen.
        unfold FNameEntry.GetNameLength.
        rewrite Z.mod_small by lia. f_equal. apply take_ge.
        rewrite length_GetAnsiName. lia.
    - by rewrite DynamicString_Write_app, <- (assoc_L (++)). }
  assert (Hdyn : codec_is_dynamic (DynCodec text) = true).
  { subst text. unfold dependency_text.
    destruct (decide (Codec ref = StringCodec.UnrealName)) as [Hname|Hname].
    - by destruct (FNameEntry.IsWide _).
    - simpl. by destruct (Codec ref). }
  assert (Hstatic : Codec ref ≠ StringCodec.UnrealName
                    → DynSizeBytes text = SizeBytes ref).
  { intros Hname. subst text. unfold dependency_text.
    rewrite decide_False by done. unfold DynSizeBytes, DynamicString_of_ref.
    cbn [DynBytes]. rewrite length_BytesAt. lia. }
  assert (Hget : Serializer_StaticStringDependency.GetSize mem dep
                 = (8 + 5 + DynSizeBytes text)%Z).
  { unfold Serializer_StaticStringDependency.GetSize,
      Serializer_DynamicString.GetHeaderSize.
    cbn [StaticStringDependency.Ref dep].
    destruct (decide (Codec ref = StringCodec.UnrealName)) as [Hname|Hname].
    - subst text. unfold dependency_text in *.
      rewrite decide_True in * by done.
      unfold FNameEntry.GetNameLength, DynSizeBytes in *.
      destruct (FNameEntry.IsWide _); cbn [DynBytes] in *.
      + rewrite length_GetWideName in *. rewrite Z.mod_small by lia. lia.
      + rewrite length_GetAnsiName in *. rewrite Z.mod_small by lia. lia.
    - rewrite <- (Hstatic Hname). rewrite Z.mod_small; [lia|].
      unfold DynSizeBytes in *. lia. }
  split; [apply Hwrite|]. split; [exact Hdyn|]. split; [exact Hstatic|].
  split; [exact Hget|].
  rewrite Hwrite, Hget, app_nil_l, length_app, length_le_bytes,
    length_DynamicString_bytes.
  unfold DynSizeBytes. lia.
Qed.

Lemma StaticStringDependency_record_witness :
  Serializer_StaticStringDependency.Write sample_memory
    {| StaticStringDependency.Ref := sample_name_ref |} []
  = le_bytes 8 500 ++ [x00] ++ le_bytes 4 3 ++ [x4c; x6f; x67]
  ∧ Serializer_StaticStringDependency.GetSize sample_memory
      {| StaticStringDependency.Ref := sample_name_ref |} = 16%Z.
Proof.
  destruct (StaticStringDependency_record sample_memory sample_name_ref [])
    as (Hwrite & _ & _ & Hsize & _);
    [discriminate | simpl; lia | vm_compute; reflexivity |].
  split; [exact Hwrite | exact Hsize].
Defined.

(* ===================================================================== *)
(** * EventStream.h: when a stream is full                                *)
(* ===================================================================== *)

Lemma IsFull_iff {TS PAD} (s : EventStreamImpl TS PAD) :
  IsFull s = true
  ↔ (FullThreshold s ≤ Z.of_nat (BlockSizeBytes (CurrentBlock s)))%Z.
Proof. unfold IsFull. apply bool_decide_eq_true. Qed.



(* ===================================================================== *)
(** * The dispatch: a rule for invariants of the log and metric streams   *)
(* ===================================================================== *)

Section StepRule.
Context {S : Type}.
Variable platform : Platform.
Variable sink : EventSink S.
Variable P : World S → Prop.

Hypothesis P_frame : ∀ w w', thread_frame w w' → P w → P w'.
Hypothesis P_push_log : ∀ w d x,
  GDispatch w = Some d → event_wf (k := LogEvents) x → P w →
  IsFull (StreamPush x (LogEntries d)) = false →
  P (set_GDispatch (Some (set_LogEntries (StreamPush x (LogEntries d)) d)) w).
Hypothesis P_push_rotate_log : ∀ w d x n w',
  GDispatch w = Some d → event_wf (k := LogEvents) x → P w →
  log_rotated platform (set_LogEntries (StreamPush x (LogEntries d)) d) n
    (set_GDispatch (Some (set_LogEntries (StreamPush x (LogEntries d)) d)) w)
    w' →
  P w'.
Hypothesis P_rotate_log : ∀ w d n w',
  GDispatch w = Some d → P w → log_rotated platform d n w w' → P w'.
Hypothesis P_push_metric : ∀ w d x,
  GDispatch w = Some d → event_wf (k := MetricEvents) x → P w →
  IsFull (StreamPush x (Metrics d)) = false →
  P (set_GDispatch (Some (set_Metrics (StreamPush x (Metrics d)) d)) w).
Hypothesis P_push_rotate_metric : ∀ w d x n w',
  GDispatch w = Some d → event_wf (k := MetricEvents) x → P w →
  metric_rotated platform (set_Metrics (StreamPush x (Metrics d)) d) n
    (set_GDispatch (Some (set_Metrics (StreamPush x (Metrics d)) d)) w)
    w' →
  P w'.
Hypothesis P_rotate_metric : ∀ w d n w',
  GDispatch w = Some d → P w → metric_rotated platform d n w w' → P w'.

Lemma rule_QueueLogEntry tid x (w : World S) :
  event_wf (k := LogEvents) x → P w →
  P (QueueLogEntry platform sink tid x w).
Proof.
  intros Hx H. unfold QueueLogEntry.
  destruct (GDispatch w) as [d|] eqn:Hd; [|done].
  destruct (IsFull _) eqn:Hfull; [|by apply P_push_log].
  set (w1 := set_GDispatch _ w).
  destruct (FlushLogStreamImpl_rotates platform sink tid w1 _ eq_refl)
    as [n Hn].
  by eapply P_push_rotate_log.
Qed.

Lemma rule_QueueMetric tid x (w : World S) :
  event_wf (k := MetricEvents) x → P w →
  P (QueueMetric platform sink tid x w).
Proof.
  intros Hx H. unfold QueueMetric.
  destruct (GDispatch w) as [d|] eqn:Hd; [|done].
  destruct (IsFull _) eqn:Hfull; [|by apply P_push_metric].
  set (w1 := set_GDispatch _ w).
  destruct (FlushMetricStreamImpl_rotates platform sink tid w1 _ eq_refl)
    as [n Hn].
  by eapply P_push_rotate_metric.
Qed.

Lemma rule_FlushLogStream tid (w : World S) :
  P w → P (FlushLogStream platform sink tid w).
Proof.
  intros H. unfold FlushLogStream.
  destruct (GDispatch w) as [d|] eqn:Hd; [|done].
  destruct (FlushLogStreamImpl_rotates platform sink tid w d Hd) as [n Hn].
  by eapply P_rotate_log.
Qed.

Lemma rule_FlushMetricStream tid (w : World S) :
  P w → P (FlushMetricStream platform sink tid w).
Proof.
  intros H. unfold FlushMetricStream.
  destruct (GDispatch w) as [d|] eqn:Hd; [|done].
  destruct (FlushMetricStreamImpl_rotates platform sink tid w d Hd) as [n Hn].
  by eapply P_rotate_metric.
Qed.

Lemma rule_step op (w : World S) :
  op_wf op → P w → P (step platform sink w op).
Proof.
  intros Hop H. destruct op; simpl.
  - by apply rule_QueueLogEntry.
  - by apply rule_QueueLogEntry.
  - by apply rule_QueueMetric.
  - by apply rule_QueueMetric.
  - eapply P_frame; [apply BeginScope_frame | done].
  - eapply P_frame; [apply EndScope_frame | done].
  - by apply rule_FlushLogStream.
  - by apply rule_FlushMetricStream.
  - eapply P_frame; [apply ForEachThreadStream_frame | done].
Qed.

Lemma rule_run ops (w : World S) :
  Forall op_wf ops → P w → P (run platform sink ops w).
Proof.
  intros Hops. revert w. induction Hops as [|op ops Hop _ IH]; intros w H;
    [done|].
  unfold run in *. cbn [foldl]. apply IH. by apply rule_step.
Qed.
End StepRule.

(* ===================================================================== *)
(** * The streams of the dispatch at rest                                 *)
(* ===================================================================== *)

Lemma below_threshold_not_full {TS PAD} (s : EventStreamImpl TS PAD) n :
  below_threshold s n → IsFull s = false.
Proof.
  intros [Hthr Hsize]. apply not_true_is_false. rewrite IsFull_iff, Hthr. lia.
Qed.

Lemma below_threshold_push {TS PAD} (s : EventStreamImpl TS PAD) x n :
  below_threshold s n → IsFull (StreamPush x s) = false →
  below_threshold (StreamPush x s) n.
Proof.
  intros [Hthr _] Hfull. split; [done|].
  apply not_true_iff_false in Hfull. rewrite IsFull_iff in Hfull.
  cbn [StreamPush FullThreshold CurrentBlock] in *. lia.
Qed.

Lemma below_threshold_swap {TS PAD} (s : EventStreamImpl TS PAD) streamId now n :
  (PAD < n < uint64_max)%Z → (0 ≤ PAD)%Z →
  below_threshold (SwapBlocks (NewEventBlock streamId now n) s).2 n.
Proof.
  intros Hn Hpad. split; cbn.
  - apply Z.mod_small. lia.
  - lia.
Qed.

Section StreamsBelow.
Context {S : Type}.
Variable platform : Platform.
Variable sink : EventSink S.
Variables lbs mbs : Z.
Hypothesis Hlbs : (128 < lbs < uint64_max)%Z.
Hypothesis Hmbs : (32 < mbs < uint64_max)%Z.

Lemma streams_below_frame (w w' : World S) :
  thread_frame w w' → streams_below lbs mbs w → streams_below lbs mbs w'.
Proof.
  intros [Hd _ _] (d & Hw & HLB & HMB & Hlog & Hmet). rewrite Hw in Hd.
  destruct (GDispatch w') as [d'|] eqn:Hd'; [|done].
  destruct Hd as (HL & HM & HLB' & HMB' & _).
  exists d'. rewrite HL, HM, HLB', HMB'. done.
Qed.

Lemma streams_below_log_rotated (w w' : World S) d n :
  GDispatch w = Some d → LogBufferSize d = lbs → MetricBufferSize d = mbs →
  below_threshold (Metrics d) mbs →
  log_rotated platform d n w w' → streams_below lbs mbs w'.
Proof.
  intros Hd HLB HMB Hmet [(d' & Hd' & HL & HM & HLB' & HMB' & _) _ _].
  exists d'. rewrite HL, HM, HLB', HMB', HLB. split; [done|].
  split; [done|]. split; [done|]. split; [|done].
  by apply below_threshold_swap.
Qed.

Lemma streams_below_metric_rotated (w w' : World S) d n :
  GDispatch w = Some d → LogBufferSize d = lbs → MetricBufferSize d = mbs →
  below_threshold (LogEntries d) lbs →
  metric_rotated platform d n w w' → streams_below lbs mbs w'.
Proof.
  intros Hd HLB HMB Hlog [(d' & Hd' & HM & HL & HLB' & HMB' & _) _ _].
  exists d'. rewrite HL, HM, HLB', HMB', HMB. split; [done|].
  split; [done|]. split; [done|]. split; [done|].
  by apply below_threshold_swap.
Qed.

Lemma streams_below_run processInfo tbs (w0 : World S) ops :
  GDispatch w0 = None → Forall op_wf ops →
  streams_below lbs mbs
    (run platform sink ops (Init platform sink processInfo lbs mbs tbs w0)).
Proof.
  intros Hnone Hops.
  apply (rule_run platform sink (streams_below lbs mbs)); try done.
  - apply streams_below_frame.
  - intros w d x Hd Hx (d0 & Hw & HLB & HMB & Hlog & Hmet) Hfull.
    assert (d0 = d) as -> by congruence.
    eexists. split; [reflexivity|]. split; [done|]. split; [done|].
    split; [by apply below_threshold_push | done].
  - intros w d x n w' Hd Hx (d0 & Hw & HLB & HMB & Hlog & Hmet) Hrot.
    assert (d0 = d) as -> by congruence.
    eapply streams_below_log_rotated; [| | | |exact Hrot]; done.
  - intros w d n w' Hd (d0 & Hw & HLB & HMB & Hlog & Hmet) Hrot.
    assert (d0 = d) as -> by congruence.
    eapply streams_below_log_rotated; [| | | |exact Hrot]; done.
  - intros w d x Hd Hx (d0 & Hw & HLB & HMB & Hlog & Hmet) Hfull.
    assert (d0 = d) as -> by congruence.
    eexists. split; [reflexivity|]. split; [done|]. split; [done|].
    split; [done | by apply below_threshold_push].
  - intros w d x n w' Hd Hx (d0 & Hw & HLB & HMB & Hlog & Hmet) Hrot.
    assert (d0 = d) as -> by congruence.
    eapply streams_below_metric_rotated; [| | | |exact Hrot]; done.
  - intros w d n w' Hd (d0 & Hw & HLB & HMB & Hlog & Hmet) Hrot.
    assert (d0 = d) as -> by congruence.
    eapply streams_below_metric_rotated; [| | | |exact Hrot]; done.
  - destruct (Init_first platform sink processInfo lbs mbs tbs w0 Hnone)
      as (Hd & _).
    eexists. split; [exact Hd|]. split; [done|]. split; [done|].
    split; (split; cbn; [apply Z.mod_small; lia | lia]).
Qed.
End StreamsBelow.

(** X4.  After [Init] with buffers larger than the paddings and any sequence
    of calls of the public interface, the log stream and the metric stream
    are not full: an emission that reaches the threshold rotates the stream
    before it returns, so the current block of each holds fewer than
    [capacity - padding] bytes between calls. *)
Theorem streams_stay_below_threshold {S} (platform : Platform)
    (sink : EventSink S) (processInfo : ProcessInfo)
    (logBufferSize metricBufferSize threadBufferSize : Z) (w0 : World S)
    (ops : list Op) :
  GDispatch w0 = None →
  (128 < logBufferSize < uint64_max)%Z →
  (32 < metricBufferSize < uint64_max)%Z →
  Forall op_wf ops →
  ∃ d,
    GDispatch (run platform sink ops
                 (Init platform sink processInfo logBufferSize
                    metricBufferSize threadBufferSize w0)) = Some d
    ∧ IsFull (LogEntries d) = false
    ∧ IsFull (Metrics d) = false
    ∧ (Z.of_nat (BlockSizeBytes (CurrentBlock (LogEntries d)))
       < logBufferSize - 128)%Z
    ∧ (Z.of_nat (BlockSizeBytes (CurrentBlock (Metrics d)))
       < metricBufferSize - 32)%Z.
Proof.
  intros Hnone Hlbs Hmbs Hops.
  destruct (streams_below_run platform sink logBufferSize metricBufferSize
              Hlbs Hmbs processInfo threadBufferSize w0 ops Hnone Hops)
    as (d & Hd & _ & _ & Hlog & Hmet).
  exists d. split; [exact Hd|].
  split; [by eapply below_threshold_not_full|].
  split; [by eapply below_threshold_not_full|].
  split; [apply Hlog | apply Hmet].
Qed.

Lemma streams_stay_below_threshold_witness :
  ∃ d,
    GDispatch (run sample_platform null_sink sample_ops
                 (Init sample_platform null_sink sample_process_info 4096
                    4096 4096 (fresh_world tt))) = Some d
    ∧ IsFull (LogEntries d) = false
    ∧ IsFull (Metrics d) = false.
Proof.
  destruct (streams_stay_below_threshold sample_platform null_sink
              sample_process_info 4096 4096 4096 (fresh_world tt) sample_ops
              eq_refl)
    as (d & Hd & Hlog & Hmet & _);
    [unfold uint64_max; lia | unfold uint64_max; lia | apply sample_ops_wf |].
  exists d. split; [exact Hd|]. split; [exact Hlog | exact Hmet].
Defined.

(* ===================================================================== *)
(** * The shape of the blocks handed to the sink                          *)
(* ===================================================================== *)

Lemma contiguous_snoc {TS} start (bs : list (EventBlock TS)) b last :
  contiguous start bs last → Begin b = last →
  contiguous start (bs ++ [b]) (End_ b).
Proof.
  revert start. induction bs as [|b0 bs IH]; intros start; simpl.
  - intros -> Hb. done.
  - intros [Hb0 Hrest] Hb. split; [done|]. by apply IH.
Qed.

Lemma blocks_shaped_rotate {TS} platform streamId bufferSize start
    (delivered : list (EventBlock TS)) cur n :
  blocks_shaped platform streamId bufferSize start delivered cur →
  blocks_shaped platform streamId bufferSize start
    (delivered ++ [Close (reading platform n) cur])
    (NewEventBlock streamId (reading platform n) bufferSize).
Proof.
  intros (Hdel & Hid & Hcap & Hcont). split; [|split; [done|split; [done|]]].
  - apply Forall_app. split; [done|]. apply Forall_singleton.
    split; [done|]. split; [done|]. by exists n.
  - apply (contiguous_snoc start delivered (Close (reading platform n) cur)
             (Begin cur)); done.
Qed.

Section StreamsShaped.
Context {S : Type}.
Variable platform : Platform.
Variable sink : EventSink S.
Variable processInfo : ProcessInfo.
Variables logId metricId : string.
Variables lbs mbs : Z.
Variable base : list SinkCall.

Local Abbreviation shaped :=
  (streams_shaped platform processInfo logId metricId lbs mbs base).

Lemma streams_shaped_frame (w w' : World S) :
  thread_frame w w' → shaped w → shaped w'.
Proof.
  intros [Hd (tc & Hcalls & Htc) _]
    (d & rest & Hw & Hrest & HLid & HLB & HMid & HMB & Hlog & Hmet).
  rewrite Hw in Hd. destruct (GDispatch w') as [d'|] eqn:Hd'; [|done].
  destruct Hd as (HL & HM & HLB' & HMB' & _).
  exists d', (rest ++ tc). rewrite HL, HM, HLB', HMB', Hcalls, Hrest.
  rewrite log_blocks_app, metric_blocks_app, (log_blocks_thread tc),
    (metric_blocks_thread tc), !app_nil_r by done.
  by rewrite (assoc_L (++)).
Qed.

Lemma streams_shaped_push_log (w : World S) d x :
  GDispatch w = Some d → shaped w →
  shaped (set_GDispatch
            (Some (set_LogEntries (StreamPush x (LogEntries d)) d)) w).
Proof.
  intros Hd (d0 & rest & Hw & Hrest & HLid & HLB & HMid & HMB & Hlog & Hmet).
  assert (d0 = d) as -> by congruence.
  eexists _, rest. split; [reflexivity|]. done.
Qed.

Lemma streams_shaped_push_metric (w : World S) d x :
  GDispatch w = Some d → shaped w →
  shaped (set_GDispatch (Some (set_Metrics (StreamPush x (Metrics d)) d)) w).
Proof.
  intros Hd (d0 & rest & Hw & Hrest & HLid & HLB & HMid & HMB & Hlog & Hmet).
  assert (d0 = d) as -> by congruence.
  eexists _, rest. split; [reflexivity|]. done.
Qed.

Lemma streams_shaped_log_rotated (w w' : World S) d n :
  GDispatch w = Some d → log_rotated platform d n w w' →
  shaped w → shaped w'.
Proof.
  intros Hd [(d' & Hd' & HL & HM & HLB' & HMB' & _)
               (tc1 & tc2 & Hcalls & Htc1 & Htc2) _]
    (d0 & rest & Hw & Hrest & HLid & HLB & HMid & HMB & Hlog & Hmet).
  assert (d0 = d) as -> by congruence.
  exists d', (rest ++ tc1 ++ ProcessLogBlockCall
                (Close (reading platform n) (CurrentBlock (LogEntries d)))
              :: tc2).
  rewrite Hcalls, Hrest, HM, HLB', HMB', HL.
  split; [done|]. split; [by rewrite <- (assoc_L (++))|].
  split; [done|]. split; [done|]. split; [done|]. split; [done|].
  rewrite !log_blocks_app, !metric_blocks_app.
  change (log_blocks (ProcessLogBlockCall ?b :: tc2))
    with (b :: log_blocks tc2).
  change (metric_blocks (ProcessLogBlockCall ?b :: tc2))
    with (metric_blocks tc2).
  rewrite (log_blocks_thread tc1), (log_blocks_thread tc2),
    (metric_blocks_thread tc1), (metric_blocks_thread tc2), !app_nil_r
    by done.
  split; [|done]. cbn [SwapBlocks snd CurrentBlock]. unfold GetStreamId.
  rewrite HLid, HLB. by apply blocks_shaped_rotate.
Qed.

Lemma streams_shaped_metric_rotated (w w' : World S) d n :
  GDispatch w = Some d → metric_rotated platform d n w w' →
  shaped w → shaped w'.
Proof.
  intros Hd [(d' & Hd' & HM & HL & HLB' & HMB' & _)
               (tc1 & tc2 & Hcalls & Htc1 & Htc2) _]
    (d0 & rest & Hw & Hrest & HLid & HLB & HMid & HMB & Hlog & Hmet).
  assert (d0 = d) as -> by congruence.
  exists d', (rest ++ tc1 ++ ProcessMetricBlockCall
                (Close (reading platform n) (CurrentBlock (Metrics d)))
              :: tc2).
  rewrite Hcalls, Hrest, HM, HLB', HMB', HL.
  split; [done|]. split; [by rewrite <- (assoc_L (++))|].
  split; [done|]. split; [done|]. split; [done|]. split; [done|].
  rewrite !log_blocks_app, !metric_blocks_app.
  change (log_blocks (ProcessMetricBlockCall ?b :: tc2))
    with (log_blocks tc2).
  change (metric_blocks (ProcessMetricBlockCall ?b :: tc2))
    with (b :: metric_blocks tc2).
  rewrite (log_blocks_thread tc1), (log_blocks_thread tc2),
    (metric_blocks_thread tc1), (metric_blocks_thread tc2), !app_nil_r
    by done.
  split; [done|]. cbn [SwapBlocks snd CurrentBlock]. unfold GetStreamId.
  rewrite HMid, HMB. by apply blocks_shaped_rotate.
Qed.

Lemma streams_shaped_run ops (w : World S) :
  Forall op_wf ops → shaped w → shaped (run platform sink ops w).
Proof.
  intros Hops. apply (rule_run platform sink shaped); try done.
  - apply streams_shaped_frame.
  - intros w1 d x Hd _ H _. by apply streams_shaped_push_log.
  - intros w1 d x n w' Hd _ H Hrot.
    eapply streams_shaped_log_rotated; [|exact Hrot|]; [done|].
    by apply streams_shaped_push_log.
  - intros w1 d n w' Hd H Hrot. by eapply streams_shaped_log_rotated.
  - intros w1 d x Hd _ H _. by apply streams_shaped_push_metric.
  - intros w1 d x n w' Hd _ H Hrot.
    eapply streams_shaped_metric_rotated; [|exact Hrot|]; [done|].
    by apply streams_shaped_push_metric.
  - intros w1 d n w' Hd H Hrot. by eapply streams_shaped_metric_rotated.
Qed.
End StreamsShaped.



(* ===================================================================== *)
(** * The dispatch: a rule for invariants of the thread streams           *)
(* ===================================================================== *)

Section ThreadRule.
Context {S : Type}.
Variable platform : Platform.
Variable sink : EventSink S.
Variable P : World S → Prop.
Variable ok : World S → OneOf ThreadEventTypes → Prop.
Variable desc_ok : Z → Prop.

Hypothesis P_clock : ∀ w, P w → P (Cycles64 platform w).2.
Hypothesis P_alloc : ∀ w tid d,
  ThreadLocalPtr w !! tid = None → GDispatch w = Some d → P w →
  P (GetCurrentThreadStream platform sink tid w).2.
Hypothesis ok_alloc : ∀ w tid d x,
  ThreadLocalPtr w !! tid = None → GDispatch w = Some d → P w → ok w x →
  ok (GetCurrentThreadStream platform sink tid w).2 x.
Hypothesis P_push_thread : ∀ w tid p s x,
  ThreadLocalPtr w !! tid = Some p → ThreadStreamHeap w !! p = Some s →
  ok w x → P w →
  P (set_ThreadStreamHeap (<[p := StreamPush x s]> (ThreadStreamHeap w)) w).
Hypothesis P_flush_thread : ∀ w tid p s d,
  ThreadLocalPtr w !! tid = Some p → ThreadStreamHeap w !! p = Some s →
  GDispatch w = Some d → IsFull s = true → P w →
  P (FlushThreadStream platform sink d p w).

Lemma GetCurrentThreadStream_Some tid (w : World S) d :
  ThreadLocalPtr w !! tid = None → GDispatch w = Some d →
  let r := GetCurrentThreadStream platform sink tid w in
  r.1 = Some (length (ThreadStreamHeap w))
  ∧ ThreadLocalPtr r.2 !! tid = Some (length (ThreadStreamHeap w))
  ∧ is_Some (ThreadStreamHeap r.2 !! length (ThreadStreamHeap w)).
Proof.
  intros Htls Hd. unfold GetCurrentThreadStream. rewrite Htls, Hd.
  unfold AllocThreadStream, AllocNewGuid, Now. cbn [ThreadStreamHeap].
  unfold PublishThreadStream, set_ThreadLocalPtr, set_ThreadStreamHeap,
    set_GDispatch.
  cbn [GDispatch ThreadStreamHeap ThreadLocalPtr SinkState SinkCalls
       ClockReads GuidsAllocated]. rewrite Hd.
  cbn [GDispatch ThreadStreamHeap ThreadLocalPtr SinkState SinkCalls
       ClockReads GuidsAllocated].
  rewrite lookup_app_r, Nat.sub_diag by done. cbn [lookup list_lookup].
  destruct (OnInitThreadStream sink tid _ _) as [s' st].
  cbn [fst snd ThreadLocalPtr ThreadStreamHeap].
  split; [done|]. split; [by rewrite lookup_insert_eq|].
  apply lookup_lt_is_Some. rewrite length_insert, length_app. simpl. lia.
Qed.

Lemma rule_QueueThreadEvent tid x (w : World S) :
  ok w x → P w → P (QueueThreadEvent platform sink tid x w).
Proof.
  intros Hx H. unfold QueueThreadEvent.
  assert (Hcur : ∃ w1, (P w1 ∧ ok w1 x)
            ∧ (GetCurrentThreadStream platform sink tid w).2 = w1
            ∧ match (GetCurrentThreadStream platform sink tid w).1 with
              | Some p => ThreadLocalPtr w1 !! tid = Some p
              | None => True
              end).
  { destruct (ThreadLocalPtr w !! tid) as [p|] eqn:Htls.
    - exists w. unfold GetCurrentThreadStream. rewrite Htls. done.
    - destruct (GDispatch w) as [d|] eqn:Hd.
      + destruct (GetCurrentThreadStream_Some tid w d Htls Hd)
          as (Hr & Hp & _).
        eexists. split; [split; [by eapply P_alloc | by eapply ok_alloc]|].
        split; [done|]. by rewrite Hr.
      + exists w. unfold GetCurrentThreadStream. rewrite Htls, Hd. done. }
  destruct Hcur as (w1 & [H1 Hx1] & Hw1 & Hp).
  destruct (GetCurrentThreadStream platform sink tid w) as [[p|] w1'];
    cbn [fst snd] in *; subst w1'; [|done].
  destruct (ThreadStreamHeap w1 !! p) as [s|] eqn:Hs; [|done].
  set (w2 := set_ThreadStreamHeap _ w1).
  assert (H2 : P w2) by (by eapply P_push_thread).
  destruct (IsFull (StreamPush x s)) eqn:Hfull; [|done].
  destruct (GDispatch w2) as [d|] eqn:Hd; [|done].
  eapply (P_flush_thread w2 tid p (StreamPush x s)); try done.
  subst w2. cbn [set_ThreadStreamHeap ThreadStreamHeap].
  rewrite list_lookup_insert_eq; [done|]. by eapply lookup_lt_Some.
Qed.

Hypothesis P_update_log : ∀ w d s,
  GDispatch w = Some d → P w →
  P (set_GDispatch (Some (set_LogEntries s d)) w).
Hypothesis P_update_metric : ∀ w d s,
  GDispatch w = Some d → P w →
  P (set_GDispatch (Some (set_Metrics s d)) w).
Hypothesis P_log_block : ∀ w b,
  P w → P (call_sink (ProcessLogBlockCall b) (OnProcessLogBlock sink b) w).
Hypothesis P_metric_block : ∀ w b,
  P w →
  P (call_sink (ProcessMetricBlockCall b) (OnProcessMetricBlock sink b) w).
Hypothesis P_mark_full : ∀ w, P w → P (ForEachThreadStream MarkFull w).
Hypothesis ok_stamp : ∀ w desc, desc_ok desc → P w →
  ok (Cycles64 platform w).2
    (Here (T := BeginThreadSpanEvent_t)
       {| BeginThreadSpanEvent.Desc := desc;
          BeginThreadSpanEvent.Timestamp :=
            Cycles64_at platform (ClockReads w) |})
  ∧ ok (Cycles64 platform w).2
      (Next (Here (T := EndThreadSpanEvent_t)
               {| EndThreadSpanEvent.Desc := desc;
                  EndThreadSpanEvent.Timestamp :=
                    Cycles64_at platform (ClockReads w) |})).
Hypothesis desc_ok_log : desc_ok (spanMeta_FlushLogStreamImpl platform).
Hypothesis desc_ok_metric : desc_ok (spanMeta_FlushMetricStreamImpl platform).

Lemma rule_SpanGuard_ctor tid desc (w : World S) :
  desc_ok desc → P w → P (SpanGuard_ctor platform sink tid desc w).
Proof.
  intros Hdesc H. unfold SpanGuard_ctor, BeginScope.
  apply (rule_QueueThreadEvent tid
           (Here (T := BeginThreadSpanEvent_t)
              {| BeginThreadSpanEvent.Desc := desc;
                 BeginThreadSpanEvent.Timestamp :=
                   Cycles64_at platform (ClockReads w) |})
           (Cycles64 platform w).2).
  - by apply ok_stamp.
  - by apply P_clock.
Qed.

Lemma rule_SpanGuard_dtor tid desc (w : World S) :
  desc_ok desc → P w → P (SpanGuard_dtor platform sink tid desc w).
Proof.
  intros Hdesc H. unfold SpanGuard_dtor, EndScope.
  apply (rule_QueueThreadEvent tid
           (Next (Here (T := EndThreadSpanEvent_t)
              {| EndThreadSpanEvent.Desc := desc;
                 EndThreadSpanEvent.Timestamp :=
                   Cycles64_at platform (ClockReads w) |}))
           (Cycles64 platform w).2).
  - by apply ok_stamp.
  - by apply P_clock.
Qed.

Lemma rule_LGN_SPAN_SCOPE tid desc body (w : World S) :
  desc_ok desc → (∀ w, P w → P (body w)) → P w →
  P (LGN_SPAN_SCOPE platform sink tid desc body w).
Proof.
  intros Hdesc Hbody H. unfold LGN_SPAN_SCOPE.
  by apply rule_SpanGuard_dtor, Hbody, rule_SpanGuard_ctor.
Qed.

Lemma rule_FlushLogStreamImpl tid (w : World S) :
  P w → P (FlushLogStreamImpl platform sink tid w).
Proof.
  intros H. unfold FlushLogStreamImpl.
  apply rule_LGN_SPAN_SCOPE; [done| |done].
  clear w H. intros w H.
  apply P_clock in H. unfold Cycles64 in H. cbn [snd] in H.
  unfold Now. cbn [GDispatch].
  destruct (GDispatch w) as [d|] eqn:Hd; [|exact H].
  cbn [SwapBlocks]. apply P_log_block. by apply P_update_log.
Qed.

Lemma rule_FlushMetricStreamImpl tid (w : World S) :
  P w → P (FlushMetricStreamImpl platform sink tid w).
Proof.
  intros H. unfold FlushMetricStreamImpl.
  apply rule_LGN_SPAN_SCOPE; [done| |done].
  clear w H. intros w H.
  apply P_clock in H. unfold Cycles64 in H. cbn [snd] in H.
  unfold Now. cbn [GDispatch].
  destruct (GDispatch w) as [d|] eqn:Hd; [|exact H].
  cbn [SwapBlocks]. apply P_metric_block. by apply P_update_metric.
Qed.

Lemma rule_QueueLogEntry_thread tid x (w : World S) :
  P w → P (QueueLogEntry platform sink tid x w).
Proof.
  intros H. unfold QueueLogEntry.
  destruct (GDispatch w) as [d|] eqn:Hd; [|done].
  destruct (IsFull _); [|by apply P_update_log].
  by apply rule_FlushLogStreamImpl, P_update_log.
Qed.

Lemma rule_QueueMetric_thread tid x (w : World S) :
  P w → P (QueueMetric platform sink tid x w).
Proof.
  intros H. unfold QueueMetric.
  destruct (GDispatch w) as [d|] eqn:Hd; [|done].
  destruct (IsFull _); [|by apply P_update_metric].
  by apply rule_FlushMetricStreamImpl, P_update_metric.
Qed.

Lemma rule_FlushLogStream_thread tid (w : World S) :
  P w → P (FlushLogStream platform sink tid w).
Proof.
  intros H. unfold FlushLogStream. destruct (GDispatch w); [|done].
  by apply rule_FlushLogStreamImpl.
Qed.

Lemma rule_FlushMetricStream_thread tid (w : World S) :
  P w → P (FlushMetricStream platform sink tid w).
Proof.
  intros H. unfold FlushMetricStream. destruct (GDispatch w); [|done].
  by apply rule_FlushMetricStreamImpl.
Qed.

Hypothesis desc_ok_wf : ∀ desc, in_uint 64 desc → desc_ok desc.

Lemma thread_rule_emit e (w : World S) :
  emission_wf e → P w → P (emit platform sink w e).
Proof.
  intros He H.
  destruct e as [tid desc|tid V verbosity category|tid desc expr
                |tid desc expr|tid desc|tid desc|tid|tid|]; cbn [emit].
  - unfold LGN_LOG_STATIC, LogStaticStr.
    apply (rule_QueueLogEntry_thread tid _ (Cycles64 platform w).2).
    by apply P_clock.
  - unfold LogBridge_Serialize, LogInterop.
    apply (rule_QueueLogEntry_thread tid _ (Cycles64 platform w).2).
    by apply P_clock.
  - unfold LGN_IMETRIC, IntMetric.
    apply (rule_QueueMetric_thread tid _ (Cycles64 platform w).2).
    by apply P_clock.
  - unfold LGN_FMETRIC, FloatMetric.
    apply (rule_QueueMetric_thread tid _ (Cycles64 platform w).2).
    by apply P_clock.
  - apply rule_SpanGuard_ctor; [by apply desc_ok_wf | done].
  - apply rule_SpanGuard_dtor; [by apply desc_ok_wf | done].
  - by apply rule_FlushLogStream_thread.
  - by apply rule_FlushMetricStream_thread.
  - by apply P_mark_full.
Qed.

Lemma thread_rule_emit_all es (w : World S) :
  Forall emission_wf es → P w → P (emit_all platform sink es w).
Proof.
  intros Hes. revert w. induction Hes as [|e es He _ IH]; intros w H;
    [done|].
  unfold emit_all in *. cbn [foldl]. apply IH. by apply thread_rule_emit.
Qed.

Hypothesis ok_begin : ∀ w e, BeginThreadSpanEvent.wf e →
  ok w (Here (T := BeginThreadSpanEvent_t) e).
Hypothesis ok_end : ∀ w e, EndThreadSpanEvent.wf e →
  ok w (Next (Here (T := EndThreadSpanEvent_t) e)).

Lemma thread_rule_step op (w : World S) :
  op_wf op → P w → P (step platform sink w op).
Proof.
  intros Hop H. destruct op; simpl.
  - by apply rule_QueueLogEntry_thread.
  - by apply rule_QueueLogEntry_thread.
  - by apply rule_QueueMetric_thread.
  - by apply rule_QueueMetric_thread.
  - apply rule_QueueThreadEvent; [by apply ok_begin | done].
  - apply rule_QueueThreadEvent; [by apply ok_end | done].
  - by apply rule_FlushLogStream_thread.
  - by apply rule_FlushMetricStream_thread.
  - by apply P_mark_full.
Qed.

Lemma thread_rule_run ops (w : World S) :
  Forall op_wf ops → P w → P (run platform sink ops w).
Proof.
  intros Hops. revert w. induction Hops as [|op ops Hop _ IH]; intros w H;
    [done|].
  unfold run in *. cbn [foldl]. apply IH. by apply thread_rule_step.
Qed.
End ThreadRule.

(* ===================================================================== *)
(** * Thread streams: allocation and registration                         *)
(* ===================================================================== *)

Section ThreadStreams.
Context {S : Type}.
Variable platform : Platform.
Variable sink : EventSink S.

(** The first call of [GetCurrentThreadStream] on a thread, with a
    dispatch. *)
Lemma GetCurrentThreadStream_alloc tid (w : World S) d :
  ThreadLocalPtr w !! tid = None → GDispatch w = Some d →
  let s0 := new_thread_stream platform d w in
  let n := length (ThreadStreamHeap w) in
  GetCurrentThreadStream platform sink tid w
  = (Some n,
     MkWorld
       (Some (set_ThreadStreams (ThreadStreams d ++ [n]) d))
       (ThreadStreamHeap w
          ++ [(OnInitThreadStream sink tid s0 (SinkState w)).1])
       (<[tid := n]> (ThreadLocalPtr w))
       (OnInitThreadStream sink tid s0 (SinkState w)).2
       (SinkCalls w ++ [InitThreadStreamCall s0])
       (1 + ClockReads w) (1 + GuidsAllocated w)).
Proof.
  intros Htls Hd s0 n. unfold GetCurrentThreadStream. rewrite Htls, Hd.
  unfold AllocThreadStream, AllocNewGuid, Now. cbn [ThreadStreamHeap].
  unfold PublishThreadStream, set_ThreadLocalPtr, set_ThreadStreamHeap,
    set_GDispatch.
  cbn [GDispatch ThreadStreamHeap ThreadLocalPtr SinkState SinkCalls
       ClockReads GuidsAllocated]. rewrite Hd.
  cbn [GDispatch ThreadStreamHeap ThreadLocalPtr SinkState SinkCalls
       ClockReads GuidsAllocated].
  rewrite lookup_app_r, Nat.sub_diag by done. cbn [lookup list_lookup].
  change (OnInitThreadStream sink tid _ (SinkState w))
    with (OnInitThreadStream sink tid s0 (SinkState w)).
  destruct (OnInitThreadStream sink tid s0 (SinkState w))
    as [s' st] eqn:Hinit.
  cbn [fst snd]. do 2 f_equal.
  rewrite insert_app_r_alt, Nat.sub_diag by done. reflexivity.
Qed.

Lemma ForEachThreadStream_fields callback (w : World S) :
  let w' := ForEachThreadStream callback w in
  GDispatch w' = GDispatch w ∧ ThreadLocalPtr w' = ThreadLocalPtr w
  ∧ SinkState w' = SinkState w ∧ SinkCalls w' = SinkCalls w
  ∧ ClockReads w' = ClockReads w ∧ GuidsAllocated w' = GuidsAllocated w
  ∧ length (ThreadStreamHeap w') = length (ThreadStreamHeap w).
Proof.
  unfold ForEachThreadStream. destruct (GDispatch w) as [d|] eqn:Hd; [|done].
  revert Hd. generalize (ThreadStreams d). intros l. revert w.
  induction l as [|p l IH]; intros w Hd; cbn [foldl]; [done|].
  set (w1 := match ThreadStreamHeap w !! p with Some _ => _ | None => w end).
  assert (H1 : GDispatch w1 = GDispatch w
               ∧ ThreadLocalPtr w1 = ThreadLocalPtr w
               ∧ SinkState w1 = SinkState w ∧ SinkCalls w1 = SinkCalls w
               ∧ ClockReads w1 = ClockReads w
               ∧ GuidsAllocated w1 = GuidsAllocated w
               ∧ length (ThreadStreamHeap w1) = length (ThreadStreamHeap w)).
  { subst w1. destruct (ThreadStreamHeap w !! p); [|done].
    cbn. by rewrite length_insert. }
  destruct H1 as (H1 & H2 & H3 & H4 & H5 & H6 & H7).
  destruct (IH w1 ltac:(congruence)) as (I1 & I2 & I3 & I4 & I5 & I6 & I7).
  repeat split; congruence.
Qed.

Lemma init_thread_calls_app a b :
  init_thread_calls (a ++ b) = init_thread_calls a ++ init_thread_calls b.
Proof. apply bind_app. Qed.

Lemma threads_ok_clock since (w : World S) :
  threads_ok since w → threads_ok since (Cycles64 platform w).2.
Proof. done. Qed.

Lemma threads_ok_alloc since (w : World S) tid d :
  ThreadLocalPtr w !! tid = None → GDispatch w = Some d →
  threads_ok since w →
  threads_ok since (GetCurrentThreadStream platform sink tid w).2.
Proof.
  intros Htls Hd (d0 & Hw & Hsince & Hreg & Hlt & Hinj & Hsize & Hcalls).
  assert (d0 = d) as -> by congruence.
  rewrite (GetCurrentThreadStream_alloc tid w d Htls Hd). cbn [snd].
  eexists. split; [reflexivity|].
  cbn [SinkCalls ThreadStreamHeap ThreadLocalPtr ThreadStreams
       set_ThreadStreams].
  rewrite !length_app. cbn [length].
  split; [lia|]. split; [|split; [|split; [|split]]].
  - rewrite Hreg, Nat.add_1_r, seq_S. done.
  - intros tid' p Hp. destruct (decide (tid' = tid)) as [->|Hne].
    + rewrite lookup_insert_eq in Hp. injection Hp as <-. lia.
    + rewrite lookup_insert_ne in Hp by done. apply Hlt in Hp. lia.
  - intros tid1 tid2 p H1 H2.
    destruct (decide (tid1 = tid)) as [->|Hne1];
      destruct (decide (tid2 = tid)) as [->|Hne2]; [done| | |].
    + rewrite lookup_insert_eq in H1. injection H1 as <-.
      rewrite lookup_insert_ne in H2 by done. apply Hlt in H2. lia.
    + rewrite lookup_insert_eq in H2. injection H2 as <-.
      rewrite lookup_insert_ne in H1 by done. apply Hlt in H1. lia.
    + rewrite lookup_insert_ne in H1, H2 by done. by eapply Hinj.
  - rewrite map_size_insert_None by done. lia.
  - rewrite drop_app_le, init_thread_calls_app, length_app by done.
    rewrite Hcalls. reflexivity.
Qed.

Lemma threads_ok_heap since (w : World S) heap :
  length heap = length (ThreadStreamHeap w) →
  threads_ok since w → threads_ok since (set_ThreadStreamHeap heap w).
Proof.
  intros Hlen (d & Hw & Hsince & Hreg & Hlt & Hinj & Hsize & Hcalls).
  exists d. cbn. rewrite Hlen. done.
Qed.

Lemma threads_ok_call since (w : World S) c f :
  init_thread_calls [c] = [] →
  threads_ok since w → threads_ok since (call_sink c f w).
Proof.
  intros Hc (d & Hw & Hsince & Hreg & Hlt & Hinj & Hsize & Hcalls).
  exists d. cbn. rewrite length_app, drop_app_le, init_thread_calls_app, Hc,
    app_nil_r by done.
  split; [done|]. split; [lia|]. done.
Qed.

Lemma threads_ok_flush since (w : World S) d p :
  threads_ok since w →
  threads_ok since (FlushThreadStream platform sink d p w).
Proof.
  intros H. unfold FlushThreadStream, Now.
  set (w1 := MkWorld _ _ _ _ _ _ _).
  assert (H1 : threads_ok since w1) by exact H.
  destruct (ThreadStreamHeap w1 !! p) as [s|]; [|done].
  cbn [SwapBlocks]. apply threads_ok_call; [done|].
  apply threads_ok_heap; [|done]. by rewrite length_insert.
Qed.

Lemma threads_ok_dispatch since (w : World S) d d' :
  GDispatch w = Some d → ThreadStreams d' = ThreadStreams d →
  threads_ok since w → threads_ok since (set_GDispatch (Some d') w).
Proof.
  intros Hd Hreg' (d0 & Hw & Hsince & Hreg & Hlt & Hinj & Hsize & Hcalls).
  assert (d0 = d) as -> by congruence.
  exists d'. cbn. rewrite Hreg'. done.
Qed.

Lemma threads_ok_mark_full since callback (w : World S) :
  threads_ok since w → threads_ok since (ForEachThreadStream callback w).
Proof.
  intros (d & Hw & Hsince & Hreg & Hlt & Hinj & Hsize & Hcalls).
  destruct (ForEachThreadStream_fields callback w)
    as (H1 & H2 & _ & H4 & _ & _ & H7).
  exists d. rewrite H1, H2, H4, H7. done.
Qed.

Lemma threads_ok_run since ops (w : World S) :
  Forall op_wf ops → threads_ok since w →
  threads_ok since (run platform sink ops w).
Proof.
  intros Hops.
  apply (thread_rule_run platform sink (threads_ok since) (λ _ _, True)
           (λ _, True)); try done.
  - intros w1 tid d. apply threads_ok_alloc.
  - intros w1 tid p s x _ _ _. apply threads_ok_heap.
    by rewrite length_insert.
  - intros w1 tid p s d _ _ _ _. apply threads_ok_flush.
  - intros w1 d s Hd. by apply (threads_ok_dispatch since w1 d).
  - intros w1 d s Hd. by apply (threads_ok_dispatch since w1 d).
  - intros w1 b. by apply threads_ok_call.
  - intros w1 b. by apply threads_ok_call.
  - intros w1. apply threads_ok_mark_full.
Qed.
End ThreadStreams.



(* ===================================================================== *)
(** * Thread streams: events, rotation and MarkFull                       *)
(* ===================================================================== *)

Section ThreadEvents.
Context {S : Type}.
Variable platform : Platform.
Variable sink : EventSink S.

(** [QueueThreadEvent] on a thread that has its stream, with a dispatch. *)
Lemma QueueThreadEvent_cached tid x (w : World S) d p s :
  GDispatch w = Some d → ThreadLocalPtr w !! tid = Some p →
  ThreadStreamHeap w !! p = Some s →
  QueueThreadEvent platform sink tid x w
  = if IsFull (StreamPush x s) then
      let now := reading platform (ClockReads w) in
      let fullBlock := Close now (BlockPush x (CurrentBlock s)) in
      MkWorld (GDispatch w)
        (<[p := flushed_thread_stream platform (ClockReads w)
                  (ThreadBufferSize d) (StreamPush x s)]>
           (ThreadStreamHeap w))
        (ThreadLocalPtr w)
        (OnProcessThreadBlock sink fullBlock (SinkState w))
        (SinkCalls w ++ [ProcessThreadBlockCall fullBlock])
        (1 + ClockReads w) (GuidsAllocated w)
    else
      set_ThreadStreamHeap (<[p := StreamPush x s]> (ThreadStreamHeap w)) w.
Proof.
  intros Hd Htls Hs. unfold QueueThreadEvent, GetCurrentThreadStream.
  rewrite Htls, Hs. destruct (IsFull (StreamPush x s)); [|done].
  cbn [set_ThreadStreamHeap GDispatch]. rewrite Hd.
  unfold FlushThreadStream, Now.
  cbn [set_ThreadStreamHeap GDispatch ThreadStreamHeap ThreadLocalPtr
       SinkState SinkCalls ClockReads GuidsAllocated].
  rewrite list_lookup_insert_eq by (by eapply lookup_lt_Some).
  cbn [SwapBlocks]. unfold call_sink, set_ThreadStreamHeap.
  cbn [GDispatch ThreadStreamHeap ThreadLocalPtr SinkState SinkCalls
       ClockReads GuidsAllocated].
  rewrite list_insert_insert_eq, ?Hd. reflexivity.
Qed.

Lemma ForEachThreadStream_lookup callback (w : World S) d p :
  GDispatch w = Some d → (∀ s, callback (callback s) = callback s) →
  ThreadStreamHeap (ForEachThreadStream callback w) !! p
  = if decide (p ∈ ThreadStreams d)
    then callback <$> ThreadStreamHeap w !! p
    else ThreadStreamHeap w !! p.
Proof.
  intros Hd Hidem. unfold ForEachThreadStream. rewrite Hd. clear Hd.
  generalize (ThreadStreams d). intros l. revert w.
  induction l as [|q l IH]; intros w; cbn [foldl].
  - rewrite decide_False; [done|]. apply not_elem_of_nil.
  - set (w1 := match ThreadStreamHeap w !! q with Some _ => _ | None => w end).
    rewrite IH.
    assert (H1 : ThreadStreamHeap w1 !! p
                 = if decide (p = q) then callback <$> ThreadStreamHeap w !! p
                   else ThreadStreamHeap w !! p).
    { subst w1. destruct (decide (p = q)) as [->|Hne].
      - destruct (ThreadStreamHeap w !! q) as [s|] eqn:Hq; [|by rewrite Hq].
        cbn. rewrite list_lookup_insert_eq by (by eapply lookup_lt_Some).
        done.
      - destruct (ThreadStreamHeap w !! q) as [s|] eqn:Hq; [|done].
        cbn. by rewrite list_lookup_insert_ne. }
    rewrite H1.
    destruct (decide (p = q)) as [->|Hne].
    + rewrite (decide_True (P := q ∈ q :: l)) by left.
      destruct (decide (q ∈ l)); [|done].
      destruct (ThreadStreamHeap w !! q); [|done]. cbn. by rewrite Hidem.
    + destruct (decide (p ∈ l)) as [Hin|Hnin].
      * rewrite decide_True by (by right). done.
      * rewrite decide_False; [done|]. by intros [?|?]%elem_of_cons.
Qed.
End ThreadEvents.

(** X7.  After [ForEachThreadStream(&MarkStreamFull)], the last step of
    [FlushMonitor::Flush], the next span event on a thread whose stream is
    registered with the dispatch fills the stream whatever it holds: the
    block that was current, with the event in it, is closed and handed to
    the sink by one [OnProcessThreadBlock], and the thread goes on in a
    fresh block with the threshold of the thread buffer size. *)
Theorem MarkFull_flushes_next_event {S} (platform : Platform)
    (sink : EventSink S) (tid : nat) (x : OneOf ThreadEventTypes)
    (w : World S) (d : Dispatch) (p : nat) (s : ThreadStream)
    (xs : list (OneOf ThreadEventTypes)) :
  GDispatch w = Some d → ThreadLocalPtr w !! tid = Some p →
  ThreadStreamHeap w !! p = Some s → p ∈ ThreadStreams d →
  holds (k := ThreadEvents) (CurrentBlock s) xs →
  event_wf (k := ThreadEvents) x →
  let w1 := ForEachThreadStream MarkStreamFull w in
  let w2 := QueueThreadEvent platform sink tid x w1 in
  let now := reading platform (ClockReads w) in
  ∃ fullBlock s',
    SinkCalls w2 = SinkCalls w ++ [ProcessThreadBlockCall fullBlock]
    ∧ holds (k := ThreadEvents) fullBlock (xs ++ [x])
    ∧ BlockStreamId fullBlock = BlockStreamId (CurrentBlock s)
    ∧ Begin fullBlock = Begin (CurrentBlock s) ∧ End_ fullBlock = now
    ∧ ThreadStreamHeap w2 !! p = Some s'
    ∧ CurrentBlock s'
      = NewEventBlock (StreamId s) now (ThreadBufferSize d)
    ∧ FullThreshold s' = ((ThreadBufferSize d - 32) mod uint64_max)%Z
    ∧ StreamId s' = StreamId s ∧ Properties s' = Properties s
    ∧ GDispatch w2 = Some d ∧ ThreadLocalPtr w2 = ThreadLocalPtr w.
Proof.
  intros Hd Htls Hs Hreg Hxs Hx w1 w2 now.
  destruct (ForEachThreadStream_fields MarkStreamFull w)
    as (H1 & H2 & _ & H4 & H5 & _ & _).
  fold w1 in H1, H2, H4, H5.
  assert (Hs1 : ThreadStreamHeap w1 !! p = Some (MarkFull s)).
  { subst w1. rewrite (ForEachThreadStream_lookup _ w d) by done.
    rewrite decide_True by done. by rewrite Hs. }
  assert (Hw2 : w2 = QueueThreadEvent platform sink tid x w1) by done.
  rewrite (QueueThreadEvent_cached platform sink tid x w1 d p (MarkFull s))
    in Hw2 by congruence.
  assert (Hfull : IsFull (StreamPush x (MarkFull s)) = true).
  { apply IsFull_iff. cbn [StreamPush MarkFull FullThreshold]. lia. }
  rewrite Hfull in Hw2. rewrite Hw2. cbn zeta.
  eexists _, _. rewrite H4, H5.
  cbn [SinkCalls ThreadStreamHeap GDispatch ThreadLocalPtr].
  split; [reflexivity|]. split; [|split; [done|split; [done|split; [done|]]]].
  { apply holds_Close. by apply (holds_push ThreadEvents). }
  rewrite list_lookup_insert_eq by (by eapply lookup_lt_Some).
  split; [reflexivity|]. rewrite H1, H2. done.
Qed.

Lemma sample_span_event_wf :
  event_wf (k := ThreadEvents)
    (Here (T := BeginThreadSpanEvent_t) sample_span_event).
Proof. repeat split; simpl; lia. Qed.

Lemma MarkFull_flushes_next_event_witness :
  ∃ fullBlock,
    SinkCalls (QueueThreadEvent sample_platform null_sink 1
                 (Here (T := BeginThreadSpanEvent_t) sample_span_event)
                 (ForEachThreadStream MarkStreamFull span_scope_open))
    = SinkCalls span_scope_open ++ [ProcessThreadBlockCall fullBlock]
    ∧ holds (k := ThreadEvents) fullBlock
        ([Here (T := BeginThreadSpanEvent_t) sample_span_event]
           ++ [Here (T := BeginThreadSpanEvent_t) sample_span_event]).
Proof.
  assert (Hholds : holds (k := ThreadEvents) (CurrentBlock span_scope_stream)
                     [Here (T := BeginThreadSpanEvent_t) sample_span_event]).
  { split; [|reflexivity]. apply Forall_singleton, sample_span_event_wf. }
  assert (Hreg : 0 ∈ ThreadStreams span_scope_dispatch) by (cbn; left).
  destruct (MarkFull_flushes_next_event sample_platform null_sink 1
              (Here (T := BeginThreadSpanEvent_t) sample_span_event)
              span_scope_open span_scope_dispatch 0 span_scope_stream
              [Here (T := BeginThreadSpanEvent_t) sample_span_event]
              eq_refl eq_refl eq_refl Hreg Hholds sample_span_event_wf)
    as (fullBlock & s' & Hcalls & Hfull & _).
  exists fullBlock. split; [exact Hcalls | exact Hfull].
Defined.

(* ===================================================================== *)
(** * Thread streams: no span event is lost                               *)
(* ===================================================================== *)

Lemma stream_blocks_app streamId a b :
  stream_blocks streamId (a ++ b)
  = stream_blocks streamId a ++ stream_blocks streamId b.
Proof. apply filter_app. Qed.

Lemma stream_blocks_other streamId (bs : list ThreadBlock) :
  Forall (λ b, BlockStreamId b ≠ streamId) bs → stream_blocks streamId bs = [].
Proof.
  induction 1 as [|b bs Hb _ IH]; [done|].
  unfold stream_blocks in *. by rewrite filter_cons_False.
Qed.

Lemma stream_blocks_same streamId (bs : list ThreadBlock) :
  Forall (λ b, BlockStreamId b = streamId) bs → stream_blocks streamId bs = bs.
Proof.
  induction 1 as [|b bs Hb _ IH]; [done|].
  unfold stream_blocks in *. rewrite filter_cons_True by done. by f_equal.
Qed.

Lemma thread_blocks_of_blocks (bs : list ThreadBlock) :
  thread_blocks (ProcessThreadBlockCall <$> bs) = bs.
Proof.
  induction bs as [|b bs IH]; [done|].
  rewrite fmap_cons. unfold thread_blocks in *. rewrite bind_cons, IH. done.
Qed.

Lemma blocks_hold_app k (bs1 bs2 : list (EventBlock (kind_types k))) xs ys :
  blocks_hold bs1 xs → blocks_hold bs2 ys → blocks_hold (bs1 ++ bs2) (xs ++ ys).
Proof.
  intros (xss & H1 & ->) (yss & H2 & ->). exists (xss ++ yss).
  split; [by apply Forall2_app | by rewrite concat_app].
Qed.

Section ThreadHistory.
Context {S : Type}.
Variable platform : Platform.
Variable sink : EventSink S.
Hypothesis Hunique : guids_unique platform.
Hypothesis Hkeeps : sink_keeps_blocks sink.

Lemma thread_history_alloc since (w : World S) evs tid d :
  ThreadLocalPtr w !! tid = None → GDispatch w = Some d →
  thread_history_is platform since w evs →
  thread_history_is platform since
    (GetCurrentThreadStream platform sink tid w).2 evs.
Proof.
  intros Htls Hd (d0 & Hw & Hsince & Hnone & Hsome & Hinj & Hids & Hall).
  cbn [kind_types] in *.
  rewrite (GetCurrentThreadStream_alloc platform sink tid w d Htls Hd).
  cbn [snd].
  set (s0 := new_thread_stream platform d w).
  set (s' := (OnInitThreadStream sink tid s0 (SinkState w)).1).
  destruct (Hkeeps tid s0 (SinkState w)) as [Hblock Hid]. fold s' in Hblock, Hid.
  assert (Hlt : ∀ t p, ThreadLocalPtr w !! t = Some p
                       → p < length (ThreadStreamHeap w)).
  { intros t p Hp. destruct (Hsome t p Hp) as (s & g & Hs & _).
    by eapply lookup_lt_Some. }
  assert (Hblocks : thread_blocks
                      (drop since (SinkCalls w ++ [InitThreadStreamCall s0]))
                    = thread_blocks (drop since (SinkCalls w))).
  { rewrite drop_app_le, thread_blocks_app by done. apply app_nil_r. }
  assert (Hfresh : stream_blocks (AllocNewGuid_at platform (GuidsAllocated w))
                     (thread_blocks (drop since (SinkCalls w))) = []).
  { apply stream_blocks_other. eapply Forall_impl; [exact Hall|].
    intros b (g & Hg & Hb) Heq. rewrite Hb in Heq. apply Hunique in Heq. lia. }
  eexists. split; [reflexivity|].
  cbn [SinkCalls ThreadStreamHeap ThreadLocalPtr GuidsAllocated kind_types].
  rewrite Hblocks, length_app.
  split; [lia|]. split; [|split; [|split; [|split]]].
  - intros t Ht. destruct (decide (t = tid)) as [->|Hne].
    + by rewrite lookup_insert_eq in Ht.
    + rewrite lookup_insert_ne in Ht by done. by apply Hnone.
  - intros t p Hp. destruct (decide (t = tid)) as [->|Hne].
    + rewrite lookup_insert_eq in Hp. injection Hp as <-.
      exists s', (GuidsAllocated w).
      rewrite lookup_app_r, Nat.sub_diag by done.
      split; [done|]. cbn [kind_types]. rewrite Hid, Hblock.
      split; [done|]. split; [lia|].
      split; [done|]. exists [], []. cbn [StreamId s0 new_thread_stream NewStream].
      rewrite Hfresh. split; [apply blocks_hold_nil|].
      split; [apply holds_new|]. by rewrite (Hnone tid Htls).
    + rewrite lookup_insert_ne in Hp by done.
      destruct (Hsome t p Hp) as (s & g & Hs & Hsid & Hg & Hbid & Hhist).
      exists s, g. rewrite lookup_app_l by (by eapply Hlt).
      split; [done|]. split; [done|]. split; [lia|]. done.
  - intros t1 t2 p H1 H2.
    destruct (decide (t1 = tid)) as [->|Hne1];
      destruct (decide (t2 = tid)) as [->|Hne2]; [done| | |].
    + rewrite lookup_insert_eq in H1. injection H1 as <-.
      rewrite lookup_insert_ne in H2 by done. apply Hlt in H2. lia.
    + rewrite lookup_insert_eq in H2. injection H2 as <-.
      rewrite lookup_insert_ne in H1 by done. apply Hlt in H1. lia.
    + rewrite lookup_insert_ne in H1, H2 by done. by eapply Hinj.
  - assert (Hold : ∀ t p s, t ≠ tid →
               <[tid:=length (ThreadStreamHeap w)]> (ThreadLocalPtr w) !! t
               = Some p →
               (ThreadStreamHeap w ++ [s']) !! p = Some s →
               ThreadLocalPtr w !! t = Some p
               ∧ ThreadStreamHeap w !! p = Some s
               ∧ ∃ g, g < GuidsAllocated w
                      ∧ StreamId s = AllocNewGuid_at platform g).
    { intros t p s Hne Hp Hs. rewrite lookup_insert_ne in Hp by done.
      rewrite lookup_app_l in Hs by (by eapply Hlt).
      destruct (Hsome t p Hp) as (s1 & g & Hs1 & Hsid & Hg & _).
      assert (s1 = s) as ->
        by (pose proof (eq_trans (eq_sym Hs1) Hs) as E; by injection E).
      by eauto 6. }
    assert (Hnew : ∀ p s,
               <[tid:=length (ThreadStreamHeap w)]> (ThreadLocalPtr w) !! tid
               = Some p →
               (ThreadStreamHeap w ++ [s']) !! p = Some s →
               StreamId s = AllocNewGuid_at platform (GuidsAllocated w)).
    { intros p s Hp Hs. rewrite lookup_insert_eq in Hp. injection Hp as <-.
      rewrite lookup_app_r, Nat.sub_diag in Hs by done.
      injection Hs as <-. by rewrite Hid. }
    intros t1 t2 p1 p2 s1 s2 H1 H2 Hs1 Hs2 Heq.
    destruct (decide (t1 = tid)) as [->|Hne1];
      destruct (decide (t2 = tid)) as [->|Hne2]; [done| | |].
    + rewrite (Hnew _ _ H1 Hs1) in Heq.
      destruct (Hold _ _ _ Hne2 H2 Hs2) as (_ & _ & g & Hg & Hsid).
      rewrite Hsid in Heq. apply Hunique in Heq. lia.
    + rewrite (Hnew _ _ H2 Hs2) in Heq.
      destruct (Hold _ _ _ Hne1 H1 Hs1) as (_ & _ & g & Hg & Hsid).
      rewrite Hsid in Heq. apply Hunique in Heq. lia.
    + destruct (Hold _ _ _ Hne1 H1 Hs1) as (H1' & Hs1' & _).
      destruct (Hold _ _ _ Hne2 H2 Hs2) as (H2' & Hs2' & _).
      by eapply (Hids t1 t2).
  - eapply Forall_impl; [exact Hall|]. intros b (g & Hg & Hb).
    exists g. split; [lia | done].
Qed.

(** The stream of thread [tid] is replaced by [s'], and the blocks [bs] of
    that stream are handed to the sink. *)
Lemma thread_history_update since (w : World S) evs evs' tid p
    (s s' : ThreadStream) (bs : list ThreadBlock) (st' : S) (clock' : nat) x :
  thread_history_is platform since w evs →
  ThreadLocalPtr w !! tid = Some p → ThreadStreamHeap w !! p = Some s →
  StreamId s' = StreamId s →
  BlockStreamId (CurrentBlock s') = StreamId s' →
  Forall (λ b, BlockStreamId b = StreamId s) bs →
  (∀ cl, holds (k := ThreadEvents) (CurrentBlock s) cl →
         ∃ dnew cl', blocks_hold (k := ThreadEvents) bs dnew
                     ∧ holds (k := ThreadEvents) (CurrentBlock s') cl'
                     ∧ cl ++ [x] = dnew ++ cl') →
  evs' tid = evs tid ++ [x] → (∀ t, t ≠ tid → evs' t = evs t) →
  thread_history_is platform since
    (MkWorld (GDispatch w) (<[p := s']> (ThreadStreamHeap w))
       (ThreadLocalPtr w) st'
       (SinkCalls w ++ (ProcessThreadBlockCall <$> bs)) clock'
       (GuidsAllocated w))
    evs'.
Proof.
  intros (d & Hw & Hsince & Hnone & Hsome & Hinj & Hids & Hall)
    Htls Hs Hid Hbid Hbs Hpush Hevs Hother.
  cbn [kind_types] in *.
  destruct (Hsome tid p Htls) as (s1 & g & Hs1 & Hsid & Hg & Hbid1 & Hhist).
  assert (s1 = s) as ->
    by (pose proof (eq_trans (eq_sym Hs1) Hs) as E; by injection E).
  assert (Hp : p < length (ThreadStreamHeap w)) by (by eapply lookup_lt_Some).
  assert (Hblocks : thread_blocks
                      (drop since
                         (SinkCalls w ++ (ProcessThreadBlockCall <$> bs)))
                    = thread_blocks (drop since (SinkCalls w)) ++ bs).
  { by rewrite drop_app_le, thread_blocks_app, thread_blocks_of_blocks. }
  exists d. split; [done|].
  cbn [SinkCalls ThreadStreamHeap ThreadLocalPtr GuidsAllocated kind_types].
  rewrite Hblocks, length_app.
  split; [lia|]. split; [|split; [|split; [|split]]].
  - intros t Ht. destruct (decide (t = tid)) as [->|Hne]; [congruence|].
    rewrite Hother by done. by apply Hnone.
  - intros t q Hq. destruct (decide (t = tid)) as [->|Hne].
    + assert (q = p) as -> by congruence.
      exists s', g. rewrite list_lookup_insert_eq by done.
      split; [done|]. split; [congruence|]. split; [done|]. split; [done|].
      destruct Hhist as (dl & cl & Hdl & Hcl & Hdlcl).
      destruct (Hpush cl Hcl) as (dnew & cl' & Hdnew & Hcl' & Heq).
      exists (dl ++ dnew), cl'. rewrite Hid, stream_blocks_app.
      rewrite (stream_blocks_same _ bs) by done.
      split; [by apply blocks_hold_app|]. split; [done|].
      by rewrite Hevs, Hdlcl, <- !(assoc_L (++)), Heq.
    + assert (Hqp : q ≠ p) by (intros ->; apply Hne; by eapply Hinj).
      destruct (Hsome t q Hq) as (s2 & g2 & Hs2 & Hsid2 & Hg2 & Hbid2 & Hhist2).
      exists s2, g2. rewrite list_lookup_insert_ne by done.
      split; [done|]. split; [done|]. split; [done|]. split; [done|].
      rewrite stream_blocks_app, (stream_blocks_other _ bs), app_nil_r,
        Hother by done || (eapply Forall_impl; [exact Hbs|];
                           intros b Hb Heq; apply Hne;
                           apply (Hids t tid q p s2 s); congruence).
      done.
  - done.
  - assert (Hback : ∀ t q s2,
               ThreadLocalPtr w !! t = Some q →
               <[p:=s']> (ThreadStreamHeap w) !! q = Some s2 →
               ∃ s3, ThreadStreamHeap w !! q = Some s3
                     ∧ StreamId s3 = StreamId s2).
    { intros t q s2 Hq Hs2. destruct (decide (q = p)) as [->|Hqp].
      - rewrite list_lookup_insert_eq in Hs2 by done. injection Hs2 as <-.
        by exists s.
      - rewrite list_lookup_insert_ne in Hs2 by done. by exists s2. }
    intros t1 t2 p1 p2 s1 s2 H1 H2 Hs1' Hs2' Heq.
    destruct (Hback _ _ _ H1 Hs1') as (s3 & Hs3 & Hid3).
    destruct (Hback _ _ _ H2 Hs2') as (s4 & Hs4 & Hid4).
    apply (Hids t1 t2 p1 p2 s3 s4); congruence.
  - apply Forall_app. split; [done|].
    eapply Forall_impl; [exact Hbs|]. intros b Hb. exists g.
    split; [done | congruence].
Qed.

Lemma thread_history_cached since (w : World S) evs evs' tid p x :
  thread_history_is platform since w evs →
  ThreadLocalPtr w !! tid = Some p → event_wf (k := ThreadEvents) x →
  evs' tid = evs tid ++ [x] → (∀ t, t ≠ tid → evs' t = evs t) →
  thread_history_is platform since
    (QueueThreadEvent platform sink tid x w) evs'.
Proof.
  intros H Htls Hx Hevs Hother.
  pose proof H as (d & Hd & _ & _ & Hsome & _). cbn [kind_types] in *.
  destruct (Hsome tid p Htls) as (s & g & Hs & Hsid & Hg & Hbid & _).
  rewrite (QueueThreadEvent_cached platform sink tid x w d p s) by done.
  destruct (IsFull (StreamPush x s)).
  - cbn zeta.
    apply (thread_history_update since w evs evs' tid p s _
             [Close (reading platform (ClockReads w))
                (BlockPush x (CurrentBlock s))] _ _ x); try done.
    + by apply Forall_singleton.
    + intros cl Hcl. exists (cl ++ [x]), []. rewrite app_nil_r.
      split; [|split; [apply holds_new | done]].
      apply (blocks_hold_snoc ThreadEvents [] _ [] (cl ++ [x]));
        [apply blocks_hold_nil|].
      apply holds_Close. by apply (holds_push ThreadEvents).
  - pose proof (thread_history_update since w evs evs' tid p s
                  (StreamPush x s) [] (SinkState w) (ClockReads w) x H Htls Hs)
      as Hup.
    rewrite fmap_nil, app_nil_r in Hup. apply Hup; try done.
    intros cl Hcl. exists [], (cl ++ [x]).
    split; [apply blocks_hold_nil|]. split; [|done].
    by apply (holds_push ThreadEvents).
Qed.

Lemma QueueThreadEvent_after_alloc tid x (w : World S) d :
  ThreadLocalPtr w !! tid = None → GDispatch w = Some d →
  QueueThreadEvent platform sink tid x w
  = QueueThreadEvent platform sink tid x
      (GetCurrentThreadStream platform sink tid w).2.
Proof.
  intros Htls Hd. unfold QueueThreadEvent at 1 2.
  rewrite (GetCurrentThreadStream_alloc platform sink tid w d Htls Hd).
  cbn [snd]. unfold GetCurrentThreadStream at 1. cbn [ThreadLocalPtr].
  by rewrite lookup_insert_eq.
Qed.

Lemma thread_history_event since (w : World S) evs evs' tid x :
  thread_history_is platform since w evs → event_wf (k := ThreadEvents) x →
  evs' tid = evs tid ++ [x] → (∀ t, t ≠ tid → evs' t = evs t) →
  thread_history_is platform since
    (QueueThreadEvent platform sink tid x w) evs'.
Proof.
  intros H Hx Hevs Hother. pose proof H as (d & Hd & _).
  destruct (ThreadLocalPtr w !! tid) as [p|] eqn:Htls.
  - by eapply thread_history_cached.
  - rewrite (QueueThreadEvent_after_alloc tid x w d Htls Hd).
    destruct (GetCurrentThreadStream_Some platform sink tid w d Htls Hd)
      as (_ & Hp & _).
    eapply thread_history_cached; [|exact Hp|done..].
    by eapply thread_history_alloc.
Qed.

Lemma thread_history_mark_full since (w : World S) evs :
  thread_history_is platform since w evs →
  thread_history_is platform since (ForEachThreadStream MarkFull w) evs.
Proof.
  intros (d & Hw & Hsince & Hnone & Hsome & Hinj & Hids & Hall).
  cbn [kind_types] in *.
  destruct (ForEachThreadStream_fields MarkFull w)
    as (H1 & H2 & _ & H4 & _ & H6 & _).
  assert (Hlook : ∀ p s', ThreadStreamHeap (ForEachThreadStream MarkFull w) !! p
                          = Some s' →
                          ∃ s, ThreadStreamHeap w !! p = Some s
                               ∧ StreamId s' = StreamId s
                               ∧ CurrentBlock s' = CurrentBlock s).
  { intros p s'. rewrite (ForEachThreadStream_lookup MarkFull w d) by done.
    destruct (decide (p ∈ ThreadStreams d)); [|by eauto].
    destruct (ThreadStreamHeap w !! p) as [s|]; [|done].
    intros [= <-]. by exists s. }
  assert (Hlook' : ∀ p s, ThreadStreamHeap w !! p = Some s →
                          ∃ s', ThreadStreamHeap (ForEachThreadStream MarkFull w)
                                !! p = Some s'
                                ∧ StreamId s' = StreamId s
                                ∧ CurrentBlock s' = CurrentBlock s).
  { intros p s Hs. rewrite (ForEachThreadStream_lookup MarkFull w d) by done.
    destruct (decide (p ∈ ThreadStreams d)).
    - exists (MarkFull s). split; [|done].
      exact (f_equal (fmap MarkFull) Hs).
    - exists s. split; [exact Hs | done]. }
  exists d. cbn [kind_types]. rewrite H1, H2, H4, H6.
  split; [done|]. split; [done|].
  split; [done|]. split; [|split; [done|split; [|done]]].
  - intros t p Hp.
    destruct (Hsome t p Hp) as (s & g & Hs & Hsid & Hg & Hbid & Hhist).
    destruct (Hlook' p s Hs) as (s' & Hs' & Hid' & Hblock').
    exists s', g. rewrite Hid', Hblock'. done.
  - intros t1 t2 p1 p2 s1 s2 Hp1 Hp2 Hs1 Hs2 Heq.
    destruct (Hlook _ _ Hs1) as (s3 & Hs3 & Hid3 & _).
    destruct (Hlook _ _ Hs2) as (s4 & Hs4 & Hid4 & _).
    apply (Hids t1 t2 p1 p2 s3 s4); congruence.
Qed.
End ThreadHistory.

Section SpanRun.
Context {S : Type}.
Variable platform : Platform.
Variable sink : EventSink S.
Hypothesis Hunique : guids_unique platform.
Hypothesis Hkeeps : sink_keeps_blocks sink.

Lemma thread_history_ext since (w : World S) evs evs' :
  (∀ t, evs' t = evs t) →
  thread_history_is platform since w evs →
  thread_history_is platform since w evs'.
Proof.
  intros Hext (d & Hw & Hsince & Hnone & Hsome & Hinj & Hids & Hall).
  exists d. split; [done|]. split; [done|].
  split; [|split; [|done]].
  - intros t Ht. rewrite Hext. by apply Hnone.
  - intros t p Hp.
    destruct (Hsome t p Hp) as (s & g & Hs & Hsid & Hg & Hbid & Hhist).
    exists s, g. rewrite Hext. done.
Qed.

Lemma QueueThreadEvent_other_threads since (w : World S) evs tid x t :
  thread_history_is platform since w evs → t ≠ tid →
  ThreadLocalPtr (QueueThreadEvent platform sink tid x w) !! t
  = ThreadLocalPtr w !! t.
Proof.
  intros H Hne.
  assert (Hcached : ∀ (w1 : World S) evs1 p,
             thread_history_is platform since w1 evs1 →
             ThreadLocalPtr w1 !! tid = Some p →
             ThreadLocalPtr (QueueThreadEvent platform sink tid x w1)
             = ThreadLocalPtr w1).
  { intros w1 evs1 p H1 Hp. pose proof H1 as (d & Hd & _ & _ & Hsome & _).
    destruct (Hsome tid p Hp) as (s & g & Hs & _).
    rewrite (QueueThreadEvent_cached platform sink tid x w1 d p s) by done.
    by destruct (IsFull (StreamPush x s)). }
  destruct (ThreadLocalPtr w !! tid) as [p|] eqn:Htls.
  - by rewrite (Hcached w evs p).
  - pose proof H as (d & Hd & _).
    rewrite (QueueThreadEvent_after_alloc platform sink tid x w d Htls Hd).
    destruct (GetCurrentThreadStream_Some platform sink tid w d Htls Hd)
      as (_ & Hp & _).
    rewrite (Hcached _ evs _
               (thread_history_alloc platform sink Hunique Hkeeps since w evs
                  tid d Htls Hd H) Hp).
    rewrite (GetCurrentThreadStream_alloc platform sink tid w d Htls Hd).
    cbn [snd ThreadLocalPtr]. by rewrite lookup_insert_ne.
Qed.

Lemma QueueThreadEvent_this_thread since (w : World S) evs tid x :
  thread_history_is platform since w evs →
  event_wf (k := ThreadEvents) x →
  is_Some (ThreadLocalPtr (QueueThreadEvent platform sink tid x w) !! tid).
Proof.
  intros H Hx.
  pose proof (thread_history_event platform sink Hunique Hkeeps since w evs
                (λ t, if decide (t = tid) then evs t ++ [x] else evs t)
                tid x H Hx) as (d & _ & _ & Hnone & _).
  { by rewrite decide_True. }
  { intros t Hne. by rewrite decide_False. }
  destruct (ThreadLocalPtr (QueueThreadEvent platform sink tid x w) !! tid)
    eqn:Htls; [done|].
  apply Hnone in Htls. rewrite decide_True in Htls by done.
  by destruct (evs tid).
Qed.

(** The threads that have a stream are those that have emitted. *)
Definition span_history_is (since : nat) (w : World S)
    (evs : nat → list (OneOf ThreadEventTypes)) : Prop :=
  thread_history_is platform since w evs
  ∧ ∀ t, is_Some (ThreadLocalPtr w !! t) → evs t ≠ [].

Lemma span_history_event since (w : World S) evs evs' tid x :
  span_history_is since w evs → event_wf (k := ThreadEvents) x →
  evs' tid = evs tid ++ [x] → (∀ t, t ≠ tid → evs' t = evs t) →
  span_history_is since (QueueThreadEvent platform sink tid x w) evs'.
Proof.
  intros [H Hdom] Hx Hevs Hother. split.
  - by apply (thread_history_event platform sink Hunique Hkeeps since w evs).
  - intros t Ht. destruct (decide (t = tid)) as [->|Hne].
    + rewrite Hevs. by destruct (evs tid).
    + rewrite (QueueThreadEvent_other_threads since w evs tid x t H Hne) in Ht.
      rewrite Hother by done. by apply Hdom.
Qed.

Lemma span_history_step since (w : World S) evs evs' op :
  span_history_is since w evs → is_span_op op → op_wf op →
  (∀ t, evs' t = evs t ++ thread_event_of t op) →
  span_history_is since (step platform sink w op) evs'.
Proof.
  intros H Hspan Hwf Hevs. destruct op as [| | | |tid e|tid e| | |]; try done.
  - apply (span_history_event since w evs evs' tid
             (Here (T := BeginThreadSpanEvent_t) e) H).
    + exact Hwf.
    + rewrite Hevs. cbn [thread_event_of]. by rewrite decide_True.
    + intros t Hne. rewrite Hevs. cbn [thread_event_of].
      rewrite decide_False by done. apply app_nil_r.
  - apply (span_history_event since w evs evs' tid
             (Next (Here (T := EndThreadSpanEvent_t) e)) H).
    + exact Hwf.
    + rewrite Hevs. cbn [thread_event_of]. by rewrite decide_True.
    + intros t Hne. rewrite Hevs. cbn [thread_event_of].
      rewrite decide_False by done. apply app_nil_r.
  - destruct H as [H Hdom]. cbn [step]. split.
    + apply thread_history_mark_full.
      apply (thread_history_ext since w evs); [|done].
      intros t. rewrite Hevs. apply app_nil_r.
    + destruct (ForEachThreadStream_fields MarkFull w) as (_ & Htls & _).
      intros t. rewrite Htls, Hevs. cbn [thread_event_of].
      rewrite app_nil_r. apply Hdom.
Qed.

Lemma span_history_run since ops : ∀ (w : World S) evs evs',
  span_history_is since w evs → Forall is_span_op ops → Forall op_wf ops →
  (∀ t, evs' t = evs t ++ (ops ≫= thread_event_of t)) →
  span_history_is since (run platform sink ops w) evs'.
Proof.
  induction ops as [|op ops IH]; intros w evs evs' H Hspan Hwf Hevs.
  - destruct H as [H Hdom]. split.
    + apply (thread_history_ext since w evs); [|done].
      intros t. rewrite Hevs. apply app_nil_r.
    + intros t Ht. rewrite Hevs, app_nil_r. by apply Hdom.
  - apply Forall_cons in Hspan as [Hspan1 Hspan].
    apply Forall_cons in Hwf as [Hwf1 Hwf].
    unfold run. cbn [foldl].
    apply (IH (step platform sink w op)
             (λ t, evs t ++ thread_event_of t op)); try done.
    + by apply (span_history_step since w evs).
    + intros t. rewrite Hevs, bind_cons. apply (assoc_L (++)).
Qed.

Lemma thread_history_read since (w : World S) evs tid :
  thread_history_is platform since w evs →
  is_Some (ThreadLocalPtr w !! tid) →
  ThreadHistory since tid w = Some (evs tid).
Proof.
  intros (d & _ & _ & _ & Hsome & _) [p Hp].
  destruct (Hsome tid p Hp)
    as (s & g & Hs & _ & _ & _ & dl & cl & Hdl & Hcl & ->).
  unfold ThreadHistory. rewrite Hp. cbn [mbind option_bind].
  cbn [kind_types] in *. rewrite Hs. cbn [mbind option_bind].
  rewrite (blocks_hold_events ThreadEvents _ dl Hdl). cbn [mbind option_bind].
  by rewrite (holds_BlockEvents ThreadEvents _ cl Hcl).
Qed.
End SpanRun.

Lemma numbered_guid_length n : String.length (numbered_guid n) = 4 + n.
Proof.
  induction n as [|n IH]; [done|].
  change (String.length (numbered_guid (Datatypes.S n)))
    with (Datatypes.S (String.length (numbered_guid n))).
  by rewrite IH.
Qed.

Lemma numbered_guids_unique : guids_unique numbered_platform.
Proof.
  intros i j Heq. apply (f_equal String.length) in Heq.
  cbn [numbered_platform AllocNewGuid_at] in Heq.
  rewrite !numbered_guid_length in Heq. lia.
Qed.

Lemma null_sink_keeps_blocks : sink_keeps_blocks null_sink.
Proof. by intros tid s st. Qed.

Lemma sample_span_ops_wf : Forall op_wf sample_span_ops.
Proof. repeat (apply Forall_cons; split); try done; repeat split; simpl; lia. Qed.

Lemma sample_span_ops_span : Forall is_span_op sample_span_ops.
Proof. by repeat (apply Forall_cons; split). Qed.

(** X8.  No span event is lost. After [Init] and any sequence of span
    emissions ([BeginScope], [EndScope]) and [ForEachThreadStream(MarkFull)]
    on any threads, a thread that has emitted nothing has no thread stream,
    and for a thread that has emitted, decoding the blocks of its stream
    handed to [OnProcessThreadBlock], in delivery order, and then the
    current block of the stream gives exactly the events the thread emitted,
    in emission order. The GUID allocator is assumed to return distinct ids,
    and [OnInitThreadStream] to leave the stream it is shown as it is. *)
Theorem no_span_event_lost {S} (platform : Platform) (sink : EventSink S)
    (processInfo : ProcessInfo)
    (logBufferSize metricBufferSize threadBufferSize : Z) (w0 : World S)
    (ops : list Op) (tid : nat) :
  guids_unique platform → sink_keeps_blocks sink →
  GDispatch w0 = None → ThreadLocalPtr w0 = ∅ →
  Forall is_span_op ops → Forall op_wf ops →
  let w := run platform sink ops
             (Init platform sink processInfo logBufferSize metricBufferSize
                threadBufferSize w0) in
  match ops ≫= thread_event_of tid with
  | [] => ThreadLocalPtr w !! tid = None
  | x :: xs => ThreadHistory (length (SinkCalls w0)) tid w = Some (x :: xs)
  end.
Proof.
  intros Hunique Hkeeps Hnone Htls Hspan Hwf w.
  destruct (Init_first platform sink processInfo logBufferSize
              metricBufferSize threadBufferSize w0 Hnone)
    as (Hd & Hcalls & _ & _ & Htls' & _).
  assert (H0 : span_history_is platform (length (SinkCalls w0))
                 (Init platform sink processInfo logBufferSize
                    metricBufferSize threadBufferSize w0) (λ _, [])).
  { split.
    - eexists. split; [exact Hd|].
      rewrite Hcalls, Htls', Htls, length_app, drop_app_length.
      split; [lia|]. split; [done|].
      split; [by intros ? ? ?%lookup_empty_Some|].
      split; [by intros ? ? ? ?%lookup_empty_Some|].
      split; [by intros ? ? ? ? ? ? ?%lookup_empty_Some|]. constructor.
    - rewrite Htls', Htls. intros t [p Hp]. by apply lookup_empty_Some in Hp. }
  apply (span_history_run platform sink Hunique Hkeeps _ ops _ _
           (λ t, ops ≫= thread_event_of t)) in H0; [|done..].
  fold w in H0. destruct H0 as [H Hdom].
  destruct (ThreadLocalPtr w !! tid) as [p|] eqn:Hp.
  - pose proof (thread_history_read platform _ w _ tid H) as Hread.
    rewrite Hp in Hread. specialize (Hread (mk_is_Some _ _ eq_refl)).
    specialize (Hdom tid). rewrite Hp in Hdom.
    specialize (Hdom (mk_is_Some _ _ eq_refl)).
    by destruct (ops ≫= thread_event_of tid).
  - destruct H as (d & _ & _ & Hnone' & _). by rewrite (Hnone' tid Hp).
Qed.

Lemma no_span_event_lost_witness :
  ThreadHistory 0 1 sample_span_run
  = Some [Here (T := BeginThreadSpanEvent_t) sample_span_event;
          Next (Here (T := EndThreadSpanEvent_t)
                  {| EndThreadSpanEvent.Desc := 12288;
                     EndThreadSpanEvent.Timestamp := 160 |})]
  ∧ length (thread_blocks (SinkCalls sample_span_run)) = 4.
Proof.
  pose proof (no_span_event_lost numbered_platform null_sink
                sample_process_info 4096 4096 33 (fresh_world tt)
                sample_span_ops 1 numbered_guids_unique
                null_sink_keeps_blocks eq_refl eq_refl sample_span_ops_span
                sample_span_ops_wf) as H.
  change (length (SinkCalls (fresh_world tt))) with 0 in H.
  split; [exact H|]. vm_compute. reflexivity.
Defined.

(* ===================================================================== *)
(** * The payload of a block request                                      *)
(* ===================================================================== *)

Lemma length_Serializer_DynamicString_Write s buffer :
  length buffer ≤ length (Serializer_DynamicString.Write s buffer).
Proof.
  unfold Serializer_DynamicString.Write, WritePOD. rewrite !length_app. lia.
Qed.

Lemma length_Serializer_StaticStringDependency_Write mem dep buffer :
  length buffer ≤ length (Serializer_StaticStringDependency.Write mem dep buffer).
Proof.
  unfold Serializer_StaticStringDependency.Write.
  repeat case_match;
    (etrans; [|apply length_Serializer_DynamicString_Write]);
    unfold WritePOD; rewrite length_app; lia.
Qed.

Lemma dep_WriteValue_grows k mem (x : OneOf (dep_types k mem)) buffer :
  length buffer ≤ length (WriteValue x buffer).
Proof.
  unfold dep_types in x. oneof_cases x.
  - cbn [WriteValue ser StaticStringDependency_t IsSizeStatic negb Write
         Serializer_StaticStringDependency.serializer].
    etrans; [|apply length_Serializer_StaticStringDependency_Write].
    unfold WritePOD. rewrite length_app. lia.
  - destruct k; cbn; unfold WritePOD; rewrite length_app; lia.
Qed.

Lemma dep_Push_grows k mem (x : OneOf (dep_types k mem)) q :
  length (Buffer q) < length (Buffer (Push x q)).
Proof.
  unfold Push. cbn [Buffer].
  eapply Nat.lt_le_trans; [|apply dep_WriteValue_grows].
  rewrite length_app. simpl. lia.
Qed.

Lemma dep_PushAll_grows k mem (xs : list (OneOf (dep_types k mem))) q :
  length (Buffer q) + length xs ≤ length (Buffer (PushAll xs q)).
Proof.
  revert q. induction xs as [|x xs IH]; intros q; [simpl; lia|].
  unfold PushAll in *. cbn [foldl length].
  specialize (IH (Push x q)). pose proof (dep_Push_grows k mem x q). lia.
Qed.

Section PureGrowth.
Variable strings_of : Z → list StaticStringRef.

Lemma pure_string_grows str st :
  length st.2 ≤ length (pure_string str st).2.
Proof.
  unfold pure_string. case_decide; [done|]. cbn [snd].
  rewrite length_app. lia.
Qed.

Lemma fold_strings_grows strs : ∀ st,
  length st.2 ≤ length (foldl (λ st str, pure_string str st) st strs).2.
Proof.
  induction strs as [|str strs IH]; intros st; [done|]. cbn [foldl].
  etrans; [apply (pure_string_grows str)|apply IH].
Qed.

Lemma pure_reference_grows ref st :
  length st.2 ≤ length (pure_reference strings_of ref st).2.
Proof.
  destruct ref as [desc|str]; cbn [pure_reference];
    [|apply pure_string_grows].
  unfold pure_metadata. case_decide; [done|]. cbn [snd].
  rewrite length_app.
  pose proof (fold_strings_grows (strings_of desc) ({[desc]} ∪ st.1, st.2)).
  cbn [snd] in *. lia.
Qed.

Lemma pure_fold_grows refs : ∀ st,
  length st.2
  ≤ length (foldl (λ st ref, pure_reference strings_of ref st) st refs).2.
Proof.
  induction refs as [|ref refs IH]; intros st; [done|]. cbn [foldl].
  etrans; [apply (pure_reference_grows ref)|apply IH].
Qed.

(** The first reference an extractor is shown is always new. *)
Lemma pure_reference_first ref :
  0 < length (pure_reference strings_of ref (∅, [])).2.
Proof.
  destruct ref as [desc|str]; cbn [pure_reference].
  - unfold pure_metadata. rewrite decide_False by set_solver. cbn [fst snd].
    rewrite length_app. simpl. lia.
  - unfold pure_string. rewrite decide_False by set_solver. cbn [fst snd].
    simpl. lia.
Qed.
End PureGrowth.

(** X9.  The payload of a block request. For a closed block that holds at
    least one event, when the JSON serializer succeeds:
    [ExtractBlockDependencies] succeeds and finds at least one dependency
    (so [GetPtr] is defined on both queues), nothing is logged, and the
    array [FormatBlockRequest] returns is the JSON text of the block
    information as a wide [DynamicString], then the length of the
    LZ4-compressed dependency queue as a [uint32] and those bytes, then the
    length of the LZ4-compressed event queue as a [uint32] and those bytes.
    The field [nb_objects] of the block information is the number of events
    of the block modulo [2^64]. *)
Theorem FormatBlockRequest_payload (host : FormatHost) (k : QueueKind)
    (mem : Memory) (blockId : string) (block : EventBlock (kind_types k))
    (xs : list (OneOf (kind_types k))) (jsonText : string) :
  holds block xs → xs ≠ [] →
  DualTime.Timestamp (End_ block) ≠ 0%Z →
  FJsonSerializer_Serialize host (MakeBlockInfo host blockId block (End_ block))
  = Some jsonText →
  ∃ ex,
    ExtractBlockDependencies k mem block = Some ex
    ∧ 0 < GetSizeBytes (Dependencies ex)
    ∧ length xs ≤ GetSizeBytes (Events block)
    ∧ GetNbEvents (Events block) = (Z.of_nat (length xs) mod uint64_max)%Z
    ∧ let compressedDep := LZ4F_compressFrame host (Buffer (Dependencies ex)) in
      let compressedObj := LZ4F_compressFrame host (Buffer (Events block)) in
      FormatBlockRequest host (ExtractBlockDependencies k mem) blockId block
      = ([],
         Some (Serializer_DynamicString.Write
                 (DynamicString_of_TCHAR jsonText) []
               ++ le_bytes 4 (Z.of_nat (length compressedDep) mod uint32_max)
               ++ compressedDep
               ++ le_bytes 4 (Z.of_nat (length compressedObj) mod uint32_max)
               ++ compressedObj)).
Proof.
  intros [Hwf Hev] Hne Hend Hjson.
  assert (Hrep0 : represents k mem (∅, []) NewExtractor) by done.
  destruct (visit_all_represents k mem xs _ _ Hrep0) as (ex & Hvisit & Hrep).
  assert (Hex : ExtractBlockDependencies k mem block = Some ex).
  { rewrite ExtractBlockDependencies_visit, Hev.
    rewrite (ForEach_PushAll _ (kind_wfs k));
      [exact Hvisit | apply kind_lawful | exact Hwf | apply kind_types_small]. }
  assert (Hdeps : 0 < GetSizeBytes (Dependencies ex)).
  { destruct Hrep as [_ Hdeps]. rewrite Hdeps. unfold GetSizeBytes.
    eapply Nat.lt_le_trans; [|apply dep_PushAll_grows].
    rewrite length_fmap. destruct xs as [|x xs]; [done|].
    rewrite fmap_cons. cbn [foldl].
    eapply Nat.lt_le_trans; [|apply pure_fold_grows].
    pose proof (pure_reference_first (metadata_strings k mem)
                  (event_reference k x)). lia. }
  assert (Hobjs : length xs ≤ GetSizeBytes (Events block)).
  { rewrite Hev. unfold GetSizeBytes.
    rewrite (Buffer_PushAll xs (kind_readers k) (kind_wfs k))
      by apply kind_lawful.
    cbn [NewQueue Buffer app]. clear. induction xs as [|x xs IH]; [done|].
    cbn [map concat]. rewrite length_app. unfold record_bytes at 1.
    cbn [length]. lia. }
  exists ex. split; [exact Hex|]. split; [exact Hdeps|]. split; [exact Hobjs|].
  split.
  { unfold GetNbEvents. rewrite Hev.
    destruct (NbEvents_PushAll xs (NewQueue (TS := kind_types k) 0))
      as [-> | ->]; done. }
  cbn zeta. unfold FormatBlockRequest. rewrite Hex.
  unfold GetEndTime. rewrite decide_True by done. rewrite Hjson.
  rewrite (GetPtr_nonempty (Dependencies ex)) by done.
  assert (Hobj0 : 0 < GetSizeBytes (Events block))
    by (destruct xs; [done | simpl in Hobjs; lia]).
  rewrite (GetPtr_nonempty (Events block)) by done.
  cbn [mbind option_bind]. unfold CompressBuffer, GetSizeBytes, WritePOD.
  rewrite !firstn_all. cbn [to_bytes uint32_pod uint_pod].
  f_equal. f_equal.
  set (cd := LZ4F_compressFrame host (Buffer (Dependencies ex))).
  set (co := LZ4F_compressFrame host (Buffer (Events block))).
  assert (Hcd : (if decide (0 < length cd)
                 then (Serializer_DynamicString.Write
                         (DynamicString_of_TCHAR jsonText) []
                       ++ le_bytes 4 (Z.of_nat (length cd) mod uint32_max))
                      ++ cd
                 else Serializer_DynamicString.Write
                        (DynamicString_of_TCHAR jsonText) []
                      ++ le_bytes 4 (Z.of_nat (length cd) mod uint32_max))
                = (Serializer_DynamicString.Write
                     (DynamicString_of_TCHAR jsonText) []
                   ++ le_bytes 4 (Z.of_nat (length cd) mod uint32_max))
                  ++ cd).
  { destruct (decide (0 < length cd)); [done|].
    destruct cd; [by rewrite app_nil_r | simpl in *; lia]. }
  rewrite Hcd. clear Hcd.
  destruct (decide (0 < length co)).
  - by rewrite <- !(assoc_L (++)).
  - destruct co; [|simpl in *; lia]. by rewrite <- !(assoc_L (++)).
Qed.

Lemma FormatBlockRequest_payload_witness :
  ∃ payload,
    FormatBlockRequest sample_format_host
      (ExtractBlockDependencies LogEvents sample_memory) "block"
      sample_log_block
    = ([], Some payload)
    ∧ take 9 payload = [x01; x04; x00; x00; x00; x7b; x00; x7d; x00].
Proof.
  destruct (FormatBlockRequest_payload sample_format_host LogEvents
              sample_memory "block" sample_log_block sample_log_events "{}"
              (conj sample_log_events_wf eq_refl))
    as (ex & _ & _ & _ & _ & Hfmt); [discriminate..|reflexivity|].
  eexists. split; [exact Hfmt | reflexivity].
Defined.

(* ===================================================================== *)
(** * The type descriptions of a stream                                   *)
(* ===================================================================== *)

Lemma length_AppendQueueMetadata TS (md : Metadatas TS) array :
  length (AppendQueueMetadata TS md array) = length array + length TS.
Proof.
  revert array. induction TS as [|HEAD REST IH]; intros array; simpl; [lia|].
  rewrite IH, length_app. simpl. lia.
Qed.

Ltac describe_static :=
  eexists; split; [reflexivity|]; split; [reflexivity|];
  repeat (apply Forall2_cons; split;
          [split; [done|]; split; [done|]; split; [done|]; reflexivity|]);
  apply Forall2_nil_2.

(** X10.  The type descriptions sent with a stream describe the records of
    its blocks. For the event queue and for the dependency queue of each of
    the three stream types, [MakeQueueMetadata] has one description per type
    of the queue, and the description at the index that [Push] writes as the
    tag of a record is the one of the type of the record: for a type written
    as its object representation, the declared size is the length of the
    payload and every declared member lies inside the payload, at the offset
    where the payload holds the value of that member; the types that have a
    serializer of their own ([LogStringInteropEvent],
    [StaticStringDependency]) are declared with size 0 and no members. *)
Theorem queue_metadata_describes_records (k : QueueKind) (mem : Memory) :
  length (MakeQueueMetadata (kind_types k) (kind_metadatas k))
  = length (kind_types k)
  ∧ length (MakeQueueMetadata (dep_types k mem) (dep_metadatas k mem))
    = length (dep_types k mem)
  ∧ (∀ x : OneOf (kind_types k),
       described (MakeQueueMetadata (kind_types k) (kind_metadatas k))
         (kind_members k) x)
  ∧ (∀ x : OneOf (dep_types k mem),
       described (MakeQueueMetadata (dep_types k mem) (dep_metadatas k mem))
         (dep_members k mem) x).
Proof.
  split; [apply length_AppendQueueMetadata|].
  split; [apply length_AppendQueueMetadata|]. split.
  - intros x. destruct k; simpl in x; oneof_cases x; unfold described.
    + describe_static.
    + eexists. split; [reflexivity|]. done.
    + describe_static.
    + describe_static.
    + describe_static.
    + describe_static.
    + describe_static.
  - intros x. unfold dep_types in x. oneof_cases x; unfold described.
    + eexists. split; [reflexivity|]. done.
    + destruct k; describe_static.
Qed.

(* ===================================================================== *)
(** * The times of the blocks of the thread streams                       *)
(* ===================================================================== *)

Lemma stamped_within_weaken lo hi hi' xs :
  (hi ≤ hi')%Z → stamped_within lo hi xs → stamped_within lo hi' xs.
Proof.
  intros Hle [Hup Hlo]. split; [|done].
  eapply Forall_impl; [exact Hup|]. intros x Hx ts Hts.
  specialize (Hx ts Hts). lia.
Qed.

Lemma stamped_within_nil lo hi : stamped_within lo hi [].
Proof. split; constructor. Qed.

Lemma stamped_within_snoc lo hi xs x ts :
  stamped_within lo hi xs → event_timestamp ThreadEvents x = Some ts →
  (ts ≤ hi)%Z → (xs = [] ∨ lo ≤ ts)%Z →
  stamped_within lo hi (xs ++ [x]).
Proof.
  intros [Hup Hlo] Hts Hhi Hfirst. split.
  - apply Forall_app. split; [done|]. apply Forall_singleton.
    intros ts' Hts'. assert (ts' = ts) as -> by congruence. done.
  - destruct xs as [|y ys]; [constructor|]. cbn [app tail] in *.
    apply Forall_app. split; [done|]. apply Forall_singleton.
    intros ts' Hts'. assert (ts' = ts) as -> by congruence.
    by destruct Hfirst.
Qed.

Section ThreadTimes.
Context {S : Type}.
Variable platform : Platform.
Variable sink : EventSink S.
Hypothesis Hsteady : steady_clock platform.
Hypothesis Hmeta : span_metadata_ok platform.
Hypothesis Hkeeps : sink_keeps_blocks sink.

Lemma thread_times_clock since (w : World S) n :
  ClockReads w ≤ n → thread_times_ok platform since w →
  thread_times_ok platform since
    (MkWorld (GDispatch w) (ThreadStreamHeap w) (ThreadLocalPtr w)
       (SinkState w) (SinkCalls w) n (GuidsAllocated w)).
Proof.
  intros Hle (Hsince & Hdel & Hcur).
  pose proof (proj1 Hsteady _ _ Hle) as Hmono.
  split; [done|]. split; [done|]. cbn [ThreadStreamHeap ClockReads].
  intros p s Hs. destruct (Hcur p s Hs) as (Hbegin & xs & Hxs & Hts).
  split; [lia|]. exists xs. split; [done|].
  by eapply stamped_within_weaken.
Qed.

Lemma thread_times_dispatch since (w : World S) d :
  thread_times_ok platform since w →
  thread_times_ok platform since (set_GDispatch d w).
Proof. done. Qed.

Lemma thread_times_call since (w : World S) c f :
  thread_blocks [c] = [] → thread_times_ok platform since w →
  thread_times_ok platform since (call_sink c f w).
Proof.
  intros Hc (Hsince & Hdel & Hcur). unfold call_sink.
  split; cbn [SinkCalls ThreadStreamHeap ClockReads].
  - rewrite length_app. lia.
  - rewrite drop_app_le, thread_blocks_app, Hc, app_nil_r by done. done.
Qed.

Lemma thread_times_alloc since (w : World S) tid d :
  ThreadLocalPtr w !! tid = None → GDispatch w = Some d →
  thread_times_ok platform since w →
  thread_times_ok platform since
    (GetCurrentThreadStream platform sink tid w).2.
Proof.
  intros Htls Hd (Hsince & Hdel & Hcur).
  rewrite (GetCurrentThreadStream_alloc platform sink tid w d Htls Hd).
  cbn [snd].
  set (s0 := new_thread_stream platform d w).
  destruct (Hkeeps tid s0 (SinkState w)) as [Hblock _].
  pose proof (proj1 Hsteady (ClockReads w) (1 + ClockReads w) ltac:(lia))
    as Hmono.
  split; cbn [SinkCalls ThreadStreamHeap ClockReads].
  { rewrite length_app. lia. }
  split.
  { rewrite drop_app_le, thread_blocks_app by done. by rewrite app_nil_r. }
  intros p s Hs. apply lookup_app_Some in Hs as [Hs|[_ Hs]].
  - destruct (Hcur p s Hs) as (Hbegin & xs & Hxs & Hts).
    split; [lia|]. exists xs. split; [done|].
    by eapply stamped_within_weaken.
  - apply list_lookup_singleton_Some in Hs as [_ <-].
    rewrite Hblock. subst s0.
    cbn [new_thread_stream NewStream CurrentBlock NewEventBlock Begin reading
         DualTime.Timestamp].
    split; [lia|]. exists [].
    split; [apply holds_new | apply stamped_within_nil].
Qed.

Lemma stamped_event_alloc (w : World S) tid d x :
  ThreadLocalPtr w !! tid = None → GDispatch w = Some d →
  stamped_event platform w x →
  stamped_event platform (GetCurrentThreadStream platform sink tid w).2 x.
Proof.
  intros Htls Hd (Hwf & m & Hts & Hm & Hheap).
  rewrite (GetCurrentThreadStream_alloc platform sink tid w d Htls Hd).
  cbn [snd].
  set (s0 := new_thread_stream platform d w).
  destruct (Hkeeps tid s0 (SinkState w)) as [Hblock _].
  split; [done|]. exists m. split; [done|].
  cbn [ClockReads ThreadStreamHeap]. split; [lia|].
  intros p s Hs. apply lookup_app_Some in Hs as [Hs|[_ Hs]].
  - by apply (Hheap p s).
  - apply list_lookup_singleton_Some in Hs as [_ <-].
    right. rewrite Hblock. apply holds_new.
Qed.

Lemma thread_times_push since (w : World S) p s x :
  ThreadStreamHeap w !! p = Some s → stamped_event platform w x →
  thread_times_ok platform since w →
  thread_times_ok platform since
    (set_ThreadStreamHeap (<[p := StreamPush x s]> (ThreadStreamHeap w)) w).
Proof.
  intros Hs (Hwf & m & Hts & Hm & Hheap) (Hsince & Hdel & Hcur).
  split; [done|]. split; [done|].
  cbn [set_ThreadStreamHeap ThreadStreamHeap ClockReads].
  intros q s' Hs'. destruct (decide (q = p)) as [->|Hne].
  - rewrite list_lookup_insert_eq in Hs' by (by eapply lookup_lt_Some).
    injection Hs' as <-. cbn [StreamPush CurrentBlock BlockPush Begin].
    destruct (Hcur p s Hs) as (Hbegin & xs & Hxs & Hstamped).
    split; [done|]. exists (xs ++ [x]).
    split; [by apply (holds_push ThreadEvents)|].
    apply (stamped_within_snoc _ _ xs x _ Hstamped Hts).
    + apply (proj1 Hsteady). lia.
    + destruct (Hheap p s Hs) as [Hle|Hempty]; [by right|].
      left. exact (holds_inj ThreadEvents _ _ _ Hxs Hempty).
  - rewrite list_lookup_insert_ne in Hs' by done. by apply (Hcur q s').
Qed.

Lemma thread_times_flush since (w : World S) d p :
  thread_times_ok platform since w →
  thread_times_ok platform since (FlushThreadStream platform sink d p w).
Proof.
  intros H. unfold FlushThreadStream, Now. cbn [ThreadStreamHeap].
  destruct (ThreadStreamHeap w !! p) as [s|] eqn:Hs;
    [|apply thread_times_clock; [lia | done]].
  cbn [SwapBlocks]. destruct H as (Hsince & Hdel & Hcur).
  destruct (Hcur p s Hs) as (Hbegin & xs & Hxs & Hstamped).
  pose proof (proj1 Hsteady (ClockReads w) (1 + ClockReads w) ltac:(lia))
    as Hmono.
  unfold call_sink.
  split; cbn [SinkCalls ThreadStreamHeap ClockReads set_ThreadStreamHeap].
  { rewrite length_app. lia. }
  split.
  { rewrite drop_app_le, thread_blocks_app by done.
    apply Forall_app. split; [done|]. apply Forall_singleton.
    exists xs. split; [by apply holds_Close | done]. }
  intros q s' Hs'. destruct (decide (q = p)) as [->|Hne].
  - rewrite list_lookup_insert_eq in Hs' by (by eapply lookup_lt_Some).
    injection Hs' as <-.
    cbn [CurrentBlock NewEventBlock Begin reading DualTime.Timestamp].
    split; [lia|]. exists [].
    split; [apply holds_new | apply stamped_within_nil].
  - rewrite list_lookup_insert_ne in Hs' by done.
    destruct (Hcur q s' Hs') as (Hbegin' & xs' & Hxs' & Hstamped').
    split; [lia|]. exists xs'. split; [done|].
    by eapply stamped_within_weaken.
Qed.

Lemma thread_times_mark_full since (w : World S) :
  thread_times_ok platform since w →
  thread_times_ok platform since (ForEachThreadStream MarkFull w).
Proof.
  intros (Hsince & Hdel & Hcur).
  destruct (ForEachThreadStream_fields MarkFull w)
    as (H1 & _ & _ & H4 & H5 & _).
  split; [by rewrite H4|]. split; [by rewrite H4|]. rewrite H5.
  destruct (GDispatch w) as [d|] eqn:Hd.
  - intros p s'.
    rewrite (ForEachThreadStream_lookup MarkFull w d) by done.
    destruct (decide (p ∈ ThreadStreams d)); [|by apply (Hcur p s')].
    destruct (ThreadStreamHeap w !! p) as [s|] eqn:Hs; [|done].
    intros [= <-]. by apply (Hcur p s).
  - unfold ForEachThreadStream. by rewrite Hd.
Qed.

Lemma stamped_event_reading (w : World S) desc :
  in_uint 64 desc → thread_times_ok platform 0 w
  ∨ (∃ since, thread_times_ok platform since w) →
  stamped_event platform (Cycles64 platform w).2
    (Here (T := BeginThreadSpanEvent_t)
       {| BeginThreadSpanEvent.Desc := desc;
          BeginThreadSpanEvent.Timestamp :=
            Cycles64_at platform (ClockReads w) |})
  ∧ stamped_event platform (Cycles64 platform w).2
      (Next (Here (T := EndThreadSpanEvent_t)
               {| EndThreadSpanEvent.Desc := desc;
                  EndThreadSpanEvent.Timestamp :=
                    Cycles64_at platform (ClockReads w) |})).
Proof.
  intros Hdesc H.
  assert (Hcur : ∀ p (s : ThreadStream), ThreadStreamHeap w !! p = Some s →
            (DualTime.Timestamp (Begin (CurrentBlock s))
             ≤ Cycles64_at platform (ClockReads w))%Z).
  { destruct H as [(_ & _ & Hcur)|(since & _ & _ & Hcur)];
      intros p s Hs; by destruct (Hcur p s Hs). }
  pose proof (proj2 Hsteady (ClockReads w)) as Hrange.
  split; (split; [by split|]); exists (ClockReads w);
    (split; [done|]); cbn [Cycles64 snd ClockReads ThreadStreamHeap];
    (split; [lia|]); intros p s Hs; left; by apply (Hcur p s).
Qed.

Lemma thread_times_emit_all since es (w : World S) :
  Forall emission_wf es → thread_times_ok platform since w →
  thread_times_ok platform since (emit_all platform sink es w).
Proof.
  destruct Hmeta as [Hlog Hmetric].
  apply (thread_rule_emit_all platform sink (thread_times_ok platform since)
           (stamped_event platform) (in_uint 64)); try done.
  - intros w1 H. apply thread_times_clock; [simpl; lia | done].
  - intros w1 tid d Htls Hd. by apply (thread_times_alloc since w1 tid d).
  - intros w1 tid d x Htls Hd _. by apply (stamped_event_alloc w1 tid d).
  - intros w1 tid p s x _ Hs Hx. by apply thread_times_push.
  - intros w1 tid p s d _ _ _ _. apply thread_times_flush.
  - intros w1 b. by apply thread_times_call.
  - intros w1 b. by apply thread_times_call.
  - intros w1. apply thread_times_mark_full.
  - intros w1 desc Hdesc H. apply stamped_event_reading; [done|].
    right. by exists since.
Qed.
End ThreadTimes.

Lemma sample_span_metadata_ok : span_metadata_ok sample_platform.
Proof. split; split; vm_compute; (reflexivity || discriminate). Qed.

Lemma sample_span_emissions_wf : Forall emission_wf sample_span_emissions.
Proof.
  unfold sample_span_emissions.
  repeat (apply Forall_cons; split); try apply Forall_nil;
    cbn [emission_wf]; unfold in_uint; simpl; lia.
Qed.



(* ===================================================================== *)
(** * The order of the events of the log and metric streams               *)
(* ===================================================================== *)

Lemma in_time_order_nil k : in_time_order k [].
Proof. intros i j x y ti tj _ Hx. by rewrite lookup_nil in Hx. Qed.

Lemma in_time_order_snoc k xs x hi :
  in_time_order k xs → stamped_before k hi xs →
  (∀ ts, event_timestamp k x = Some ts → (hi ≤ ts)%Z) →
  in_time_order k (xs ++ [x]).
Proof.
  intros Hord Hbefore Hx i j y z ti tj Hij Hy Hz Hti Htj.
  apply lookup_app_Some in Hz as [Hz|[Hlen Hz]].
  - apply lookup_app_Some in Hy as [Hy|[Hlen' _]].
    + by eapply (Hord i j).
    + apply lookup_lt_Some in Hz. lia.
  - apply list_lookup_singleton_Some in Hz as [_ <-].
    apply lookup_app_Some in Hy as [Hy|[_ Hy]].
    + unfold stamped_before in Hbefore. rewrite Forall_forall in Hbefore.
      apply list_elem_of_lookup_2 in Hy.
      specialize (Hbefore y Hy ti Hti). specialize (Hx tj Htj). lia.
    + apply list_lookup_singleton_Some in Hy as [_ <-].
      assert (ti = tj) by congruence. lia.
Qed.

Lemma stamped_before_weaken k hi hi' xs :
  (hi ≤ hi')%Z → stamped_before k hi xs → stamped_before k hi' xs.
Proof.
  intros Hle H. eapply Forall_impl; [exact H|]. intros x Hx ts Hts.
  specialize (Hx ts Hts). lia.
Qed.

Section Order.
Context {S : Type}.
Variable platform : Platform.
Variable sink : EventSink S.
Hypothesis Hsteady : steady_clock platform.

Lemma step_clock op (w : World S) n :
  op_wf op → n ≤ ClockReads w → n ≤ ClockReads (step platform sink w op).
Proof.
  apply (rule_step platform sink (λ w, n ≤ ClockReads w)).
  - intros w1 w2 [_ _ Hclock] H. lia.
  - intros w1 d x _ _ H _. exact H.
  - intros w1 d x m w2 _ _ H [_ _ [Hlo Hhi]]. cbn in Hlo. lia.
  - intros w1 d m w2 _ H [_ _ [Hlo Hhi]]. lia.
  - intros w1 d x _ _ H _. exact H.
  - intros w1 d x m w2 _ _ H [_ _ [Hlo Hhi]]. cbn in Hlo. lia.
  - intros w1 d m w2 _ H [_ _ [Hlo Hhi]]. lia.
Qed.

Lemma emit_stamp e (w : World S) :
  emit platform sink w e
  = step platform sink
      (if reads_counter e then (Cycles64 platform w).2 else w)
      (stamp (Cycles64_at platform (ClockReads w)) e).
Proof. by destruct e. Qed.

Lemma stamp_wf e n :
  emission_wf e → op_wf (stamp (Cycles64_at platform n) e).
Proof.
  intros He. pose proof (proj2 Hsteady n) as Hrange.
  destruct e as [tid desc|tid V verbosity category|tid desc expr
                |tid desc expr|tid desc|tid desc|tid|tid|];
    cbn [stamp op_wf emission_wf] in *.
  - by split.
  - destruct He as [Hcat Hmsg]. split; [done|]. split; [|done].
    split; [done|]. cbn. unfold in_uint. lia.
  - destruct He. split; [done|]. by split.
  - destruct He. split; [done|]. by split.
  - by split.
  - by split.
  - done.
  - done.
  - done.
Qed.

Lemma stamp_timestamps ts e :
  (∀ x t, x ∈ log_event_of (stamp ts e) →
          event_timestamp LogEvents x = Some t → t = ts)
  ∧ (∀ x t, x ∈ metric_event_of (stamp ts e) →
            event_timestamp MetricEvents x = Some t → t = ts).
Proof.
  destruct e; cbn [stamp log_event_of metric_event_of]; split; intros x t Hx;
    try (by apply elem_of_nil in Hx);
    apply list_elem_of_singleton in Hx as ->; by intros [= <-].
Qed.

Lemma ordered_history_grow k hi hi' (xs ys : list (OneOf (kind_types k))) :
  (hi ≤ hi')%Z → in_time_order k xs → stamped_before k hi xs →
  length ys ≤ 1 →
  (∀ y t, y ∈ ys → event_timestamp k y = Some t → t = hi) →
  in_time_order k (xs ++ ys) ∧ stamped_before k hi' (xs ++ ys).
Proof.
  intros Hle Hord Hbefore Hlen Hys. destruct ys as [|y [|? ?]];
    [| |simpl in Hlen; lia].
  - rewrite app_nil_r. split; [done|]. by eapply stamped_before_weaken.
  - split.
    + apply (in_time_order_snoc k xs y hi); [done..|].
      intros t Ht. rewrite (Hys y t) by (done || by left). done.
    + apply Forall_app. split; [by eapply stamped_before_weaken|].
      apply Forall_singleton. intros t Ht.
      rewrite (Hys y t) by (done || by left). done.
Qed.

Lemma ordered_history_emit since e (w : World S) l m :
  emission_wf e → ordered_history platform since w l m →
  let op := stamp (Cycles64_at platform (ClockReads w)) e in
  ordered_history platform since (emit platform sink w e)
    (l ++ log_event_of op) (m ++ metric_event_of op).
Proof.
  intros He (H & Hol & Hom & Hbl & Hbm) op.
  pose proof (stamp_wf e (ClockReads w) He) as Hop. fold op in Hop.
  rewrite emit_stamp. fold op.
  set (w1 := if reads_counter e then (Cycles64 platform w).2 else w).
  assert (Hclock1 : ClockReads w ≤ ClockReads w1)
    by (subst w1; destruct (reads_counter e); simpl; lia).
  assert (H1 : history_is since w1 l m).
  { subst w1. destruct (reads_counter e); [|done].
    eapply history_frame; [apply (Cycles64_frame platform)|done]. }
  pose proof (step_clock op w1 (ClockReads w) Hop Hclock1) as Hclock.
  pose proof (proj1 Hsteady _ _ Hclock) as Hmono.
  destruct (stamp_timestamps (Cycles64_at platform (ClockReads w)) e)
    as [Hlts Hmts]. fold op in Hlts, Hmts.
  destruct (ordered_history_grow LogEvents _ _ l (log_event_of op)
              Hmono Hol Hbl) as [Hol' Hbl'];
    [subst op; destruct e; simpl; lia|done|].
  destruct (ordered_history_grow MetricEvents _ _ m (metric_event_of op)
              Hmono Hom Hbm) as [Hom' Hbm'];
    [subst op; destruct e; simpl; lia|done|].
  split; [by apply history_step|]. done.
Qed.

Lemma ordered_history_emit_all since es : ∀ (w : World S) l m,
  Forall emission_wf es → ordered_history platform since w l m →
  ∃ ns, length ns = length es
        ∧ ordered_history platform since (emit_all platform sink es w)
            (l ++ stamped_calls platform ns es ≫= log_event_of)
            (m ++ stamped_calls platform ns es ≫= metric_event_of).
Proof.
  induction es as [|e es IH]; intros w l m Hes H.
  - exists []. split; [done|]. cbn. by rewrite !app_nil_r.
  - apply Forall_cons in Hes as [He Hes].
    destruct (IH _ _ _ Hes (ordered_history_emit since e w l m He H))
      as (ns & Hlen & Hns).
    exists (ClockReads w :: ns). split; [simpl; lia|].
    unfold stamped_calls in *. cbn [zip_with]. rewrite !bind_cons.
    unfold emit_all in *. cbn [foldl]. by rewrite !(assoc_L (++)).
Qed.
End Order.

(** X12.  The events of a stream are in time order. From a state where the
    singleton is unset, after [Init] and any sequence of emissions made one
    at a time, each of which stamps its event with a reading of a cycle
    counter that never goes back (the macros of Macros.h and the log bridge
    do): the log events recorded since then (in the blocks handed to the
    sink, then in the current block) are exactly one event per log emission,
    in emission order, each stamped with a reading of the counter, and no
    event has a timestamp larger than that of a later event; the same for
    the metric events. *)
Theorem histories_in_time_order {S} (platform : Platform)
    (sink : EventSink S) (processInfo : ProcessInfo)
    (logBufferSize metricBufferSize threadBufferSize : Z) (w0 : World S)
    (es : list Emission) :
  GDispatch w0 = None → steady_clock platform → Forall emission_wf es →
  let since := length (SinkCalls w0) in
  let w := emit_all platform sink es
             (Init platform sink processInfo logBufferSize metricBufferSize
                threadBufferSize w0) in
  ∃ ns logs metrics,
    length ns = length es
    ∧ logs = stamped_calls platform ns es ≫= log_event_of
    ∧ metrics = stamped_calls platform ns es ≫= metric_event_of
    ∧ LogHistory since w = Some logs
    ∧ MetricHistory since w = Some metrics
    ∧ in_time_order LogEvents logs
    ∧ in_time_order MetricEvents metrics.
Proof.
  intros Hnone Hsteady Hes since w.
  assert (H0 : ordered_history platform since
                 (Init platform sink processInfo logBufferSize
                    metricBufferSize threadBufferSize w0) [] []).
  { split; [by apply history_Init|].
    split; [apply in_time_order_nil|]. split; [apply in_time_order_nil|].
    split; constructor. }
  destruct (ordered_history_emit_all platform sink Hsteady since es _ [] []
              Hes H0) as (ns & Hlen & H & Hol & Hom & _).
  cbn [app] in *. apply history_read in H as [Hlog Hmet].
  eexists ns, _, _. split; [exact Hlen|]. split; [reflexivity|].
  split; [reflexivity|]. done.
Qed.

Lemma histories_in_time_order_witness :
  ∃ logs metrics,
    LogHistory 0 emission_run = Some logs
    ∧ MetricHistory 0 emission_run = Some metrics
    ∧ in_time_order LogEvents logs ∧ in_time_order MetricEvents metrics
    ∧ length logs = 2 ∧ length metrics = 2.
Proof.
  destruct (histories_in_time_order sample_platform null_sink
              sample_process_info 129 33 4096 (fresh_world tt)
              sample_emissions eq_refl sample_platform_steady
              sample_emissions_wf)
    as (ns & logs & metrics & Hlen & Hl & Hm & Hlog & Hmet & Hol & Hom).
  change (length (SinkCalls (fresh_world tt))) with 0 in Hlog, Hmet.
  exists logs, metrics. split; [exact Hlog|]. split; [exact Hmet|].
  split; [exact Hol|]. split; [exact Hom|].
  subst logs metrics. clear Hlog Hmet Hol Hom.
  do 8 (destruct ns as [|? ns]; [discriminate Hlen|]).
  destruct ns; [|discriminate Hlen].
  split; reflexivity.
Defined.
